(** * SourceDetect: decoding, proximity clustering, grouping and identities

    A shallow embedding of [sourcedetect/sourcedetect.py] (class
    [SourceDetect]): the methods [detect], [close_detect], [unique_detect]
    and [group_and_id] with its local functions [find], [union], [group],
    [IDassign] and [get_num_detections].

    Conventions of the embedding:
    - a position [(row, col)] is a pair of integers;
    - Python lists are lists, dictionaries are [gmap]s, a dictionary whose
      iteration order matters is an association list in insertion order;
    - a Python exception is a value of [res]; the recursion of [find] and
      the [while] loops of [detect] take a fuel argument, and running out
      of it is the separate outcome [OutOfFuel];
    - the numbers read from the image and from the model output are exact
      rationals; module [Numpy] embeds [detect] once more on
      floating-point numbers, with rounding, infinities and NaN. *)

From Stdlib Require Import ZArith QArith Qround Qabs Qpower Lia List.
From stdpp Require Import gmap list sorting.

Set Default Proof Using "Type".
Local Open Scope Z_scope.

(** ** Positions and outcomes *)

Abbreviation coord := (Z * Z)%type.

Inductive exn : Type :=
  | IndexError
  | KeyError
  | ValueError
  | OverflowError
  | OutOfFuel.

Inductive res (A : Type) : Type :=
  | Ok (a : A)
  | Raise (e : exn).
Arguments Ok {A} a.
Arguments Raise {A} e.

Global Instance res_ret : MRet res := λ A a, Ok a.
Global Instance res_fmap : FMap res := λ A B f m,
  match m with
  | Ok a => Ok (f a)
  | Raise e => Raise e
  end.
Global Instance res_bind : MBind res := λ A B k m,
  match m with
  | Ok a => k a
  | Raise e => Raise e
  end.

(** Python compares tuples lexicographically. *)
Definition coord_le (p q : coord) : Prop :=
  p.1 < q.1 ∨ (p.1 = q.1 ∧ p.2 ≤ q.2).

Global Instance coord_le_dec p q : Decision (coord_le p q).
Proof. unfold coord_le. apply _. Defined.

(** [sorted(l)] on a list of positions. *)
Definition sorted (l : list coord) : list coord := merge_sort coord_le l.

(** [x in l] *)
Definition mem {A} `{EqDecision A} (x : A) (l : list A) : bool :=
  bool_decide (x ∈ l).

(** [enumerate(l)] *)
Definition enumerate {A} (l : list A) : list (nat * A) :=
  imap (fun i x => (i, x)) l.

(** A [for] loop whose body may raise. *)
Fixpoint foldl_res {A B} (f : A → B → res A) (a : A) (l : list B) : res A :=
  match l with
  | [] => Ok a
  | x :: l => a' ← f a x; foldl_res f a' l
  end.

(** [d[k]] on a dictionary: a missing key raises [KeyError]. *)
Definition getitem {K V} `{Countable K} (d : gmap K V) (k : K) : res V :=
  match d !! k with
  | Some v => Ok v
  | None => Raise KeyError
  end.

(** [d[k] = v] on a dictionary that keeps insertion order: the value of an
    existing key is replaced where it stands, a new key goes to the end. *)
Fixpoint assoc_set {K V} `{EqDecision K} (k : K) (v : V) (d : list (K * V))
  : list (K * V) :=
  match d with
  | [] => [(k, v)]
  | (k', v') :: d =>
      if decide (k = k') then (k, v) :: d else (k', v') :: assoc_set k v d
  end.

Fixpoint assoc_get {K V} `{EqDecision K} (k : K) (d : list (K * V))
  : option V :=
  match d with
  | [] => None
  | (k', v') :: d => if decide (k = k') then Some v' else assoc_get k d
  end.

(** ** [close_detect] *)

Module CloseDetect.

(** The test of line 148: both axis differences at most 4. *)
Definition is_close (p q : coord) : bool :=
  (Z.abs (p.1 - q.1) <=? 4) && (Z.abs (p.2 - q.2) <=? 4).

(** [l[i].append(x)] on a list of lists. *)
Definition append_at (co : list (list coord)) (i : nat) (x : coord)
  : list (list coord) :=
  match co !! i with
  | Some l => <[i := l ++ [x]]> co
  | None => co
  end.

(** Lines 146-149: the inner loop, for the detection [ip.2] of index
    [ip.1]. *)
Definition adjacency_row (frame : list coord) (co : list (list coord))
    (ip : nat * coord) : list (list coord) :=
  foldl (fun co jq =>
    if negb (ip.1 =? jq.1)%nat && is_close ip.2 jq.2
    then append_at co ip.1 jq.2 else co)
    co (enumerate frame).

(** Lines 143-149: the adjacency lists. *)
Definition adjacency (frame : list coord) : list (list coord) :=
  foldl (adjacency_row frame) (replicate (length frame) [])
    (enumerate frame).

(** Lines 156-158: every entry of [src] not yet in [dst] is appended. *)
Definition absorb (src dst : list coord) : list coord :=
  foldl (fun d c => if mem c d then d else d ++ [c]) dst src.

(** Lines 153-158 for one pair [(i, j)]. *)
Definition merge_step (p : coord) (i j : nat) (co : list (list coord))
  : list (list coord) :=
  if negb (i =? j)%nat then
    match co !! i, co !! j with
    | Some ci, Some cj =>
        if mem p cj then <[j := absorb ci cj]> co else co
    | _, _ => co
    end
  else co.

(** Lines 152-158: the single merge pass. *)
Definition merge_row (n : nat) (co : list (list coord)) (ip : nat * coord)
  : list (list coord) :=
  foldl (fun co j => merge_step ip.2 ip.1 j co) co (seq 0 n).

Definition merge_pass (frame : list coord) (co : list (list coord))
  : list (list coord) :=
  foldl (merge_row (length co)) co (enumerate frame).

(** Lines 160-162: sorted, non-empty, first occurrence only. *)
Definition dedup (co : list (list coord)) : list (list coord) :=
  foldl (fun acc l =>
    if (0 <? length l)%nat && negb (mem (sorted l) acc)
    then acc ++ [sorted l] else acc) [] co.

(** [_close_sources] of one frame. *)
Definition close_frame (frame : list coord) : list (list coord) :=
  dedup (merge_pass frame (adjacency frame)).

(** Lines 164-166. *)
Definition nonempty_groups (gs : list (list coord)) : list (list coord) :=
  filter (fun g => (0 < length g)%nat) gs.

(** The method: [(close_sources, close_sources_by_frame)]. *)
Definition close_detect (sources_by_frame : list (list coord))
  : list (list coord) * list (list (list coord)) :=
  foldl (fun '(cs, csf) frame =>
    let g := close_frame frame in
    (cs ++ nonempty_groups g, csf ++ [g]))
    ([], []) sources_by_frame.

End CloseDetect.

(** ** [group_and_id] *)

Module GroupId.

(** [find], lines 357-361, with path compression. *)
Fixpoint find (fuel : nat) (parent : gmap coord coord) (x : coord)
  : res (gmap coord coord * coord) :=
  match fuel with
  | O => Raise OutOfFuel
  | S fuel =>
      px ← getitem parent x;
      if bool_decide (px ≠ x) then
        '(parent, r) ← find fuel parent px;
        Ok (<[x := r]> parent, r)
      else Ok (parent, px)
  end.

(** [union], lines 363-374, by rank. *)
Definition union (fuel : nat) (parent : gmap coord coord)
    (rank : gmap coord Z) (x y : coord)
  : res (gmap coord coord * gmap coord Z) :=
  '(parent, rootX) ← find fuel parent x;
  '(parent, rootY) ← find fuel parent y;
  if bool_decide (rootX ≠ rootY) then
    rx ← getitem rank rootX;
    ry ← getitem rank rootY;
    if rx >? ry then Ok (<[rootY := rootX]> parent, rank)
    else if rx <? ry then Ok (<[rootX := rootY]> parent, rank)
    else Ok (<[rootY := rootX]> parent, <[rootX := rx + 1]> rank)
  else Ok (parent, rank).

(** Lines 394-397. *)
Definition register (pr : gmap coord coord * gmap coord Z) (c : coord)
  : gmap coord coord * gmap coord Z :=
  match pr.1 !! c with
  | Some _ => pr
  | None => (<[c := c]> pr.1, <[c := 0]> pr.2)
  end.

(** The pairs [(sublist[i], sublist[i+1])] for [i] in
    [range(len(sublist) - 1)]. *)
Definition consecutive (sublist : list coord) : list (coord * coord) :=
  zip sublist (tail sublist).

(** Lines 392-400 for one sublist. *)
Definition link_sublist (fuel : nat)
    (pr : gmap coord coord * gmap coord Z) (sublist : list coord)
  : res (gmap coord coord * gmap coord Z) :=
  foldl_res (fun pr xy => union fuel pr.1 pr.2 xy.1 xy.2)
    (foldl register pr sublist) (consecutive sublist).

(** Lines 403-408 for one sublist; [grouped] keeps insertion order. *)
Definition collect (fuel : nat)
    (st : gmap coord coord * list (coord * gset coord))
    (sublist : list coord)
  : res (gmap coord coord * list (coord * gset coord)) :=
  match sublist with
  | [] => Raise IndexError
  | c :: _ =>
      '(parent, root) ← find fuel st.1 c;
      let old := default ∅ (assoc_get root st.2) in
      Ok (parent, assoc_set root (old ∪ list_to_set sublist) st.2)
  end.

(** [group], lines 376-411.  [list(group)] enumerates a set in an order
    Python does not fix; [elements] stands for it. *)
Definition group (fuel : nat) (close_sources : list (list coord))
  : res (list (list coord)) :=
  pr ← foldl_res (link_sublist fuel) (∅, ∅) close_sources;
  st ← foldl_res (collect fuel) (pr.1, []) close_sources;
  Ok ((fun kv => elements kv.2) <$> (st.2 : list (coord * gset coord))).

(** [IDassign], lines 413-439. *)
Definition id_map (groups : list (list coord)) : list (list coord * Z) :=
  foldl (fun d '(idx, g) => assoc_set (sorted g) (Z.of_nat idx) d)
    [] (enumerate groups).

Definition position_to_id (groups : list (list coord)) : gmap coord Z :=
  foldl (fun d '(g, gid) => foldl (fun d c => <[c := gid]> d) d g)
    ∅ (id_map groups).

Definition IDassign (groups : list (list coord)) (positions : list coord)
  : gmap coord Z :=
  foldl (fun d c => <[c := default (-1) (position_to_id groups !! c)]> d)
    ∅ positions.

(** [get_num_detections], lines 441-460. *)
Definition get_num_detections (detections : list coord) : gmap coord Z :=
  foldl (fun d c =>
    match d !! c with
    | Some n => <[c := n + 1]> d
    | None => <[c := 1]> d
    end) ∅ detections.

(** Recursion depth granted to [find]: one more than the number of
    positions listed in [close_sources]. *)
Definition depth (close_sources : list (list coord)) : nat :=
  S (length (concat close_sources)).

Record outputs : Type := {
  groups : list (list coord);
  groupID : gmap coord Z;
  n_detections : gmap coord Z
}.

(** Lines 462-464. *)
Definition group_and_id (close_sources : list (list coord))
    (sources : list coord) : res outputs :=
  gs ← group (depth close_sources) close_sources;
  Ok {| groups := gs;
        groupID := IDassign gs sources;
        n_detections := get_num_detections sources |}.

End GroupId.

(** ** [unique_detect] *)

Module UniqueDetect.

(** [l[i]] for [i] taken from a [range]. *)
Definition index {A} (l : list A) (i : nat) : res A :=
  match l !! i with
  | Some x => Ok x
  | None => Raise IndexError
  end.

(** Lines 190-194: the flag [add] for one detection [p] of frame [s]. *)
Definition keep (close_sources : list (list coord))
    (groups_s : list (list coord)) (s : nat) (p : coord) : res bool :=
  bound ← index close_sources s;
  foldl_res (fun add j =>
    g ← index groups_s j;
    Ok (if mem p (tail g) then false else add))
    true (seq 0 (length bound)).

(** Lines 185-202 for frame [s]. *)
Definition unique_frame (close_sources : list (list coord))
    (close_sources_by_frame : list (list (list coord)))
    (acc : list (list coord)) (sf : nat * list coord)
  : res (list (list coord)) :=
  groups_s ← index close_sources_by_frame sf.1;
  if (0 <? length groups_s)%nat then
    u ← foldl_res (fun u p =>
           add ← keep close_sources groups_s sf.1 p;
           Ok (if (add : bool) then u ++ [p] else u)) [] sf.2;
    Ok (acc ++ [u])
  else Ok (acc ++ [sf.2]).

(** The method, on the attributes it reads: [unique_sources]. *)
Definition unique_detect (sources_by_frame : list (list coord))
    (close_sources : list (list coord))
    (close_sources_by_frame : list (list (list coord)))
  : res (list (list coord)) :=
  foldl_res (unique_frame close_sources close_sources_by_frame)
    [] (enumerate sources_by_frame).

End UniqueDetect.

(** ** [detect] *)

Module Detect.

Local Open Scope Q_scope.

(** One frame of [self.flux]: rows of pixel values. *)
Abbreviation image := (list (list Q)).

(** The eight channels of one cell of [self.y]. *)
Record cell : Type := {
  prob : Q; x1 : Q; y1 : Q; box_w : Q; box_h : Q;
  bright : Q; dim : Q; trash : Q
}.

Abbreviation grid := (list (list cell)).

(** [int(q)]: truncation towards zero. *)
Definition int_of (q : Q) : Z := Z.quot (Qnum q) (Z.pos (Qden q)).

(** [a < b] and [a > b] on numbers. *)
Definition ltb (a b : Q) : bool := negb (Qle_bool b a).
Definition gtb (a b : Q) : bool := ltb b a.

(** A [while] loop on one number. *)
Fixpoint while (fuel : nat) (test : Q → bool) (body : Q → Q) (p : Q)
  : res Q :=
  match fuel with
  | O => Raise OutOfFuel
  | S fuel => if test p then while fuel test body (body p) else Ok p
  end.

(** Lines 257-264, the four loops in the order of the source:
    [py] up, [px] up, [py] down, [px] down. *)
Definition clamp (fuel : nat) (px py : Q) : res (Q * Q) :=
  py ← while fuel (fun p => (int_of p <? 2)%Z) (fun p => p + 2) py;
  px ← while fuel (fun p => (int_of p <? 2)%Z) (fun p => p + 2) px;
  py ← while fuel (fun p => (int_of p >? 509)%Z) (fun p => p - 2) py;
  px ← while fuel (fun p => (int_of p >? 509)%Z) (fun p => p - 2) px;
  Ok (px, py).

(** Iterations granted to the loops of [clamp] for a start value. *)
Definition steps (p : Q) : nat := S (S (Z.to_nat (Z.abs (Qfloor p)))).

(** A slice bound [i] on a sequence of length [n], as Python resolves it. *)
Definition slice_bound (n i : Z) : Z :=
  if (i <? 0)%Z then Z.max 0 (i + n) else Z.min i n.

(** [l[lo:hi]] *)
Definition slice {A} (l : list A) (lo hi : Z) : list A :=
  let n := Z.of_nat (length l) in
  let a := slice_bound n lo in
  let b := slice_bound n hi in
  take (Z.to_nat (b - a)) (drop (Z.to_nat a) l).

(** [img[r0:r1, c0:c1]] *)
Definition window (img : image) (r0 r1 c0 c1 : Z) : image :=
  (fun row => slice row c0 c1) <$> slice img r0 r1.

(** [l[i]] for an integer [i] that may be negative. *)
Definition item {A} (l : list A) (i : Z) : res A :=
  let n := Z.of_nat (length l) in
  let k := if (i <? 0)%Z then (i + n)%Z else i in
  if (k <? 0)%Z then Raise IndexError
  else match l !! Z.to_nat k with
       | Some x => Ok x
       | None => Raise IndexError
       end.

(** [img[r, c]] *)
Definition pixel (img : image) (r c : Z) : res Q :=
  row ← item img r; item row c.

Definition Qmin (a b : Q) : Q := if Qle_bool a b then a else b.
Definition Qmax (a b : Q) : Q := if Qle_bool a b then b else a.

(** [np.min] and [np.max]: an empty array raises [ValueError]. *)
Definition np_min (w : image) : res Q :=
  match concat w with
  | [] => Raise ValueError
  | v :: vs => Ok (foldl Qmin v vs)
  end.

Definition np_max (w : image) : res Q :=
  match concat w with
  | [] => Raise ValueError
  | v :: vs => Ok (foldl Qmax v vs)
  end.

(** [np.abs] *)
Definition np_abs (w : image) : image :=
  (fun row : list Q => Qabs <$> row) <$> w.

(** [np.where(w == m)], first hit in row-major order: [(smax[0][0],
    smax[1][0])]. *)
Definition where_first (w : image) (m : Q) : res (Z * Z) :=
  match
    filter (fun e => Qeq_bool e.2 m = true)
      (concat (imap (fun i row =>
         imap (fun j v => ((Z.of_nat i, Z.of_nat j), v)) row) w))
  with
  | [] => Raise IndexError
  | e :: _ => Ok e.1
  end.

(** What one accepted cell records. *)
Record detection : Type := {
  pos : coord;             (* [smax_i] *)
  brighter : bool;         (* [bright > dim] *)
  positive : bool          (* [self.flux[a][smax_i] > 0] *)
}.

(** Lines 266-278 and 288: the four filters at the clamped point
    [(r, c)] and the refinement to the strongest pixel around it; [None]
    is a [continue]. *)
Definition examine (img : image) (r c : Z) (ch : cell)
  : res (option detection) :=
  v ← pixel img r c;
  if gtb v (-(3#2)) && ltb v (3#2) then Ok None
  else
    let w3 := window img (r - 1) (r + 2) (c - 1) (c + 2) in
    let w5 := window img (r - 2) (r + 3) (c - 2) (c + 3) in
    lo3 ← np_min w3;
    quiet ← (if gtb lo3 (-(3#2))
             then hi3 ← np_max w3; Ok (ltb hi3 (3#2))
             else Ok false);
    if (quiet : bool) then Ok None
    else
      hi5 ← np_max w5;
      spiky ← (if gtb hi5 (15#2)
               then lo5 ← np_min w5; Ok (ltb lo5 (-(15#2)))
               else Ok false);
      if (spiky : bool) then Ok None
      else
        peak ← np_max (np_abs w3);
        if ltb peak 10 then Ok None
        else
          smax ← where_first (np_abs w3) peak;
          let smax_i := ((r + smax.1 - 1)%Z, (c + smax.2 - 1)%Z) in
          f ← pixel img smax_i.1 smax_i.2;
          Ok (Some {| pos := smax_i;
                      brighter := gtb (bright ch) (dim ch);
                      positive := gtb f 0 |}).

(** Lines 247-264 for one cell, then the filters. *)
Definition detect_cell (threshold : Q) (grid_size : Z) (img : image)
    (mx my : nat) (ch : cell) : res (option detection) :=
  if ltb (prob ch) threshold then Ok None
  else if gtb (trash ch) (bright ch) && gtb (trash ch) (dim ch)
  then Ok None
  else
    let px := inject_Z (Z.of_nat mx * grid_size) + x1 ch in
    let py := inject_Z (Z.of_nat my * grid_size) + y1 ch in
    '(px, py) ← clamp (steps px + steps py) px py;
    examine img (int_of py) (int_of px) ch.

(** A value stored in [variable_flag]: the integer [1*(bright>dim)] or
    the boolean [True]/[False]. *)
Inductive flag : Type :=
  | FInt (n : Z)
  | FBool (b : bool).

(** The number Python compares a flag as ([True == 1]). *)
Definition flag_num (f : flag) : Z :=
  match f with
  | FInt n => n
  | FBool b => if b then 1%Z else 0%Z
  end.

(** Lines 282-286. *)
Definition flag_update (vf : gmap coord flag) (p : coord) (b : bool)
  : gmap coord flag :=
  let now := FInt (1 * (if b then 1 else 0))%Z in
  match vf !! p with
  | None => <[p := now]> vf
  | Some old =>
      if bool_decide (flag_num old ≠ flag_num now)
      then <[p := FBool true]> vf else vf
  end.

(** Lines 296-298. *)
Definition flag_final (f : flag) : flag :=
  match f with
  | FBool b => FBool b
  | FInt _ => FBool false
  end.

Record state : Type := {
  sources : list coord;
  sources_by_frame : list (list coord);
  num_sources : list Z;
  frames : list nat;
  flux_sign : list bool;            (* [true] is ['positive'] *)
  variable_flag : gmap coord flag;
  sourceID : gmap coord Z
}.

Definition start : state :=
  {| sources := []; sources_by_frame := []; num_sources := [];
     frames := []; flux_sign := []; variable_flag := ∅; sourceID := ∅ |}.

(** Lines 275-291: the bookkeeping of one accepted cell of frame [a];
    [positions] and [numb_sources] are the frame's own. *)
Definition accept (a : nat) (d : detection)
    (st : state * (list coord * Z)) : state * (list coord * Z) :=
  ({| sources := sources st.1 ++ [pos d];
      sources_by_frame := sources_by_frame st.1;
      num_sources := num_sources st.1;
      frames := frames st.1 ++ [a];
      flux_sign := flux_sign st.1 ++ [positive d];
      variable_flag := flag_update (variable_flag st.1) (pos d) (brighter d);
      sourceID := sourceID st.1 |},
   (st.2.1 ++ [pos d], (st.2.2 + 1)%Z)).

(** The cells of a grid in the order of lines 245-246: [mx] outside,
    [my] inside. *)
Definition cells (g : grid) : list (nat * nat) :=
  let i := length g in
  let j := length (default [] (head g)) in
  mx ← seq 0 j; my ← seq 0 i; [(mx, my)].

(** [self.y[a][my][mx]] *)
Definition cell_at (g : grid) (mx my : nat) : res cell :=
  row ← UniqueDetect.index g my; UniqueDetect.index row mx.

(** Lines 241-294 for frame [a]. *)
Definition detect_frame (threshold : Q) (grid_size : Z)
    (flux : list image) (y : list grid) (st : state) (a : nat)
  : res state :=
  g ← UniqueDetect.index y a;
  img ← UniqueDetect.index flux a;
  st ← foldl_res (fun st m =>
          ch ← cell_at g m.1 m.2;
          d ← detect_cell threshold grid_size img m.1 m.2 ch;
          Ok (match d with Some d => accept a d st | None => st end))
        (st, ([], 0%Z)) (cells g);
  Ok {| sources := sources st.1;
        sources_by_frame := sources_by_frame st.1 ++ [sorted st.2.1];
        num_sources := num_sources st.1 ++ [st.2.2];
        frames := frames st.1;
        flux_sign := flux_sign st.1;
        variable_flag := variable_flag st.1;
        sourceID := sourceID st.1 |}.

(** Lines 301-306: the dictionary and the counter [id]. *)
Definition ids_loop (sources : list coord) : gmap coord Z * Z :=
  foldl (fun '(d, id) s =>
     match d !! s with
     | Some _ => (d, id)
     | None => (<[s := id]> d, (id + 1)%Z)
     end) (∅, 0%Z) sources.

Definition assign_ids (sources : list coord) : gmap coord Z :=
  (ids_loop sources).1.

(** Lines 236-306. *)
Definition detect (threshold : Q) (grid_size : Z)
    (flux : list image) (y : list grid) : res state :=
  st ← foldl_res (detect_frame threshold grid_size flux y)
         start (seq 0 (length flux));
  Ok {| sources := sources st;
        sources_by_frame := sources_by_frame st;
        num_sources := num_sources st;
        frames := frames st;
        flux_sign := flux_sign st;
        variable_flag := flag_final <$> variable_flag st;
        sourceID := assign_ids (sources st) |}.

End Detect.

(** ** [analyse]: the pipeline *)

Module Pipeline.

Record run : Type := {
  detected : Detect.state;
  close_sources : list (list coord);
  close_sources_by_frame : list (list (list coord));
  grouped : GroupId.outputs
}.

(** [detect] (which ends with [close_detect], [close] being [True]) and
    then [group_and_id], as [analyse] calls them. *)
Definition analyse (threshold : Q) (grid_size : Z)
    (flux : list Detect.image) (y : list Detect.grid) : res run :=
  st ← Detect.detect threshold grid_size flux y;
  let cd := CloseDetect.close_detect (Detect.sources_by_frame st) in
  o ← GroupId.group_and_id cd.1 (Detect.sources st);
  Ok {| detected := st; close_sources := cd.1;
        close_sources_by_frame := cd.2; grouped := o |}.

(** [detect] called with [unique=True], lines 308-311: [close_detect]
    and then [unique_detect]; the result is [unique_sources]. *)
Definition detect_unique (threshold : Q) (grid_size : Z)
    (flux : list Detect.image) (y : list Detect.grid)
  : res (list (list coord)) :=
  st ← Detect.detect threshold grid_size flux y;
  let cd := CloseDetect.close_detect (Detect.sources_by_frame st) in
  UniqueDetect.unique_detect (Detect.sources_by_frame st) cd.1 cd.2.

End Pipeline.

(** ** [check_region] *)

Module CheckRegion.

(** [v in range(lo, hi)] for an integer [v]. *)
Definition in_range (v lo hi : Z) : bool := (lo <=? v) && (v <? hi).

(** The test of line 579 for the detection [p] of index [i]: the row of
    [p] against [yrange] and, only if that holds, the column of
    [close_sources[frame][i]] against [xrange]. *)
Definition selected (close_sources : list (list coord))
    (xrange yrange : Z * Z) (frame : Z) (i : nat) (p : coord) : res bool :=
  if in_range p.1 yrange.1 yrange.2 then
    g ← Detect.item close_sources frame;
    q ← UniqueDetect.index g i;
    Ok (in_range q.2 xrange.1 xrange.2)
  else Ok false.

(** The method, on the attributes it reads: [(zoom, zoom_range)].  The
    index [frame] and the bounds are integers; [xrange] and [yrange] are
    pairs. *)
Definition check_region (sources_by_frame : list (list coord))
    (close_sources : list (list coord)) (xrange yrange : Z * Z) (frame : Z)
  : res (list coord * list Z) :=
  let zoom_range := [yrange.1; yrange.2; xrange.1; xrange.2] in
  detections ← Detect.item sources_by_frame frame;
  zoom ← foldl_res (fun zoom ip =>
            b ← selected close_sources xrange yrange frame ip.1 ip.2;
            Ok (if (b : bool) then zoom ++ [ip.2] else zoom))
          [] (enumerate detections);
  Ok (zoom, zoom_range).

End CheckRegion.

(** ** [prfbuild.py]: [PrfBuild.make_labels]

    The simulated sources are placed at random.  The values drawn by
    [np.random] are an input of the embedding: one [draw] for every turn
    of the loop of line 50, so that [num] is the number of draws.  A PRF
    of [x_prfs] is a 3x3 array; as for the frames of [detect], the
    trailing axis of length one is left out, and the numbers are exact
    rationals (the arrays of the source hold 32-bit floats, which the
    labels, small whole numbers, fit exactly).  An exception ends the
    call; what it had written by then is not kept. *)

Module PrfBuild.
Import Detect.

Local Open Scope Q_scope.

Abbreviation prf := ((Q * Q * Q) * (Q * Q * Q) * (Q * Q * Q))%type.

(** The rows of a PRF times a number. *)
Definition scaled (number : prf) (k : Q) : list (list Q) :=
  let '((a, b, c), (d, e, f), (g, h, i)) := number in
  [[a * k; b * k; c * k]; [d * k; e * k; f * k]; [g * k; h * k; i * k]].

(** What one turn of the loop draws: [idx], [px], [py] and, for a turn
    that gets to line 68, the value of [np.random.rand()]. *)
Record draw : Type := {
  idx : nat; px : Z; py : Z; rnd : Q
}.

(** The place an integer index [i] denotes in a sequence of length [n]. *)
Definition place (n : nat) (i : Z) : res nat :=
  let k := if (i <? 0)%Z then (i + Z.of_nat n)%Z else i in
  if (k <? 0)%Z || (Z.of_nat n <=? k)%Z then Raise IndexError
  else Ok (Z.to_nat k).

(** [output[k] = v] on the eight channels of a cell. *)
Definition set_channel (ch : cell) (k : Z) (v : Q) : res cell :=
  n ← place 8 k;
  match n with
  | 0%nat => Ok {| prob := v; x1 := x1 ch; y1 := y1 ch;
                   box_w := box_w ch; box_h := box_h ch;
                   bright := bright ch; dim := dim ch; trash := trash ch |}
  | 1%nat => Ok {| prob := prob ch; x1 := v; y1 := y1 ch;
                   box_w := box_w ch; box_h := box_h ch;
                   bright := bright ch; dim := dim ch; trash := trash ch |}
  | 2%nat => Ok {| prob := prob ch; x1 := x1 ch; y1 := v;
                   box_w := box_w ch; box_h := box_h ch;
                   bright := bright ch; dim := dim ch; trash := trash ch |}
  | 3%nat => Ok {| prob := prob ch; x1 := x1 ch; y1 := y1 ch;
                   box_w := v; box_h := box_h ch;
                   bright := bright ch; dim := dim ch; trash := trash ch |}
  | 4%nat => Ok {| prob := prob ch; x1 := x1 ch; y1 := y1 ch;
                   box_w := box_w ch; box_h := v;
                   bright := bright ch; dim := dim ch; trash := trash ch |}
  | 5%nat => Ok {| prob := prob ch; x1 := x1 ch; y1 := y1 ch;
                   box_w := box_w ch; box_h := box_h ch;
                   bright := v; dim := dim ch; trash := trash ch |}
  | 6%nat => Ok {| prob := prob ch; x1 := x1 ch; y1 := y1 ch;
                   box_w := box_w ch; box_h := box_h ch;
                   bright := bright ch; dim := v; trash := trash ch |}
  | _ => Ok {| prob := prob ch; x1 := x1 ch; y1 := y1 ch;
               box_w := box_w ch; box_h := box_h ch;
               bright := bright ch; dim := dim ch; trash := v |}
  end.

(** Lines 61-66: the label written into the cell [output]. *)
Definition label (output : cell) (grid_size : Z) (mx my : Z) (d : draw)
    (class_ : Z) : res cell :=
  o ← set_channel output 0 1;
  o ← set_channel o 1 (inject_Z (px d - mx * grid_size));
  o ← set_channel o 2 (inject_Z (py d - my * grid_size));
  o ← set_channel o 3 3;
  o ← set_channel o 4 3;
  set_channel o (5 + class_) 1.

(** [row[c0:c1] = vs]: the slice must have the length of [vs]. *)
Definition assign_slice (row : list Q) (c0 c1 : Z) (vs : list Q)
  : res (list Q) :=
  let n := Z.of_nat (length row) in
  let a := slice_bound n c0 in
  let b := slice_bound n c1 in
  if bool_decide (Z.max 0 (b - a) = Z.of_nat (length vs)) then
    Ok (take (Z.to_nat a) row ++ vs ++ drop (Z.to_nat a + length vs) row)
  else Raise ValueError.

(** Line 68: [X[py-1:py+2, px-1:px+2] = number * k]. *)
Definition stamp (X : image) (d : draw) (number : prf) (k : Q)
  : res image :=
  let n := Z.of_nat (length X) in
  let a := slice_bound n (py d - 1) in
  let b := slice_bound n (py d + 2) in
  if bool_decide (Z.max 0 (b - a) = 3%Z) then
    rows ← foldl_res (fun acc rv =>
              r ← assign_slice rv.1 (px d - 1) (px d + 2) rv.2;
              Ok (acc ++ [r]))
            [] (zip (take 3 (drop (Z.to_nat a) X)) (scaled number k));
    Ok (take (Z.to_nat a) X ++ rows ++ drop (Z.to_nat a + 3) X)
  else Raise ValueError.

(** [y[my][mx] = o], the cell having been read at these indices. *)
Definition put (y : grid) (my mx : Z) (o : cell) : res grid :=
  r ← place (length y) my;
  row ← UniqueDetect.index y r;
  c ← place (length row) mx;
  Ok (<[r := <[c := o]> row]> y).

(** Lines 51-70: one turn of the loop.  [grid_size] is a positive
    integer: line 55 divides by it. *)
Definition place_source (x_prfs : list prf) (y_prfs : list Q)
    (grid_size : BinNums.positive)
    (st : image * grid * list coord) (d : draw)
  : res (image * grid * list coord) :=
  let '(X, y, positions) := st in
  number ← UniqueDetect.index x_prfs (idx d);
  c ← UniqueDetect.index y_prfs (idx d);
  let class_ := int_of c in
  let mx := ((px d + 2) / Z.pos grid_size)%Z in
  let my := ((py d + 2) / Z.pos grid_size)%Z in
  row ← item y my;
  output ← item row mx;
  if gtb (prob output) 0 then Ok st
  else
    o ← label output (Z.pos grid_size) mx my d class_;
    y ← put y my mx o;
    X ← stamp X d number (rnd d * (25 # 10) + (5 # 10));
    Ok (X, y,
        if bool_decide (class_ ≠ 2%Z) then positions ++ [(py d, px d)]
        else positions).

(** The method: the arrays [X] and [y] as it leaves them, and the list
    it returns. *)
Definition make_labels (x_prfs : list prf) (y_prfs : list Q)
    (grid_size : BinNums.positive) (X : image) (y : grid) (draws : list draw)
  : res (image * grid * list coord) :=
  foldl_res (place_source x_prfs y_prfs grid_size) (X, y, []) draws.

End PrfBuild.

(** ** [detect] on floating-point numbers

    Module [Detect] reads the numbers of [detect] as exact rationals. The
    program computes on [np.float32] and [np.float64] values, and this
    module embeds lines 247-306 once more with what the format adds:
    - a sum is rounded to the nearest number of [prec] significant bits,
      ties to the even one ([prec] is 24 for [np.float32] and 53 for
      [np.float64]);
    - a value may be infinite or NaN: every comparison with NaN is false,
      [np.min] and [np.max] of an array that holds a NaN are NaN, and
      [int] raises [ValueError] on NaN and [OverflowError] on an infinity;
    - no number of turns is known to end a [while] loop, so the fuel is an
      argument: [Raise OutOfFuel] says that a loop has not ended within
      [fuel] turns.
    The range of the exponent is not bounded here: a sum of finite numbers
    is finite. Adding or subtracting 2, as the loops do, neither overflows
    nor leaves the normal range on any finite number of either format.
    [threshold] is the number the probability is compared with. *)

Module Numpy.

Local Open Scope Q_scope.

(** A floating-point value: a finite number, as the rational it stands
    for, an infinity with its sign, or NaN. *)
Inductive num : Type :=
  | Fin (q : Q)
  | Inf (negative : bool)
  | NaN.

(** *** Rounding *)

(** The nearest integer, ties to the even one. *)
Definition rne (q : Q) : Z :=
  let f := Qfloor q in
  match Qcompare (q - inject_Z f) (1 # 2) with
  | Lt => f
  | Gt => (f + 1)%Z
  | Eq => if Z.even f then f else (f + 1)%Z
  end.

(** For [0 < q], the exponent [k] with [2^k <= q < 2^(k+1)]. *)
Definition log2 (q : Q) : Z :=
  let k := (Z.log2 (Qnum q) - Z.log2 (Z.pos (Qden q)))%Z in
  if Qle_bool (2 ^ k) q then k else (k - 1)%Z.

(** A positive number rounded to [prec] significant bits: a multiple of
    [2^e] for the [e] that puts the significand between [2^(prec-1)] and
    [2^prec]. *)
Definition round_pos (prec : Z) (q : Q) : Q :=
  let e := (log2 q - prec + 1)%Z in
  Qred (inject_Z (rne (q / 2 ^ e)) * 2 ^ e).

Definition round (prec : Z) (q : Q) : Q :=
  match Qcompare q 0 with
  | Eq => 0
  | Gt => round_pos prec q
  | Lt => - round_pos prec (- q)
  end.

(** *** Arithmetic and comparisons *)

(** [a + b] *)
Definition add (prec : Z) (a b : num) : num :=
  match a, b with
  | NaN, _ | _, NaN => NaN
  | Fin x, Fin y => Fin (round prec (x + y))
  | Fin _, Inf s | Inf s, Fin _ => Inf s
  | Inf s, Inf t => if Bool.eqb s t then Inf s else NaN
  end.

Definition neg (a : num) : num :=
  match a with
  | Fin x => Fin (- x)
  | Inf s => Inf (negb s)
  | NaN => NaN
  end.

(** [a - b] *)
Definition sub (prec : Z) (a b : num) : num := add prec a (neg b).

(** A Python integer as an operand of [+]. *)
Definition of_int (prec : Z) (n : Z) : num := Fin (round prec (inject_Z n)).

(** [int(a)] *)
Definition int (a : num) : res Z :=
  match a with
  | Fin q => Ok (Detect.int_of q)
  | Inf _ => Raise OverflowError
  | NaN => Raise ValueError
  end.

(** [a <= b], [a < b], [a > b] and [a == b]. *)
Definition leb (a b : num) : bool :=
  match a, b with
  | NaN, _ | _, NaN => false
  | Fin x, Fin y => Qle_bool x y
  | Fin _, Inf t => negb t
  | Inf s, Fin _ => s
  | Inf s, Inf t => s || negb t
  end.

Definition ltb (a b : num) : bool :=
  match a, b with
  | NaN, _ | _, NaN => false
  | _, _ => negb (leb b a)
  end.

Definition gtb (a b : num) : bool := ltb b a.

Definition eqb (a b : num) : bool :=
  match a, b with
  | Fin x, Fin y => Qeq_bool x y
  | Inf s, Inf t => Bool.eqb s t
  | _, _ => false
  end.

(** *** Lines 256-264 *)

(** A [while] loop on one number; the test may raise. *)
Fixpoint while (fuel : nat) (test : num → res bool) (body : num → num)
    (p : num) : res num :=
  match fuel with
  | O => Raise OutOfFuel
  | S fuel =>
      b ← test p;
      if (b : bool) then while fuel test body (body p) else Ok p
  end.

(** Lines 257-264, the four loops in the order of the source: [py] up,
    [px] up, [py] down, [px] down; each may take [fuel] turns. *)
Definition clamp (prec : Z) (fuel : nat) (px py : num) : res (num * num) :=
  py ← while fuel (fun p => n ← int p; Ok (n <? 2)%Z)
         (fun p => add prec p (Fin 2)) py;
  px ← while fuel (fun p => n ← int p; Ok (n <? 2)%Z)
         (fun p => add prec p (Fin 2)) px;
  py ← while fuel (fun p => n ← int p; Ok (n >? 509)%Z)
         (fun p => sub prec p (Fin 2)) py;
  px ← while fuel (fun p => n ← int p; Ok (n >? 509)%Z)
         (fun p => sub prec p (Fin 2)) px;
  Ok (px, py).

(** *** Lines 266-306 *)

(** One frame of [self.flux]. *)
Abbreviation image := (list (list num)).

(** The eight channels of one cell of [self.y]. *)
Record cell : Type := {
  prob : num; x1 : num; y1 : num; box_w : num; box_h : num;
  bright : num; dim : num; trash : num
}.

Abbreviation grid := (list (list cell)).

(** [img[r0:r1, c0:c1]] *)
Definition window (img : image) (r0 r1 c0 c1 : Z) : image :=
  (fun row => Detect.slice row c0 c1) <$> Detect.slice img r0 r1.

(** [img[r, c]] *)
Definition pixel (img : image) (r c : Z) : res num :=
  row ← Detect.item img r; Detect.item row c.

Definition fmin (a b : num) : num :=
  match a, b with
  | NaN, _ | _, NaN => NaN
  | _, _ => if leb a b then a else b
  end.

Definition fmax (a b : num) : num :=
  match a, b with
  | NaN, _ | _, NaN => NaN
  | _, _ => if leb a b then b else a
  end.

(** [np.min] and [np.max]: NaN as soon as an entry is NaN; an empty array
    raises [ValueError]. *)
Definition np_min (w : image) : res num :=
  match concat w with
  | [] => Raise ValueError
  | v :: vs => Ok (foldl fmin v vs)
  end.

Definition np_max (w : image) : res num :=
  match concat w with
  | [] => Raise ValueError
  | v :: vs => Ok (foldl fmax v vs)
  end.

Definition abs (a : num) : num :=
  match a with
  | Fin x => Fin (Qabs x)
  | Inf _ => Inf false
  | NaN => NaN
  end.

(** [np.abs] *)
Definition np_abs (w : image) : image :=
  (fun row : list num => abs <$> row) <$> w.

(** [np.where(w == m)], first hit in row-major order: [(smax[0][0],
    smax[1][0])]; no entry equals a NaN. *)
Definition where_first (w : image) (m : num) : res (Z * Z) :=
  match
    filter (fun e => eqb e.2 m = true)
      (concat (imap (fun i row =>
         imap (fun j v => ((Z.of_nat i, Z.of_nat j), v)) row) w))
  with
  | [] => Raise IndexError
  | e :: _ => Ok e.1
  end.

(** Lines 266-278 and 288 at the clamped point [(r, c)]; [None] is a
    [continue]. *)
Definition examine (img : image) (r c : Z) (ch : cell)
  : res (option Detect.detection) :=
  v ← pixel img r c;
  if gtb v (Fin (-(3#2))) && ltb v (Fin (3#2)) then Ok None
  else
    let w3 := window img (r - 1) (r + 2) (c - 1) (c + 2) in
    let w5 := window img (r - 2) (r + 3) (c - 2) (c + 3) in
    lo3 ← np_min w3;
    quiet ← (if gtb lo3 (Fin (-(3#2)))
             then hi3 ← np_max w3; Ok (ltb hi3 (Fin (3#2)))
             else Ok false);
    if (quiet : bool) then Ok None
    else
      hi5 ← np_max w5;
      spiky ← (if gtb hi5 (Fin (15#2))
               then lo5 ← np_min w5; Ok (ltb lo5 (Fin (-(15#2))))
               else Ok false);
      if (spiky : bool) then Ok None
      else
        peak ← np_max (np_abs w3);
        if ltb peak (Fin 10) then Ok None
        else
          smax ← where_first (np_abs w3) peak;
          let smax_i := ((r + smax.1 - 1)%Z, (c + smax.2 - 1)%Z) in
          f ← pixel img smax_i.1 smax_i.2;
          Ok (Some {| Detect.pos := smax_i;
                      Detect.brighter := gtb (bright ch) (dim ch);
                      Detect.positive := gtb f (Fin 0) |}).

(** Lines 247-264 for one cell, then the filters at
    [(int(py), int(px))]. *)
Definition detect_cell (prec : Z) (fuel : nat) (threshold : num)
    (grid_size : Z) (img : image) (mx my : nat) (ch : cell)
  : res (option Detect.detection) :=
  if ltb (prob ch) threshold then Ok None
  else if gtb (trash ch) (bright ch) && gtb (trash ch) (dim ch)
  then Ok None
  else
    let px := add prec (of_int prec (Z.of_nat mx * grid_size)) (x1 ch) in
    let py := add prec (of_int prec (Z.of_nat my * grid_size)) (y1 ch) in
    '(px, py) ← clamp prec fuel px py;
    r ← int py;
    c ← int px;
    examine img r c ch.

(** The cells of a grid in the order of lines 245-246. *)
Definition cells (g : grid) : list (nat * nat) :=
  let i := length g in
  let j := length (default [] (head g)) in
  mx ← seq 0 j; my ← seq 0 i; [(mx, my)].

(** [self.y[a][my][mx]] *)
Definition cell_at (g : grid) (mx my : nat) : res cell :=
  row ← UniqueDetect.index g my; UniqueDetect.index row mx.

(** Lines 241-294 for frame [a]. *)
Definition detect_frame (prec : Z) (fuel : nat) (threshold : num)
    (grid_size : Z) (flux : list image) (y : list grid)
    (st : Detect.state) (a : nat) : res Detect.state :=
  g ← UniqueDetect.index y a;
  img ← UniqueDetect.index flux a;
  st ← foldl_res (fun st m =>
          ch ← cell_at g m.1 m.2;
          d ← detect_cell prec fuel threshold grid_size img m.1 m.2 ch;
          Ok (match d with Some d => Detect.accept a d st | None => st end))
        (st, ([], 0%Z)) (cells g);
  Ok {| Detect.sources := Detect.sources st.1;
        Detect.sources_by_frame :=
          Detect.sources_by_frame st.1 ++ [sorted st.2.1];
        Detect.num_sources := Detect.num_sources st.1 ++ [st.2.2];
        Detect.frames := Detect.frames st.1;
        Detect.flux_sign := Detect.flux_sign st.1;
        Detect.variable_flag := Detect.variable_flag st.1;
        Detect.sourceID := Detect.sourceID st.1 |}.

(** Lines 236-306. *)
Definition detect (prec : Z) (fuel : nat) (threshold : num)
    (grid_size : Z) (flux : list image) (y : list grid)
  : res Detect.state :=
  st ← foldl_res (detect_frame prec fuel threshold grid_size flux y)
         Detect.start (seq 0 (length flux));
  Ok {| Detect.sources := Detect.sources st;
        Detect.sources_by_frame := Detect.sources_by_frame st;
        Detect.num_sources := Detect.num_sources st;
        Detect.frames := Detect.frames st;
        Detect.flux_sign := Detect.flux_sign st;
        Detect.variable_flag :=
          Detect.flag_final <$> Detect.variable_flag st;
        Detect.sourceID := Detect.assign_ids (Detect.sources st) |}.

End Numpy.

(** * Vocabulary of the statements *)

(** ** Identities and counts *)

(** The number of distinct positions in a list. *)
Definition distinct (l : list coord) : nat :=
  size (list_to_set l : gset coord).

(** The number of entries of [l] equal to [c]. *)
Definition occurrences (c : coord) (l : list coord) : nat :=
  length (filter (c =.) l).

(** The number of frames whose detection list holds [c]. *)
Definition frames_with (c : coord) (sources_by_frame : list (list coord))
  : nat :=
  length (filter (fun frame => c ∈ frame) sources_by_frame).

(** The sum of the values of a dictionary of counts. *)
Definition total (d : gmap coord Z) : Z :=
  map_fold (fun _ n s => n + s) 0 d.

(** [ids] numbers the positions of [sources] in the order they are first
    seen: defined exactly on them; a position first seen after the prefix
    [l1] gets the number of distinct positions of [l1]; a position first
    seen earlier has the smaller number; the numbers are exactly
    [0 .. k-1] for the [k] distinct positions, none of them twice. *)
Definition first_seen_dense (sources : list coord) (ids : gmap coord Z)
  : Prop :=
  let k := Z.of_nat (distinct sources) in
  (∀ c, is_Some (ids !! c) ↔ c ∈ sources) ∧
  (∀ l1 c l2, sources = l1 ++ c :: l2 → c ∉ l1 →
     ids !! c = Some (Z.of_nat (distinct l1))) ∧
  (∀ l1 c l2 c' l3,
     sources = l1 ++ c :: l2 ++ c' :: l3 →
     c ∉ l1 → c' ∉ l1 ++ c :: l2 →
     ∃ i j, ids !! c = Some i ∧ ids !! c' = Some j ∧ i < j) ∧
  (∀ c i, ids !! c = Some i → 0 ≤ i < k) ∧
  (∀ i, 0 ≤ i < k → ∃ c, ids !! c = Some i) ∧
  (∀ c c' i, ids !! c = Some i → ids !! c' = Some i → c = c').

(** ** Proximity inside a frame *)

(** Two different detections of [frame] within the window of line 148. *)
Definition adj (frame : list coord) (p q : coord) : Prop :=
  p ∈ frame ∧ q ∈ frame ∧ p ≠ q ∧ CloseDetect.is_close p q = true.

(** [p] and [q] are linked by a chain of such pairs. *)
Definition chained (frame : list coord) : relation coord := rtc (adj frame).

(** The lists [close_objs] hold, for every detection, all its neighbours
    and only positions chained to it, none twice; a non-empty list belongs
    to a detection that has a neighbour. *)
Definition lists_ok (frame : list coord) (co : list (list coord)) : Prop :=
  length co = length frame ∧
  (∀ i p c, frame !! i = Some p → adj frame p c →
     ∃ ci, co !! i = Some ci ∧ c ∈ ci) ∧
  (∀ i p ci c, frame !! i = Some p → co !! i = Some ci → c ∈ ci →
     chained frame p c ∧ ∃ q, adj frame p q) ∧
  (∀ i ci, co !! i = Some ci → NoDup ci).

(** Every list that holds a position of [done] holds its neighbours. *)
Definition closed_for (frame done : list coord) (co : list (list coord))
  : Prop :=
  ∀ x cx u c, u ∈ done → co !! x = Some cx → u ∈ cx → adj frame u c → c ∈ cx.

(** No position lies in two groups of the list. *)
Definition disjoint_groups (gs : list (list coord)) : Prop :=
  ∀ i j g1 g2 c, gs !! i = Some g1 → gs !! j = Some g2 →
                 c ∈ g1 → c ∈ g2 → i = j.

(** A group holds two different positions. *)
Definition has_two (g : list coord) : Prop :=
  ∃ p q, p ∈ g ∧ q ∈ g ∧ p ≠ q.

(** What [unique_detect] is to keep of a frame: the detections that are
    not a later member of any close-group of the frame. *)
Definition unique_of (frame : list coord) (groups : list (list coord))
  : list coord :=
  filter (fun p => Forall (fun g => p ∉ tail g) groups) frame.

(** ** Grouping across frames *)

(** [r] is the root above [x] in the forest [parent]. *)
Inductive root_of (parent : gmap coord coord) : coord → coord → Prop :=
  | root_here x : parent !! x = Some x → root_of parent x x
  | root_up x y r :
      parent !! x = Some y → y ≠ x → root_of parent y r →
      root_of parent x r.

Definition same_root (parent : gmap coord coord) (x y : coord) : Prop :=
  ∃ r, root_of parent x r ∧ root_of parent y r.

(** Every step towards a parent raises the height [h], which stays below
    [bound], and leads to a registered position. *)
Definition ranked (h : coord → nat) (bound : nat)
    (parent : gmap coord coord) : Prop :=
  (∀ x y, parent !! x = Some y → y ≠ x →
          (h x < h y)%nat ∧ is_Some (parent !! y)) ∧
  ∀ x, (h x ≤ bound)%nat.

(** The dictionaries [parent] and [rank] after at most [n] unions. *)
Definition forest (n : nat) (parent : gmap coord coord)
    (rank : gmap coord Z) : Prop :=
  (∃ h, ranked h n parent) ∧ dom rank = dom parent.

(** [x] and [y] occur together in a close-group of the list. *)
Definition cooccur (cs : list (list coord)) (x y : coord) : Prop :=
  ∃ g, g ∈ cs ∧ x ∈ g ∧ y ∈ g.

(** ... directly or through a chain of close-groups. *)
Definition linked (cs : list (list coord)) : relation coord :=
  tc (cooccur cs).

(** The closure law of the group numbers [gid] with respect to the
    close-groups of all frames: two positions of one close-group have the
    same number, which is not -1; positions with different numbers are
    not linked. *)
Definition closure_law (groups_by_frame : list (list (list coord)))
    (gid : gmap coord Z) : Prop :=
  let cs := concat groups_by_frame in
  (∀ g x y, g ∈ cs → x ∈ g → y ∈ g →
     ∃ i, gid !! x = Some i ∧ gid !! y = Some i ∧ 0 ≤ i) ∧
  (∀ x y i j, gid !! x = Some i → gid !! y = Some j → i ≠ j →
     ¬ linked cs x y).

(** ** The cells of [detect] *)

(** The predicted pixel coordinate of line 256 for the grid index [m] and
    the offset [o]. *)
Definition predicted (grid_size : Z) (m : nat) (o : Q) : Q :=
  (inject_Z (Z.of_nat m * grid_size) + o)%Q.

(** [(r, c)] is the clamped integer point at which the cell [(mx, my)]
    with channels [ch] has its filters evaluated. *)
Definition clamped_at (grid_size : Z) (mx my : nat) (ch : Detect.cell)
    (r c : Z) : Prop :=
  let px := predicted grid_size mx (Detect.x1 ch) in
  let py := predicted grid_size my (Detect.y1 ch) in
  ∃ qx qy, Detect.clamp (Detect.steps px + Detect.steps py) px py
             = Ok (qx, qy) ∧
           r = Detect.int_of qy ∧ c = Detect.int_of qx.


Definition greatest (l : list Q) (m : Q) : Prop :=
  m ∈ l ∧ ∀ v, v ∈ l → (v <= m)%Q.

(** The pixel values of the [(2k+1) x (2k+1)] neighbourhood of [(r, c)],
    cut off at the image border as a slice is. *)
Definition around (img : Detect.image) (r c k : Z) : list Q :=
  concat (Detect.window img (r - k) (r + k + 1) (c - k) (c + k + 1)).







(** ** The detections behind a run of [detect] *)

Module Trace.
Import Detect UniqueDetect.

(** The detections accepted in frame [a], in the order of the cells. *)
Definition of_frame (threshold : Q) (grid_size : Z)
    (flux : list image) (y : list grid) (a : nat)
  : res (list detection) :=
  g ← index y a;
  img ← index flux a;
  foldl_res (fun acc m =>
    ch ← cell_at g m.1 m.2;
    d ← detect_cell threshold grid_size img m.1 m.2 ch;
    Ok (match d with Some d => acc ++ [d] | None => acc end))
    [] (cells g).

(** All frames, each with its index. *)
Definition of_run (threshold : Q) (grid_size : Z)
    (flux : list image) (y : list grid)
  : res (list (nat * list detection)) :=
  foldl_res (fun acc a =>
    t ← of_frame threshold grid_size flux y a;
    Ok (acc ++ [(a, t)]))
    [] (seq 0 (length flux)).

(** All detections of a run in the order [detect] records them. *)
Definition flat (trs : list (nat * list detection)) : list detection :=
  concat (snd <$> trs).

(** The variability dictionary before line 296. *)
Definition flags (ds : list detection) : gmap coord flag :=
  foldl (fun vf d => flag_update vf (pos d) (brighter d)) ∅ ds.


(** The attributes of [st] are those [detect] derives from the
    detections [trs]. *)
Definition records (st : state) (trs : list (nat * list detection))
  : Prop :=
  sources st = pos <$> flat trs ∧
  sources_by_frame st = (fun t => sorted (pos <$> t.2)) <$> trs ∧
  num_sources st = (fun t => Z.of_nat (length t.2)) <$> trs ∧
  frames st = concat ((fun t => replicate (length t.2) t.1) <$> trs) ∧
  flux_sign st = positive <$> flat trs ∧
  variable_flag st = flags (flat trs).



End Trace.

(** ** Small inputs *)

Module Examples.
Import Detect.

(** An 8x8 frame, zero but for a peak of 50 at (4,4) and 5 at (3,3). *)
Definition peak_image : image :=
  imap (fun i row =>
    imap (fun j _ =>
      if bool_decide ((i, j) = (4, 4)%nat) then 50%Q
      else if bool_decide ((i, j) = (3, 3)%nat) then 5%Q else 0%Q) row)
    (replicate 8 (replicate 8 0%Q)).

Definition quiet_cell : cell :=
  {| prob := 0; x1 := 0; y1 := 0; box_w := 0; box_h := 0;
     bright := 0; dim := 0; trash := 0 |}.

(** A confident cell with offsets [(x, y)] and class scores [b], [d]. *)
Definition sure_cell (x y b d : Q) : cell :=
  {| prob := 95 # 100; x1 := x; y1 := y; box_w := 3; box_h := 3;
     bright := b; dim := d; trash := 0 |}.

(** A 2x2 grid over [peak_image] (grid size 4) whose cells (0,0) and
    (1,1) both point next to the peak. *)
Definition two_cells : grid :=
  [[sure_cell 3 3 (9 # 10) (1 # 10); quiet_cell];
   [quiet_cell; sure_cell 0 0 (9 # 10) (1 # 10)]].

(** One confident cell at (1,1), brighter or dimmer. *)
Definition one_cell (b d : Q) : grid :=
  [[quiet_cell; quiet_cell]; [quiet_cell; sure_cell 0 0 b d]].




(** An 8x8 frame, zero but for a peak of 50 at (2,2), under a 2x2 grid
    whose cell (0,0) points at the peak. *)
Definition lone_image : image :=
  imap (fun i row =>
    imap (fun j _ =>
      if bool_decide ((i, j) = (2, 2)%nat) then 50%Q else 0%Q) row)
    (replicate 8 (replicate 8 0%Q)).

Definition lone_grid : grid :=
  [[sure_cell 2 2 (9 # 10) (1 # 10); quiet_cell]; [quiet_cell; quiet_cell]].

(** A 16x16 frame with two sources one pixel apart, at (10,10) and
    (11,11), and faint wings at (9,9) and (12,12). *)
Definition pair_image : image :=
  imap (fun i row =>
    imap (fun j _ =>
      if bool_decide ((i, j) = (10, 10)%nat) then 50%Q
      else if bool_decide ((i, j) = (11, 11)%nat) then 40%Q
      else if bool_decide ((i, j) = (9, 9)%nat) then 5%Q
      else if bool_decide ((i, j) = (12, 12)%nat) then 5%Q else 0%Q) row)
    (replicate 16 (replicate 16 0%Q)).

(** The 4x4 grid over it: cell (2,2) points at (9,9), cell (3,3) at
    (12,12). *)
Definition pair_grid : grid :=
  [replicate 4 quiet_cell; replicate 4 quiet_cell;
   [quiet_cell; quiet_cell; sure_cell 1 1 (9 # 10) (1 # 10); quiet_cell];
   [quiet_cell; quiet_cell; quiet_cell; sure_cell 0 0 (9 # 10) (1 # 10)]].

(** A 16x16 frame with a peak of 50 at (4,4), a wing of 5 at (3,3) and a
    second peak of 40 at (8,8). *)
Definition trio_image : image :=
  imap (fun i row =>
    imap (fun j _ =>
      if bool_decide ((i, j) = (4, 4)%nat) then 50%Q
      else if bool_decide ((i, j) = (3, 3)%nat) then 5%Q
      else if bool_decide ((i, j) = (8, 8)%nat) then 40%Q else 0%Q) row)
    (replicate 16 (replicate 16 0%Q)).

(** The 4x4 grid over it: cells (0,0) and (1,1) point next to the first
    peak, cell (2,2) at the second. *)
Definition trio_grid : grid :=
  [[sure_cell 3 3 (9 # 10) (1 # 10); quiet_cell; quiet_cell; quiet_cell];
   [quiet_cell; sure_cell 0 0 (9 # 10) (1 # 10); quiet_cell; quiet_cell];
   [quiet_cell; quiet_cell; sure_cell 0 0 (9 # 10) (1 # 10); quiet_cell];
   replicate 4 quiet_cell].

End Examples.

(** ** The region of [check_region] *)

(** The detection [ip.2] at place [ip.1] of its frame's list has its row
    in [yrange], and the position at the same place of the list
    [close_sources[frame]] exists and has its column in [xrange]. *)
Definition picked (close_sources : list (list coord))
    (xrange yrange : Z * Z) (frame : Z) (ip : nat * coord) : Prop :=
  yrange.1 ≤ ip.2.1 < yrange.2 ∧
  ∃ g q, Detect.item close_sources frame = Ok g ∧ g !! ip.1 = Some q ∧
         xrange.1 ≤ q.2 < xrange.2.

Global Instance picked_dec close_sources xrange yrange frame ip :
  Decision (picked close_sources xrange yrange frame ip).
Proof.
  unfold picked.
  destruct (Detect.item close_sources frame) as [g|e].
  - destruct (g !! ip.1) as [q|] eqn:Hq.
    + destruct (decide (yrange.1 ≤ ip.2.1 < yrange.2 ∧
                        xrange.1 ≤ q.2 < xrange.2)) as [H|H].
      * left. split; [tauto|]. exists g, q. tauto.
      * right. intros (H1 & g' & q' & [= <-] & Hq' & H2).
        rewrite Hq in Hq'. injection Hq' as <-. tauto.
    + right. intros (_ & g' & q' & [= <-] & Hq' & _). congruence.
  - right. intros (_ & g' & q' & [=] & _).
Defined.

(** ** The labels of [make_labels] *)

(** The cell [(my, mx)] of the label grid that line 55 gives to a source
    at the pixel [p = (py, px)]. *)
Definition cell_of (grid_size : Z) (p : coord) : coord :=
  ((p.1 + 2) / grid_size, (p.2 + 2) / grid_size).

(** The cell [ch] is the label of a source at the pixel [p]: objectness
    1, offsets of [p] from the corner of its cell, box 3x3. *)
Definition label_of (grid_size : Z) (p : coord) (ch : Detect.cell) : Prop :=
  Detect.prob ch = 1%Q ∧
  Detect.x1 ch = inject_Z (p.2 - (cell_of grid_size p).2 * grid_size) ∧
  Detect.y1 ch = inject_Z (p.1 - (cell_of grid_size p).1 * grid_size) ∧
  Detect.box_w ch = 3%Q ∧ Detect.box_h ch = 3%Q.

(** The cell of [y] at the grid indices [c = (my, mx)], both at least 0. *)
Definition grid_cell (y : Detect.grid) (c : coord) : option Detect.cell :=
  row ← y !! Z.to_nat c.1; row !! Z.to_nat c.2.

(** The pixel a draw puts its source at. *)
Definition pixel_of (d : PrfBuild.draw) : coord :=
  (PrfBuild.py d, PrfBuild.px d).

(** ** Small inputs for [make_labels] *)

Module Drawn.
Import Detect PrfBuild.

(** Two PRFs, the first of class 0, the second of class 2. *)
Definition prfs : list prf :=
  [((0, 1, 0), (1, 5, 1), (0, 1, 0))%Q; ((1, 0, 1), (0, 2, 0), (1, 0, 1))%Q].

Definition classes : list Q := [0%Q; 2%Q].

(** A 16x16 frame of zeros and its 4x4 grid of empty labels. *)
Definition blank : image := replicate 16 (replicate 16 0%Q).

Definition no_labels : grid := replicate 4 (replicate 4 Examples.quiet_cell).

(** Three draws: a source of class 0 at (9, 5), one of class 2 at
    (3, 12), and one of class 0 at (9, 4), in the cell of the first. *)
Definition three : list draw :=
  [{| idx := 0; px := 5; py := 9; rnd := 1 # 2 |};
   {| idx := 1; px := 12; py := 3; rnd := 1 # 4 |};
   {| idx := 0; px := 4; py := 9; rnd := 0 |}].

End Drawn.

(** ** Vocabulary for [detect] on floating-point numbers *)

(** The coordinates [(px, py)] line 256 computes for the cell
    [(mx, my)]. *)
Definition float_predicted (prec grid_size : Z) (mx my : nat)
    (ch : Numpy.cell) : Numpy.num * Numpy.num :=
  (Numpy.add prec (Numpy.of_int prec (Z.of_nat mx * grid_size))
     (Numpy.x1 ch),
   Numpy.add prec (Numpy.of_int prec (Z.of_nat my * grid_size))
     (Numpy.y1 ch)).

(** The cell passes the tests of lines 250-253: neither is its
    probability below the threshold nor its trash score above both
    others. *)
Definition scored (threshold : Numpy.num) (ch : Numpy.cell) : Prop :=
  Numpy.ltb (Numpy.prob ch) threshold = false ∧
  Numpy.gtb (Numpy.trash ch) (Numpy.bright ch)
    && Numpy.gtb (Numpy.trash ch) (Numpy.dim ch) = false.

(** The point [(r, c)] lies beyond the last row of the frame or beyond
    the end of its row. *)
Definition outside {A} (img : list (list A)) (r c : Z) : Prop :=
  Z.of_nat (length img) ≤ r ∨
  ∃ row, img !! Z.to_nat r = Some row ∧ Z.of_nat (length row) ≤ c.

(** The 3x3 window of lines 268-275 around [(r, c)] holds a NaN. *)
Definition nan_around (img : Numpy.image) (r c : Z) : Prop :=
  Numpy.NaN ∈ concat (Numpy.window img (r - 1) (r + 2) (c - 1) (c + 2)).

(** The pixel at [(r, c)] lies strictly between -1.5 and 1.5: the test of
    line 266. *)
Definition float_no_signal (img : Numpy.image) (r c : Z) : Prop :=
  ∃ v, Numpy.pixel img r c = Ok v ∧
       Numpy.gtb v (Numpy.Fin (-(3#2))) = true ∧
       Numpy.ltb v (Numpy.Fin (3#2)) = true.

(** No pixel of the frame is NaN. *)
Definition nan_free (img : Numpy.image) : Prop := Numpy.NaN ∉ concat img.

(** The coordinates of the cell are finite, of magnitude up to [2^prec],
    and [fuel] covers the turns [Detect.steps] counts for them. *)
Definition tame (prec : Z) (fuel : nat) (grid_size : Z) (mx my : nat)
    (ch : Numpy.cell) : Prop :=
  ∃ px py,
    float_predicted prec grid_size mx my ch = (Numpy.Fin px, Numpy.Fin py) ∧
    (Qabs px <= 2 ^ prec)%Q ∧ (Qabs py <= 2 ^ prec)%Q ∧
    (Detect.steps px + Detect.steps py ≤ fuel)%nat.

(** ** Small inputs on floating-point numbers *)

Module Floats.
Import Numpy.

(** A frame and a cell of finite numbers. *)
Definition frame (img : Detect.image) : image :=
  (fun row : list Q => Fin <$> row) <$> img.

Definition finite (ch : Detect.cell) : cell :=
  {| prob := Fin (Detect.prob ch); x1 := Fin (Detect.x1 ch);
     y1 := Fin (Detect.y1 ch); box_w := Fin (Detect.box_w ch);
     box_h := Fin (Detect.box_h ch); bright := Fin (Detect.bright ch);
     dim := Fin (Detect.dim ch); trash := Fin (Detect.trash ch) |}.

(** A confident cell with the offsets [(x, y)]. *)
Definition sure_cell (x y : num) : cell :=
  {| prob := Fin (95 # 100); x1 := x; y1 := y; box_w := Fin 3;
     box_h := Fin 3; bright := Fin (9 # 10); dim := Fin (1 # 10);
     trash := Fin 0 |}.

(** [Examples.peak_image] with a NaN at (2, 2). *)
Definition nan_image : image :=
  imap (fun i row =>
    imap (fun j v =>
      if bool_decide ((i, j) = (2, 2)%nat) then NaN else v) row)
    (frame Examples.peak_image).

End Floats.

(** * Source identities, detection counts and variability flags *)

Section identities.
Import Detect.
Implicit Types (l : list coord) (c : coord) (d : gmap coord Z).

Lemma distinct_snoc_old l c : c ∈ l → distinct (l ++ [c]) = distinct l.
Proof.
  intros Hc. unfold distinct. f_equal.
  rewrite list_to_set_app_L. set_solver.
Qed.

Lemma distinct_snoc_new l c : c ∉ l → distinct (l ++ [c]) = S (distinct l).
Proof.
  intros Hc. unfold distinct.
  rewrite list_to_set_app_L. simpl. rewrite union_empty_r_L.
  rewrite size_union; [rewrite size_singleton; lia | set_solver].
Qed.

Lemma distinct_prefix_lt l1 c l2 :
  c ∉ l1 → (distinct l1 < distinct (l1 ++ c :: l2))%nat.
Proof.
  intros Hc. unfold distinct. apply subset_size.
  rewrite list_to_set_app_L. set_solver.
Qed.

Lemma ids_loop_snoc l c :
  ids_loop (l ++ [c]) =
    match (ids_loop l).1 !! c with
    | Some _ => ids_loop l
    | None => (<[c := (ids_loop l).2]> (ids_loop l).1, (ids_loop l).2 + 1)
    end.
Proof.
  unfold ids_loop. rewrite foldl_app. simpl.
  destruct (foldl _ _ l) as [d id]. done.
Qed.

Lemma ids_loop_inv l :
  (ids_loop l).2 = Z.of_nat (distinct l) ∧
  (∀ c, is_Some ((ids_loop l).1 !! c) ↔ c ∈ l) ∧
  (∀ l1 c l2, l = l1 ++ c :: l2 → c ∉ l1 →
     (ids_loop l).1 !! c = Some (Z.of_nat (distinct l1))) ∧
  (∀ i, 0 ≤ i < (ids_loop l).2 → ∃ c, (ids_loop l).1 !! c = Some i) ∧
  (∀ c i, (ids_loop l).1 !! c = Some i → 0 ≤ i < (ids_loop l).2) ∧
  (∀ c c' i, (ids_loop l).1 !! c = Some i →
     (ids_loop l).1 !! c' = Some i → c = c').
Proof.
  induction l as [|x l IH] using rev_ind.
  - cbn. repeat split.
    + intros [? H]. by rewrite lookup_empty in H.
    + intros H. by apply elem_of_nil in H.
    + intros l1 c l2 H. by destruct l1.
    + lia.
    + rewrite lookup_empty in H. done.
    + rewrite lookup_empty in H. done.
    + intros c c' i H. by rewrite lookup_empty in H.
  - destruct IH as (Hid & Hdom & Hfirst & Hsurj & Hrange & Hinj).
    rewrite ids_loop_snoc.
    destruct ((ids_loop l).1 !! x) as [ix|] eqn:Hx.
    + assert (x ∈ l) as Hxl by (apply Hdom; eauto).
      split_and!; try done.
      * by rewrite distinct_snoc_old.
      * intros c. rewrite Hdom. set_solver.
      * intros l1 c l2 Heq Hc.
        destruct l2 as [|y l2 _] using rev_ind.
        -- apply (app_inj_tail l l1 x c) in Heq as [-> ->]. done.
        -- rewrite app_comm_cons, app_assoc in Heq.
           apply app_inj_tail in Heq as [-> _]. by eapply Hfirst.
    + assert (x ∉ l) as Hxl.
      { intros H. apply Hdom in H as [? H]. congruence. }
      cbn [fst snd]. split_and!.
      * rewrite distinct_snoc_new by done. lia.
      * intros c. rewrite lookup_insert_is_Some, Hdom. set_solver.
      * intros l1 c l2 Heq Hc.
        destruct l2 as [|y l2 _] using rev_ind.
        -- apply (app_inj_tail l l1 x c) in Heq as [-> ->].
           by rewrite lookup_insert_eq, Hid.
        -- rewrite app_comm_cons, app_assoc in Heq.
           apply app_inj_tail in Heq as [-> _].
           rewrite lookup_insert_ne; [by eapply Hfirst|].
           intros ->. apply Hxl. set_solver.
      * intros i Hi. destruct (decide (i = (ids_loop l).2)) as [->|].
        -- exists x. by rewrite lookup_insert_eq.
        -- destruct (Hsurj i) as [c Hc]; [lia|]. exists c.
           rewrite lookup_insert_ne; [done|]. congruence.
      * intros c i. rewrite lookup_insert_Some.
        intros [[_ <-]|[_ H]]; [lia|]. apply Hrange in H. lia.
      * intros c c' i. rewrite !lookup_insert_Some.
        intros [[<- <-]|[? H1]] [[<- H2]|[? H2]]; try done.
        -- apply Hrange in H2. lia.
        -- apply Hrange in H1. lia.
        -- by eapply Hinj.
Qed.

(** *** [get_num_detections] *)

Lemma total_insert_new d c n :
  d !! c = None → total (<[c := n]> d) = n + total d.
Proof.
  intros Hc. unfold total. rewrite map_fold_insert_L; [done| |done].
  intros. lia.
Qed.

Lemma total_insert_old d c m n :
  d !! c = Some m → total (<[c := n]> d) = total d - m + n.
Proof.
  intros Hc.
  rewrite <-(insert_delete_eq d c n).
  rewrite <-(insert_delete_id d c m) at 2 by done.
  rewrite !total_insert_new by apply lookup_delete_eq. lia.
Qed.

Lemma occurrences_snoc c l x :
  occurrences c (l ++ [x]) =
    (occurrences c l + if decide (c = x) then 1 else 0)%nat.
Proof.
  unfold occurrences. rewrite filter_app, length_app. f_equal.
  rewrite filter_cons, filter_nil. by destruct (decide (c = x)).
Qed.

Lemma occurrences_pos c l : c ∈ l ↔ (0 < occurrences c l)%nat.
Proof.
  unfold occurrences. split.
  - intros H. assert (c ∈ filter (c =.) l) as Hf
      by (apply list_elem_of_filter; done).
    destruct (filter _ l); [by apply elem_of_nil in Hf|simpl; lia].
  - intros H. destruct (filter (c =.) l) as [|x f] eqn:Hf; [simpl in H; lia|].
    assert (x ∈ filter (c =.) l) as Hx by (rewrite Hf; left).
    apply list_elem_of_filter in Hx as [-> ?]. done.
Qed.

Lemma get_num_detections_snoc l c :
  GroupId.get_num_detections (l ++ [c]) =
    match GroupId.get_num_detections l !! c with
    | Some n => <[c := n + 1]> (GroupId.get_num_detections l)
    | None => <[c := 1]> (GroupId.get_num_detections l)
    end.
Proof. unfold GroupId.get_num_detections. by rewrite foldl_app. Qed.

Lemma get_num_detections_lookup l c :
  GroupId.get_num_detections l !! c =
    if decide (c ∈ l) then Some (Z.of_nat (occurrences c l)) else None.
Proof.
  induction l as [|x l IH] using rev_ind.
  - cbn. rewrite lookup_empty. case_decide as H; [|done].
    by apply elem_of_nil in H.
  - rewrite get_num_detections_snoc, occurrences_snoc.
    destruct (decide (c = x)) as [<-|Hne].
    + rewrite IH. destruct (decide (c ∈ l)) as [Hin|Hin].
      * rewrite lookup_insert_eq. rewrite decide_True by set_solver.
        f_equal. lia.
      * rewrite lookup_insert_eq. rewrite decide_True by set_solver.
        f_equal. assert (occurrences c l = 0%nat) as ->; [|done].
        destruct (occurrences c l) eqn:E; [done|].
        exfalso. apply Hin, occurrences_pos. lia.
    + assert (∀ n, <[x := n]> (GroupId.get_num_detections l) !! c
                   = GroupId.get_num_detections l !! c) as Hl
        by (intros; by rewrite lookup_insert_ne).
      destruct (GroupId.get_num_detections l !! x); rewrite Hl, IH, Nat.add_0_r;
        destruct (decide (c ∈ l)).
      all: try (rewrite decide_True by set_solver; done).
      all: rewrite decide_False by set_solver; done.
Qed.

Lemma get_num_detections_total l :
  total (GroupId.get_num_detections l) = Z.of_nat (length l).
Proof.
  induction l as [|x l IH] using rev_ind; [done|].
  rewrite get_num_detections_snoc, length_app. simpl.
  destruct (GroupId.get_num_detections l !! x) as [n|] eqn:Hx.
  - erewrite total_insert_old by done. lia.
  - rewrite total_insert_new by done. lia.
Qed.

End identities.

Section variability.
Import Detect.
Implicit Types (ds : list detection) (d : detection) (c : coord).





End variability.

(** * Loops that may raise *)

Section loops.
Context {A A' B : Type}.

Lemma foldl_res_app (f : A → B → res A) a l1 l2 :
  foldl_res f a (l1 ++ l2) = (a' ← foldl_res f a l1; foldl_res f a' l2).
Proof.
  revert a. induction l1 as [|x l1 IH]; intros a; [done|].
  cbn. destruct (f a x); cbn; [apply IH|done].
Qed.

(** An invariant indexed by the part of the list already processed. *)
Lemma foldl_res_inv (f : A → B → res A) (P : list B → A → Prop) a l r :
  P [] a →
  (∀ seen x a a', P seen a → f a x = Ok a' → P (seen ++ [x]) a') →
  foldl_res f a l = Ok r → P l r.
Proof.
  intros H0 Hstep. revert r.
  induction l as [|x l IH] using rev_ind; intros r.
  - cbn. by intros [= <-].
  - rewrite foldl_res_app. destruct (foldl_res f a l) as [a'|] eqn:E; [|done].
    cbn. destruct (f a' x) as [a''|] eqn:E'; [|done].
    intros [= <-]. eapply Hstep; [by apply IH|done].
Qed.

(** Two loops over the same list that stay related. *)
Lemma foldl_res_sim (f : A → B → res A) (g : A' → B → res A')
    (R : A → A' → Prop) l :
  (∀ a a' x r, R a a' → f a x = Ok r → ∃ r', g a' x = Ok r' ∧ R r r') →
  ∀ a a' r, R a a' → foldl_res f a l = Ok r →
            ∃ r', foldl_res g a' l = Ok r' ∧ R r r'.
Proof.
  intros Hstep. induction l as [|x l IH]; intros a a' r HR; cbn.
  - intros [= <-]. eauto.
  - destruct (f a x) as [a1|] eqn:E; [|done]. cbn.
    destruct (Hstep _ _ _ _ HR E) as (a1' & -> & HR1). cbn. by apply IH.
Qed.

(** A loop whose every turn succeeds under the invariant succeeds. *)
Lemma foldl_res_total (f : A → B → res A) (P : list B → A → Prop) a l :
  P [] a →
  (∀ seen x rest a, l = seen ++ x :: rest → P seen a →
     ∃ a', f a x = Ok a' ∧ P (seen ++ [x]) a') →
  ∃ r, foldl_res f a l = Ok r ∧ P l r.
Proof.
  intros H0 Hstep.
  assert (∀ rest seen a', l = seen ++ rest → P seen a' →
            ∃ r, foldl_res f a' rest = Ok r ∧ P l r) as Hgen.
  { induction rest as [|x rest IH]; intros seen a' Hl HP.
    - rewrite app_nil_r in Hl. subst. by exists a'.
    - cbn. destruct (Hstep seen x rest a' Hl HP) as (a'' & -> & HP').
      cbn. apply (IH (seen ++ [x])); [by rewrite <-app_assoc|done]. }
  by apply (Hgen l []).
Qed.

End loops.

(** * [detect] and the detections behind it *)

Section detect_trace.
Import Detect UniqueDetect.
Context (threshold : Q) (grid_size : Z) (flux : list image) (y : list grid).

Lemma flat_snoc trs a t : Trace.flat (trs ++ [(a, t)]) = Trace.flat trs ++ t.
Proof.
  unfold Trace.flat. rewrite fmap_app, concat_app. cbn.
  by rewrite app_nil_r.
Qed.

Lemma flags_app ds1 ds2 :
  Trace.flags (ds1 ++ ds2) =
    foldl (fun vf d => flag_update vf (pos d) (brighter d))
          (Trace.flags ds1) ds2.
Proof. unfold Trace.flags. by rewrite foldl_app. Qed.

(** One frame: the loop over the cells against the list of accepted
    detections. *)
Lemma detect_frame_records st a st' trs :
  Trace.records st trs →
  detect_frame threshold grid_size flux y st a = Ok st' →
  ∃ t, Trace.of_frame threshold grid_size flux y a = Ok t ∧
       Trace.records st' (trs ++ [(a, t)]).
Proof.
  intros Hrec. unfold detect_frame, Trace.of_frame.
  destruct (index y a) as [g|]; [cbn|done].
  destruct (index flux a) as [img|]; [cbn|done].
  match goal with
  | |- context [foldl_res ?f (st, ([], 0)) (cells g)] => set (body := f)
  end.
  destruct (foldl_res body (st, ([], 0)) (cells g)) as [s|] eqn:E; [|done].
  cbn. intros [= <-].
  eapply (foldl_res_sim _ _ (fun s t =>
    sources s.1 = sources st ++ (pos <$> t) ∧
    sources_by_frame s.1 = sources_by_frame st ∧
    num_sources s.1 = num_sources st ∧
    frames s.1 = frames st ++ replicate (length t) a ∧
    flux_sign s.1 = flux_sign st ++ (positive <$> t) ∧
    variable_flag s.1 =
      foldl (fun vf d => flag_update vf (pos d) (brighter d))
            (variable_flag st) t ∧
    s.2.1 = pos <$> t ∧ s.2.2 = Z.of_nat (length t))) in E
    as (t & Ht & Hs & Hsbf & Hnum & Hfr & Hsign & Hvf & Hpos & Hn).
  - exists t. split; [exact Ht|].
    destruct Hrec as (R1 & R2 & R3 & R4 & R5 & R6).
    unfold Trace.records. rewrite flat_snoc, !fmap_app, concat_app, flags_app.
    cbn. rewrite app_nil_r.
    rewrite Hs, Hsbf, Hnum, Hfr, Hsign, Hvf, Hpos, Hn.
    by rewrite R1, R2, R3, R4, R5, R6.
  - clear. intros s t m r (Hs & Hsbf & Hnum & Hfr & Hsign & Hvf & Hpos & Hn).
    unfold body. destruct (cell_at g m.1 m.2) as [ch|]; [cbn|done].
    destruct (detect_cell _ _ _ _ _ _) as [[d|]|]; cbn; [| |done].
    + intros [= <-]. eexists. split; [done|]. cbn.
      rewrite !fmap_app, length_app, foldl_app, replicate_add. cbn.
      rewrite Hs, Hsbf, Hnum, Hfr, Hsign, Hvf, Hpos, Hn.
      rewrite <-!(assoc_L (++)). split_and!; try done. lia.
    + intros [= <-]. eexists. split; [done|]. done.
  - cbn. rewrite !app_nil_r. done.
Qed.

(** The loop over the frames. *)
Lemma detect_frames_records l st :
  foldl_res (detect_frame threshold grid_size flux y) start l = Ok st →
  ∃ trs,
    foldl_res (fun acc a =>
      t ← Trace.of_frame threshold grid_size flux y a;
      Ok (acc ++ [(a, t)])) [] l = Ok trs ∧
    Trace.records st trs.
Proof.
  apply (foldl_res_sim _ _ Trace.records).
  - intros s trs a r HR E.
    destruct (detect_frame_records _ _ _ _ HR E) as (t & -> & HR').
    cbn. eauto.
  - by repeat split.
Qed.

(** [detect] succeeds only together with its trace, and its attributes
    are those derived from the trace. *)
Lemma detect_records st :
  detect threshold grid_size flux y = Ok st →
  ∃ trs,
    Trace.of_run threshold grid_size flux y = Ok trs ∧
    sources st = pos <$> Trace.flat trs ∧
    sources_by_frame st = (fun t => sorted (pos <$> t.2)) <$> trs ∧
    variable_flag st = flag_final <$> Trace.flags (Trace.flat trs) ∧
    sourceID st = assign_ids (sources st).
Proof.
  unfold detect.
  destruct (foldl_res _ start _) as [s|] eqn:E; [cbn|done].
  intros [= <-]. cbn.
  apply detect_frames_records in E as (trs & Htr & R1 & R2 & _ & _ & _ & R6).
  exists trs. by rewrite R1, R2, R6.
Qed.



End detect_trace.

(** * Statements on identities, flags and counts *)

Section assigner.
Import Detect.

(** C8. After [detect], [sourceID] gives each distinct detected position
    an identity the first time it is seen in [sources], in first-encounter
    order from 0, and the identities are exactly [0 .. k-1] for the [k]
    distinct positions, without gap or repetition. *)
Theorem sourceID_first_seen_dense threshold grid_size flux y st :
  detect threshold grid_size flux y = Ok st →
  first_seen_dense (sources st) (sourceID st).
Proof.
  intros Hd.
  destruct (detect_records _ _ _ _ _ Hd) as (_ & _ & _ & _ & _ & Hids).
  rewrite Hids. unfold assign_ids, first_seen_dense.
  destruct (ids_loop_inv (sources st))
    as (Hid & Hdom & Hfirst & Hsurj & Hrange & Hinj).
  rewrite <-Hid. split_and!; try done.
  intros l1 c l2 c' l3 Heq Hc Hc'.
  exists (Z.of_nat (distinct l1)), (Z.of_nat (distinct (l1 ++ c :: l2))).
  split_and!.
  - by eapply Hfirst.
  - eapply Hfirst; [|done]. by rewrite Heq, app_comm_cons, app_assoc.
  - apply inj_lt. by apply distinct_prefix_lt.
Qed.

(** The frame of [Examples.peak_image], detected twice at (4,4). *)
Lemma sourceID_first_seen_dense_witness :
  ∃ st, detect (8 # 10) 4 [Examples.peak_image] [Examples.two_cells] = Ok st ∧
        first_seen_dense (sources st) (sourceID st).
Proof.
  eexists. split; [vm_compute; reflexivity|].
  apply (sourceID_first_seen_dense (8 # 10) 4
           [Examples.peak_image] [Examples.two_cells]).
  vm_compute. reflexivity.
Defined.



End assigner.

Section counts.
Import Detect.

Lemma analyse_inv threshold grid_size flux y r :
  Pipeline.analyse threshold grid_size flux y = Ok r →
  detect threshold grid_size flux y = Ok (Pipeline.detected r) ∧
  (Pipeline.close_sources r, Pipeline.close_sources_by_frame r) =
    CloseDetect.close_detect (sources_by_frame (Pipeline.detected r)) ∧
  GroupId.group_and_id (Pipeline.close_sources r)
    (sources (Pipeline.detected r)) = Ok (Pipeline.grouped r).
Proof.
  unfold Pipeline.analyse.
  destruct (detect _ _ _ _) as [st|]; [cbn|done].
  destruct (GroupId.group_and_id _ _) as [o|] eqn:Ho; [cbn|done].
  intros [= <-]. cbn. split_and!; try done.
  by destruct (CloseDetect.close_detect _).
Qed.

Lemma group_and_id_inv cs src o :
  GroupId.group_and_id cs src = Ok o →
  GroupId.group (GroupId.depth cs) cs = Ok (GroupId.groups o) ∧
  GroupId.groupID o = GroupId.IDassign (GroupId.groups o) src ∧
  GroupId.n_detections o = GroupId.get_num_detections src.
Proof.
  unfold GroupId.group_and_id.
  destruct (GroupId.group _ _) as [gs|]; [cbn|done]. by intros [= <-].
Qed.

Lemma occurrences_app c (l1 l2 : list coord) :
  occurrences c (l1 ++ l2) = (occurrences c l1 + occurrences c l2)%nat.
Proof. unfold occurrences. by rewrite filter_app, length_app. Qed.

Lemma occurrences_perm c (l1 l2 : list coord) :
  l1 ≡ₚ l2 → occurrences c l1 = occurrences c l2.
Proof. intros H. unfold occurrences. by rewrite H. Qed.

Lemma occurrences_NoDup c (l : list coord) :
  NoDup l → occurrences c l = if decide (c ∈ l) then 1%nat else 0%nat.
Proof.
  induction 1 as [|x l Hx Hl IH]; [by rewrite decide_False by set_solver|].
  unfold occurrences in *. rewrite filter_cons.
  destruct (decide (c = x)) as [->|Hne]; cbn.
  - rewrite IH, decide_False by done. by rewrite decide_True by set_solver.
  - rewrite IH. destruct (decide (c ∈ l)).
    + by rewrite decide_True by set_solver.
    + by rewrite decide_False by set_solver.
Qed.

Lemma frames_with_cons c (f : list coord) fs :
  frames_with c (f :: fs) =
    ((if decide (c ∈ f) then 1 else 0) + frames_with c fs)%nat.
Proof.
  unfold frames_with. rewrite filter_cons. by destruct (decide (c ∈ f)).
Qed.

(** Without a repeated position inside a frame, occurrences are frames. *)
Lemma occurrences_frames c (ts : list (list coord)) :
  (∀ frame, frame ∈ sorted <$> ts → NoDup frame) →
  occurrences c (concat ts) = frames_with c (sorted <$> ts).
Proof.
  induction ts as [|t ts IH]; intros Hnd; [done|].
  change (concat (t :: ts)) with (t ++ concat ts). rewrite fmap_cons.
  rewrite occurrences_app, frames_with_cons, IH by set_solver.
  f_equal. rewrite <-(occurrences_perm c (sorted t) t)
    by apply merge_sort_Permutation.
  apply occurrences_NoDup, Hnd. set_solver.
Qed.

Lemma records_sources_frames (trs : list (nat * list detection)) :
  pos <$> Trace.flat trs
    = concat ((fun t : nat * list detection => pos <$> t.2) <$> trs) ∧
  (fun t : nat * list detection => sorted (pos <$> t.2)) <$> trs
    = sorted <$> ((fun t : nat * list detection => pos <$> t.2) <$> trs).
Proof.
  split.
  - unfold Trace.flat. induction trs as [|t trs IH]; [done|].
    cbn. by rewrite fmap_app, IH.
  - by rewrite <-list_fmap_compose.
Qed.

(** C7, as the code has it. [n_detections] maps every detected position
    to the number of its entries in the flat list [sources] (one per
    accepted cell), and the counts add up to the length of [sources];
    the count is the number of frames holding the position whenever no
    frame lists a position twice. *)
Theorem n_detections_counts threshold grid_size flux y r :
  Pipeline.analyse threshold grid_size flux y = Ok r →
  let st := Pipeline.detected r in
  let n := GroupId.n_detections (Pipeline.grouped r) in
  (∀ c, c ∈ sources st →
     n !! c = Some (Z.of_nat (occurrences c (sources st)))) ∧
  (∀ c, c ∉ sources st → n !! c = None) ∧
  total n = Z.of_nat (length (sources st)) ∧
  ((∀ frame, frame ∈ sources_by_frame st → NoDup frame) →
     ∀ c, occurrences c (sources st) = frames_with c (sources_by_frame st)).
Proof.
  intros Hrun st n. apply analyse_inv in Hrun as (Hd & _ & Hg).
  apply group_and_id_inv in Hg as (_ & _ & Hn).
  subst n st. rewrite Hn. split_and!.
  - intros c Hc. rewrite get_num_detections_lookup. by rewrite decide_True.
  - intros c Hc. rewrite get_num_detections_lookup. by rewrite decide_False.
  - apply get_num_detections_total.
  - destruct (detect_records _ _ _ _ _ Hd) as (trs & _ & -> & -> & _).
    destruct (records_sources_frames trs) as [-> ->].
    intros Hnd c. by apply occurrences_frames.
Qed.

Lemma n_detections_counts_witness :
  ∃ r, Pipeline.analyse (8 # 10) 4
         [Examples.peak_image] [Examples.two_cells] = Ok r ∧
       let st := Pipeline.detected r in
       let n := GroupId.n_detections (Pipeline.grouped r) in
       (∀ c, c ∈ sources st →
          n !! c = Some (Z.of_nat (occurrences c (sources st)))) ∧
       (∀ c, c ∉ sources st → n !! c = None) ∧
       total n = Z.of_nat (length (sources st)) ∧
       ((∀ frame, frame ∈ sources_by_frame st → NoDup frame) →
          ∀ c, occurrences c (sources st)
               = frames_with c (sources_by_frame st)).
Proof.
  eexists. split; [vm_compute; reflexivity|].
  apply (n_detections_counts (8 # 10) 4
           [Examples.peak_image] [Examples.two_cells]).
  vm_compute. reflexivity.
Defined.

(** C7 as stated fails: one frame, two cells refined to the same peak
    pixel; the position is counted twice although one frame holds it. *)
Lemma n_detections_not_frames :
  ∃ r, Pipeline.analyse (8 # 10) 4
         [Examples.peak_image] [Examples.two_cells] = Ok r ∧
       (4, 4) ∈ sources (Pipeline.detected r) ∧
       GroupId.n_detections (Pipeline.grouped r) !! (4, 4) = Some 2 ∧
       frames_with (4, 4) (sources_by_frame (Pipeline.detected r)) = 1%nat.
Proof.
  eexists. split; [vm_compute; reflexivity|].
  split_and!; [|vm_compute; reflexivity..].
  cbn. left.
Qed.

End counts.

(** * [unique_detect] *)

Section unique.

(** The frame of the example: two detections one pixel apart. *)
Example pair_detected :
  Detect.sources_by_frame <$>
    Detect.detect (8 # 10) 4 [Examples.pair_image] [Examples.pair_grid]
  = Ok [[(10, 10); (11, 11)]].
Proof. vm_compute. reflexivity. Qed.

Example pair_close_groups :
  CloseDetect.close_detect [[(10, 10); (11, 11)]]
  = ([[(10, 10); (11, 11)]], [[[(10, 10); (11, 11)]]]).
Proof. vm_compute. reflexivity. Qed.

(** C2 on the code. One frame with one close-group of two detections:
    the selector is to keep [(10,10)] alone, but the loop of line 192
    runs over the length of the group [close_sources[0]] instead of the
    number of groups of the frame, and the second index is out of
    range. *)
Theorem unique_detect_pair_raises :
  Pipeline.detect_unique (8 # 10) 4
    [Examples.pair_image] [Examples.pair_grid] = Raise IndexError ∧
  UniqueDetect.unique_detect [[(10, 10); (11, 11)]]
    [[(10, 10); (11, 11)]] [[[(10, 10); (11, 11)]]] = Raise IndexError ∧
  unique_of [(10, 10); (11, 11)] [[(10, 10); (11, 11)]] = [(10, 10)].
Proof. split_and!; vm_compute; reflexivity. Qed.

(** Three groups of two in one frame: the same bound (2) stops before
    the third group, whose second member is kept. *)
Example unique_detect_misses_group :
  let frame := [(10, 10); (11, 11); (30, 30); (31, 31); (50, 50); (51, 51)] in
  let cd := CloseDetect.close_detect [frame] in
  UniqueDetect.unique_detect [frame] cd.1 cd.2
    = Ok [[(10, 10); (30, 30); (50, 50); (51, 51)]] ∧
  unique_of frame (default [] (head cd.2)) = [(10, 10); (30, 30); (50, 50)].
Proof. split; vm_compute; reflexivity. Qed.

End unique.

(** * [close_detect] *)

Section pure_loops.
Context {A B : Type}.

(** An invariant of a [for] loop, indexed by the entries already seen. *)
Lemma foldl_inv (f : A → B → A) (P : list B → A → Prop) a l :
  P [] a →
  (∀ seen x rest a, l = seen ++ x :: rest → P seen a →
                    P (seen ++ [x]) (f a x)) →
  P l (foldl f a l).
Proof.
  intros H0 Hstep.
  assert (∀ rest seen a', l = seen ++ rest → P seen a' →
            P l (foldl f a' rest)) as Hgen.
  { induction rest as [|x rest IH]; intros seen a' Hl HP.
    - rewrite app_nil_r in Hl. by subst.
    - cbn. apply (IH (seen ++ [x])).
      + by rewrite <-app_assoc.
      + by eapply Hstep. }
  by apply (Hgen l []).
Qed.

Lemma elem_of_concat (x : A) (ls : list (list A)) :
  x ∈ concat ls ↔ ∃ l, l ∈ ls ∧ x ∈ l.
Proof.
  induction ls as [|l ls IH]; cbn.
  - split; [by intros ?%elem_of_nil|by intros (? & ?%elem_of_nil & _)].
  - rewrite elem_of_app, IH. split.
    + intros [?|(l' & ? & ?)]; [exists l|exists l']; set_solver.
    + intros (l' & [->|?]%elem_of_cons & ?); eauto.
Qed.

End pure_loops.

Section sorting.
Implicit Types (l : list coord) (p q : coord).

Global Instance coord_le_trans : Transitive coord_le.
Proof. intros [??] [??] [??]; unfold coord_le; cbn; lia. Qed.

Global Instance coord_le_total : Total coord_le.
Proof. intros [??] [??]; unfold coord_le; cbn; lia. Qed.

Global Instance coord_le_antisymm : AntiSymm (=) coord_le.
Proof.
  intros [a b] [c d]; unfold coord_le; cbn. intros H1 H2.
  f_equal; lia.
Qed.

Lemma sorted_perm l : sorted l ≡ₚ l.
Proof. apply merge_sort_Permutation. Qed.

Lemma elem_of_sorted l p : p ∈ sorted l ↔ p ∈ l.
Proof. by rewrite sorted_perm. Qed.

Lemma sorted_length l : length (sorted l) = length l.
Proof. by rewrite sorted_perm. Qed.

(** Sorting forgets the order of its argument. *)
Lemma sorted_unique l1 l2 : l1 ≡ₚ l2 → sorted l1 = sorted l2.
Proof.
  intros H. apply (Sorted_unique coord_le).
  - apply Sorted_merge_sort; apply _.
  - apply Sorted_merge_sort; apply _.
  - by rewrite !sorted_perm.
Qed.

Lemma sorted_nil_inv l : sorted l = [] → l = [].
Proof.
  intros H. apply Permutation_nil_r. rewrite <-H. symmetry. apply sorted_perm.
Qed.

End sorting.

Section close_lists.
Import CloseDetect.
Implicit Types (frame l : list coord) (co : list (list coord)) (p q c : coord).

Lemma mem_true {A} `{EqDecision A} (x : A) (l : list A) :
  mem x l = true ↔ x ∈ l.
Proof. unfold mem. by rewrite bool_decide_eq_true. Qed.

Lemma enumerate_lookup {A} (l : list A) i :
  enumerate l !! i = (fun x => (i, x)) <$> l !! i.
Proof. unfold enumerate. apply list_lookup_imap. Qed.

Lemma elem_of_enumerate {A} (l : list A) i x :
  (i, x) ∈ enumerate l ↔ l !! i = Some x.
Proof.
  rewrite list_elem_of_lookup. split.
  - intros [k Hk]. rewrite enumerate_lookup in Hk.
    destruct (l !! k) eqn:E; cbn in Hk; [|done]. by injection Hk as -> ->.
  - intros H. exists i. by rewrite enumerate_lookup, H.
Qed.

Lemma enumerate_snd {A} (l : list A) : (enumerate l).*2 = l.
Proof.
  apply list_eq. intros i. rewrite list_lookup_fmap, enumerate_lookup.
  by destruct (l !! i).
Qed.

Lemma enumerate_length {A} (l : list A) : length (enumerate l) = length l.
Proof. unfold enumerate. apply length_imap. Qed.

(** What is ahead of an entry of [enumerate l] has its length as index. *)
Lemma enumerate_split {A} (l : list A) seen i x rest :
  enumerate l = seen ++ (i, x) :: rest →
  i = length seen ∧ l !! i = Some x ∧
  (length seen + S (length rest) = length l)%nat.
Proof.
  intros H.
  assert (enumerate l !! length seen = Some (i, x)) as Hl
    by (rewrite H; apply list_lookup_middle; done).
  rewrite enumerate_lookup in Hl.
  destruct (l !! length seen) as [y|] eqn:E; cbn in Hl; [|done].
  injection Hl as <- <-. split_and!; [done|done|].
  rewrite <-(enumerate_length l), H, length_app. cbn. lia.
Qed.

(** *** [absorb] *)

Lemma elem_of_absorb src dst c : c ∈ absorb src dst ↔ c ∈ dst ∨ c ∈ src.
Proof.
  unfold absorb. revert dst. induction src as [|x src IH]; intros dst; cbn.
  - set_solver.
  - rewrite IH. destruct (mem x dst) eqn:E.
    + apply mem_true in E. set_solver.
    + set_solver.
Qed.

Lemma NoDup_absorb src dst : NoDup dst → NoDup (absorb src dst).
Proof.
  unfold absorb. revert dst. induction src as [|x src IH]; intros dst Hd; cbn.
  - done.
  - apply IH. destruct (mem x dst) eqn:E; [done|].
    apply NoDup_app. split_and!; [done| |apply NoDup_singleton].
    intros y Hy ->%list_elem_of_singleton.
    apply mem_true in Hy. congruence.
Qed.

(** *** The adjacency lists *)

(** The inner loop of lines 146-149 only extends the list of row [i]. *)
Lemma adjacency_row_gen i p (l : list (nat * coord)) co ci :
  co !! i = Some ci →
  foldl (fun co jq =>
    if negb (i =? jq.1)%nat && is_close p jq.2
    then append_at co i jq.2 else co) co l
  = <[i := ci ++ (filter (fun jq => jq.1 ≠ i ∧ is_close p jq.2 = true) l).*2]> co.
Proof.
  revert co ci. induction l as [|[j q] l IH]; intros co ci Hi; cbn [foldl].
  - rewrite filter_nil. cbn. rewrite app_nil_r. by rewrite list_insert_id.
  - assert (i < length co)%nat as Hlt by (by eapply lookup_lt_Some).
    cbn [fst snd].
    destruct (negb (i =? j)%nat && is_close p q) eqn:E.
    + apply andb_true_iff in E as [E1 E2].
      apply negb_true_iff, Nat.eqb_neq in E1.
      unfold append_at. rewrite Hi.
      erewrite IH by (by apply list_lookup_insert_eq).
      rewrite list_insert_insert_eq, filter_cons_True by (cbn; split; done).
      cbn. by rewrite <-app_assoc.
    + rewrite filter_cons_False; [by apply IH|].
      cbn. intros [H1 H2]. apply andb_false_iff in E as [E|E].
      * apply negb_false_iff, Nat.eqb_eq in E. done.
      * congruence.
Qed.

Lemma adjacency_inv frame :
  length (adjacency frame) = length frame ∧
  ∀ k x, frame !! k = Some x →
    adjacency frame !! k =
      Some (filter (fun jq => jq.1 ≠ k ∧ is_close x jq.2 = true)
              (enumerate frame)).*2.
Proof.
  pose (P := fun (seen : list (nat * coord)) co =>
    length co = length frame ∧
    ∀ k x, frame !! k = Some x →
      co !! k =
        Some (if decide (k < length seen)%nat
              then (filter (fun jq => jq.1 ≠ k ∧ is_close x jq.2 = true)
                      (enumerate frame)).*2
              else [])).
  assert (P (enumerate frame) (adjacency frame)) as [Hlen HP].
  { unfold adjacency. apply (foldl_inv _ P).
    - split; [by rewrite length_replicate|]. intros k x Hk. cbn.
      apply lookup_replicate_2. by eapply lookup_lt_Some.
    - intros seen [k x] rest co Hsplit [Hlen Hco].
      apply enumerate_split in Hsplit as (-> & Hx & _).
      pose proof (Hco _ _ Hx) as Hrow. rewrite decide_False in Hrow by lia.
      unfold adjacency_row. cbn [fst snd].
      rewrite (adjacency_row_gen _ _ _ _ _ Hrow). cbn [app].
      split; [by rewrite length_insert|].
      intros k y Hy. rewrite length_app. cbn [length].
      destruct (decide (k = length seen)) as [->|Hne].
      + rewrite list_lookup_insert_eq by (rewrite Hlen; by eapply lookup_lt_Some).
        rewrite decide_True by lia. by simplify_eq.
      + rewrite list_lookup_insert_ne by done. rewrite (Hco _ _ Hy).
        destruct (decide (k < length seen)%nat).
        * by rewrite decide_True by lia.
        * by rewrite decide_False by lia. }
  split; [done|]. intros k x Hk. rewrite (HP k x Hk), decide_True; [done|].
  rewrite enumerate_length. by eapply lookup_lt_Some.
Qed.

(** With no repeated position, the adjacency lists are as required. *)
Lemma adjacency_ok frame : NoDup frame → lists_ok frame (adjacency frame).
Proof.
  intros Hnd. destruct (adjacency_inv frame) as [Hlen Hadj].
  assert (∀ i p c, frame !! i = Some p →
            (c ∈ (filter (fun jq => jq.1 ≠ i ∧ is_close p jq.2 = true)
                    (enumerate frame)).*2 ↔ adj frame p c)) as Hmem.
  { intros i p c Hp. rewrite list_elem_of_fmap. split.
    - intros ([j q] & -> & [[Hj Hc] Hin]%list_elem_of_filter). cbn in *.
      apply elem_of_enumerate in Hin.
      split_and!; [by eapply list_elem_of_lookup_2
                  |by eapply list_elem_of_lookup_2| |done].
      intros ->. apply Hj. by eapply NoDup_lookup.
    - intros (_ & [j Hj]%list_elem_of_lookup & Hne & Hc).
      exists (j, c). split; [done|]. apply list_elem_of_filter. cbn.
      split; [|by apply elem_of_enumerate].
      split; [|done]. intros ->. congruence. }
  split_and!; [done|..].
  - intros i p c Hp Ha. eexists. split; [by apply Hadj|]. by apply Hmem.
  - intros i p ci c Hp Hci Hc. rewrite (Hadj _ _ Hp) in Hci.
    injection Hci as <-. apply Hmem in Hc; [|done].
    split; [by apply rtc_once|eauto].
  - intros i ci Hci.
    destruct (lookup_lt_is_Some_2 frame i) as [p Hp].
    { rewrite <-Hlen. by eapply lookup_lt_Some. }
    rewrite (Hadj _ _ Hp) in Hci. injection Hci as <-.
    apply (sublist_NoDup _ frame); [exact Hnd|].
    rewrite <-(enumerate_snd frame) at 2.
    apply fmap_sublist, sublist_filter.
Qed.

(** *** The merge pass *)

Lemma is_close_sym p q : is_close p q = is_close q p.
Proof.
  unfold is_close.
  assert (∀ a b, Z.abs (a - b) = Z.abs (b - a)) as H by lia.
  by rewrite (H (p.1)), (H (p.2)).
Qed.

Lemma adj_sym frame p q : adj frame p q → adj frame q p.
Proof.
  intros (? & ? & ? & ?). split_and!; try done. by rewrite is_close_sym.
Qed.

Lemma chained_sym frame p q : chained frame p q → chained frame q p.
Proof.
  induction 1 as [|x y z Hxy _ IH]; [done|].
  eapply rtc_r; [exact IH|]. by apply adj_sym.
Qed.

(** A list that holds [u] and is closed holds what is chained to [u]. *)
Lemma closed_chained frame co x cx u c :
  closed_for frame frame co → co !! x = Some cx →
  u ∈ cx → u ∈ frame → chained frame u c → c ∈ cx.
Proof.
  intros Hcl Hx Hu Hf Hch. induction Hch as [|u v w Huv _ IH]; [done|].
  apply IH.
  - by eapply Hcl.
  - by destruct Huv as (_ & ? & _).
Qed.

(** One test of line 155, with its merge. *)
Lemma merge_step_ok frame done i p j co :
  frame !! i = Some p → lists_ok frame co → closed_for frame done co →
  lists_ok frame (merge_step p i j co) ∧
  closed_for frame done (merge_step p i j co) ∧
  (∀ cx c, merge_step p i j co !! j = Some cx → p ∈ cx →
           adj frame p c → c ∈ cx) ∧
  (∀ x, x ≠ j → merge_step p i j co !! x = co !! x).
Proof.
  intros Hp (Hlen & Hcov & Hsound & Hnd) Hcl.
  assert (lists_ok frame co) as Hok by done.
  unfold merge_step.
  destruct (decide (i = j)) as [<-|Hij].
  { rewrite Nat.eqb_refl. cbn. split_and!; try done.
    intros cx c Hcx _ Ha. destruct (Hcov _ _ _ Hp Ha) as (ci & Hci & Hc).
    congruence. }
  apply Nat.eqb_neq in Hij as Hb. rewrite Hb. cbn.
  destruct (co !! i) as [ci|] eqn:Hci; cycle 1.
  { exfalso. apply lookup_ge_None in Hci.
    apply lookup_lt_Some in Hp. lia. }
  destruct (co !! j) as [cj|] eqn:Hcj; cycle 1.
  { split_and!; try done. intros cx c Hcx. congruence. }
  destruct (mem p cj) eqn:Hmem; cycle 1.
  { split_and!; try done. intros cx c Hcx Hin. exfalso.
    assert (cx = cj) as -> by congruence.
    apply mem_true in Hin. congruence. }
  apply mem_true in Hmem.
  assert (j < length co)%nat as Hj by (by eapply lookup_lt_Some).
  split_and!.
  - split_and!.
    + by rewrite length_insert.
    + intros k x c Hx Ha. destruct (Hcov _ _ _ Hx Ha) as (ck & Hck & Hc).
      destruct (decide (k = j)) as [->|Hne].
      * rewrite list_lookup_insert_eq by done. eexists. split; [done|].
        apply elem_of_absorb. left. congruence.
      * rewrite list_lookup_insert_ne by done. eauto.
    + intros k x ck c Hx Hck Hc.
      destruct (decide (k = j)) as [->|Hne].
      * rewrite list_lookup_insert_eq in Hck by done. injection Hck as <-.
        destruct (Hsound _ _ _ _ Hx Hcj Hmem) as [Hxp Hq].
        split; [|done].
        apply elem_of_absorb in Hc as [Hc|Hc].
        -- by eapply Hsound.
        -- etrans; [exact Hxp|]. by eapply (Hsound i).
      * rewrite list_lookup_insert_ne in Hck by done. by eapply Hsound.
    + intros k ck Hck.
      destruct (decide (k = j)) as [->|Hne].
      * rewrite list_lookup_insert_eq in Hck by done. injection Hck as <-.
        apply NoDup_absorb. by eapply Hnd.
      * rewrite list_lookup_insert_ne in Hck by done. by eapply Hnd.
  - intros x cx u c Hu Hcx Hin Ha.
    destruct (decide (x = j)) as [->|Hne].
    + rewrite list_lookup_insert_eq in Hcx by done. injection Hcx as <-.
      apply elem_of_absorb. apply elem_of_absorb in Hin as [Hin|Hin].
      * left. by eapply Hcl.
      * right. by eapply Hcl.
    + rewrite list_lookup_insert_ne in Hcx by done. by eapply Hcl.
  - intros cx c Hcx _ Ha.
    rewrite list_lookup_insert_eq in Hcx by done. injection Hcx as <-.
    apply elem_of_absorb. right.
    destruct (Hcov _ _ _ Hp Ha) as (ci' & Hci' & Hc). congruence.
  - intros x Hne. by rewrite list_lookup_insert_ne.
Qed.

(** One turn of the outer loop of line 152. *)
Lemma merge_row_ok frame done i p co :
  frame !! i = Some p → lists_ok frame co → closed_for frame done co →
  lists_ok frame (merge_row (length frame) co (i, p)) ∧
  closed_for frame (done ++ [p]) (merge_row (length frame) co (i, p)).
Proof.
  intros Hp Hok Hcl. unfold merge_row. cbn [fst snd].
  pose (P := fun (seen : list nat) co' =>
    lists_ok frame co' ∧ closed_for frame done co' ∧
    ∀ x cx c, x ∈ seen → co' !! x = Some cx → p ∈ cx →
              adj frame p c → c ∈ cx).
  assert (P (seq 0 (length frame))
            (foldl (fun co j => merge_step p i j co) co
               (seq 0 (length frame)))) as (Hok' & Hcl' & Hrow).
  { apply (foldl_inv _ P).
    - split_and!; try done. intros x cx c Hx. by apply elem_of_nil in Hx.
    - intros seen j rest co' Hsplit (Hok' & Hcl' & Hrow).
      destruct (merge_step_ok frame done i p j co' Hp Hok' Hcl')
        as (Hok2 & Hcl2 & Hj & Hother).
      split_and!; try done.
      intros x cx c [Hx|Hx]%elem_of_app Hcx Hin Ha.
      + assert (x ≠ j) as Hne.
        { intros ->. pose proof (NoDup_seq 0 (length frame)) as Hnd.
          rewrite Hsplit in Hnd. apply NoDup_app in Hnd as (_ & Hnd & _).
          apply (Hnd j); [done|left]. }
        rewrite Hother in Hcx by done. by eapply Hrow.
      + apply list_elem_of_singleton in Hx as ->. by eapply Hj. }
  split; [done|].
  intros x cx u c [Hu|Hu]%elem_of_app Hcx Hin Ha.
  - by eapply Hcl'.
  - apply list_elem_of_singleton in Hu as ->.
    eapply (Hrow x); try done. apply elem_of_seq.
    destruct Hok' as (Hlen & _). apply lookup_lt_Some in Hcx. lia.
Qed.

(** After the pass every list is closed under neighbours. *)
Lemma merge_pass_ok frame :
  NoDup frame →
  lists_ok frame (merge_pass frame (adjacency frame)) ∧
  closed_for frame frame (merge_pass frame (adjacency frame)).
Proof.
  intros Hnd. pose proof (adjacency_ok frame Hnd) as Hok0.
  unfold merge_pass. destruct Hok0 as (Hlen & Hrest).
  rewrite Hlen.
  pose (P := fun (seen : list (nat * coord)) co =>
    lists_ok frame co ∧ closed_for frame seen.*2 co).
  assert (P (enumerate frame)
            (foldl (merge_row (length frame)) (adjacency frame)
               (enumerate frame))) as [Hok Hcl].
  { apply (foldl_inv _ P).
    - split; [by split|]. intros x cx u c Hu. by apply elem_of_nil in Hu.
    - intros seen [i p] rest co Hsplit [Hok Hcl].
      apply enumerate_split in Hsplit as (_ & Hp & _).
      destruct (merge_row_ok frame seen.*2 i p co Hp Hok Hcl) as [H1 H2].
      split; [done|]. by rewrite fmap_app. }
  split; [done|]. by rewrite enumerate_snd in Hcl.
Qed.

(** *** The groups of a frame *)

Lemma dedup_inv co :
  NoDup (dedup co) ∧
  ∀ g, g ∈ dedup co ↔ ∃ l, l ∈ co ∧ l ≠ [] ∧ g = sorted l.
Proof.
  unfold dedup.
  apply (foldl_inv _ (fun seen acc =>
    NoDup acc ∧ ∀ g, g ∈ acc ↔ ∃ l, l ∈ seen ∧ l ≠ [] ∧ g = sorted l)).
  - split; [constructor|]. intros g. split.
    + intros H. by apply elem_of_nil in H.
    + intros (l & H & _). by apply elem_of_nil in H.
  - intros seen l rest acc _ [Hnd Hacc].
    destruct ((0 <? length l)%nat && negb (mem (sorted l) acc)) eqn:E.
    + apply andb_true_iff in E as [E1 E2]. apply Nat.ltb_lt in E1.
      apply negb_true_iff in E2.
      assert (sorted l ∉ acc) as Hnew.
      { intros H. apply mem_true in H. congruence. }
      split.
      * apply NoDup_app. split_and!; [done| |apply NoDup_singleton].
        by intros x Hx ->%list_elem_of_singleton.
      * intros g. rewrite elem_of_app, list_elem_of_singleton, Hacc. split.
        -- intros [(l' & ? & ? & ?)| ->].
           ++ exists l'. set_solver.
           ++ exists l. split_and!; [set_solver| |done].
              intros ->. cbn in E1. lia.
        -- intros (l' & [?| ->%list_elem_of_singleton]%elem_of_app & ? & ->);
             eauto.
    + split; [done|]. intros g. rewrite Hacc. split.
      * intros (l' & ? & ? & ?). exists l'. set_solver.
      * intros (l' & [?|Hl']%elem_of_app & Hne & ->); [eauto|].
        apply list_elem_of_singleton in Hl'. subst l'.
        apply andb_false_iff in E as [E|E].
        -- apply Nat.ltb_ge in E. destruct l; [done|cbn in E; lia].
        -- apply negb_false_iff, mem_true in E. by apply Hacc.
Qed.

Lemma close_detect_eq (sbf : list (list coord)) :
  close_detect sbf =
    (concat ((fun frame => nonempty_groups (close_frame frame)) <$> sbf),
     close_frame <$> sbf).
Proof.
  unfold close_detect. induction sbf as [|frame sbf IH] using rev_ind; [done|].
  rewrite foldl_app, IH, !fmap_app, concat_app. cbn. by rewrite app_nil_r.
Qed.

(** A group of a frame without repeated position is the sorted list of a
    detection that has a neighbour, and holds the detection and all that
    is chained to it. *)
Lemma close_frame_group frame g :
  NoDup frame → g ∈ close_frame frame →
  ∃ p q, adj frame p q ∧ NoDup g ∧ sorted g = g ∧
         ∀ c, c ∈ g ↔ chained frame p c.
Proof.
  intros Hnd Hg. unfold close_frame in Hg.
  destruct (merge_pass_ok frame Hnd) as [Hok Hcl].
  destruct Hok as (Hlen & Hcov & Hsound & Hnodup).
  apply dedup_inv in Hg as (l & [i Hi]%list_elem_of_lookup & Hne & ->).
  destruct (lookup_lt_is_Some_2 frame i) as [p Hp].
  { rewrite <-Hlen. by eapply lookup_lt_Some. }
  destruct l as [|c0 l0]; [done|].
  destruct (Hsound _ _ _ c0 Hp Hi) as [_ [q Hq]]; [left|].
  exists p, q. split_and!; [done| | |].
  - rewrite sorted_perm. by eapply Hnodup.
  - apply sorted_unique, sorted_perm.
  - intros c. rewrite elem_of_sorted. split.
    + intros Hc. by eapply Hsound.
    + intros Hc.
      destruct (Hcov _ _ _ Hp Hq) as (ci & Hci & Hqi).
      assert (ci = c0 :: l0) as -> by congruence.
      assert (p ∈ c0 :: l0) as Hpi.
      { eapply Hcl; [|exact Hi|exact Hqi|by apply adj_sym].
        by destruct Hq as (_ & ? & _). }
      eapply closed_chained; try done. by destruct Hq as (? & _).
Qed.

(** Whatever the frame, a group is not empty and holds detections of the
    frame only. *)
Lemma merge_step_members frame p i j co :
  (∀ k ck c, co !! k = Some ck → c ∈ ck → c ∈ frame) →
  ∀ k ck c, merge_step p i j co !! k = Some ck → c ∈ ck → c ∈ frame.
Proof.
  intros H. unfold merge_step.
  destruct (negb (i =? j)%nat); [|done].
  destruct (co !! i) as [ci|] eqn:Hi; [|done].
  destruct (co !! j) as [cj|] eqn:Hj; [|done].
  destruct (mem p cj); [|done].
  intros k ck c Hk Hc. destruct (decide (k = j)) as [->|Hne].
  - rewrite list_lookup_insert_eq in Hk by (by eapply lookup_lt_Some).
    injection Hk as <-. apply elem_of_absorb in Hc as [Hc|Hc]; eauto.
  - rewrite list_lookup_insert_ne in Hk by done. eauto.
Qed.

Lemma merge_pass_members frame k ck c :
  merge_pass frame (adjacency frame) !! k = Some ck → c ∈ ck → c ∈ frame.
Proof.
  revert k ck c. unfold merge_pass.
  apply (foldl_inv _ (fun _ co =>
    ∀ k ck c, co !! k = Some ck → c ∈ ck → c ∈ frame)).
  - intros k ck c Hk Hc. destruct (adjacency_inv frame) as [Hlen Hadj].
    destruct (lookup_lt_is_Some_2 frame k) as [x Hx].
    { rewrite <-Hlen. by eapply lookup_lt_Some. }
    rewrite (Hadj _ _ Hx) in Hk. injection Hk as <-.
    apply list_elem_of_fmap in Hc as ([j q] & -> & [_ Hin]%list_elem_of_filter).
    apply elem_of_enumerate in Hin. by eapply list_elem_of_lookup_2.
  - intros _ [i p] _ co _ H. unfold merge_row. cbn [fst snd].
    apply (foldl_inv _ (fun _ co =>
      ∀ k ck c, co !! k = Some ck → c ∈ ck → c ∈ frame)); [exact H|].
    intros _ j _ co' _ H'. by apply merge_step_members.
Qed.

Lemma close_frame_members frame g :
  g ∈ close_frame frame → g ≠ [] ∧ ∀ c, c ∈ g → c ∈ frame.
Proof.
  unfold close_frame.
  intros (l & [k Hk]%list_elem_of_lookup & Hne & ->)%dedup_inv. split.
  - by intros ?%sorted_nil_inv.
  - intros c Hc. rewrite elem_of_sorted in Hc.
    exact (merge_pass_members _ _ _ _ Hk Hc).
Qed.

Lemma nonempty_groups_id (gs : list (list coord)) :
  (∀ g, g ∈ gs → g ≠ []) → nonempty_groups gs = gs.
Proof.
  unfold nonempty_groups. induction gs as [|g gs IH]; intros H; [done|].
  rewrite filter_cons_True, IH; [done|set_solver|].
  assert (g ≠ []) by (apply H; left). destruct g; [done|cbn; lia].
Qed.

(** [close_sources] lists the groups of all frames. *)
Lemma close_sources_concat (sbf : list (list coord)) :
  (close_detect sbf).1 = concat (close_detect sbf).2.
Proof.
  rewrite close_detect_eq. cbn [fst snd]. f_equal.
  induction sbf as [|frame sbf IH]; [done|].
  rewrite !fmap_cons, IH. f_equal.
  apply nonempty_groups_id. by intros g [Hne _]%close_frame_members.
Qed.

Lemma close_sources_members (sbf : list (list coord)) g :
  g ∈ (close_detect sbf).1 →
  g ≠ [] ∧ ∃ frame, frame ∈ sbf ∧ ∀ c, c ∈ g → c ∈ frame.
Proof.
  rewrite close_sources_concat, close_detect_eq. cbn [snd].
  intros (gs & (frame & -> & Hf)%list_elem_of_fmap & Hg)%elem_of_concat.
  apply close_frame_members in Hg as [? ?]. eauto.
Qed.

End close_lists.

Section close_groups.
Import CloseDetect.

(** C10, as the code has it. When no frame lists a position twice, every
    close-group that [close_detect] puts into [close_sources] and
    [close_sources_by_frame] holds at least two different positions: the
    detection it was built for and a neighbour of it. *)
Theorem close_groups_have_two (sbf : list (list coord)) :
  (∀ frame, frame ∈ sbf → NoDup frame) →
  (∀ g, g ∈ (close_detect sbf).1 → has_two g) ∧
  (∀ gs g, gs ∈ (close_detect sbf).2 → g ∈ gs → has_two g).
Proof.
  intros Hnd. rewrite close_detect_eq. cbn [fst snd].
  assert (∀ frame g, frame ∈ sbf → g ∈ close_frame frame → has_two g) as H.
  { intros frame g Hf Hg.
    destruct (close_frame_group frame g (Hnd _ Hf) Hg)
      as (p & q & Ha & _ & _ & Hmem).
    exists p, q. split_and!.
    - by apply Hmem.
    - by apply Hmem, rtc_once.
    - by destruct Ha as (_ & _ & ? & _). }
  split.
  - intros g (gs & Hgs & Hin)%elem_of_concat.
    apply list_elem_of_fmap in Hgs as (frame & -> & Hf).
    apply list_elem_of_filter in Hin as [_ Hin]. eauto.
  - intros gs g (frame & -> & Hf)%list_elem_of_fmap Hg. eauto.
Qed.

(** One frame with two detections one pixel apart. *)
Lemma close_groups_have_two_witness :
  (∀ frame, frame ∈ [[(10, 10); (11, 11)]] → NoDup frame) ∧
  (∀ g, g ∈ (close_detect [[(10, 10); (11, 11)]]).1 → has_two g) ∧
  (∀ gs g, gs ∈ (close_detect [[(10, 10); (11, 11)]]).2 → g ∈ gs →
           has_two g).
Proof.
  assert (∀ frame : list coord,
            frame ∈ [[(10, 10); (11, 11)]] → NoDup frame) as H.
  { intros frame ->%list_elem_of_singleton.
    apply (bool_decide_unpack _). vm_compute. reflexivity. }
  split; [exact H|]. exact (close_groups_have_two _ H).
Defined.

(** C10 as stated fails: two cells of one frame refine to the same peak
    pixel, the frame lists it twice, and its only close-group is that one
    position. *)
Lemma close_group_of_one :
  ∃ st, Detect.detect (8 # 10) 4
          [Examples.peak_image] [Examples.two_cells] = Ok st ∧
        Detect.sources_by_frame st = [[(4, 4); (4, 4)]] ∧
        close_detect (Detect.sources_by_frame st)
          = ([[(4, 4)]], [[[(4, 4)]]]) ∧
        ¬ has_two [(4, 4)].
Proof.
  eexists. split; [vm_compute; reflexivity|].
  split_and!; [vm_compute; reflexivity..|].
  intros (p & q & ->%list_elem_of_singleton & ->%list_elem_of_singleton & H).
  done.
Qed.

(** C5, as the code has it. In a frame that lists no position twice, no
    position lies in two close-groups of the frame. *)
Theorem close_groups_disjoint (sbf : list (list coord)) s frame :
  sbf !! s = Some frame → NoDup frame →
  ∃ gs, (close_detect sbf).2 !! s = Some gs ∧ disjoint_groups gs.
Proof.
  intros Hs Hnd. rewrite close_detect_eq. cbn [snd].
  exists (close_frame frame). split; [by rewrite list_lookup_fmap, Hs|].
  intros i j g1 g2 c Hi Hj Hc1 Hc2.
  destruct (close_frame_group frame g1 Hnd)
    as (p1 & _ & _ & Hnd1 & Hs1 & Hm1); [by eapply list_elem_of_lookup_2|].
  destruct (close_frame_group frame g2 Hnd)
    as (p2 & _ & _ & Hnd2 & Hs2 & Hm2); [by eapply list_elem_of_lookup_2|].
  assert (g1 = g2) as <-.
  { rewrite <-Hs1, <-Hs2. apply sorted_unique.
    apply NoDup_Permutation; [done..|].
    apply Hm1 in Hc1. apply Hm2 in Hc2.
    intros x. rewrite Hm1, Hm2. split; intros Hx.
    - etrans; [exact Hc2|]. etrans; [|exact Hx]. by apply chained_sym.
    - etrans; [exact Hc1|]. etrans; [|exact Hx]. by apply chained_sym. }
  eapply NoDup_lookup; [|exact Hi|exact Hj].
  unfold close_frame. apply dedup_inv.
Qed.

(** One frame with a close pair and a lone detection. *)
Lemma close_groups_disjoint_witness :
  [[(10, 10); (11, 11); (30, 30)]] !! 0%nat
    = Some [(10, 10); (11, 11); (30, 30)] ∧
  NoDup [(10, 10); (11, 11); (30, 30)] ∧
  ∃ gs, (close_detect [[(10, 10); (11, 11); (30, 30)]]).2 !! 0%nat = Some gs ∧
        disjoint_groups gs.
Proof.
  assert (NoDup [(10, 10); (11, 11); (30, 30)]) as H.
  { apply (bool_decide_unpack _). vm_compute. reflexivity. }
  split; [reflexivity|]. split; [exact H|].
  exact (close_groups_disjoint [[(10, 10); (11, 11); (30, 30)]] 0%nat
           [(10, 10); (11, 11); (30, 30)] eq_refl H).
Defined.

(** C5 as stated fails: a frame that lists (4,4) twice next to (8,8) gets
    two different groups, and both hold (4,4). *)
Lemma close_groups_overlap :
  ∃ st, Detect.detect (8 # 10) 4
          [Examples.trio_image] [Examples.trio_grid] = Ok st ∧
        Detect.sources_by_frame st = [[(4, 4); (4, 4); (8, 8)]] ∧
        (close_detect (Detect.sources_by_frame st)).2
          = [[[(4, 4); (8, 8)]; [(4, 4); (4, 4); (8, 8)]]] ∧
        ¬ disjoint_groups [[(4, 4); (8, 8)]; [(4, 4); (4, 4); (8, 8)]].
Proof.
  eexists. split; [vm_compute; reflexivity|].
  split_and!; [vm_compute; reflexivity..|].
  intros H.
  specialize (H 0%nat 1%nat _ _ (4, 4) eq_refl eq_refl).
  discriminate H; set_solver.
Qed.

End close_groups.

(** * [detect]: the boundary clamp *)

Section clamp.
Import Detect.
Implicit Types (p q : Q).

Lemma Qfloor_plus2 p : Qfloor (p + 2) = Qfloor p + 2.
Proof.
  destruct p as [n d]. unfold Qfloor, Qplus. cbn [Qnum Qden].
  rewrite Pos.mul_1_r, Z.mul_1_r. apply Z.div_add. lia.
Qed.

Lemma Qfloor_minus2 p : Qfloor (p - 2) = Qfloor p - 2.
Proof.
  destruct p as [n d]. unfold Qfloor, Qminus, Qplus, Qopp. cbn [Qnum Qden].
  rewrite Pos.mul_1_r, Z.mul_1_r.
  replace (n + (-2) * Z.pos d) with (n + (-2) * Z.pos d) by done.
  rewrite Z.div_add by lia. lia.
Qed.

Lemma int_of_nonneg p : 0 ≤ Qfloor p → int_of p = Qfloor p.
Proof.
  destruct p as [n d]. unfold Qfloor, int_of. cbn [Qnum Qden]. intros H.
  apply Z.quot_div_nonneg; [|lia].
  destruct (decide (0 ≤ n)) as [|Hn]; [done|]. exfalso.
  assert (n `div` Z.pos d < 0); [|lia].
  apply Z.div_lt_upper_bound; lia.
Qed.

Lemma int_of_neg p : Qfloor p < 0 → int_of p ≤ 0.
Proof.
  destruct p as [n d]. unfold Qfloor, int_of. cbn [Qnum Qden]. intros H.
  assert (n < 0) as Hn.
  { destruct (decide (n < 0)) as [|Hn]; [done|]. exfalso.
    assert (0 ≤ n `div` Z.pos d); [|lia]. apply Z.div_pos; lia. }
  replace n with (- - n) by lia. rewrite Z.quot_opp_l by lia.
  assert (0 ≤ (- n) `quot` Z.pos d); [|lia]. apply Z.quot_pos; lia.
Qed.

(** The floor against an integer bound. *)
Lemma Qfloor_lt_iff p n : Qfloor p < n ↔ (p < inject_Z n)%Q.
Proof.
  split.
  - intros H. eapply Qlt_le_trans; [apply Qlt_floor|].
    rewrite <- Zle_Qle. lia.
  - intros H. destruct (decide (Qfloor p < n)) as [|Hn]; [done|]. exfalso.
    assert (inject_Z n <= p)%Q as Hle.
    { eapply Qle_trans; [|apply Qfloor_le]. rewrite <- Zle_Qle. lia. }
    by apply Qle_not_lt in Hle.
Qed.

Lemma Qfloor_ge_iff p n : n ≤ Qfloor p ↔ (inject_Z n <= p)%Q.
Proof.
  split.
  - intros H. eapply Qle_trans; [|apply Qfloor_le]. by rewrite <- Zle_Qle.
  - intros H. rewrite <- (Qfloor_Z n). by apply Qfloor_resp_le.
Qed.

(** The loop tests read the same on the floor of the coordinate. *)
Lemma test_low p : (int_of p <? 2) = (Qfloor p <? 2).
Proof.
  destruct (decide (0 ≤ Qfloor p)) as [H|H].
  - by rewrite int_of_nonneg.
  - pose proof (int_of_neg p).
    destruct (Z.ltb_spec (int_of p) 2), (Z.ltb_spec (Qfloor p) 2); lia.
Qed.

Lemma test_high p : (int_of p >? 509) = (Qfloor p >? 509).
Proof.
  destruct (decide (0 ≤ Qfloor p)) as [H|H].
  - by rewrite int_of_nonneg.
  - pose proof (int_of_neg p).
    rewrite !Z.gtb_ltb.
    destruct (Z.ltb_spec 509 (int_of p)), (Z.ltb_spec 509 (Qfloor p)); lia.
Qed.

(** More fuel does not change the outcome of a loop that ended. *)
Lemma while_mono fuel k test body p q :
  while fuel test body p = Ok q → while (fuel + k) test body p = Ok q.
Proof.
  revert p. induction fuel as [|fuel IH]; intros p; cbn; [done|].
  destruct (test p); [apply IH|done].
Qed.

(** A loop whose body lowers a measure ends within that many turns; an
    invariant of the body holds at the end, where the test fails. *)
Lemma while_measure test body (mu : Q → nat) (I : Q → Prop) :
  (∀ p, I p → test p = true → (mu (body p) < mu p)%nat ∧ I (body p)) →
  ∀ fuel p, I p → (mu p < fuel)%nat →
    ∃ q, while fuel test body p = Ok q ∧ test q = false ∧ I q.
Proof.
  intros Hstep. induction fuel as [|fuel IH]; intros p HI Hmu; [lia|].
  cbn. destruct (test p) eqn:Ht; [|by exists p].
  destruct (Hstep p HI Ht) as [Hlt HI']. apply IH; [done|lia].
Qed.

(** Lines 257-260: one of the loops that push a coordinate up. *)
Lemma while_up fuel p :
  (Z.to_nat (2 - Qfloor p) < fuel)%nat →
  ∃ q, while fuel (fun p => int_of p <? 2) (fun p => p + 2)%Q p = Ok q ∧
       2 ≤ Qfloor q ≤ Z.max (Qfloor p) 3.
Proof.
  intros Hfuel.
  destruct (while_measure (fun p => int_of p <? 2) (fun p => p + 2)%Q
              (fun q => Z.to_nat (2 - Qfloor q))
              (fun q => Qfloor q ≤ Z.max (Qfloor p) 3)) with (fuel := fuel) (p := p)
    as (q & Hq & Ht & HI); [|lia|done|].
  - intros q HI Ht. rewrite test_low in Ht. apply Z.ltb_lt in Ht.
    rewrite Qfloor_plus2. lia.
  - exists q. split; [done|]. rewrite test_low in Ht. apply Z.ltb_ge in Ht. lia.
Qed.

(** Lines 261-264: one of the loops that pull a coordinate down. *)
Lemma while_down fuel p :
  2 ≤ Qfloor p → (Z.to_nat (Qfloor p - 509) < fuel)%nat →
  ∃ q, while fuel (fun p => int_of p >? 509) (fun p => p - 2)%Q p = Ok q ∧
       2 ≤ Qfloor q ≤ 509.
Proof.
  intros Hp Hfuel.
  destruct (while_measure (fun p => int_of p >? 509) (fun p => p - 2)%Q
              (fun q => Z.to_nat (Qfloor q - 509))
              (fun q => 2 ≤ Qfloor q)) with (fuel := fuel) (p := p)
    as (q & Hq & Ht & HI); [|done|done|].
  - intros q HI Ht. rewrite test_high, Z.gtb_ltb in Ht. apply Z.ltb_lt in Ht.
    rewrite Qfloor_minus2. lia.
  - exists q. split; [done|].
    rewrite test_high, Z.gtb_ltb in Ht. apply Z.ltb_ge in Ht. lia.
Qed.

Lemma clamp_mono fuel k px py r :
  clamp fuel px py = Ok r → clamp (fuel + k) px py = Ok r.
Proof.
  unfold clamp. intros H.
  repeat match type of H with
  | context [while fuel ?t ?b ?p] =>
      let E := fresh "E" in
      destruct (while fuel t b p) eqn:E; cbn in H; [|done];
      rewrite (while_mono _ k _ _ _ _ E); cbn
  end.
  done.
Qed.

(** The clamp ends with the fuel [detect] grants, and both coordinates
    then truncate to integers between 2 and 509. *)
Lemma clamp_ends px py :
  ∃ qx qy, clamp (steps px + steps py) px py = Ok (qx, qy) ∧
           2 ≤ int_of qx ≤ 509 ∧ 2 ≤ int_of qy ≤ 509.
Proof.
  unfold clamp, steps.
  destruct (while_up (S (S (Z.to_nat (Z.abs (Qfloor px)))) +
                      S (S (Z.to_nat (Z.abs (Qfloor py))))) py)
    as (y1 & -> & Hy1); [lia|]. cbn [mbind res_bind].
  destruct (while_up (S (S (Z.to_nat (Z.abs (Qfloor px)))) +
                      S (S (Z.to_nat (Z.abs (Qfloor py))))) px)
    as (x1 & -> & Hx1); [lia|]. cbn [mbind res_bind].
  destruct (while_down (S (S (Z.to_nat (Z.abs (Qfloor px)))) +
                        S (S (Z.to_nat (Z.abs (Qfloor py))))) y1)
    as (y2 & -> & Hy2); [lia|lia|]. cbn [mbind res_bind].
  destruct (while_down (S (S (Z.to_nat (Z.abs (Qfloor px)))) +
                        S (S (Z.to_nat (Z.abs (Qfloor py))))) x1)
    as (x2 & -> & Hx2); [lia|lia|]. cbn [mbind res_bind].
  exists x2, y2. rewrite !int_of_nonneg by lia. done.
Qed.

End clamp.


(** * [detect]: the boundary clamp on floating-point numbers *)

(** ** Rounding to [prec] significant bits *)

Section rounding.
Import Numpy.
Local Open Scope Q_scope.

Lemma rne_bounds q : (Qfloor q <= rne q <= Qfloor q + 1)%Z.
Proof. unfold rne. destruct (Qcompare _ _); [destruct (Z.even _)|..]; lia. Qed.

Lemma rne_int n : rne (inject_Z n) = n.
Proof.
  unfold rne. rewrite Qfloor_Z.
  assert (Qcompare (inject_Z n - inject_Z n) (1 # 2) = Lt) as ->; [|done].
  rewrite <- Qlt_alt. ring_simplify. reflexivity.
Qed.

Lemma rne_le a b : a <= b → (rne a <= rne b)%Z.
Proof.
  intros Hab. pose proof (Qfloor_resp_le _ _ Hab) as Hf.
  destruct (Z.eq_dec (Qfloor a) (Qfloor b)) as [He|Hne].
  - unfold rne. rewrite He.
    destruct (Qcompare (a - inject_Z (Qfloor b)) (1 # 2)) eqn:Ha;
      destruct (Qcompare (b - inject_Z (Qfloor b)) (1 # 2)) eqn:Hb;
      try destruct (Z.even _); try lia.
    + rewrite <- Qeq_alt in Ha. rewrite <- Qlt_alt in Hb. exfalso.
      apply (Qlt_irrefl (1 # 2)). rewrite <- Ha at 1.
      eapply Qle_lt_trans; [|exact Hb].
      apply Qplus_le_l. exact Hab.
    + rewrite <- Qgt_alt in Ha. rewrite <- Qeq_alt in Hb. exfalso.
      apply (Qlt_irrefl (1 # 2)). rewrite <- Hb at 2.
      eapply Qlt_le_trans; [exact Ha|]. apply Qplus_le_l. exact Hab.
    + rewrite <- Qgt_alt in Ha. rewrite <- Qlt_alt in Hb. exfalso.
      apply (Qlt_irrefl (1 # 2)).
      eapply Qlt_trans; [exact Ha|]. eapply Qle_lt_trans; [|exact Hb].
      apply Qplus_le_l. exact Hab.
  - pose proof (rne_bounds a). pose proof (rne_bounds b). lia.
Qed.

Lemma rne_comp a b : a == b → rne a = rne b.
Proof.
  intros H. apply Z.le_antisymm; apply rne_le; rewrite H; apply Qle_refl.
Qed.

Lemma pow2_pos k : 0 < 2 ^ k.
Proof. by apply Qpower_0_lt. Qed.

Lemma pow2_Z k : (0 <= k)%Z → 2 ^ k == inject_Z (2 ^ k).
Proof. intros H. symmetry. by apply (Zpower_Qpower 2). Qed.

Lemma pow2_plus a b : 2 ^ (a + b) == 2 ^ a * 2 ^ b.
Proof. by apply Qpower_plus. Qed.

Lemma pow2_le a b : (a <= b)%Z → 2 ^ a <= 2 ^ b.
Proof. intros H. by apply Qpower_le_compat_l. Qed.

Lemma pow2_le_inv a b : 2 ^ a <= 2 ^ b → (a <= b)%Z.
Proof. intros H. by apply (Qpower_le_compat_l_inv 2). Qed.

Lemma pow2_lt_inv a b : 2 ^ a < 2 ^ b → (a < b)%Z.
Proof. intros H. by apply (Qpower_lt_compat_l_inv 2). Qed.

Lemma log2_spec q : 0 < q → 2 ^ log2 q <= q ∧ q < 2 ^ (log2 q + 1).
Proof.
  destruct q as [n d]. intros Hq.
  assert (0 < n)%Z as Hn by (unfold Qlt in Hq; simpl in Hq; lia).
  pose proof (Z.log2_spec n Hn) as Ha.
  pose proof (Z.log2_spec (Z.pos d) (Pos2Z.is_pos d)) as Hb.
  pose proof (Z.log2_nonneg n) as Ha0.
  pose proof (Z.log2_nonneg (Z.pos d)) as Hb0.
  unfold log2. cbn [Qnum Qden].
  set (a := Z.log2 n) in *. set (b := Z.log2 (Z.pos d)) in *.
  destruct (Qle_bool (2 ^ (a - b)) (n # d)) eqn:E.
  - split; [by apply Qle_bool_iff|].
    replace (a - b + 1)%Z with ((a + 1) - b)%Z by lia.
    rewrite Qpower_minus by done.
    apply Qlt_shift_div_l; [apply pow2_pos|].
    rewrite !pow2_Z by lia.
    replace (Z.succ a) with (a + 1)%Z in Ha by lia. clearbody a b.
    unfold Qlt, Qmult, inject_Z; cbn [Qnum Qden]. rewrite Pos.mul_1_r.
    nia.
  - split.
    + replace (a - b - 1)%Z with (a - (b + 1))%Z by lia.
      rewrite Qpower_minus by done.
      apply Qle_shift_div_r; [apply pow2_pos|].
      rewrite !pow2_Z by lia.
      replace (Z.succ b) with (b + 1)%Z in Hb by lia. clearbody a b.
      unfold Qle, Qmult, inject_Z; cbn [Qnum Qden]. rewrite Pos.mul_1_r.
      nia.
    + replace (a - b - 1 + 1)%Z with (a - b)%Z by lia.
      apply Qnot_le_lt. intros H. apply Qle_bool_iff in H. congruence.
Qed.

Lemma log2_le a b : 0 < a → a <= b → (log2 a <= log2 b)%Z.
Proof.
  intros Ha Hab.
  destruct (log2_spec a Ha) as [H1 _].
  destruct (log2_spec b (Qlt_le_trans _ _ _ Ha Hab)) as [_ H2].
  assert (log2 a < log2 b + 1)%Z; [|lia].
  apply pow2_lt_inv. eapply Qle_lt_trans; [exact H1|].
  eapply Qle_lt_trans; [exact Hab|exact H2].
Qed.

Lemma round_pos_eq prec q :
  round_pos prec q
  == inject_Z (rne (q / 2 ^ (log2 q - prec + 1))) * 2 ^ (log2 q - prec + 1).
Proof. unfold round_pos. apply Qred_correct. Qed.

(** The significand of a positive number lies between [2^(prec-1)] and
    [2^prec]. *)
Lemma scaled_bounds prec q :
  (1 <= prec)%Z → 0 < q →
  inject_Z (2 ^ (prec - 1)) <= q / 2 ^ (log2 q - prec + 1)
  ∧ q / 2 ^ (log2 q - prec + 1) < inject_Z (2 ^ prec).
Proof.
  intros Hp Hq. destruct (log2_spec q Hq) as [H1 H2].
  set (e := (log2 q - prec + 1)%Z) in *.
  rewrite <- !pow2_Z by lia. split.
  - apply Qle_shift_div_l; [apply pow2_pos|].
    rewrite <- pow2_plus. by replace (prec - 1 + e)%Z with (log2 q) by lia.
  - apply Qlt_shift_div_r; [apply pow2_pos|].
    rewrite <- pow2_plus. by replace (prec + e)%Z with (log2 q + 1)%Z by lia.
Qed.

Lemma significand_bounds prec q :
  (1 <= prec)%Z → 0 < q →
  (2 ^ (prec - 1) <= rne (q / 2 ^ (log2 q - prec + 1)) <= 2 ^ prec)%Z.
Proof.
  intros Hp Hq. destruct (scaled_bounds prec q Hp Hq) as [H1 H2].
  split.
  - rewrite <- (rne_int (2 ^ (prec - 1))). by apply rne_le.
  - rewrite <- (rne_int (2 ^ prec)). by apply rne_le, Qlt_le_weak.
Qed.

Lemma round_pos_le prec a b :
  (1 <= prec)%Z → 0 < a → a <= b → round_pos prec a <= round_pos prec b.
Proof.
  intros Hp Ha Hab.
  assert (0 < b) as Hb by (eapply Qlt_le_trans; eauto).
  rewrite !round_pos_eq.
  pose proof (log2_le a b Ha Hab) as Hl.
  pose proof (significand_bounds prec a Hp Ha) as Hma.
  pose proof (significand_bounds prec b Hp Hb) as Hmb.
  destruct (Z.eq_dec (log2 a) (log2 b)) as [He|Hne].
  - rewrite He. apply Qmult_le_compat_r; [|apply Qlt_le_weak, pow2_pos].
    rewrite <- Zle_Qle. apply rne_le.
    apply Qmult_le_compat_r; [done|].
    apply Qlt_le_weak, Qinv_lt_0_compat, pow2_pos.
  - set (ea := (log2 a - prec + 1)%Z) in *.
    set (eb := (log2 b - prec + 1)%Z) in *.
    apply Qle_trans with (inject_Z (2 ^ prec) * 2 ^ ea).
    { apply Qmult_le_compat_r; [|apply Qlt_le_weak, pow2_pos].
      rewrite <- Zle_Qle. lia. }
    apply Qle_trans with (inject_Z (2 ^ (prec - 1)) * 2 ^ eb).
    { rewrite <- !pow2_Z by lia. rewrite <- !pow2_plus.
      apply pow2_le. lia. }
    apply Qmult_le_compat_r; [|apply Qlt_le_weak, pow2_pos].
    rewrite <- Zle_Qle. lia.
Qed.

Lemma round_pos_pos prec q : (1 <= prec)%Z → 0 < q → 0 < round_pos prec q.
Proof.
  intros Hp Hq. rewrite round_pos_eq.
  pose proof (significand_bounds prec q Hp Hq) as Hm.
  apply Qmult_lt_0_compat; [|apply pow2_pos].
  replace 0 with (inject_Z 0) by done. rewrite <- Zlt_Qlt.
  assert (0 < 2 ^ (prec - 1))%Z by (apply Z.pow_pos_nonneg; lia). lia.
Qed.

(** Rounding keeps the order. *)
Lemma round_le prec a b :
  (1 <= prec)%Z → a <= b → round prec a <= round prec b.
Proof.
  intros Hp Hab. unfold round.
  destruct (Qcompare_spec a 0) as [Ea|Ea|Ea];
    destruct (Qcompare_spec b 0) as [Eb|Eb|Eb].
  - apply Qle_refl.
  - exfalso. apply (Qlt_irrefl 0). rewrite <- Ea at 1.
    eapply Qle_lt_trans; eauto.
  - by apply Qlt_le_weak, round_pos_pos.
  - apply (Qopp_le_compat 0). apply Qlt_le_weak, round_pos_pos; [done|].
    by apply (Qopp_lt_compat a 0).
  - apply Qopp_le_compat. apply round_pos_le; [done|..].
    + by apply (Qopp_lt_compat b 0).
    + by apply Qopp_le_compat.
  - apply Qle_trans with 0.
    + apply (Qopp_le_compat 0). apply Qlt_le_weak, round_pos_pos; [done|].
      by apply (Qopp_lt_compat a 0).
    + by apply Qlt_le_weak, round_pos_pos.
  - exfalso. apply (Qlt_irrefl 0). rewrite <- Eb at 2.
    eapply Qlt_le_trans; eauto.
  - exfalso. apply (Qlt_irrefl 0).
    eapply Qlt_trans; [exact Ea|]. eapply Qle_lt_trans; eauto.
  - by apply round_pos_le.
Qed.

Lemma round_comp prec a b :
  (1 <= prec)%Z → a == b → round prec a == round prec b.
Proof.
  intros Hp H. apply Qle_antisym; apply round_le; try done;
    rewrite H; apply Qle_refl.
Qed.

Lemma round_pos_Z prec n :
  (1 <= prec)%Z → (0 < n <= 2 ^ prec)%Z →
  round_pos prec (inject_Z n) == inject_Z n.
Proof.
  intros Hp Hn.
  assert (0 < inject_Z n) as Hq.
  { replace 0 with (inject_Z 0) by done. rewrite <- Zlt_Qlt. lia. }
  destruct (log2_spec _ Hq) as [H1 H2].
  assert (log2 (inject_Z n) <= prec)%Z as Hl.
  { apply pow2_le_inv. eapply Qle_trans; [exact H1|].
    rewrite pow2_Z by lia. rewrite <- Zle_Qle. lia. }
  rewrite round_pos_eq.
  set (e := (log2 (inject_Z n) - prec + 1)%Z) in *.
  assert (∃ m, inject_Z n / 2 ^ e == inject_Z m) as [m Hm].
  { destruct (Z_le_gt_dec e 0) as [He|He].
    - exists (n * 2 ^ (- e))%Z. rewrite inject_Z_mult, <- pow2_Z by lia.
      rewrite Qpower_opp. reflexivity.
    - assert (log2 (inject_Z n) = prec) as Hlp by lia.
      rewrite Hlp in H1. rewrite pow2_Z in H1 by lia.
      rewrite <- Zle_Qle in H1. assert (n = 2 ^ prec)%Z as -> by lia.
      exists (2 ^ (prec - 1))%Z. rewrite <- !pow2_Z by lia.
      rewrite <- Qpower_minus by done. apply Qpower_comp; [done|]. lia. }
  rewrite (rne_comp _ _ Hm), rne_int, <- Hm.
  field. apply Qnot_eq_sym, Qlt_not_eq, pow2_pos.
Qed.

(** An integer of magnitude up to [2^prec] is a number of the format. *)
Lemma round_Z prec n :
  (1 <= prec)%Z → (Z.abs n <= 2 ^ prec)%Z →
  round prec (inject_Z n) == inject_Z n.
Proof.
  intros Hp Hn. unfold round.
  destruct (Qcompare_spec (inject_Z n) 0) as [E|E|E].
  - by rewrite E.
  - change 0 with (inject_Z 0) in E. rewrite <- Zlt_Qlt in E.
    rewrite <- inject_Z_opp, round_pos_Z by lia.
    rewrite inject_Z_opp. ring.
  - change 0 with (inject_Z 0) in E. rewrite <- Zlt_Qlt in E.
    apply round_pos_Z; lia.
Qed.

(** The nearest numbers of both formats to 0.1; between [2^24] and
    [2^25] single precision holds the even integers only, and a tie goes
    to the even significand. *)
Lemma round_examples :
  round 24 (1 # 10) = (13421773 # 134217728)%Q ∧
  round 53 (1 # 10) = (3602879701896397 # 36028797018963968)%Q ∧
  round 24 16777217 = 16777216%Q ∧
  round 24 16777219 = 16777220%Q ∧
  round 24 (-(16777219)) = (-(16777220))%Q.
Proof. vm_compute. done. Qed.

End rounding.

(** ** The four loops *)

Section float_clamp.
Import Numpy.
Implicit Types (p q : Q).

Lemma pow2_big prec : 9 ≤ prec → 512 ≤ 2 ^ prec.
Proof. intros H. change 512 with (2 ^ 9). by apply Z.pow_le_mono_r. Qed.

(** More fuel does not change the outcome of a loop that ended. *)
Lemma float_while_mono fuel k test body a b :
  while fuel test body a = Ok b → while (fuel + k) test body a = Ok b.
Proof.
  revert a. induction fuel as [|fuel IH]; intros a; cbn; [done|].
  destruct (test a) as [[|]|]; cbn; [apply IH|done..].
Qed.

(** A loop on a finite number whose body lowers a measure ends within
    that many turns; an invariant of the body holds at the end, where the
    test fails. *)
Lemma float_while_measure (test : Z → bool) (step : Q → Q)
    (body : num → num) (mu : Q → nat) (I : Q → Prop) :
  (∀ p, body (Fin p) = Fin (step p)) →
  (∀ p, I p → test (Detect.int_of p) = true →
        (mu (step p) < mu p)%nat ∧ I (step p)) →
  ∀ fuel p, I p → (mu p < fuel)%nat →
    ∃ q, while fuel (fun a => n ← int a; Ok (test n)) body (Fin p)
           = Ok (Fin q) ∧
         test (Detect.int_of q) = false ∧ I q.
Proof.
  intros Hbody Hstep. induction fuel as [|fuel IH]; intros p HI Hmu; [lia|].
  cbn. destruct (test (Detect.int_of p)) eqn:Ht; [|by exists p].
  destruct (Hstep p HI Ht) as [Hlt HI']. rewrite Hbody. apply IH; [done|lia].
Qed.

(** One turn of a loop of lines 257-260: the floor of the coordinate
    rises by two at least, and the coordinate does not pass 4. *)
Lemma round_up_step prec p :
  9 ≤ prec → (inject_Z (- 2 ^ prec) <= p)%Q → Qfloor p < 2 →
  Qfloor p + 2 ≤ Qfloor (round prec (p + 2)) ∧
  (round prec (p + 2) <= 4)%Q.
Proof.
  intros Hp Hlo Hlt. pose proof (pow2_big prec Hp) as Hbig.
  apply Qfloor_ge_iff in Hlo. split.
  - apply Qfloor_ge_iff.
    rewrite <- (round_Z prec (Qfloor p + 2)) by lia.
    apply round_le; [lia|]. rewrite inject_Z_plus.
    apply Qplus_le_l, Qfloor_le.
  - change 4%Q with (inject_Z 4). rewrite <- (round_Z prec 4) by lia.
    apply round_le; [lia|].
    apply Qfloor_lt_iff in Hlt. apply Qlt_le_weak in Hlt.
    change (inject_Z 4) with (inject_Z 2 + 2)%Q. by apply Qplus_le_l.
Qed.

(** A coordinate from 510 on is not taken below 508. *)
Lemma round_down_508 prec p :
  9 ≤ prec → 509 < Qfloor p → (508 <= round prec (p - 2))%Q.
Proof.
  intros Hp Hgt. pose proof (pow2_big prec Hp) as Hbig.
  change 508%Q with (inject_Z 508). rewrite <- (round_Z prec 508) by lia.
  apply round_le; [lia|].
  assert (inject_Z 510 <= p)%Q as H by (apply Qfloor_ge_iff; lia).
  change (inject_Z 508) with (inject_Z 510 - 2)%Q. by apply Qplus_le_l.
Qed.

(** One turn of a loop of lines 261-264: the floor of the coordinate
    falls, and the coordinate does not pass 508. *)
Lemma round_down_step prec p :
  9 ≤ prec → (p <= inject_Z (2 ^ prec))%Q → 509 < Qfloor p →
  Qfloor (round prec (p - 2)) < Qfloor p ∧
  (508 <= round prec (p - 2))%Q.
Proof.
  intros Hp Hhi Hgt. pose proof (pow2_big prec Hp) as Hbig.
  assert (Qfloor p ≤ 2 ^ prec) as Hn.
  { rewrite <- (Qfloor_Z (2 ^ prec)). by apply Qfloor_resp_le. }
  split.
  - apply Qfloor_lt_iff.
    apply Qle_lt_trans with (inject_Z (Qfloor p - 1)); [|rewrite <- Zlt_Qlt; lia].
    rewrite <- (round_Z prec (Qfloor p - 1)) by lia.
    apply round_le; [lia|].
    pose proof (Qlt_floor p) as Hf. apply Qlt_le_weak in Hf.
    replace (Qfloor p - 1) with (Qfloor p + 1 + - 2) by lia.
    rewrite (inject_Z_plus _ (- 2)). by apply Qplus_le_l.
  - by apply round_down_508.
Qed.

(** Lines 257-260: one of the loops that push a coordinate up. *)
Lemma float_while_up prec fuel p :
  9 ≤ prec → (inject_Z (- 2 ^ prec) <= p)%Q →
  (Z.to_nat (2 - Qfloor p) < fuel)%nat →
  ∃ q, while fuel (fun a => n ← int a; Ok (n <? 2))
         (fun a => add prec a (Fin 2)) (Fin p) = Ok (Fin q) ∧
       2 ≤ Qfloor q ∧
       (2 ≤ Qfloor p → q = p) ∧ (Qfloor p < 2 → (q <= 4)%Q).
Proof.
  intros Hp Hlo Hfuel. destruct (decide (2 ≤ Qfloor p)) as [Hge|Hlt].
  - exists p. destruct fuel as [|fuel]; [lia|]. cbn.
    rewrite test_low. destruct (Z.ltb_spec (Qfloor p) 2); [lia|].
    split_and!; [done|done|done|lia].
  - destruct (float_while_measure (fun n => n <? 2)
                (fun p => round prec (p + 2))
                (fun a => add prec a (Fin 2))
                (fun q => Z.to_nat (2 - Qfloor q))
                (fun q => (inject_Z (- 2 ^ prec) <= q)%Q ∧ (q <= 4)%Q))
      with (fuel := fuel) (p := p) as (q & Hq & Ht & HI); [done| | |done|].
    + intros q [H1 H2] Ht. rewrite test_low in Ht. apply Z.ltb_lt in Ht.
      destruct (round_up_step prec q Hp H1 Ht) as [H3 H4].
      split; [lia|]. split; [|done].
      apply Qfloor_ge_iff. apply Qfloor_ge_iff in H1. lia.
    + split; [done|]. apply Qlt_le_weak.
      apply Qlt_trans with (inject_Z 2); [apply Qfloor_lt_iff; lia|done].
    + exists q. rewrite test_low in Ht. apply Z.ltb_ge in Ht.
      split_and!; [done|done|lia|]. intros _. apply HI.
Qed.

(** Lines 261-264: one of the loops that pull a coordinate down. *)
Lemma float_while_down prec fuel p :
  9 ≤ prec → (p <= inject_Z (2 ^ prec))%Q → 2 ≤ Qfloor p →
  (Z.to_nat (Qfloor p - 509) < fuel)%nat →
  ∃ q, while fuel (fun a => n ← int a; Ok (n >? 509))
         (fun a => sub prec a (Fin 2)) (Fin p) = Ok (Fin q) ∧
       2 ≤ Qfloor q ≤ 509 ∧
       (Qfloor p ≤ 509 → q = p) ∧ (509 < Qfloor p → (508 <= q)%Q).
Proof.
  intros Hp Hhi Hge Hfuel. destruct (decide (Qfloor p ≤ 509)) as [Hle|Hgt].
  - exists p. destruct fuel as [|fuel]; [lia|]. cbn.
    rewrite test_high, Z.gtb_ltb.
    destruct (Z.ltb_spec 509 (Qfloor p)); [lia|].
    split_and!; [done|lia|lia|done|lia].
  - destruct (float_while_measure (fun n => n >? 509)
                (fun p => round prec (p - 2))
                (fun a => sub prec a (Fin 2))
                (fun q => Z.to_nat (Qfloor q - 509))
                (fun q => (q <= inject_Z (2 ^ prec))%Q ∧ (508 <= q)%Q))
      with (fuel := fuel) (p := p) as (q & Hq & Ht & HI); [done| | |done|].
    + intros q [H1 H2] Ht. rewrite test_high, Z.gtb_ltb in Ht.
      apply Z.ltb_lt in Ht.
      destruct (round_down_step prec q Hp H1 Ht) as [H3 H4].
      split; [lia|]. split; [|done].
      apply Qle_trans with (inject_Z (Qfloor q)).
      * apply Qlt_le_weak, Qfloor_lt_iff. lia.
      * rewrite <- Zle_Qle. rewrite <- (Qfloor_Z (2 ^ prec)).
        by apply Qfloor_resp_le.
    + split; [done|]. change 508%Q with (inject_Z 508).
      apply Qfloor_ge_iff. lia.
    + exists q. rewrite test_high, Z.gtb_ltb in Ht. apply Z.ltb_ge in Ht.
      destruct HI as [_ HI]. change 508%Q with (inject_Z 508) in HI.
      apply Qfloor_ge_iff in HI as HI'.
      split_and!; [done|lia|lia|lia|done].
Qed.

(** A bound on the magnitude, read on both sides. *)
Lemma Qabs_pow2 prec p :
  0 ≤ prec → (Qabs p <= 2 ^ prec)%Q →
  (inject_Z (- 2 ^ prec) <= p)%Q ∧ (p <= inject_Z (2 ^ prec))%Q.
Proof.
  intros Hp H. rewrite pow2_Z in H by done.
  apply Qabs_Qle_condition in H as [H1 H2]. by rewrite inject_Z_opp.
Qed.

(** Both loops of one coordinate. *)
Lemma float_axis prec fuel p :
  9 ≤ prec → (Qabs p <= 2 ^ prec)%Q → (Detect.steps p < fuel)%nat →
  ∃ u q,
    while fuel (fun a => n ← int a; Ok (n <? 2))
      (fun a => add prec a (Fin 2)) (Fin p) = Ok (Fin u) ∧
    while fuel (fun a => n ← int a; Ok (n >? 509))
      (fun a => sub prec a (Fin 2)) (Fin u) = Ok (Fin q) ∧
    2 ≤ Detect.int_of q ≤ 509 ∧
    ((2 <= p < 510)%Q → q = p) ∧
    ((p < 2)%Q → (2 <= q <= 4)%Q) ∧
    ((510 <= p)%Q → (508 <= q < 510)%Q).
Proof.
  intros Hp Habs Hfuel. pose proof (pow2_big prec Hp) as Hbig.
  destruct (Qabs_pow2 prec p ltac:(lia) Habs) as [Hlo Hhi].
  unfold Detect.steps in Hfuel.
  destruct (float_while_up prec fuel p Hp Hlo) as (u & Hu & U1 & U2 & U3);
    [lia|].
  assert (u <= inject_Z (2 ^ prec))%Q as Huhi.
  { destruct (decide (2 ≤ Qfloor p)) as [|Hn]; [by rewrite U2|].
    eapply Qle_trans; [apply U3; lia|].
    change 4%Q with (inject_Z 4). rewrite <- Zle_Qle. lia. }
  assert (Qfloor u ≤ Z.max (Qfloor p) 4) as Hfu.
  { destruct (decide (2 ≤ Qfloor p)) as [|Hn]; [rewrite U2 by done; lia|].
    assert (Qfloor u ≤ 4); [|lia]. rewrite <- (Qfloor_Z 4).
    apply Qfloor_resp_le, U3. lia. }
  destruct (float_while_down prec fuel u Hp Huhi U1)
    as (q & Hq & D1 & D2 & D3); [lia|].
  exists u, q. split_and!; [done|done|rewrite int_of_nonneg by lia; lia
                           |rewrite int_of_nonneg by lia; lia|..].
  - intros [H1 H2]. change 2%Q with (inject_Z 2) in H1.
    change 510%Q with (inject_Z 510) in H2.
    apply Qfloor_ge_iff in H1. apply Qfloor_lt_iff in H2.
    rewrite D2; rewrite U2; try done; lia.
  - intros H. change 2%Q with (inject_Z 2) in H. apply Qfloor_lt_iff in H.
    specialize (U3 H).
    assert (Qfloor u ≤ 4) as H4.
    { rewrite <- (Qfloor_Z 4). by apply Qfloor_resp_le. }
    rewrite D2 by lia. split; [|done].
    change 2%Q with (inject_Z 2). by apply Qfloor_ge_iff.
  - intros H. change 510%Q with (inject_Z 510) in H.
    apply Qfloor_ge_iff in H. rewrite U2 in D3 by lia.
    split; [apply D3; lia|].
    change 510%Q with (inject_Z 510). apply Qfloor_lt_iff. lia.
Qed.

End float_clamp.

Section float_clamp_ends.
Import Numpy.

(** On coordinates of magnitude up to [2^prec] the clamp ends within the
    turns of [Detect.steps], and each coordinate lands by the same rule. *)
Lemma float_clamp_ends prec fuel px py :
  9 ≤ prec → (Qabs px <= 2 ^ prec)%Q → (Qabs py <= 2 ^ prec)%Q →
  (Detect.steps px + Detect.steps py ≤ fuel)%nat →
  ∃ qx qy,
    clamp prec fuel (Fin px) (Fin py) = Ok (Fin qx, Fin qy) ∧
    (2 ≤ Detect.int_of qx ≤ 509 ∧
     ((2 <= px < 510)%Q → qx = px) ∧
     ((px < 2)%Q → (2 <= qx <= 4)%Q) ∧
     ((510 <= px)%Q → (508 <= qx < 510)%Q)) ∧
    (2 ≤ Detect.int_of qy ≤ 509 ∧
     ((2 <= py < 510)%Q → qy = py) ∧
     ((py < 2)%Q → (2 <= qy <= 4)%Q) ∧
     ((510 <= py)%Q → (508 <= qy < 510)%Q)).
Proof.
  intros Hp Hx Hy Hfuel.
  assert (Detect.steps px < fuel ∧ Detect.steps py < fuel)%nat as [Fx Fy].
  { unfold Detect.steps in *. lia. }
  destruct (float_axis prec fuel px Hp Hx Fx) as (ux & qx & X1 & X2 & HX).
  destruct (float_axis prec fuel py Hp Hy Fy) as (uy & qy & Y1 & Y2 & HY).
  exists qx, qy. split; [|split; [apply HX|apply HY]].
  unfold clamp. rewrite Y1. cbn [mbind res_bind]. rewrite X1.
  cbn [mbind res_bind]. rewrite Y2. cbn [mbind res_bind]. rewrite X2.
  done.
Qed.

Lemma float_clamp_mono prec fuel k px py r :
  clamp prec fuel px py = Ok r → clamp prec (fuel + k) px py = Ok r.
Proof.
  unfold clamp. intros H.
  repeat match type of H with
  | context [while fuel ?t ?b ?a] =>
      let E := fresh "E" in
      destruct (while fuel t b a) eqn:E; cbn [mbind res_bind] in H; [|done];
      rewrite (float_while_mono _ k _ _ _ _ E); cbn [mbind res_bind]
  end.
  done.
Qed.

(** A loop whose test holds and whose body leaves the number as it is
    has not ended after any number of turns. *)
Lemma while_stalls test body a :
  test a = Ok true → body a = a →
  ∀ fuel, while fuel test body a = Raise OutOfFuel.
Proof.
  intros Ht Hb. induction fuel as [|fuel IH]; [done|].
  cbn. rewrite Ht. cbn. by rewrite Hb.
Qed.

(** A loop whose test fails is passed over. *)
Lemma while_skips test body a fuel :
  test a = Ok false → while (S fuel) test body a = Ok a.
Proof. intros Ht. cbn. by rewrite Ht. Qed.

(** A coordinate that stalls the third loop stalls the clamp. *)
Lemma clamp_stalls_y prec px py :
  (int py ≫= fun n => Ok (n <? 2)) = Ok false →
  (int px ≫= fun n => Ok (n <? 2)) = Ok false →
  (int py ≫= fun n => Ok (n >? 509)) = Ok true →
  sub prec py (Fin 2) = py →
  ∀ fuel, clamp prec fuel px py = Raise OutOfFuel.
Proof.
  intros Hy Hx Hy' Hs [|fuel]; [done|]. unfold clamp.
  rewrite (while_skips _ _ py fuel Hy). cbn [mbind res_bind].
  rewrite (while_skips _ _ px fuel Hx). cbn [mbind res_bind].
  rewrite (while_stalls _ _ py Hy' Hs (S fuel)). done.
Qed.

(** C9. On floating-point coordinates of magnitude up to [2^prec], for a
    format of [prec] significant bits (9 at least), the four loops of
    lines 257-264 end: the clamp returns within the turns
    [Detect.steps] counts, more turns do not change what it returns, and
    both coordinates then truncate to integers between 2 and 509. *)
Theorem float_clamp_terminates prec px py :
  9 ≤ prec → (Qabs px <= 2 ^ prec)%Q → (Qabs py <= 2 ^ prec)%Q →
  ∃ qx qy,
    (∀ k, clamp prec (Detect.steps px + Detect.steps py + k)
            (Fin px) (Fin py) = Ok (Fin qx, Fin qy)) ∧
    2 ≤ Detect.int_of qx ≤ 509 ∧ 2 ≤ Detect.int_of qy ≤ 509.
Proof.
  intros Hp Hx Hy.
  destruct (float_clamp_ends prec (Detect.steps px + Detect.steps py) px py)
    as (qx & qy & Hq & [HX _] & [HY _]); [done..|].
  exists qx, qy. split_and!; try lia.
  intros k. by apply float_clamp_mono.
Qed.

(** In single precision: [-3.5] goes up to [2.5], and [601.0] down to
    [509.0]. *)
Lemma float_clamp_terminates_witness :
  9 ≤ 24 ∧ (Qabs (-(7 # 2)) <= 2 ^ 24)%Q ∧ (Qabs 601 <= 2 ^ 24)%Q ∧
  ∃ qx qy,
    (∀ k, clamp 24 (Detect.steps (-(7 # 2)) + Detect.steps 601 + k)
            (Fin (-(7 # 2))) (Fin 601) = Ok (Fin qx, Fin qy)) ∧
    2 ≤ Detect.int_of qx ≤ 509 ∧ 2 ≤ Detect.int_of qy ≤ 509.
Proof.
  split; [lia|]. split; [by vm_compute|]. split; [by vm_compute|].
  apply (float_clamp_terminates 24 (-(7 # 2)) 601);
    [lia|by vm_compute|by vm_compute].
Defined.

(** C9 as stated fails. In single precision [2^26 - 2] rounds to [2^26],
    in double precision [10^17 - 2] rounds to [10^17]: from such a
    coordinate the loop of line 261 never moves, and the clamp has not
    ended after any number of turns. *)
Lemma float_clamp_stalls :
  (sub 24 (Fin 67108864) (Fin 2) = Fin 67108864 ∧
   ∀ fuel, clamp 24 fuel (Fin 5) (Fin 67108864) = Raise OutOfFuel) ∧
  (sub 53 (Fin 100000000000000000) (Fin 2) = Fin 100000000000000000 ∧
   ∀ fuel, clamp 53 fuel (Fin 5) (Fin 100000000000000000)
           = Raise OutOfFuel).
Proof.
  split; (split; [vm_compute; reflexivity|]);
    apply clamp_stalls_y; vm_compute; reflexivity.
Qed.

(** X12. On floating-point coordinates of magnitude up to [2^prec] the
    clamp treats the two coordinates alike and each on its own: a
    coordinate in [2, 510) stays as it is, one below 2 ends between 2 and
    4, both included, and one from 510 on ends in [508, 510). *)
Theorem float_clamp_lands prec px py :
  9 ≤ prec → (Qabs px <= 2 ^ prec)%Q → (Qabs py <= 2 ^ prec)%Q →
  ∃ qx qy,
    clamp prec (Detect.steps px + Detect.steps py) (Fin px) (Fin py)
      = Ok (Fin qx, Fin qy) ∧
    (((2 <= px < 510)%Q → qx = px) ∧
     ((px < 2)%Q → (2 <= qx <= 4)%Q) ∧
     ((510 <= px)%Q → (508 <= qx < 510)%Q)) ∧
    (((2 <= py < 510)%Q → qy = py) ∧
     ((py < 2)%Q → (2 <= qy <= 4)%Q) ∧
     ((510 <= py)%Q → (508 <= qy < 510)%Q)).
Proof.
  intros Hp Hx Hy.
  destruct (float_clamp_ends prec (Detect.steps px + Detect.steps py) px py)
    as (qx & qy & Hq & [_ HX] & [_ HY]); [done..|].
  by exists qx, qy.
Qed.

(** In single precision the coordinate [2 - 2^-23] goes up to [4.0], the
    closed end of its interval, and [700.25] comes down to [508.25]. *)
Lemma float_clamp_lands_witness :
  9 ≤ 24 ∧
  (Qabs (16777215 # 8388608) <= 2 ^ 24)%Q ∧ (Qabs (2801 # 4) <= 2 ^ 24)%Q ∧
  clamp 24 (Detect.steps (16777215 # 8388608) + Detect.steps (2801 # 4))
    (Fin (16777215 # 8388608)) (Fin (2801 # 4))
    = Ok (Fin 4, Fin (2033 # 4)) ∧
  ∃ qx qy,
    clamp 24 (Detect.steps (16777215 # 8388608) + Detect.steps (2801 # 4))
      (Fin (16777215 # 8388608)) (Fin (2801 # 4)) = Ok (Fin qx, Fin qy) ∧
    (((2 <= 16777215 # 8388608 < 510)%Q → qx = 16777215 # 8388608) ∧
     ((16777215 # 8388608 < 2)%Q → (2 <= qx <= 4)%Q) ∧
     ((510 <= 16777215 # 8388608)%Q → (508 <= qx < 510)%Q)) ∧
    (((2 <= 2801 # 4 < 510)%Q → qy = 2801 # 4) ∧
     ((2801 # 4 < 2)%Q → (2 <= qy <= 4)%Q) ∧
     ((510 <= 2801 # 4)%Q → (508 <= qy < 510)%Q)).
Proof.
  split; [lia|]. split; [by vm_compute|]. split; [by vm_compute|].
  split; [vm_compute; reflexivity|].
  apply (float_clamp_lands 24 (16777215 # 8388608) (2801 # 4));
    [lia|by vm_compute|by vm_compute].
Defined.

End float_clamp_ends.

(** * [detect]: reading the image *)

Section arrays.
Import Detect.

Lemma ltb_lt a b : ltb a b = true ↔ (a < b)%Q.
Proof.
  unfold ltb. rewrite negb_true_iff, <-not_true_iff_false, Qle_bool_iff.
  split; [apply Qnot_le_lt|apply Qlt_not_le].
Qed.

Lemma ltb_ge a b : ltb a b = false ↔ (b <= a)%Q.
Proof. unfold ltb. by rewrite negb_false_iff, Qle_bool_iff. Qed.

Lemma gtb_gt a b : gtb a b = true ↔ (b < a)%Q.
Proof. apply ltb_lt. Qed.


(** *** Slices *)

Lemma slice_bound_nonneg n i : 0 ≤ i → slice_bound n i = Z.min i n.
Proof.
  intros H. unfold slice_bound.
  destruct (Z.ltb_spec i 0); [lia|done].
Qed.

Lemma slice_nonneg {A} (l : list A) lo hi :
  0 ≤ lo → 0 ≤ hi →
  slice l lo hi =
    take (Z.to_nat (Z.min hi (Z.of_nat (length l))
                    - Z.min lo (Z.of_nat (length l))))
         (drop (Z.to_nat (Z.min lo (Z.of_nat (length l)))) l).
Proof. intros. unfold slice. by rewrite !slice_bound_nonneg. Qed.

Lemma slice_length {A} (l : list A) lo hi :
  0 ≤ lo → 0 ≤ hi → (length (slice l lo hi) ≤ Z.to_nat (hi - lo))%nat.
Proof.
  intros. rewrite slice_nonneg, length_take by done. lia.
Qed.

(** The entry [i] of a slice is the entry [lo + i] of the list. *)
Lemma slice_lookup {A} (l : list A) lo hi i x :
  0 ≤ lo → 0 ≤ hi →
  slice l lo hi !! i = Some x ↔
    (Z.of_nat i < hi - lo ∧ l !! (Z.to_nat lo + i)%nat = Some x).
Proof.
  intros Hlo Hhi. rewrite slice_nonneg by done.
  rewrite lookup_take_Some, lookup_drop. split.
  - intros [Hx Hi]. apply lookup_lt_Some in Hx as Hlt.
    assert (lo < Z.of_nat (length l)) by lia.
    rewrite Z.min_l in Hx by lia. split; [lia|done].
  - intros [Hi Hx]. apply lookup_lt_Some in Hx as Hlt.
    rewrite (Z.min_l lo) by lia. split; [done|lia].
Qed.

Lemma item_nonneg {A} (l : list A) i x :
  0 ≤ i → item l i = Ok x ↔ l !! Z.to_nat i = Some x.
Proof.
  intros Hi. unfold item. destruct (Z.ltb_spec i 0); [lia|].
  destruct (Z.ltb_spec i 0); [lia|].
  destruct (l !! Z.to_nat i); split; intros; simplify_eq; done.
Qed.

Lemma pixel_nonneg img r c v :
  0 ≤ r → 0 ≤ c →
  pixel img r c = Ok v ↔
    ∃ row, img !! Z.to_nat r = Some row ∧ row !! Z.to_nat c = Some v.
Proof.
  intros Hr Hc. unfold pixel. split.
  - destruct (item img r) as [row|] eqn:E; cbn; [|done].
    apply item_nonneg in E; [|done]. rewrite item_nonneg by done. eauto.
  - intros (row & Hrow & Hv). apply item_nonneg in Hrow; [|done].
    rewrite Hrow. cbn. by apply item_nonneg.
Qed.

(** The entry [(i, j)] of a window is the pixel [(r0 + i, c0 + j)]. *)
Lemma window_lookup img r0 r1 c0 c1 i j v :
  0 ≤ r0 → 0 ≤ r1 → 0 ≤ c0 → 0 ≤ c1 →
  (∃ row, window img r0 r1 c0 c1 !! i = Some row ∧ row !! j = Some v) ↔
    (Z.of_nat i < r1 - r0 ∧ Z.of_nat j < c1 - c0 ∧
     pixel img (r0 + Z.of_nat i) (c0 + Z.of_nat j) = Ok v).
Proof.
  intros Hr0 Hr1 Hc0 Hc1. unfold window.
  rewrite pixel_nonneg by lia.
  replace (Z.to_nat (r0 + Z.of_nat i)) with (Z.to_nat r0 + i)%nat by lia.
  replace (Z.to_nat (c0 + Z.of_nat j)) with (Z.to_nat c0 + j)%nat by lia.
  split.
  - intros (row & Hrow & Hv). rewrite list_lookup_fmap in Hrow.
    destruct (slice img r0 r1 !! i) as [full|] eqn:E; cbn in Hrow; [|done].
    injection Hrow as <-.
    apply slice_lookup in E as [? ?]; [|done..].
    apply slice_lookup in Hv as [? ?]; [|done..]. eauto.
  - intros (Hi & Hj & full & Hfull & Hv).
    exists (slice full c0 c1). split.
    + rewrite list_lookup_fmap.
      erewrite (proj2 (slice_lookup img r0 r1 i full Hr0 Hr1)); done.
    + by apply slice_lookup.
Qed.



End arrays.

(** * [detect]: the intensity filters *)

Section extrema.
Import Detect.
Implicit Types (l vs : list Q) (v m : Q).


Lemma Qmax_cases a b : (Qmax a b = b ∧ (a <= b)%Q) ∨ (Qmax a b = a ∧ (b <= a)%Q).
Proof.
  unfold Qmax. destruct (Qle_bool a b) eqn:E.
  - left. split; [done|]. by apply Qle_bool_iff.
  - right. split; [done|]. apply Qlt_le_weak, Qnot_le_lt.
    rewrite <-Qle_bool_iff. congruence.
Qed.


Lemma foldl_Qmax_greatest v vs : greatest (v :: vs) (foldl Qmax v vs).
Proof.
  revert v. induction vs as [|x vs IH]; intros v; cbn.
  - split; [left|]. intros ? ->%list_elem_of_singleton. apply Qle_refl.
  - destruct (IH (Qmax v x)) as [Hin Hle]. split.
    + apply elem_of_cons in Hin as [->|Hin]; [|set_solver].
      destruct (Qmax_cases v x) as [[-> _]|[-> _]]; set_solver.
    + intros y Hy.
      assert (Qmax v x <= foldl Qmax (Qmax v x) vs)%Q as H0
        by (apply Hle; left).
      apply elem_of_cons in Hy as [->|Hy];
        [|apply elem_of_cons in Hy as [->|Hy]].
      * eapply Qle_trans; [|exact H0].
        destruct (Qmax_cases v x) as [[-> ?]|[-> ?]]; [done|apply Qle_refl].
      * eapply Qle_trans; [|exact H0].
        destruct (Qmax_cases v x) as [[-> ?]|[-> ?]]; [apply Qle_refl|done].
      * apply Hle. by right.
Qed.


Lemma np_max_Ok w m : np_max w = Ok m → greatest (concat w) m.
Proof.
  unfold np_max. destruct (concat w) as [|v vs]; [done|].
  intros [= <-]. apply foldl_Qmax_greatest.
Qed.






Lemma concat_np_abs w : concat (np_abs w) = Qabs <$> concat w.
Proof.
  unfold np_abs. induction w as [|row w IH]; [done|].
  cbn. by rewrite fmap_app, IH.
Qed.

(** *** [np.where] *)



End extrema.

Section filters.
Import Detect.

Lemma around_1 img r c :
  around img r c 1 = concat (window img (r - 1) (r + 2) (c - 1) (c + 2)).
Proof.
  unfold around.
  by replace (r + 1 + 1) with (r + 2) by lia;
     replace (c + 1 + 1) with (c + 2) by lia.
Qed.






End filters.

Section cells.
Import Detect.

Lemma clamped_at_unique grid_size mx my ch r c r' c' :
  clamped_at grid_size mx my ch r c → clamped_at grid_size mx my ch r' c' →
  r = r' ∧ c = c'.
Proof.
  intros (qx & qy & H & -> & ->) (qx' & qy' & H' & -> & ->).
  rewrite H in H'. by injection H' as <- <-.
Qed.







End cells.

(** * [group_and_id]: the forest of [find] and [union] *)

Section forest.
Import GroupId.
Implicit Types (parent : gmap coord coord) (rank : gmap coord Z).
Implicit Types (x y z r : coord) (h : coord → nat).

Lemma root_of_root parent x r : root_of parent x r → parent !! r = Some r.
Proof. induction 1; done. Qed.

Lemma root_of_dom parent x r : root_of parent x r → is_Some (parent !! x).
Proof. destruct 1; eauto. Qed.

Lemma root_of_det parent x r r' :
  root_of parent x r → root_of parent x r' → r = r'.
Proof.
  intros H. revert r'. induction H as [x Hx|x y r Hx Hne _ IH]; intros r' H'.
  - destruct H' as [|x y r' Hx' Hne' _]; [done|]. congruence.
  - destruct H' as [x Hx'|x y' r' Hx' Hne' H']; [congruence|].
    apply IH. congruence.
Qed.

Lemma root_of_height parent h n x r :
  ranked h n parent → root_of parent x r → (h x ≤ h r)%nat.
Proof.
  intros [Hh _]. induction 1 as [|x y r Hx Hne _ IH]; [done|].
  destruct (Hh _ _ Hx Hne). lia.
Qed.

Lemma ranked_mono h n m parent :
  (n ≤ m)%nat → ranked h n parent → ranked h m parent.
Proof. intros Hnm [H1 H2]. split; [done|]. intros x. specialize (H2 x). lia. Qed.

Lemma same_root_trans parent x y z :
  same_root parent x y → same_root parent y z → same_root parent x z.
Proof.
  intros (r & Hx & Hy) (r' & Hy' & Hz).
  rewrite <-(root_of_det _ _ _ _ Hy Hy') in Hz. by exists r.
Qed.

Lemma same_root_sym parent x y : same_root parent x y → same_root parent y x.
Proof. intros (r & ? & ?). by exists r. Qed.

(** Path compression: pointing [x] at its root keeps every root. *)
Lemma root_of_compress parent x r z r' :
  root_of parent x r → root_of parent z r' →
  root_of (<[x := r]> parent) z r'.
Proof.
  intros Hx. induction 1 as [z Hz|z y r' Hz Hne Hy IH].
  - destruct (decide (z = x)) as [->|Hzx].
    + assert (r = x) as -> by (eapply root_of_det; [done|by constructor]).
      constructor. by rewrite lookup_insert_eq.
    + constructor. by rewrite lookup_insert_ne.
  - destruct (decide (z = x)) as [->|Hzx].
    + assert (r' = r) as ->.
      { eapply root_of_det; [|exact Hx]. by econstructor. }
      pose proof (root_of_root _ _ _ Hx) as Hr.
      destruct (decide (r = x)) as [->|Hrx].
      * constructor. by rewrite lookup_insert_eq.
      * eapply root_up; [by rewrite lookup_insert_eq|done|].
        constructor. by rewrite lookup_insert_ne.
    + eapply root_up; [by rewrite lookup_insert_ne|done|done].
Qed.

(** [find] returns the root, within the depth the heights allow. *)
Lemma find_ok h n fuel : ∀ parent x,
  ranked h n parent → is_Some (parent !! x) → (n < fuel + h x)%nat →
  ∃ parent' r,
    find fuel parent x = Ok (parent', r) ∧
    root_of parent x r ∧ ranked h n parent' ∧ dom parent' = dom parent ∧
    (∀ z r', root_of parent z r' → root_of parent' z r').
Proof.
  induction fuel as [|fuel IH]; intros parent x Hrk [px Hx] Hfuel.
  { destruct Hrk as [_ Hb]. specialize (Hb x). lia. }
  cbn. unfold getitem. rewrite Hx. cbn.
  case_bool_decide as Hne; cycle 1.
  { subst px. exists parent, x.
    split_and!; try done. by constructor. }
  destruct Hrk as [Hh Hb]. destruct (Hh _ _ Hx Hne) as [Hlt Hpx].
  destruct (IH parent px (conj Hh Hb) Hpx ltac:(lia))
    as (p1 & r & -> & Hr & [Hh1 Hb1] & Hdom & Hkeep).
  cbn. exists (<[x := r]> p1), r.
  assert (root_of parent x r) as Hxr by (by econstructor).
  split_and!; [done|done| | |].
  - split; [|done]. intros a b Hab Hne'.
    destruct (decide (a = x)) as [->|Hax].
    + rewrite lookup_insert_eq in Hab. injection Hab as <-. split.
      * pose proof (root_of_height _ _ _ _ _ (conj Hh Hb) Hr). lia.
      * rewrite lookup_insert_ne by done.
        apply elem_of_dom. rewrite Hdom. apply elem_of_dom.
        rewrite (root_of_root _ _ _ Hr). eauto.
    + rewrite lookup_insert_ne in Hab by done.
      destruct (Hh1 _ _ Hab Hne') as [? Hb']. split; [done|].
      by apply lookup_insert_is_Some'; right.
  - rewrite dom_insert_L, Hdom.
    assert (x ∈ dom parent) by (apply elem_of_dom; eauto). set_solver.
  - intros z r' Hz. apply root_of_compress; auto.
Qed.

(** A registered position has a root. *)
Lemma root_of_total h n parent x :
  ranked h n parent → is_Some (parent !! x) → ∃ r, root_of parent x r.
Proof.
  intros Hrk Hx.
  destruct (find_ok h n (S n) parent x Hrk Hx ltac:(lia))
    as (_ & r & _ & ? & _). eauto.
Qed.

(** Hanging the root [a] under the root [b]. *)
Lemma ranked_link h n parent a b :
  ranked h n parent → a ≠ b →
  parent !! a = Some a → parent !! b = Some b →
  ranked (fun z => if decide (z = b) then Nat.max (h b) (S (h a)) else h z)
    (S n) (<[a := b]> parent).
Proof.
  intros [Hh Hb] Hab Ha Hbb. split.
  - intros z w Hz Hne. destruct (decide (z = a)) as [->|Hza].
    + rewrite lookup_insert_eq in Hz. injection Hz as <-.
      rewrite decide_False, decide_True by done. split; [lia|].
      rewrite lookup_insert_ne by done. eauto.
    + rewrite lookup_insert_ne in Hz by done.
      destruct (Hh _ _ Hz Hne) as [Hlt Hw].
      assert (z ≠ b) by congruence. rewrite (decide_False (P := z = b)) by done.
      split; [|by apply lookup_insert_is_Some'; right].
      case_decide; simplify_eq; lia.
  - intros z. pose proof (Hb z). pose proof (Hb a). pose proof (Hb b).
    case_decide; lia.
Qed.

Lemma root_of_link parent a b z r :
  a ≠ b → parent !! a = Some a → parent !! b = Some b →
  root_of parent z r →
  root_of (<[a := b]> parent) z (if decide (r = a) then b else r).
Proof.
  intros Hab Ha Hb. induction 1 as [z Hz|z y r Hz Hne Hy IH].
  - destruct (decide (z = a)) as [->|Hza].
    + eapply root_up; [by rewrite lookup_insert_eq|done|].
      constructor. by rewrite lookup_insert_ne.
    + constructor. by rewrite lookup_insert_ne.
  - assert (z ≠ a) by congruence.
    eapply root_up; [by rewrite lookup_insert_ne|done|done].
Qed.

Lemma same_root_link parent a b x y :
  a ≠ b → parent !! a = Some a → parent !! b = Some b →
  same_root parent x y → same_root (<[a := b]> parent) x y.
Proof.
  intros Hab Ha Hb (r & Hx & Hy).
  exists (if decide (r = a) then b else r). split; by apply root_of_link.
Qed.

(** The two roots share a root once one hangs under the other. *)
Lemma linked_roots parent a b x y :
  a ≠ b → parent !! a = Some a → parent !! b = Some b →
  root_of parent x a → root_of parent y b →
  same_root (<[a := b]> parent) x y ∧ same_root (<[a := b]> parent) y x.
Proof.
  intros Hab Ha Hb Hx Hy.
  pose proof (root_of_link parent a b x a Hab Ha Hb Hx) as H1.
  pose proof (root_of_link parent a b y b Hab Ha Hb Hy) as H2.
  rewrite decide_True in H1 by done. rewrite decide_False in H2 by done.
  split; by exists b.
Qed.

(** [union] joins the trees of [x] and [y] and keeps what was joined. *)
Lemma union_ok n fuel parent rank x y :
  forest n parent rank → is_Some (parent !! x) → is_Some (parent !! y) →
  (n < fuel)%nat →
  ∃ parent' rank',
    union fuel parent rank x y = Ok (parent', rank') ∧
    forest (S n) parent' rank' ∧ dom parent' = dom parent ∧
    same_root parent' x y ∧
    (∀ a b, same_root parent a b → same_root parent' a b).
Proof.
  intros [[h Hrk] Hdom] Hx Hy Hfuel. unfold union.
  destruct (find_ok h n fuel parent x Hrk Hx ltac:(lia))
    as (p1 & rx & -> & Hrx & Hrk1 & Hdom1 & Hkeep1).
  cbn [mbind res_bind].
  assert (is_Some (p1 !! y)) as Hy1.
  { apply elem_of_dom. rewrite Hdom1. by apply elem_of_dom. }
  destruct (find_ok h n fuel p1 y Hrk1 Hy1 ltac:(lia))
    as (p2 & ry & -> & Hry & Hrk2 & Hdom2 & Hkeep2).
  cbn [mbind res_bind].
  assert (root_of p2 x rx) as Hx2 by auto.
  assert (root_of p2 y ry) as Hy2 by auto.
  assert (∀ a b, same_root parent a b → same_root p2 a b) as Hkeep.
  { intros a b (r & ? & ?). exists r. split; auto. }
  pose proof (root_of_root _ _ _ Hx2) as Hrx2.
  pose proof (root_of_root _ _ _ Hy2) as Hry2.
  case_bool_decide as Hne; cycle 1.
  { subst ry. exists p2, rank. split_and!; [done| |congruence| |done].
    - split; [exists h; by eapply ranked_mono; [|done]; lia|congruence].
    - by exists rx. }
  assert (∀ r, p2 !! r = Some r → is_Some (rank !! r)) as Hrank.
  { intros r Hr. apply elem_of_dom. rewrite Hdom, <-Hdom1, <-Hdom2.
    apply elem_of_dom. eauto. }
  destruct (Hrank _ Hrx2) as [vx Hvx]. destruct (Hrank _ Hry2) as [vy Hvy].
  unfold getitem. rewrite Hvx, Hvy. cbn [mbind res_bind].
  assert (∀ a b (rank' : gmap coord Z),
            a ≠ b → p2 !! a = Some a → p2 !! b = Some b →
            dom rank' = dom rank →
            forest (S n) (<[a := b]> p2) rank' ∧
            dom (<[a := b]> p2) = dom parent) as Hlink.
  { intros a b rank' Hab Ha Hb Hdr.
    assert (dom (<[a := b]> p2) = dom p2) as Hd.
    { rewrite dom_insert_L. assert (a ∈ dom p2) by (apply elem_of_dom; eauto).
      set_solver. }
    split; [|congruence]. split; [|congruence].
    eexists. by apply ranked_link. }
  destruct (vx >? vy).
  { destruct (Hlink ry rx rank) as [? ?]; try done.
    eexists _, _. split_and!; try done.
    - by apply (linked_roots p2 ry rx y x).
    - intros a b Hab. apply same_root_link; auto. }
  destruct (vx <? vy).
  { destruct (Hlink rx ry rank) as [? ?]; try done.
    eexists _, _. split_and!; try done.
    - by apply (linked_roots p2 rx ry x y).
    - intros a b Hab. apply same_root_link; auto. }
  destruct (Hlink ry rx (<[rx := vx + 1]> rank)) as [? ?]; try done.
  { rewrite dom_insert_L. assert (rx ∈ dom rank) by (apply elem_of_dom; eauto).
    set_solver. }
  eexists _, _. split_and!; try done.
  - by apply (linked_roots p2 ry rx y x).
  - intros a b Hab. apply same_root_link; auto.
Qed.

(** Lines 394-397: registering a position. *)
Lemma register_ok n parent rank c :
  forest n parent rank →
  forest n (register (parent, rank) c).1 (register (parent, rank) c).2 ∧
  dom (register (parent, rank) c).1 = {[c]} ∪ dom parent ∧
  (∀ z r, root_of parent z r → root_of (register (parent, rank) c).1 z r).
Proof.
  intros [[h [Hh Hb]] Hdom]. unfold register. cbn [fst snd].
  destruct (parent !! c) as [v|] eqn:Hc; cbn [fst snd].
  { split_and!; [by split; [exists h|]| |done].
    assert (c ∈ dom parent) by (apply elem_of_dom; eauto). set_solver. }
  split_and!.
  - split; [|by rewrite !dom_insert_L, Hdom]. exists h. split; [|done].
    intros z w Hz Hne. destruct (decide (z = c)) as [->|Hzc].
    + rewrite lookup_insert_eq in Hz. congruence.
    + rewrite lookup_insert_ne in Hz by done.
      destruct (Hh _ _ Hz Hne). split; [done|].
      by apply lookup_insert_is_Some'; right.
  - by rewrite dom_insert_L.
  - induction 1 as [z Hz|z w r Hz Hne _ IH].
    + constructor. rewrite lookup_insert_ne; [done|congruence].
    + eapply root_up; [|done..]. rewrite lookup_insert_ne; [done|congruence].
Qed.

Lemma register_all_ok n (sublist : list coord) parent rank :
  forest n parent rank →
  forest n (foldl register (parent, rank) sublist).1
           (foldl register (parent, rank) sublist).2 ∧
  dom (foldl register (parent, rank) sublist).1
    = list_to_set sublist ∪ dom parent ∧
  (∀ z r, root_of parent z r →
          root_of (foldl register (parent, rank) sublist).1 z r).
Proof.
  revert parent rank. induction sublist as [|c l IH]; intros parent rank Hf.
  - cbn. split_and!; [done|set_solver|done].
  - cbn [foldl]. destruct (register_ok n parent rank c Hf) as (Hf1 & Hd1 & Hk1).
    destruct (register (parent, rank) c) as [p1 r1] eqn:E. cbn [fst snd] in *.
    destruct (IH p1 r1 Hf1) as (Hf2 & Hd2 & Hk2).
    split_and!; [done| |by auto].
    rewrite Hd2, Hd1. cbn. set_solver.
Qed.

(** The unions of line 400 along a sublist of registered positions. *)
Lemma chain_ok fuel (sublist : list coord) : ∀ n parent rank,
  forest n parent rank →
  (∀ c, c ∈ sublist → is_Some (parent !! c)) →
  (n + length (consecutive sublist) < fuel)%nat →
  ∃ parent' rank',
    foldl_res (fun pr xy => union fuel pr.1 pr.2 xy.1 xy.2)
      (parent, rank) (consecutive sublist) = Ok (parent', rank') ∧
    forest (n + length (consecutive sublist)) parent' rank' ∧
    dom parent' = dom parent ∧
    (∀ a b, same_root parent a b → same_root parent' a b) ∧
    (∀ a b, a ∈ sublist → b ∈ sublist → same_root parent' a b).
Proof.
  induction sublist as [|a [|b t] IH]; intros n parent rank Hf Hreg Hfuel.
  - exists parent, rank. cbn. rewrite Nat.add_0_r. split_and!; try done.
    intros a b Ha. by apply elem_of_nil in Ha.
  - exists parent, rank. cbn. rewrite Nat.add_0_r. split_and!; try done.
    intros x y ->%list_elem_of_singleton ->%list_elem_of_singleton.
    destruct Hf as [[h Hrk] _].
    destruct (root_of_total h n parent a Hrk) as [r Hr];
      [apply Hreg; left|]. by exists r.
  - change (consecutive (a :: b :: t)) with ((a, b) :: consecutive (b :: t))
      in *. cbn [length foldl_res fst snd] in *.
    destruct (union_ok n fuel parent rank a b Hf)
      as (p1 & r1 & -> & Hf1 & Hd1 & Hab & Hk1);
      [apply Hreg; set_solver|apply Hreg; set_solver|lia|].
    cbn [mbind res_bind].
    destruct (IH (S n) p1 r1 Hf1) as (p2 & r2 & -> & Hf2 & Hd2 & Hk2 & Hall).
    { intros c Hc. apply elem_of_dom. rewrite Hd1. apply elem_of_dom.
      apply Hreg. set_solver. }
    { lia. }
    exists p2, r2. split_and!; [done| |congruence|by auto|].
    + by replace (n + S (length (consecutive (b :: t))))%nat
        with (S n + length (consecutive (b :: t)))%nat by lia.
    + assert (same_root p2 a b) as Hab2 by auto.
      assert (∀ c, c ∈ a :: b :: t → same_root p2 b c) as Hb.
      { intros c [->|Hc]%elem_of_cons; [by apply same_root_sym|].
        apply Hall; [left|done]. }
      intros x y Hx Hy. eapply same_root_trans; [|by apply Hb].
      by apply same_root_sym, Hb.
Qed.

Lemma consecutive_length (sublist : list coord) :
  (length (consecutive sublist) ≤ length sublist)%nat.
Proof.
  unfold consecutive. rewrite length_zip_with. lia.
Qed.

(** Lines 394-400 for one sublist. *)
Lemma link_sublist_ok fuel n parent rank (sublist : list coord) :
  forest n parent rank → (n + length sublist < fuel)%nat →
  ∃ parent' rank',
    link_sublist fuel (parent, rank) sublist = Ok (parent', rank') ∧
    forest (n + length sublist) parent' rank' ∧
    dom parent' = list_to_set sublist ∪ dom parent ∧
    (∀ a b, same_root parent a b → same_root parent' a b) ∧
    (∀ a b, a ∈ sublist → b ∈ sublist → same_root parent' a b).
Proof.
  intros Hf Hfuel. unfold link_sublist.
  destruct (register_all_ok n sublist parent rank Hf) as (Hf1 & Hd1 & Hk1).
  destruct (foldl register (parent, rank) sublist) as [p1 r1].
  cbn [fst snd] in *. pose proof (consecutive_length sublist) as Hlen.
  destruct (chain_ok fuel sublist n p1 r1 Hf1)
    as (p2 & r2 & -> & Hf2 & Hd2 & Hk2 & Hall).
  { intros c Hc. apply elem_of_dom. rewrite Hd1. set_solver. }
  { lia. }
  exists p2, r2. split_and!; [done| |congruence| |done].
  - destruct Hf2 as [[h Hrk] Hdr]. split; [|done]. exists h.
    eapply ranked_mono; [|done]. lia.
  - intros a b (r & ? & ?). apply Hk2. exists r. split; auto.
Qed.

(** Lines 392-400: after all sublists, the members of each share a root. *)
Lemma link_all_ok fuel (cs : list (list coord)) :
  (length (concat cs) < fuel)%nat →
  ∃ parent rank,
    foldl_res (link_sublist fuel) (∅, ∅) cs = Ok (parent, rank) ∧
    forest (length (concat cs)) parent rank ∧
    (∀ s a b, s ∈ cs → a ∈ s → b ∈ s → same_root parent a b) ∧
    (∀ s c, s ∈ cs → c ∈ s → is_Some (parent !! c)).
Proof.
  intros Hfuel.
  destruct (foldl_res_total (link_sublist fuel)
    (fun seen (pr : gmap coord coord * gmap coord Z) =>
       forest (length (concat seen)) pr.1 pr.2 ∧
       (∀ s a b, s ∈ seen → a ∈ s → b ∈ s → same_root pr.1 a b) ∧
       (∀ s c, s ∈ seen → c ∈ s → is_Some (pr.1 !! c)))
    (∅, ∅) cs) as ([parent rank] & Hrun & H); [| |by exists parent, rank].
  - split_and!.
    + cbn [fst snd]. split; [|by rewrite !dom_empty_L].
      exists (fun _ => 0%nat).
      split; [|done]. intros x y Hx. by rewrite lookup_empty in Hx.
    + intros s a b Hs. by apply elem_of_nil in Hs.
    + intros s c Hs. by apply elem_of_nil in Hs.
  - intros seen s rest [p r] Hsplit (Hf & Hsame & Hreg). cbn [fst snd] in *.
    assert (length (concat cs)
            = length (concat seen) + length s + length (concat rest))%nat
      as Hlen.
    { rewrite Hsplit, concat_app, concat_cons, !length_app. lia. }
    destruct (link_sublist_ok fuel (length (concat seen)) p r s Hf)
      as (p' & r' & Hrun & Hf' & Hd & Hk & Hall); [lia|].
    exists (p', r'). split; [done|]. cbn [fst snd].
    rewrite concat_app, concat_cons, app_nil_r, length_app. split_and!.
    + done.
    + intros s' a b [Hs'|Hs']%elem_of_app Ha Hb.
      * apply Hk. by eapply Hsame.
      * apply list_elem_of_singleton in Hs' as ->. by apply Hall.
    + intros s' c Hs' Hc. apply elem_of_dom. rewrite Hd.
      apply elem_of_app in Hs' as [Hs'|Hs'].
      * apply elem_of_union_r, elem_of_dom. by eapply Hreg.
      * apply list_elem_of_singleton in Hs' as ->. set_solver.
Qed.

(** *** The dictionary [grouped] *)

Lemma assoc_set_keys {K V} `{EqDecision K} (k : K) (v : V)
    (d : list (K * V)) :
  (assoc_set k v d).*1 = if decide (k ∈ d.*1) then d.*1 else d.*1 ++ [k].
Proof.
  induction d as [|[k' v'] d IH]; cbn.
  - by rewrite decide_False by set_solver.
  - destruct (decide (k = k')) as [->|Hne]; cbn.
    + by rewrite decide_True by set_solver.
    + rewrite IH. destruct (decide (k ∈ d.*1)).
      * by rewrite decide_True by set_solver.
      * by rewrite decide_False by set_solver.
Qed.

Lemma assoc_set_NoDup {K V} `{EqDecision K} (k : K) (v : V)
    (d : list (K * V)) :
  NoDup d.*1 → NoDup (assoc_set k v d).*1.
Proof.
  intros Hnd. rewrite assoc_set_keys. case_decide; [done|].
  apply NoDup_app. split_and!; [done| |apply NoDup_singleton].
  by intros x Hx ->%list_elem_of_singleton.
Qed.

Lemma assoc_get_elem {K V} `{EqDecision K} (k : K) (v : V)
    (d : list (K * V)) :
  NoDup d.*1 → assoc_get k d = Some v ↔ (k, v) ∈ d.
Proof.
  induction d as [|[k' v'] d IH]; cbn; intros Hnd.
  - split; [done|by intros ?%elem_of_nil].
  - apply NoDup_cons in Hnd as [Hk' Hnd].
    destruct (decide (k = k')) as [->|Hne].
    + split; [intros [= ->]; left|].
      intros [[= ->]|Hin]%elem_of_cons; [done|].
      exfalso. apply Hk'. apply list_elem_of_fmap. by exists (k', v).
    + rewrite IH by done. split; [by right|].
      intros [[= -> ->]|Hin]%elem_of_cons; done.
Qed.

Lemma assoc_get_None {K V} `{EqDecision K} (k : K) (d : list (K * V)) :
  assoc_get k d = None ↔ k ∉ d.*1.
Proof.
  induction d as [|[k' v'] d IH]; cbn.
  - split; [by intros _ ?%elem_of_nil|done].
  - destruct (decide (k = k')) as [->|Hne].
    + split; [done|]. intros H. exfalso. apply H. left.
    + rewrite IH. set_solver.
Qed.

Lemma assoc_set_elem {K V} `{EqDecision K} (k : K) (v : V)
    (d : list (K * V)) k' v' :
  NoDup d.*1 →
  (k', v') ∈ assoc_set k v d ↔
    (k' = k ∧ v' = v) ∨ (k' ≠ k ∧ (k', v') ∈ d).
Proof.
  induction d as [|[k0 v0] d IH]; cbn; intros Hnd.
  - rewrite list_elem_of_singleton. split.
    + intros [= -> ->]. by left.
    + intros [[-> ->]|[_ ?%elem_of_nil]]; done.
  - apply NoDup_cons in Hnd as [Hk0 Hnd].
    destruct (decide (k = k0)) as [->|Hne].
    + rewrite !elem_of_cons. split.
      * intros [[= -> ->]|Hin]; [by left|]. right. split; [|by right].
        intros ->. apply Hk0. apply list_elem_of_fmap. by exists (k0, v').
      * intros [[-> ->]|[Hne [[= ? ?]|Hin]]]; [by left|done|by right].
    + rewrite !elem_of_cons, IH by done. split.
      * intros [[= -> ->]|[?|[? ?]]]; [right; split; [done|by left]|by left|].
        right. split; [done|by right].
      * intros [[-> ->]|[Hne' [[= -> ->]|Hin]]];
          [right; by left|by left|right; by right].
Qed.

(** Lines 402-408: the groups collected under the roots. *)
Lemma collect_all_ok fuel n (cs : list (list coord)) p0 rank :
  forest n p0 rank → (n < fuel)%nat →
  (∀ s, s ∈ cs → s ≠ []) →
  (∀ s a b, s ∈ cs → a ∈ s → b ∈ s → same_root p0 a b) →
  ∃ parent (grouped : list (coord * gset coord)),
    foldl_res (collect fuel) (p0, []) cs = Ok (parent, grouped) ∧
    NoDup grouped.*1 ∧
    (∀ z r, root_of p0 z r → root_of parent z r) ∧
    (∀ k S x, (k, S) ∈ grouped → x ∈ S → root_of parent x k) ∧
    (∀ s, s ∈ cs → ∃ k S, (k, S) ∈ grouped ∧ ∀ x, x ∈ s → x ∈ S).
Proof.
  intros Hf Hfuel Hne Hsame.
  destruct (foldl_res_total (collect fuel)
    (fun seen (st : gmap coord coord * list (coord * gset coord)) =>
       forest n st.1 rank ∧
       NoDup st.2.*1 ∧
       (∀ z r, root_of p0 z r → root_of st.1 z r) ∧
       (∀ k S x, (k, S) ∈ st.2 → x ∈ S → root_of st.1 x k) ∧
       (∀ s, s ∈ seen → ∃ k S, (k, S) ∈ st.2 ∧ ∀ x, x ∈ s → x ∈ S))
    (p0, []) cs) as ([parent grouped] & Hrun & H).
  - cbn [fst snd]. split_and!; [done|constructor|done| |].
    + intros k S x Hin. by apply elem_of_nil in Hin.
    + intros s Hs. by apply elem_of_nil in Hs.
  - intros seen s rest [p G] Hsplit (Hfp & Hnd & Hkeep & Hmem & Hcov).
    cbn [fst snd] in *.
    assert (s ∈ cs) as Hs by (rewrite Hsplit; set_solver).
    destruct s as [|c t] eqn:Es; [by apply Hne in Hs|]. rewrite <-Es in *.
    assert (c ∈ s) as Hc by (rewrite Es; left).
    destruct (Hsame s c c Hs Hc Hc) as (rc & Hrc & _).
    apply Hkeep in Hrc.
    destruct Hfp as [[h Hrk] Hdr].
    destruct (find_ok h n fuel p c Hrk (root_of_dom _ _ _ Hrc) ltac:(lia))
      as (p' & root & Hfind & Hroot & Hrk' & Hd' & Hkeep').
    unfold collect. rewrite Es. rewrite <-Es. cbn [fst snd].
    rewrite Hfind. cbn [mbind res_bind]. eexists. split; [done|].
    cbn [fst snd]. split_and!.
    + split; [by exists h|congruence].
    + by apply assoc_set_NoDup.
    + auto.
    + intros k S x Hin Hx.
      apply (proj1 (assoc_set_elem _ _ _ _ _ Hnd)) in Hin
        as [[-> ->]|[Hk Hin]]; [|by eauto].
      apply elem_of_union in Hx as [Hx|Hx].
      * destruct (assoc_get root G) as [old|] eqn:Hold; cbn in Hx;
          [|by apply not_elem_of_empty in Hx].
        apply assoc_get_elem in Hold; [|done]. eauto.
      * apply elem_of_list_to_set in Hx.
        destruct (Hsame s x c Hs Hx Hc) as (r & Hxr & Hcr).
        apply Hkeep in Hxr, Hcr.
        rewrite (root_of_det _ _ _ _ Hcr Hroot) in Hxr. auto.
    + intros s' [Hs'|Hs']%elem_of_app.
      * destruct (Hcov s' Hs') as (k & S & Hin & Hsub).
        destruct (decide (k = root)) as [->|Hk].
        -- eexists root, _. split; [apply assoc_set_elem; [done|by left]|].
           intros x Hx. apply elem_of_union_l.
           apply assoc_get_elem in Hin; [|done]. rewrite Hin. cbn. auto.
        -- exists k, S. split; [|done].
           apply assoc_set_elem; [done|]. by right.
      * apply list_elem_of_singleton in Hs' as ->.
        eexists root, _. split; [apply assoc_set_elem; [done|by left]|].
        intros x Hx. apply elem_of_union_r. by apply elem_of_list_to_set.
  - exists parent, grouped. cbn [fst snd] in H.
    destruct H as (_ & ? & ? & ? & ?). done.
Qed.

Lemma linked_same_root (cs : list (list coord)) parent x y :
  (∀ s a b, s ∈ cs → a ∈ s → b ∈ s → same_root parent a b) →
  linked cs x y → same_root parent x y.
Proof.
  intros Hsame. induction 1 as [x y (s & ? & ? & ?)|x y z (s & ? & ? & ?) _ IH].
  - by eapply Hsame.
  - eapply same_root_trans; [|exact IH]. by eapply Hsame.
Qed.

Lemma linked_member (cs : list (list coord)) x y :
  linked cs x y → ∃ s, s ∈ cs ∧ y ∈ s.
Proof. induction 1 as [x y (s & ? & ? & ?)|]; eauto. Qed.

Lemma linked_sym (cs : list (list coord)) x y : linked cs x y → linked cs y x.
Proof.
  assert (∀ a b, cooccur cs a b → cooccur cs b a) as Hsym.
  { intros a b (s & ? & ? & ?). by exists s. }
  induction 1 as [x y H|x y z H _ IH].
  - by apply tc_once, Hsym.
  - eapply tc_r; [exact IH|]. by apply Hsym.
Qed.

(** [group] returns, and each of its groups holds whatever is linked to
    one of its members; every listed position lies in a group. *)
Lemma group_ok (cs : list (list coord)) :
  (∀ s, s ∈ cs → s ≠ []) →
  ∃ gs, group (depth cs) cs = Ok gs ∧
        (∀ g x y, g ∈ gs → x ∈ g → linked cs x y → y ∈ g) ∧
        (∀ s x, s ∈ cs → x ∈ s → ∃ g, g ∈ gs ∧ x ∈ g).
Proof.
  intros Hne. unfold group, depth.
  destruct (link_all_ok (S (length (concat cs))) cs ltac:(lia))
    as (p0 & rank & -> & Hf & Hsame & Hreg).
  cbn [mbind res_bind fst snd].
  destruct (collect_all_ok (S (length (concat cs))) (length (concat cs))
              cs p0 rank Hf ltac:(lia) Hne Hsame)
    as (parent & grouped & -> & Hnd & Hkeep & Hmem & Hcov).
  cbn [mbind res_bind fst snd]. eexists. split; [done|]. split.
  - intros g x y Hg Hx Hl.
    apply list_elem_of_fmap in Hg as ([k S] & -> & Hin). cbn [snd] in *.
    apply elem_of_elements in Hx. apply elem_of_elements.
    pose proof (Hmem _ _ _ Hin Hx) as Hxk.
    destruct (linked_same_root cs p0 x y Hsame Hl) as (r & Hxr & Hyr).
    apply Hkeep in Hxr, Hyr.
    rewrite (root_of_det _ _ _ _ Hxr Hxk) in Hyr.
    destruct (linked_member cs x y Hl) as (s & Hs & Hy).
    destruct (Hcov s Hs) as (k' & S' & Hin' & Hsub).
    pose proof (Hmem _ _ _ Hin' (Hsub _ Hy)) as Hyk'.
    rewrite (root_of_det _ _ _ _ Hyk' Hyr) in Hin'.
    apply assoc_get_elem in Hin, Hin'; [|done..].
    assert (S = S') as -> by congruence. auto.
  - intros s x Hs Hx. destruct (Hcov s Hs) as (k & S & Hin & Hsub).
    exists (elements S). split.
    + apply list_elem_of_fmap. by exists (k, S).
    + apply elem_of_elements. auto.
Qed.

End forest.

Section group_ids.
Import GroupId.
Implicit Types (gs : list (list coord)) (x y c : coord).

Lemma id_map_inv gs :
  NoDup (id_map gs).*1 ∧
  (∀ k i, (k, i) ∈ id_map gs → 0 ≤ i ∧ ∃ g, g ∈ gs ∧ k = sorted g) ∧
  (∀ g, g ∈ gs → sorted g ∈ (id_map gs).*1).
Proof.
  unfold id_map.
  assert (NoDup (foldl (fun d '(idx, g) =>
             assoc_set (sorted g) (Z.of_nat idx) d) [] (enumerate gs)).*1 ∧
    (∀ k i, (k, i) ∈ foldl (fun d '(idx, g) =>
               assoc_set (sorted g) (Z.of_nat idx) d) [] (enumerate gs) →
            0 ≤ i ∧ ∃ g, g ∈ gs ∧ k = sorted g) ∧
    (∀ g, g ∈ (enumerate gs).*2 →
          sorted g ∈ (foldl (fun d '(idx, g) =>
             assoc_set (sorted g) (Z.of_nat idx) d) [] (enumerate gs)).*1))
    as H; [|by rewrite enumerate_snd in H].
  apply (foldl_inv _ (fun (seen : list (nat * list coord)) d =>
    NoDup d.*1 ∧
    (∀ k i, (k, i) ∈ d → 0 ≤ i ∧ ∃ g, g ∈ gs ∧ k = sorted g) ∧
    (∀ g, g ∈ seen.*2 → sorted g ∈ d.*1))).
  - split_and!; [constructor| |].
    + intros k i H. by apply elem_of_nil in H.
    + intros g H. by apply elem_of_nil in H.
  - intros seen [idx g] rest d Hsplit (Hnd & Hval & Hkey).
    apply enumerate_split in Hsplit as (_ & Hg & _).
    split_and!.
    + by apply assoc_set_NoDup.
    + intros k i Hin.
      apply (proj1 (assoc_set_elem _ _ _ _ _ Hnd)) in Hin
        as [[-> ->]|[_ Hin]]; [|by eauto].
      split; [lia|]. exists g. split; [by eapply list_elem_of_lookup_2|done].
    + intros g'. rewrite fmap_app, assoc_set_keys. cbn.
      intros [Hin| ->%list_elem_of_singleton]%elem_of_app.
      * apply Hkey in Hin. case_decide; set_solver.
      * case_decide; set_solver.
Qed.

(** Lines 432-433 for one group. *)
Lemma fill_lookup (g : list coord) (gid : Z) (d : gmap coord Z) x :
  foldl (fun d c => <[c := gid]> d) d g !! x =
    if decide (x ∈ g) then Some gid else d !! x.
Proof.
  revert d. induction g as [|c g IH]; intros d; cbn [foldl].
  - by rewrite decide_False by set_solver.
  - rewrite IH. destruct (decide (x ∈ g)).
    + by rewrite decide_True by set_solver.
    + destruct (decide (x = c)) as [->|Hne].
      * rewrite lookup_insert_eq. by rewrite decide_True by set_solver.
      * rewrite lookup_insert_ne by done. by rewrite decide_False by set_solver.
Qed.

(** Lines 431-433 over any list of numbered groups. *)
Lemma fill_all_equiv (l : list (list coord * Z)) (d : gmap coord Z) x y :
  d !! x = d !! y →
  (∀ g i, (g, i) ∈ l → (x ∈ g ↔ y ∈ g)) →
  foldl (fun d '(g, gid) => foldl (fun d c => <[c := gid]> d) d g) d l !! x =
  foldl (fun d '(g, gid) => foldl (fun d c => <[c := gid]> d) d g) d l !! y.
Proof.
  revert d. induction l as [|[g i] l IH]; intros d Hd Hl; [done|].
  cbn [foldl]. apply IH.
  - rewrite !fill_lookup.
    destruct (decide (x ∈ g)) as [Hx|Hx].
    + rewrite decide_True; [done|]. apply (Hl g i); [left|done].
    + rewrite decide_False; [done|]. intros Hy. apply Hx, (Hl g i); [left|done].
  - intros g' i' Hin. apply (Hl g' i'). by right.
Qed.

Lemma fill_all_member (l : list (list coord * Z)) (d : gmap coord Z) x :
  (∃ g i, (g, i) ∈ l ∧ x ∈ g) → (∀ g i, (g, i) ∈ l → 0 ≤ i) →
  ∃ i, foldl (fun d '(g, gid) => foldl (fun d c => <[c := gid]> d) d g) d l
         !! x = Some i ∧ 0 ≤ i.
Proof.
  induction l as [|[g i] l IH] using rev_ind; intros (g0 & i0 & Hin & Hx) Hpos.
  { by apply elem_of_nil in Hin. }
  rewrite foldl_app. cbn [foldl]. rewrite fill_lookup.
  destruct (decide (x ∈ g)) as [Hxg|Hxg].
  - exists i. split; [done|]. apply (Hpos g). set_solver.
  - apply IH.
    + apply elem_of_app in Hin as [Hin|Hin]; [eauto|].
      apply list_elem_of_singleton in Hin. by simplify_eq.
    + intros g' i' Hin'. apply (Hpos g'). set_solver.
Qed.

(** Lines 435-437. *)
Lemma IDassign_lookup gs (positions : list coord) x :
  IDassign gs positions !! x =
    if decide (x ∈ positions)
    then Some (default (-1) (position_to_id gs !! x)) else None.
Proof.
  unfold IDassign. induction positions as [|c l IH] using rev_ind.
  - cbn. rewrite lookup_empty. by rewrite decide_False by set_solver.
  - rewrite foldl_app. cbn [foldl].
    destruct (decide (x = c)) as [->|Hne].
    + rewrite lookup_insert_eq. by rewrite decide_True by set_solver.
    + rewrite lookup_insert_ne, IH by done. destruct (decide (x ∈ l)).
      * by rewrite decide_True by set_solver.
      * by rewrite decide_False by set_solver.
Qed.

(** Positions that lie in the same groups get the same group number, and
    a position of some group gets a number that is not -1. *)
Lemma position_to_id_equiv gs x y :
  (∀ g, g ∈ gs → (x ∈ g ↔ y ∈ g)) →
  position_to_id gs !! x = position_to_id gs !! y.
Proof.
  intros H. unfold position_to_id. apply fill_all_equiv; [done|].
  intros k i Hin. destruct (id_map_inv gs) as (_ & Hval & _).
  destruct (Hval _ _ Hin) as (_ & g & Hg & ->).
  rewrite !elem_of_sorted. auto.
Qed.

Lemma position_to_id_member gs g x :
  g ∈ gs → x ∈ g → ∃ i, position_to_id gs !! x = Some i ∧ 0 ≤ i.
Proof.
  intros Hg Hx. unfold position_to_id.
  destruct (id_map_inv gs) as (_ & Hval & Hkey).
  apply fill_all_member.
  - apply Hkey in Hg. apply list_elem_of_fmap in Hg as ([k i] & Hk & Hin).
    cbn in Hk. subst k. exists (sorted g), i. split; [done|].
    by apply elem_of_sorted.
  - intros k i Hin. by destruct (Hval _ _ Hin).
Qed.

End group_ids.

Section pipeline.
Import Detect.

Lemma frames_in_sources threshold grid_size flux y st frame c :
  detect threshold grid_size flux y = Ok st →
  frame ∈ sources_by_frame st → c ∈ frame → c ∈ sources st.
Proof.
  intros Hd Hf Hc.
  destruct (detect_records _ _ _ _ _ Hd) as (trs & _ & Hs & Hsbf & _).
  rewrite Hs. rewrite Hsbf in Hf.
  apply list_elem_of_fmap in Hf as ([a t] & -> & Ht). cbn [snd] in Hc.
  rewrite elem_of_sorted in Hc.
  apply list_elem_of_fmap in Hc as (d & -> & Hd').
  apply list_elem_of_fmap_2. unfold Trace.flat. apply elem_of_concat.
  exists t. split; [|done]. apply list_elem_of_fmap. by exists (a, t).
Qed.

(** C1. Whenever [detect] returns, [close_detect] and [group_and_id]
    return as well, and the group numbers obey the closure law: two
    positions found in the same close-group of a frame have the same
    number; two detected positions with different numbers are not found
    together in any close-group, neither directly nor through a chain of
    close-groups. *)
Theorem group_ids_closure threshold grid_size flux y st :
  detect threshold grid_size flux y = Ok st →
  ∃ r, Pipeline.analyse threshold grid_size flux y = Ok r ∧
       Pipeline.detected r = st ∧
       closure_law (Pipeline.close_sources_by_frame r)
         (GroupId.groupID (Pipeline.grouped r)).
Proof.
  intros Hd. unfold Pipeline.analyse. rewrite Hd. cbn [mbind res_bind].
  pose proof (close_sources_concat (sources_by_frame st)) as Hcs.
  pose proof (close_sources_members (sources_by_frame st)) as Hmem.
  destruct (CloseDetect.close_detect (sources_by_frame st)) as [cs csf].
  cbn [fst snd] in *. subst cs.
  destruct (group_ok (concat csf)) as (gs & Hgroup & Hclosed & Hcover).
  { intros s Hs. by apply Hmem in Hs as [? _]. }
  unfold GroupId.group_and_id. rewrite Hgroup. cbn [mbind res_bind].
  eexists. split; [done|]. cbn [Pipeline.detected Pipeline.grouped
    Pipeline.close_sources_by_frame GroupId.groupID]. split; [done|].
  assert (∀ a b, linked (concat csf) a b →
            ∀ g, g ∈ gs → (a ∈ g ↔ b ∈ g)) as Hsame.
  { intros a b Hl g Hg. split; intros H.
    - by eapply Hclosed.
    - eapply Hclosed; [done|exact H|]. by apply linked_sym. }
  split.
  - intros g a b Hg Ha Hb.
    destruct (Hmem g Hg) as (_ & frame & Hf & Hsub).
    assert (a ∈ sources st) as Has
      by (eapply frames_in_sources; [done|exact Hf|auto]).
    assert (b ∈ sources st) as Hbs
      by (eapply frames_in_sources; [done|exact Hf|auto]).
    assert (linked (concat csf) a b) as Hl by (apply tc_once; by exists g).
    destruct (Hcover g a Hg Ha) as (g' & Hg' & Ha').
    destruct (position_to_id_member gs g' a Hg' Ha') as (i & Hi & Hpos).
    exists i. rewrite !IDassign_lookup, !decide_True by done.
    rewrite <-(position_to_id_equiv gs a b (Hsame a b Hl)), Hi. done.
  - intros a b i j Hi Hj Hne Hl. apply Hne.
    rewrite IDassign_lookup in Hi, Hj.
    destruct (decide (a ∈ sources st)); [|done].
    destruct (decide (b ∈ sources st)); [|done].
    rewrite <-(position_to_id_equiv gs a b (Hsame a b Hl)) in Hj. congruence.
Qed.

(** The frame of [Examples.pair_image]: two sources one pixel apart. *)
Lemma group_ids_closure_witness :
  ∃ st, detect (8 # 10) 4 [Examples.pair_image] [Examples.pair_grid] = Ok st ∧
    ∃ r, Pipeline.analyse (8 # 10) 4
           [Examples.pair_image] [Examples.pair_grid] = Ok r ∧
         Pipeline.detected r = st ∧
         closure_law (Pipeline.close_sources_by_frame r)
           (GroupId.groupID (Pipeline.grouped r)).
Proof.
  eexists. split; [vm_compute; reflexivity|].
  apply group_ids_closure. vm_compute. reflexivity.
Defined.

End pipeline.

(** * The scenarios of the specification *)

Section scenarios.
Import Detect.

(** Scenario A: one cell over an isolated peak: one detection at the
    peak, identity 0, group -1, counted once, not variable. *)
Example scenario_lone_source :
  (fun r =>
     (sources (Pipeline.detected r),
      sourceID (Pipeline.detected r) !! (2, 2),
      variable_flag (Pipeline.detected r) !! (2, 2),
      Pipeline.close_sources r,
      GroupId.groupID (Pipeline.grouped r) !! (2, 2),
      GroupId.n_detections (Pipeline.grouped r) !! (2, 2)))
    <$> Pipeline.analyse (8 # 10) 4 [Examples.lone_image] [Examples.lone_grid]
  = Ok ([(2, 2)], Some 0, Some (FBool false), [], Some (-1), Some 1).
Proof. vm_compute. reflexivity. Qed.

(** Scenario B, in one frame: two sources one pixel apart share the close
    group of the frame and the group number 0, and count once each. *)
Example scenario_close_pair :
  (fun r =>
     (Pipeline.close_sources_by_frame r,
      GroupId.groupID (Pipeline.grouped r) !! (10, 10),
      GroupId.groupID (Pipeline.grouped r) !! (11, 11),
      GroupId.n_detections (Pipeline.grouped r) !! (10, 10),
      GroupId.n_detections (Pipeline.grouped r) !! (11, 11)))
    <$> Pipeline.analyse (8 # 10) 4 [Examples.pair_image] [Examples.pair_grid]
  = Ok ([[[(10, 10); (11, 11)]]], Some 0, Some 0, Some 1, Some 1).
Proof. vm_compute. reflexivity. Qed.

(** Scenario C: the same position brighter in one frame and dimmer in
    another is flagged variable. *)
Example scenario_variable :
  (fun st => (sources st, frames st, variable_flag st !! (4, 4)))
    <$> detect (8 # 10) 4
          [Examples.peak_image; Examples.peak_image]
          [Examples.one_cell (9 # 10) (1 # 10);
           Examples.one_cell (1 # 10) (9 # 10)]
  = Ok ([(4, 4); (4, 4)], [0%nat; 1%nat], Some (FBool true)).
Proof. vm_compute. reflexivity. Qed.

(** Scenario D: no cell reaches the threshold 0.99: nothing is detected
    and every later stage returns empty. *)
Example scenario_nothing :
  (fun r =>
     (sources (Pipeline.detected r),
      sources_by_frame (Pipeline.detected r),
      Pipeline.close_sources r,
      GroupId.groups (Pipeline.grouped r),
      map_to_list (GroupId.groupID (Pipeline.grouped r))))
    <$> Pipeline.analyse (99 # 100) 4
          [Examples.pair_image] [Examples.pair_grid]
  = Ok ([], [[]], [], [], []).
Proof. vm_compute. reflexivity. Qed.

End scenarios.

(** * More on [close_detect] *)

Section close_detect_more.
Import CloseDetect.
Implicit Types (frame : list coord) (sbf : list (list coord)).

(** X1. [close_detect] clusters every frame on its own:
    [close_sources_by_frame] has one entry per frame, the entry of a frame
    depends on that frame alone, and [close_sources] is the concatenation
    of the entries in frame order. *)
Theorem close_detect_by_frame sbf :
  length (close_detect sbf).2 = length sbf ∧
  (close_detect sbf).1 = concat (close_detect sbf).2 ∧
  (∀ sbf', (close_detect (sbf ++ sbf')).2
           = (close_detect sbf).2 ++ (close_detect sbf').2) ∧
  (∀ sbf', (close_detect (sbf ++ sbf')).1
           = (close_detect sbf).1 ++ (close_detect sbf').1).
Proof.
  split_and!.
  - rewrite close_detect_eq. cbn. by rewrite length_fmap.
  - apply close_sources_concat.
  - intros sbf'. rewrite !close_detect_eq. cbn. by rewrite fmap_app.
  - intros sbf'. rewrite !close_detect_eq. cbn.
    by rewrite fmap_app, concat_app.
Qed.

(** X2. Whatever a frame holds, its close-groups are non-empty lists in
    ascending order, made of detections of that frame, and no group is
    listed twice. *)
Theorem close_groups_well_formed sbf s frame gs :
  sbf !! s = Some frame → (close_detect sbf).2 !! s = Some gs →
  NoDup gs ∧
  ∀ g, g ∈ gs → g ≠ [] ∧ Sorted coord_le g ∧ ∀ c, c ∈ g → c ∈ frame.
Proof.
  intros Hs. rewrite close_detect_eq. cbn [snd].
  rewrite list_lookup_fmap, Hs. intros [= <-]. split.
  - unfold close_frame. apply dedup_inv.
  - intros g Hg. destruct (close_frame_members frame g Hg) as [Hne Hsub].
    split_and!; [done| |done].
    unfold close_frame in Hg. apply dedup_inv in Hg as (l & _ & _ & ->).
    apply Sorted_merge_sort; apply _.
Qed.

(** One frame of three detections, two of them at the same pixel. *)
Lemma close_groups_well_formed_witness :
  [[(4, 4); (4, 4); (8, 8)]] !! 0%nat = Some [(4, 4); (4, 4); (8, 8)] ∧
  (close_detect [[(4, 4); (4, 4); (8, 8)]]).2 !! 0%nat
    = Some [[(4, 4); (8, 8)]; [(4, 4); (4, 4); (8, 8)]] ∧
  NoDup [[(4, 4); (8, 8)]; [(4, 4); (4, 4); (8, 8)]] ∧
  ∀ g, g ∈ [[(4, 4); (8, 8)]; [(4, 4); (4, 4); (8, 8)]] →
       g ≠ [] ∧ Sorted coord_le g ∧
       ∀ c, c ∈ g → c ∈ [(4, 4); (4, 4); (8, 8)].
Proof.
  split; [reflexivity|]. split; [vm_compute; reflexivity|].
  apply (close_groups_well_formed [[(4, 4); (4, 4); (8, 8)]] 0%nat);
    [reflexivity|vm_compute; reflexivity].
Defined.

(** X3. In a frame that lists no position twice the single merge pass
    reaches the full closure: a close-group holds exactly the detections
    chained to any one of its members by pairs within the window, each of
    them once. *)
Theorem close_group_is_component frame g :
  NoDup frame → g ∈ close_frame frame →
  NoDup g ∧ ∀ p, p ∈ g → ∀ c, c ∈ g ↔ chained frame p c.
Proof.
  intros Hnd Hg.
  destruct (close_frame_group frame g Hnd Hg) as (p0 & q & _ & Hndg & _ & Hm).
  split; [done|]. intros p Hp c. apply Hm in Hp. rewrite Hm. split; intros H.
  - etrans; [by apply chained_sym|done].
  - by etrans.
Qed.

(** A chain of four detections, each within the window of the next. *)
Lemma close_group_is_component_witness :
  NoDup [(0, 0); (0, 4); (0, 8); (0, 12)] ∧
  [(0, 0); (0, 4); (0, 8); (0, 12)]
    ∈ close_frame [(0, 0); (0, 4); (0, 8); (0, 12)] ∧
  NoDup [(0, 0); (0, 4); (0, 8); (0, 12)] ∧
  ∀ p, p ∈ [(0, 0); (0, 4); (0, 8); (0, 12)] →
    ∀ c, c ∈ [(0, 0); (0, 4); (0, 8); (0, 12)]
         ↔ chained [(0, 0); (0, 4); (0, 8); (0, 12)] p c.
Proof.
  assert (NoDup [(0, 0); (0, 4); (0, 8); (0, 12)]) as Hnd.
  { apply (bool_decide_unpack _). vm_compute. reflexivity. }
  assert ([(0, 0); (0, 4); (0, 8); (0, 12)]
            ∈ close_frame [(0, 0); (0, 4); (0, 8); (0, 12)]) as Hg.
  { vm_compute. left. }
  split; [exact Hnd|]. split; [exact Hg|].
  exact (close_group_is_component _ _ Hnd Hg).
Defined.

Lemma merge_step_empty p i j co :
  (∀ k ck, co !! k = Some ck → ck = []) → merge_step p i j co = co.
Proof.
  intros Hall. unfold merge_step.
  destruct (negb (i =? j)%nat); [|done].
  destruct (co !! i) as [ci|]; [|done].
  destruct (co !! j) as [cj|] eqn:Hj; [|done].
  apply Hall in Hj as ->. done.
Qed.

Lemma merge_pass_empty frame co :
  (∀ k ck, co !! k = Some ck → ck = []) → merge_pass frame co = co.
Proof.
  intros Hall. unfold merge_pass.
  apply (foldl_inv _ (fun _ co' => co' = co)); [done|].
  intros seen [i p] rest co' _ ->. unfold merge_row.
  apply (foldl_inv _ (fun _ co' => co' = co)); [done|].
  intros ? j ? co' _ ->. cbn. by apply merge_step_empty.
Qed.

Lemma merge_step_grows p i j co k ck :
  co !! k = Some ck →
  ∃ ck', merge_step p i j co !! k = Some ck' ∧ ck ⊆ ck'.
Proof.
  intros Hk. unfold merge_step.
  destruct (negb (i =? j)%nat); [|by exists ck].
  destruct (co !! i) as [ci|]; [|by exists ck].
  destruct (co !! j) as [cj|] eqn:Hj; [|by exists ck].
  destruct (mem p cj); [|by exists ck].
  destruct (decide (k = j)) as [->|Hne].
  - simplify_eq. exists (absorb ci ck). split.
    + apply list_lookup_insert_eq. by eapply lookup_lt_Some.
    + intros c Hc. apply elem_of_absorb. by left.
  - exists ck. by rewrite list_lookup_insert_ne.
Qed.

Lemma merge_pass_grows frame co k ck :
  co !! k = Some ck →
  ∃ ck', merge_pass frame co !! k = Some ck' ∧ ck ⊆ ck'.
Proof.
  intros Hk. unfold merge_pass.
  apply (foldl_inv _ (fun _ co' => ∃ ck', co' !! k = Some ck' ∧ ck ⊆ ck')).
  { by exists ck. }
  intros seen [i p] rest co' _ IH. unfold merge_row.
  apply (foldl_inv _ (fun _ co' => ∃ ck', co' !! k = Some ck' ∧ ck ⊆ ck'));
    [done|].
  intros ? j ? co'' _ (c1 & H1 & Hs1). cbn.
  destruct (merge_step_grows p i j co'' k c1 H1) as (c2 & H2 & Hs2).
  exists c2. split; [done|]. by etrans.
Qed.

Lemma dedup_nil co : dedup co = [] ↔ ∀ l, l ∈ co → l = [].
Proof.
  destruct (dedup_inv co) as [_ Hd]. split.
  - intros He l Hl. destruct l as [|c l]; [done|].
    assert (sorted (c :: l) ∈ dedup co) as Hin.
    { apply Hd. by exists (c :: l). }
    rewrite He in Hin. by apply elem_of_nil in Hin.
  - intros Hall. apply elem_of_nil_inv. intros g Hin.
    apply Hd in Hin as (l & Hl & Hne & _). by apply Hall in Hl.
Qed.

Lemma close_frame_nil_iff frame :
  close_frame frame = [] ↔
  ∀ i j p q, i ≠ j → frame !! i = Some p → frame !! j = Some q →
             is_close p q = false.
Proof.
  destruct (adjacency_inv frame) as [Hlen Hadj].
  unfold close_frame. rewrite dedup_nil. split.
  - intros Hall i j p q Hij Hi Hj.
    destruct (is_close p q) eqn:Hc; [|done]. exfalso.
    pose proof (Hadj i p Hi) as Hrow.
    destruct (merge_pass_grows frame _ _ _ Hrow) as (ck & Hk & Hsub).
    assert (q ∈ ck) as Hq.
    { apply Hsub. apply list_elem_of_fmap. exists (j, q). split; [done|].
      apply list_elem_of_filter. split; [cbn; split; [lia|done]|].
      by apply elem_of_enumerate. }
    assert (ck = []) as ->.
    { apply Hall. by eapply list_elem_of_lookup_2. }
    by apply elem_of_nil in Hq.
  - intros Hfar.
    assert (∀ k ck, adjacency frame !! k = Some ck → ck = []) as Hnil.
    { intros k ck Hk.
      destruct (frame !! k) as [x|] eqn:Hx.
      - rewrite (Hadj k x Hx) in Hk. injection Hk as <-.
        destruct (filter _ _) as [|[j q] rest] eqn:Hf; [done|].
        assert ((j, q) ∈ (j, q) :: rest) as Hin by left.
        rewrite <- Hf in Hin. apply list_elem_of_filter in Hin as [[Hne Hc] Hin].
        apply elem_of_enumerate in Hin. cbn in Hne, Hc.
        rewrite (Hfar k j x q) in Hc; [done|lia|done|done].
      - apply lookup_lt_Some in Hk. apply lookup_ge_None in Hx. lia. }
    rewrite (merge_pass_empty _ _ Hnil).
    intros l Hl. apply list_elem_of_lookup in Hl as [k Hk]. by eapply Hnil.
Qed.

(** X4. A frame gets no close-group at all exactly when no two of its
    entries, at different places of the list, lie within the window; this
    holds for every frame, also one that lists a position twice. *)
Theorem no_close_pair_no_group sbf s frame :
  sbf !! s = Some frame →
  (close_detect sbf).2 !! s = Some [] ↔
  ∀ i j p q, i ≠ j → frame !! i = Some p → frame !! j = Some q →
             is_close p q = false.
Proof.
  intros Hs. rewrite close_detect_eq. cbn [snd].
  rewrite list_lookup_fmap, Hs. cbn. rewrite <- close_frame_nil_iff.
  split; [by intros [= ->]|by intros ->].
Qed.

(** Two detections five pixels apart in the first frame, an empty second
    frame. *)
Lemma no_close_pair_no_group_witness :
  [[(4, 4); (9, 9)]; []] !! 0%nat = Some [(4, 4); (9, 9)] ∧
  ((close_detect [[(4, 4); (9, 9)]; []]).2 !! 0%nat = Some [] ↔
   ∀ i j p q, i ≠ j → [(4, 4); (9, 9)] !! i = Some p →
              [(4, 4); (9, 9)] !! j = Some q → is_close p q = false).
Proof.
  split; [reflexivity|].
  apply (no_close_pair_no_group [[(4, 4); (9, 9)]; []] 0%nat). reflexivity.
Defined.

(** X5. In a frame that lists no position twice, a detection belongs to
    a close-group exactly when another detection of the frame lies within
    its window, and that group then holds the neighbour too. *)
Theorem close_group_covers frame p :
  NoDup frame → p ∈ frame →
  ((∃ g, g ∈ close_frame frame ∧ p ∈ g) ↔ ∃ q, adj frame p q) ∧
  ∀ q, adj frame p q → ∃ g, g ∈ close_frame frame ∧ p ∈ g ∧ q ∈ g.
Proof.
  intros Hnd Hp.
  assert (∀ q, adj frame p q →
            ∃ g, g ∈ close_frame frame ∧ p ∈ g ∧ q ∈ g) as Hcov.
  { intros q Hpq.
    destruct (merge_pass_ok frame Hnd) as [(_ & Hnb & _ & _) Hcl].
    apply list_elem_of_lookup in Hp as [i Hi].
    destruct (Hnb i p q Hi Hpq) as (ci & Hci & Hq).
    exists (sorted ci). split_and!.
    - unfold close_frame. apply dedup_inv. exists ci. split_and!; [|
        by intros ->; apply elem_of_nil in Hq|done].
      by eapply list_elem_of_lookup_2.
    - apply elem_of_sorted.
      apply (Hcl i ci q p); [by destruct Hpq as (_ & ? & _)|done|done|].
      by apply adj_sym.
    - by apply elem_of_sorted. }
  split; [|done]. split.
  - intros (g & Hg & Hpg).
    destruct (close_frame_group frame g Hnd Hg) as (p0 & q0 & H0 & _ & _ & Hm).
    apply Hm in Hpg. apply rtc_inv_r in Hpg as [->|(x & _ & Hx)].
    + by exists q0.
    + exists x. by apply adj_sym.
  - intros (q & Hq). destruct (Hcov q Hq) as (g & ? & ? & _). by exists g.
Qed.

(** A close pair and a detection far from both. *)
Lemma close_group_covers_witness :
  NoDup [(10, 10); (11, 11); (30, 30)] ∧
  (10, 10) ∈ [(10, 10); (11, 11); (30, 30)] ∧
  ((∃ g, g ∈ close_frame [(10, 10); (11, 11); (30, 30)] ∧ (10, 10) ∈ g)
     ↔ ∃ q, adj [(10, 10); (11, 11); (30, 30)] (10, 10) q) ∧
  ∀ q, adj [(10, 10); (11, 11); (30, 30)] (10, 10) q →
       ∃ g, g ∈ close_frame [(10, 10); (11, 11); (30, 30)] ∧
            (10, 10) ∈ g ∧ q ∈ g.
Proof.
  assert (NoDup [(10, 10); (11, 11); (30, 30)]) as Hnd.
  { apply (bool_decide_unpack _). vm_compute. reflexivity. }
  assert ((10, 10) ∈ [(10, 10); (11, 11); (30, 30)]) as Hp by left.
  split; [exact Hnd|]. split; [exact Hp|].
  exact (close_group_covers _ _ Hnd Hp).
Defined.

End close_detect_more.

(** * More on [unique_detect] *)

Section unique_detect_more.
Import CloseDetect UniqueDetect.
Implicit Types (frame : list coord) (sbf cs gs : list (list coord))
  (csbf : list (list (list coord))).

(** The loop over [j] of lines 192-194. *)
Lemma scan_eq gs p n (add : bool) :
  foldl_res (fun add j =>
      g ← index gs j;
      Ok (if mem p (tail g) then false else add))
    add (seq 0 n)
  = if decide (n ≤ length gs)%nat
    then Ok (add && bool_decide (Forall (fun g => p ∉ tail g) (take n gs)))
    else Raise IndexError.
Proof.
  induction n as [|n IH].
  - cbn. rewrite decide_True by lia. rewrite bool_decide_eq_true_2 by done.
    by rewrite andb_true_r.
  - rewrite seq_S, foldl_res_app, IH. cbn [Nat.add].
    destruct (decide (n ≤ length gs)%nat) as [Hn|Hn].
    + cbn. unfold index. destruct (gs !! n) as [g|] eqn:Hg.
      * pose proof (lookup_lt_Some _ _ _ Hg). rewrite decide_True by lia.
        cbn. f_equal. rewrite (take_S_r _ _ _ Hg).
        destruct (mem p (tail g)) eqn:Hm.
        -- apply mem_true in Hm. rewrite (bool_decide_eq_false_2 (Forall _ _)).
           ++ by rewrite andb_false_r.
           ++ rewrite Forall_app, Forall_singleton. tauto.
        -- assert (p ∉ tail g) as Hp.
           { intros Hp. apply mem_true in Hp. congruence. }
           f_equal. apply bool_decide_ext.
           rewrite Forall_app, Forall_singleton. tauto.
      * apply lookup_ge_None in Hg. rewrite decide_False by lia. done.
    + cbn. rewrite decide_False by lia. done.
Qed.

Lemma keep_eq cs gs s p :
  keep cs gs s p =
    match cs !! s with
    | None => Raise IndexError
    | Some bound =>
        if decide (length bound ≤ length gs)%nat
        then Ok (bool_decide
                   (Forall (fun g => p ∉ tail g) (take (length bound) gs)))
        else Raise IndexError
    end.
Proof.
  unfold keep.
  assert (index cs s = match cs !! s with
                       | Some x => Ok x
                       | None => Raise IndexError
                       end) as -> by done.
  destruct (cs !! s) as [bound|]; [|done]. cbn [mbind res_bind].
  rewrite scan_eq. by destruct (decide (length bound ≤ length gs)%nat).
Qed.

(** The loop over the detections of a frame, lines 188-198. *)
Lemma frame_scan_eq cs gs s frame u0 :
  foldl_res (fun u p =>
      add ← keep cs gs s p;
      Ok (if (add : bool) then u ++ [p] else u)) u0 frame
  = match frame with
    | [] => Ok u0
    | _ :: _ =>
        match cs !! s with
        | None => Raise IndexError
        | Some bound =>
            if decide (length bound ≤ length gs)%nat
            then Ok (u0 ++ unique_of frame (take (length bound) gs))
            else Raise IndexError
        end
    end.
Proof.
  revert u0. induction frame as [|p frame IH]; intros u0; [done|].
  cbn [foldl_res]. rewrite keep_eq.
  destruct (cs !! s) as [bound|] eqn:Hs; [|done].
  destruct (decide (length bound ≤ length gs)%nat) as [Hb|Hb]; [|done].
  cbn [mbind res_bind]. rewrite IH. unfold unique_of. rewrite filter_cons.
  destruct frame as [|q frame].
  - rewrite filter_nil. case_bool_decide; rewrite ?decide_True, ?decide_False by done;
      by rewrite ?app_nil_r.
  - rewrite ?Hs, ?decide_True by done. f_equal.
    case_bool_decide; rewrite ?decide_True, ?decide_False by done;
      by rewrite <- ?app_assoc.
Qed.

Lemma unique_detect_snoc sbf frame cs csbf :
  unique_detect (sbf ++ [frame]) cs csbf =
    (acc ← unique_detect sbf cs csbf;
     unique_frame cs csbf acc (length sbf, frame)).
Proof.
  unfold unique_detect, enumerate. rewrite imap_app, foldl_res_app. cbn.
  destruct (foldl_res _ _ _); [|done]. cbn. rewrite Nat.add_0_r.
  by destruct (unique_frame _ _ _ _).
Qed.

(** What one frame contributes, and when it raises. *)
Lemma unique_frame_eq cs csbf acc s frame :
  unique_frame cs csbf acc (s, frame) =
    match csbf !! s with
    | None => Raise IndexError
    | Some [] => Ok (acc ++ [frame])
    | Some ((_ :: _) as gs) =>
        match frame with
        | [] => Ok (acc ++ [[]])
        | _ :: _ =>
            match cs !! s with
            | None => Raise IndexError
            | Some bound =>
                if decide (length bound ≤ length gs)%nat
                then Ok (acc ++ [unique_of frame (take (length bound) gs)])
                else Raise IndexError
            end
        end
    end.
Proof.
  unfold unique_frame, index. cbn [fst snd].
  destruct (csbf !! s) as [[|g gs]|]; [done| |done].
  cbn [mbind res_bind length Nat.ltb Nat.leb].
  rewrite frame_scan_eq. destruct frame as [|p frame]; [done|].
  destruct (cs !! s) as [bound|]; [|done].
  by destruct (decide _).
Qed.

Lemma unique_of_nil frame : unique_of frame [] = frame.
Proof.
  unfold unique_of. induction frame as [|p frame IH]; [done|].
  rewrite filter_cons, decide_True by constructor. by rewrite IH.
Qed.

Lemma unique_detect_Ok sbf cs csbf us :
  unique_detect sbf cs csbf = Ok us →
  length us = length sbf ∧
  ∀ s frame, sbf !! s = Some frame →
    ∃ gs n, csbf !! s = Some gs ∧ (n ≤ length gs)%nat ∧
            (gs ≠ [] → frame ≠ [] →
               ∃ bound, cs !! s = Some bound ∧ n = length bound) ∧
            us !! s = Some (unique_of frame (take n gs)).
Proof.
  revert us. induction sbf as [|frame sbf IH] using rev_ind; intros us.
  - intros [= <-]. split; [done|]. intros s frame Hs. done.
  - rewrite unique_detect_snoc.
    destruct (unique_detect sbf cs csbf) as [acc|] eqn:Hacc; [|done].
    destruct (IH acc eq_refl) as [Hlen Hfr]. cbn.
    rewrite unique_frame_eq. intros Hus.
    assert (∃ u gs n, us = acc ++ [u] ∧ csbf !! length sbf = Some gs ∧
              (n ≤ length gs)%nat ∧
              (gs ≠ [] → frame ≠ [] →
                 ∃ bound, cs !! length sbf = Some bound ∧ n = length bound) ∧
              u = unique_of frame (take n gs)) as (u & gs & n & -> & Hgs & Hn & Hb & ->).
    { destruct (csbf !! length sbf) as [[|g gs]|]; [| |done].
      - injection Hus as <-. exists frame, [], 0%nat.
        split_and!; [done|done|done|done|by rewrite unique_of_nil].
      - destruct frame as [|p frame].
        + injection Hus as <-. exists [], (g :: gs), 0%nat.
          split_and!; [done|done|cbn; lia|done|done].
        + destruct (cs !! length sbf) as [bound|]; [|done].
          destruct (decide _) as [Hb|]; [|done]. injection Hus as <-.
          exists (unique_of (p :: frame) (take (length bound) (g :: gs))),
            (g :: gs), (length bound).
          split_and!; [done|done|done|by exists bound|done]. }
    split; [rewrite !length_app; cbn; lia|].
    intros s fr Hs. apply lookup_app_Some in Hs as [Hs|[Hge Hs]].
    + destruct (Hfr s fr Hs) as (gs' & n' & ? & ? & ? & Hu).
      exists gs', n'. split_and!; try done.
      by rewrite lookup_app_l by (by eapply lookup_lt_Some).
    + apply list_lookup_singleton_Some in Hs as [Hs <-].
      assert (s = length sbf) as -> by lia.
      exists gs, n. split_and!; try done.
      rewrite lookup_app_r by lia. rewrite Hlen, Nat.sub_diag. done.
Qed.

Lemma unique_detect_total sbf cs csbf :
  (∀ s frame, sbf !! s = Some frame →
     ∃ gs, csbf !! s = Some gs ∧
           (gs ≠ [] → frame ≠ [] →
              ∃ bound, cs !! s = Some bound ∧
                       (length bound ≤ length gs)%nat)) →
  ∃ us, unique_detect sbf cs csbf = Ok us.
Proof.
  induction sbf as [|frame sbf IH] using rev_ind; intros Hall.
  - by exists [].
  - rewrite unique_detect_snoc. destruct IH as [acc ->].
    { intros s fr Hs. apply Hall. by apply lookup_app_l_Some. }
    cbn. rewrite unique_frame_eq.
    destruct (Hall (length sbf) frame) as (gs & -> & Hb).
    { by rewrite lookup_app_r, Nat.sub_diag by lia. }
    destruct gs as [|g gs]; [by eexists|].
    destruct frame as [|p frame]; [by eexists|].
    destruct Hb as (bound & -> & Hle); [done|done|].
    rewrite decide_True by done. by eexists.
Qed.

Lemma unique_detect_raise sbf cs csbf e :
  unique_detect sbf cs csbf = Raise e → e = IndexError.
Proof.
  induction sbf as [|frame sbf IH] using rev_ind; [done|].
  rewrite unique_detect_snoc.
  destruct (unique_detect sbf cs csbf) as [acc|e'] eqn:Hacc.
  - cbn. rewrite unique_frame_eq.
    destruct (csbf !! length sbf) as [[|g gs]|]; [done| |congruence].
    destruct frame as [|p frame]; [done|].
    destruct (cs !! length sbf) as [bound|]; [|congruence].
    destruct (decide _); [done|congruence].
  - cbn. intros [= <-]. by apply IH.
Qed.

Lemma unique_of_sublist frame gs : unique_of frame gs `sublist_of` frame.
Proof. unfold unique_of. apply sublist_filter. Qed.

(** X6. When [unique_detect] returns, [unique_sources] has one list per
    frame.  The list of a frame is the frame's detections, in their order,
    without those that are a later member of one of the first [n]
    close-groups of the frame, where [n] is the length of
    [close_sources[s]] (the loop bound of line 192), whenever the frame has
    detections and close-groups.  So it keeps, in particular, every
    detection that is a later member of no close-group of its frame. *)
Theorem unique_detect_keeps sbf cs csbf us :
  unique_detect sbf cs csbf = Ok us →
  length us = length sbf ∧
  ∀ s frame, sbf !! s = Some frame →
    ∃ gs n u,
      csbf !! s = Some gs ∧ us !! s = Some u ∧
      (n ≤ length gs)%nat ∧
      (gs ≠ [] → frame ≠ [] →
         ∃ bound, cs !! s = Some bound ∧ n = length bound) ∧
      u = unique_of frame (take n gs) ∧
      u `sublist_of` frame ∧
      ∀ p, p ∈ frame → (∀ g, g ∈ gs → p ∉ tail g) → p ∈ u.
Proof.
  intros Hus. destruct (unique_detect_Ok _ _ _ _ Hus) as [Hlen Hfr].
  split; [done|]. intros s frame Hs.
  destruct (Hfr s frame Hs) as (gs & n & Hgs & Hn & Hb & Hu).
  exists gs, n, (unique_of frame (take n gs)).
  split_and!; try done; [apply unique_of_sublist|].
  intros p Hp Hout. unfold unique_of. apply list_elem_of_filter.
  split; [|done]. apply Forall_forall. intros g Hg. apply Hout.
  apply elem_of_take in Hg as (i & Hi & _). by eapply list_elem_of_lookup_2.
Qed.

(** Two frames; the second has two close pairs, and the entry
    [close_sources[1]] has length two. *)
Lemma unique_detect_keeps_witness :
  ∃ us,
    unique_detect [[(50, 50)]; [(0, 0); (1, 1); (20, 20); (21, 21)]]
      (close_detect [[(50, 50)]; [(0, 0); (1, 1); (20, 20); (21, 21)]]).1
      (close_detect [[(50, 50)]; [(0, 0); (1, 1); (20, 20); (21, 21)]]).2
      = Ok us ∧
    us = [[(50, 50)]; [(0, 0); (20, 20)]] ∧
    length us = 2%nat ∧
    ∀ s frame,
      [[(50, 50)]; [(0, 0); (1, 1); (20, 20); (21, 21)]] !! s = Some frame →
      ∃ gs n u,
        (close_detect [[(50, 50)]; [(0, 0); (1, 1); (20, 20); (21, 21)]]).2
          !! s = Some gs ∧
        us !! s = Some u ∧ (n ≤ length gs)%nat ∧
        (gs ≠ [] → frame ≠ [] →
           ∃ bound,
             (close_detect
                [[(50, 50)]; [(0, 0); (1, 1); (20, 20); (21, 21)]]).1 !! s
               = Some bound ∧ n = length bound) ∧
        u = unique_of frame (take n gs) ∧
        u `sublist_of` frame ∧
        ∀ p, p ∈ frame → (∀ g, g ∈ gs → p ∉ tail g) → p ∈ u.
Proof.
  eexists. split; [vm_compute; reflexivity|]. split; [reflexivity|].
  apply (unique_detect_keeps
           [[(50, 50)]; [(0, 0); (1, 1); (20, 20); (21, 21)]]
           [[(0, 0); (1, 1)]; [(20, 20); (21, 21)]]
           [[]; [[(0, 0); (1, 1)]; [(20, 20); (21, 21)]]]).
  vm_compute. reflexivity.
Defined.

(** X7. [unique_detect] raises nothing but [IndexError], and it returns
    exactly when [close_sources_by_frame] has an entry for every frame
    and, for every frame that has both detections and close-groups,
    [close_sources[s]] exists and is no longer than the frame's list of
    close-groups. *)
Theorem unique_detect_returns_iff sbf cs csbf :
  (∀ e, unique_detect sbf cs csbf = Raise e → e = IndexError) ∧
  ((∃ us, unique_detect sbf cs csbf = Ok us) ↔
   ∀ s frame, sbf !! s = Some frame →
     ∃ gs, csbf !! s = Some gs ∧
           (gs ≠ [] → frame ≠ [] →
              ∃ bound, cs !! s = Some bound ∧
                       (length bound ≤ length gs)%nat)).
Proof.
  split; [intros e; apply unique_detect_raise|]. split.
  - intros [us Hus] s frame Hs.
    destruct (unique_detect_Ok _ _ _ _ Hus) as [_ Hfr].
    destruct (Hfr s frame Hs) as (gs & n & Hgs & Hn & Hb & _).
    exists gs. split; [done|]. intros H1 H2.
    destruct (Hb H1 H2) as (bound & ? & ->). by exists bound.
  - apply unique_detect_total.
Qed.

(** X8. On frames in which no two detections lie within the window,
    [close_detect] followed by [unique_detect] hands every frame back
    unchanged. *)
Theorem unique_detect_no_close_pair sbf :
  (∀ frame i j p q, frame ∈ sbf → i ≠ j →
     frame !! i = Some p → frame !! j = Some q → is_close p q = false) →
  unique_detect sbf (close_detect sbf).1 (close_detect sbf).2 = Ok sbf.
Proof.
  intros Hfar.
  assert (∀ s frame, sbf !! s = Some frame →
            (close_detect sbf).2 !! s = Some []) as Hnil.
  { intros s frame Hs. rewrite close_detect_eq. cbn [snd].
    rewrite list_lookup_fmap, Hs. cbn. f_equal.
    apply close_frame_nil_iff. intros i j p q. apply Hfar.
    by eapply list_elem_of_lookup_2. }
  destruct (unique_detect_total sbf (close_detect sbf).1 (close_detect sbf).2)
    as [us Hus].
  { intros s frame Hs. exists []. split; [by eapply Hnil|done]. }
  rewrite Hus. f_equal.
  destruct (unique_detect_Ok _ _ _ _ Hus) as [Hlen Hfr].
  apply list_eq_same_length with (length sbf); [done|done|].
  intros s u frame Hlt Hu Hs.
  destruct (Hfr s frame Hs) as (gs & n & Hgs & _ & _ & Hu').
  rewrite (Hnil s frame Hs) in Hgs. injection Hgs as <-.
  rewrite take_nil, unique_of_nil in Hu'. congruence.
Qed.

(** Three frames: one detection, none, two far apart. *)
Lemma unique_detect_no_close_pair_witness :
  (∀ frame i j p q, frame ∈ [[(7, 7)]; []; [(10, 10); (10, 15)]] → i ≠ j →
     frame !! i = Some p → frame !! j = Some q → is_close p q = false) ∧
  unique_detect [[(7, 7)]; []; [(10, 10); (10, 15)]]
    (close_detect [[(7, 7)]; []; [(10, 10); (10, 15)]]).1
    (close_detect [[(7, 7)]; []; [(10, 10); (10, 15)]]).2
  = Ok [[(7, 7)]; []; [(10, 10); (10, 15)]].
Proof.
  assert (∀ frame i j p q,
            frame ∈ [[(7, 7)]; []; [(10, 10); (10, 15)]] → i ≠ j →
            frame !! i = Some p → frame !! j = Some q →
            is_close p q = false) as Hfar.
  { intros frame i j p q Hf Hij Hi Hj.
    repeat (apply elem_of_cons in Hf as [->|Hf]);
      [| |destruct i as [|[|i]], j as [|[|j]]; by simplify_eq/=
       |by apply elem_of_nil in Hf].
    - by destruct i as [|i], j as [|j].
    - by destruct i. }
  split; [exact Hfar|]. exact (unique_detect_no_close_pair _ Hfar).
Defined.

End unique_detect_more.

(** * More on [detect] *)

(** ** The lists [detect] keeps side by side *)

Section detect_lists.
Import Detect UniqueDetect.
Context (threshold : Q) (grid_size : Z) (flux : list image) (y : list grid).
Implicit Types (trs : list (nat * list detection)) (st : state).

(** The detections of frame [a] come out of the cells of frame [a]. *)
Lemma of_frame_cells a t d :
  Trace.of_frame threshold grid_size flux y a = Ok t → d ∈ t →
  ∃ img g mx my ch,
    flux !! a = Some img ∧ y !! a = Some g ∧ cell_at g mx my = Ok ch ∧
    detect_cell threshold grid_size img mx my ch = Ok (Some d).
Proof.
  unfold Trace.of_frame, index.
  destruct (y !! a) as [g|] eqn:Hy; [cbn|done].
  destruct (flux !! a) as [img|] eqn:Hf; [cbn|done].
  intros E. revert d.
  refine (foldl_res_inv _ (fun _ t => ∀ d, d ∈ t →
           ∃ img' g' mx my ch,
             Some img = Some img' ∧ Some g = Some g' ∧
             cell_at g' mx my = Ok ch ∧
             detect_cell threshold grid_size img' mx my ch = Ok (Some d))
          _ _ _ _ _ E).
  - intros d H. by apply elem_of_nil in H.
  - intros _ m t1 t2 IH.
    destruct (cell_at g m.1 m.2) as [ch|] eqn:Hc; [cbn|done].
    destruct (detect_cell _ _ _ _ _ _) as [[d|]|] eqn:Hd; cbn; [| |done].
    + intros [= <-] d' Hd'. apply elem_of_app in Hd' as [?|Hd']; [eauto|].
      apply list_elem_of_singleton in Hd' as ->.
      by exists img, g, m.1, m.2, ch.
    + by intros [= <-].
Qed.

Lemma of_run_frames trs :
  Trace.of_run threshold grid_size flux y = Ok trs →
  trs.*1 = seq 0 (length flux) ∧
  ∀ a t, (a, t) ∈ trs → Trace.of_frame threshold grid_size flux y a = Ok t.
Proof.
  unfold Trace.of_run. intros E.
  refine (foldl_res_inv _ (fun seen trs => trs.*1 = seen ∧ ∀ a t, (a, t) ∈ trs →
           Trace.of_frame threshold grid_size flux y a = Ok t) _ _ _ _ _ E).
  - split; [done|]. intros a t H. by apply elem_of_nil in H.
  - intros seen a t1 t2 [IH1 IH2].
    destruct (Trace.of_frame _ _ _ _ a) as [t|] eqn:Ht; [cbn|done].
    intros [= <-]. split.
    + by rewrite fmap_app, IH1.
    + intros a' t' [?|Hin]%elem_of_app; [eauto|].
      apply list_elem_of_singleton in Hin. by simplify_eq.
Qed.

Lemma detect_trace st :
  detect threshold grid_size flux y = Ok st →
  ∃ trs,
    Trace.of_run threshold grid_size flux y = Ok trs ∧
    sources st = pos <$> Trace.flat trs ∧
    sources_by_frame st = (fun t => sorted (pos <$> t.2)) <$> trs ∧
    num_sources st = (fun t => Z.of_nat (length t.2)) <$> trs ∧
    frames st = concat ((fun t => replicate (length t.2) t.1) <$> trs) ∧
    flux_sign st = positive <$> Trace.flat trs.
Proof.
  unfold detect.
  destruct (foldl_res _ start _) as [s|] eqn:E; [cbn|done].
  intros [= <-]. cbn.
  apply detect_frames_records in E as (trs & Htr & R1 & R2 & R3 & R4 & R5 & _).
  by exists trs.
Qed.

(** Entry [k] of the flattened trace and of the list of frame numbers. *)
Lemma trace_lookup trs k d a :
  Trace.flat trs !! k = Some d →
  concat ((fun t => replicate (length t.2) t.1) <$> trs) !! k = Some a →
  ∃ t, (a, t) ∈ trs ∧ d ∈ t.
Proof.
  revert k. induction trs as [|[a0 t0] trs IH]; intros k; [done|].
  unfold Trace.flat. cbn [fmap list_fmap concat fst snd].
  destruct (decide (k < length t0)%nat) as [Hk|Hk].
  - rewrite !lookup_app_l by (by rewrite ?length_replicate).
    intros Hd [-> _]%lookup_replicate. exists t0. split; [left|].
    by eapply list_elem_of_lookup_2.
  - rewrite !lookup_app_r by (rewrite ?length_replicate; lia).
    rewrite length_replicate. intros Hd Ha.
    destruct (IH _ Hd Ha) as (t & ? & ?). exists t. split; [by right|done].
Qed.

Lemma trace_elem trs a t d :
  (a, t) ∈ trs → d ∈ t →
  ∃ k, Trace.flat trs !! k = Some d ∧
       concat ((fun t => replicate (length t.2) t.1) <$> trs) !! k = Some a.
Proof.
  intros Hin Hd. induction trs as [|[a0 t0] trs IH].
  { by apply elem_of_nil in Hin. }
  unfold Trace.flat. cbn [fmap list_fmap concat fst snd].
  apply elem_of_cons in Hin as [[= <- <-]|Hin].
  - apply list_elem_of_lookup in Hd as [k Hk]. exists k.
    pose proof (lookup_lt_Some _ _ _ Hk).
    rewrite !lookup_app_l by (by rewrite ?length_replicate).
    split; [done|]. by apply lookup_replicate.
  - destruct (IH Hin) as (k & H1 & H2). exists (length t0 + k)%nat.
    rewrite !lookup_app_r by (rewrite ?length_replicate; lia).
    rewrite length_replicate.
    by replace (length t0 + k - length t0)%nat with k by lia.
Qed.

(** The frame numbers never decrease along the flattened trace. *)
Lemma trace_frames_mono trs s n i j a b :
  trs.*1 = seq s n → (i ≤ j)%nat →
  concat ((fun t => replicate (length t.2) t.1) <$> trs) !! i = Some a →
  concat ((fun t => replicate (length t.2) t.1) <$> trs) !! j = Some b →
  (s ≤ a ∧ a ≤ b ∧ b < s + n)%nat.
Proof.
  revert s n i j a b.
  induction trs as [|[a0 t0] trs IH]; intros s n i j a b; [done|].
  destruct n as [|n]; [done|]. cbn [fmap list_fmap concat fst snd seq].
  intros [= -> Hseq] Hij.
  destruct (decide (i < length t0)%nat) as [Hi|Hi].
  - rewrite (lookup_app_l _ _ i) by (by rewrite length_replicate).
    intros [-> _]%lookup_replicate.
    destruct (decide (j < length t0)%nat) as [Hj|Hj].
    + rewrite lookup_app_l by (by rewrite length_replicate).
      intros [-> _]%lookup_replicate. lia.
    + rewrite lookup_app_r by (rewrite length_replicate; lia).
      intros Hb. pose proof (IH _ _ _ _ _ _ Hseq (Nat.le_refl _) Hb Hb). lia.
  - rewrite !lookup_app_r by (rewrite length_replicate; lia).
    intros Ha Hb.
    assert (i - length (replicate (length t0) s)
            ≤ j - length (replicate (length t0) s))%nat as Hij' by lia.
    pose proof (IH _ _ _ _ _ _ Hseq Hij' Ha Hb). lia.
Qed.

Lemma trace_frame_lookup trs n a :
  trs.*1 = seq 0 n → ∀ t, trs !! a = Some t → t.1 = a.
Proof.
  intros Hseq t Ht.
  assert (trs.*1 !! a = Some t.1) as H by (by rewrite list_lookup_fmap, Ht).
  rewrite Hseq in H. apply lookup_seq in H. lia.
Qed.

Lemma trace_total trs :
  foldr Z.add 0 ((fun t => Z.of_nat (length t.2)) <$> trs)
  = Z.of_nat (length (Trace.flat trs)).
Proof.
  induction trs as [|[a t] trs IH]; [done|].
  unfold Trace.flat in *. cbn. rewrite length_app, IH. lia.
Qed.

Lemma trace_frames_length trs :
  length (concat ((fun t => replicate (length t.2) t.1) <$> trs))
  = length (Trace.flat trs).
Proof.
  induction trs as [|[a t] trs IH]; [done|].
  unfold Trace.flat in *. cbn. by rewrite !length_app, length_replicate, IH.
Qed.

Lemma trace_perm trs :
  pos <$> Trace.flat trs
  ≡ₚ concat ((fun t => sorted (pos <$> t.2)) <$> trs).
Proof.
  induction trs as [|[a t] trs IH]; [done|].
  unfold Trace.flat in *. cbn. rewrite fmap_app.
  by rewrite IH, sorted_perm.
Qed.

End detect_lists.

Section detect_lists_more.
Import Detect.

(** X9. The lists of [detect] agree in size: one entry per frame in
    [sources_by_frame] and [num_sources], one entry per detection in
    [sources], [frames] and [flux_sign]; [num_sources] holds the length of
    each frame's list and sums to the number of detections; [frames] never
    decreases and names frames of the input only. *)
Theorem detect_bookkeeping threshold grid_size flux y st :
  detect threshold grid_size flux y = Ok st →
  length (sources_by_frame st) = length flux ∧
  length (num_sources st) = length flux ∧
  length (frames st) = length (sources st) ∧
  length (flux_sign st) = length (sources st) ∧
  (∀ a frame, sources_by_frame st !! a = Some frame →
     num_sources st !! a = Some (Z.of_nat (length frame))) ∧
  foldr Z.add 0 (num_sources st) = Z.of_nat (length (sources st)) ∧
  (∀ i j a b, (i ≤ j)%nat →
     frames st !! i = Some a → frames st !! j = Some b →
     (a ≤ b ∧ b < length flux)%nat).
Proof.
  intros Hd.
  destruct (detect_trace _ _ _ _ st Hd) as (trs & Hrun & -> & -> & -> & -> & ->).
  destruct (of_run_frames _ _ _ _ trs Hrun) as [Hseq _].
  assert (length trs = length flux) as Hlen.
  { by rewrite <- (length_fmap fst trs), Hseq, length_seq. }
  split_and!.
  - by rewrite length_fmap.
  - by rewrite length_fmap.
  - by rewrite trace_frames_length, length_fmap.
  - by rewrite !length_fmap.
  - intros a frame. rewrite !list_lookup_fmap.
    destruct (trs !! a) as [t|]; [cbn|done]. intros [= <-].
    by rewrite sorted_length, length_fmap.
  - by rewrite trace_total, length_fmap.
  - intros i j a b Hij Ha Hb.
    pose proof (trace_frames_mono trs 0 _ i j a b Hseq Hij Ha Hb). lia.
Qed.

(** Two frames with two detections each. *)
Lemma detect_bookkeeping_witness :
  ∃ st,
    Detect.detect (8 # 10) 4
      [Examples.peak_image; Examples.pair_image]
      [Examples.two_cells; Examples.pair_grid] = Ok st ∧
    (sources st, frames st, num_sources st)
      = ([(4, 4); (4, 4); (10, 10); (11, 11)],
         [0; 0; 1; 1]%nat, [2; 2]) ∧
    length (sources_by_frame st) = 2%nat ∧
    length (num_sources st) = 2%nat ∧
    length (frames st) = length (sources st) ∧
    length (flux_sign st) = length (sources st) ∧
    (∀ a frame, sources_by_frame st !! a = Some frame →
       num_sources st !! a = Some (Z.of_nat (length frame))) ∧
    foldr Z.add 0 (num_sources st) = Z.of_nat (length (sources st)) ∧
    (∀ i j a b, (i ≤ j)%nat →
       frames st !! i = Some a → frames st !! j = Some b →
       (a ≤ b ∧ b < 2)%nat).
Proof.
  eexists. split; [vm_compute; reflexivity|]. split; [reflexivity|].
  apply (detect_bookkeeping (8 # 10) 4
           [Examples.peak_image; Examples.pair_image]
           [Examples.two_cells; Examples.pair_grid]).
  vm_compute. reflexivity.
Defined.

(** X10. [sources_by_frame] is [sources] cut by frame: its lists are in
    ascending order and, taken together, hold the entries of [sources], as
    often as they occur; detection [k] is listed in the frame that
    [frames] names for it, and every entry of a frame's list is such a
    detection. *)
Theorem sources_by_frame_cut threshold grid_size flux y st :
  detect threshold grid_size flux y = Ok st →
  sources st ≡ₚ concat (sources_by_frame st) ∧
  (∀ frame, frame ∈ sources_by_frame st → Sorted coord_le frame) ∧
  (∀ k c a, sources st !! k = Some c → frames st !! k = Some a →
     ∃ frame, sources_by_frame st !! a = Some frame ∧ c ∈ frame) ∧
  (∀ a frame c, sources_by_frame st !! a = Some frame → c ∈ frame →
     ∃ k, sources st !! k = Some c ∧ frames st !! k = Some a).
Proof.
  intros Hd.
  destruct (detect_trace _ _ _ _ st Hd) as (trs & Hrun & -> & -> & _ & -> & _).
  destruct (of_run_frames _ _ _ _ trs Hrun) as [Hseq _].
  split_and!.
  - apply trace_perm.
  - intros frame (t & -> & _)%list_elem_of_fmap.
    apply Sorted_merge_sort; apply _.
  - intros k c a. rewrite list_lookup_fmap.
    destruct (Trace.flat trs !! k) as [d|] eqn:Hk; [cbn|done].
    intros [= <-] Ha. destruct (trace_lookup trs k d a Hk Ha) as (t & Ht & Hin).
    apply list_elem_of_lookup in Ht as [a' Ht].
    pose proof (trace_frame_lookup trs _ a' Hseq _ Ht) as Ha'. cbn in Ha'.
    subst a'. exists (sorted (pos <$> t)). split.
    + by rewrite list_lookup_fmap, Ht.
    + apply elem_of_sorted. by apply list_elem_of_fmap_2.
  - intros a frame c. rewrite list_lookup_fmap.
    destruct (trs !! a) as [[a' t]|] eqn:Ht; [cbn|done].
    pose proof (trace_frame_lookup trs _ a Hseq _ Ht) as Ha'. cbn in Ha'.
    subst a'. intros [= <-] Hc. rewrite elem_of_sorted in Hc.
    apply list_elem_of_fmap in Hc as (d & -> & Hd').
    destruct (trace_elem trs a t d) as (k & H1 & H2);
      [by eapply list_elem_of_lookup_2|done|].
    exists k. split; [|done]. by rewrite list_lookup_fmap, H1.
Qed.

(** Two frames with two detections each. *)
Lemma sources_by_frame_cut_witness :
  ∃ st,
    detect (8 # 10) 4
      [Examples.peak_image; Examples.pair_image]
      [Examples.two_cells; Examples.pair_grid] = Ok st ∧
    sources_by_frame st = [[(4, 4); (4, 4)]; [(10, 10); (11, 11)]] ∧
    sources st ≡ₚ concat (sources_by_frame st) ∧
    (∀ frame, frame ∈ sources_by_frame st → Sorted coord_le frame) ∧
    (∀ k c a, sources st !! k = Some c → frames st !! k = Some a →
       ∃ frame, sources_by_frame st !! a = Some frame ∧ c ∈ frame) ∧
    (∀ a frame c, sources_by_frame st !! a = Some frame → c ∈ frame →
       ∃ k, sources st !! k = Some c ∧ frames st !! k = Some a).
Proof.
  eexists. split; [vm_compute; reflexivity|]. split; [reflexivity|].
  apply (sources_by_frame_cut (8 # 10) 4
           [Examples.peak_image; Examples.pair_image]
           [Examples.two_cells; Examples.pair_grid]).
  vm_compute. reflexivity.
Defined.

End detect_lists_more.

(** ** The pixel a detection is put at *)

Section peaks.
Import Detect.

(** The first entry a filter keeps. *)
Lemma filter_head {A} (P : A → Prop) `{∀ x, Decision (P x)} (l : list A)
    e es :
  filter P l = e :: es →
  ∃ l1 l2, l = l1 ++ e :: l2 ∧ Forall (fun x => ¬ P x) l1 ∧ P e.
Proof.
  induction l as [|x l IH]; [done|]. rewrite filter_cons.
  destruct (decide (P x)) as [Hx|Hx].
  - intros [= -> <-]. by exists [], l.
  - intros (l1 & l2 & -> & Hl1 & He)%IH. exists (x :: l1), l2.
    split_and!; [done|by constructor|done].
Qed.

(** The first hit of [np.where] inside one row. *)
Lemma row_first (m : Q) (i : Z) (row : list Q) : ∀ off e es,
  filter (fun e : Z * Z * Q => Qeq_bool e.2 m = true)
    (imap (fun j v => ((i, Z.of_nat (off + j)), v)) row) = e :: es →
  ∃ j v, e = ((i, Z.of_nat (off + j)), v) ∧ row !! j = Some v ∧
         Qeq_bool v m = true ∧
         ∀ j' v', (j' < j)%nat → row !! j' = Some v' → Qeq_bool v' m = false.
Proof.
  induction row as [|x row IH]; intros off e es; [done|].
  rewrite imap_cons, filter_cons. cbn [snd].
  destruct (decide (Qeq_bool x m = true)) as [Hx|Hx].
  - intros [= <- <-]. exists 0%nat, x. split_and!; [done..|]. lia.
  - rewrite (imap_ext _ (fun j v => ((i, Z.of_nat (S off + j)), v)))
      by (intros; cbn; do 3 f_equal; lia).
    intros (j & v & -> & Hv & Hm & Hbefore)%IH.
    exists (S j), v. split_and!; [do 3 f_equal; lia|done|done|].
    intros [|j'] v' Hlt; cbn.
    + intros [= <-]. by destruct (Qeq_bool x m).
    + apply Hbefore. lia.
Qed.

Lemma row_no_hit (m : Q) (i : Z) (row : list Q) off v :
  filter (fun e : Z * Z * Q => Qeq_bool e.2 m = true)
    (imap (fun j v => ((i, Z.of_nat (off + j)), v)) row) = [] →
  v ∈ row → Qeq_bool v m = false.
Proof.
  intros Hnil [j Hj]%list_elem_of_lookup.
  destruct (Qeq_bool v m) eqn:Hv; [|done]. exfalso.
  assert (((i, Z.of_nat (off + j)), v) ∈
            filter (fun e : Z * Z * Q => Qeq_bool e.2 m = true)
              (imap (fun j v => ((i, Z.of_nat (off + j)), v)) row)) as Hin.
  { apply list_elem_of_filter. split; [done|].
    apply elem_of_lookup_imap. by exists j, v. }
  rewrite Hnil in Hin. by apply elem_of_nil in Hin.
Qed.

(** The first hit of [np.where] in row-major order. *)
Lemma rows_first (m : Q) (w : image) : ∀ off e es,
  filter (fun e : Z * Z * Q => Qeq_bool e.2 m = true)
    (concat (imap (fun i row =>
       imap (fun j v => ((Z.of_nat (off + i), Z.of_nat j), v)) row) w))
    = e :: es →
  ∃ i j row v,
    e = ((Z.of_nat (off + i), Z.of_nat j), v) ∧
    w !! i = Some row ∧ row !! j = Some v ∧ Qeq_bool v m = true ∧
    (∀ j' v', (j' < j)%nat → row !! j' = Some v' → Qeq_bool v' m = false) ∧
    (∀ i' row' v', (i' < i)%nat → w !! i' = Some row' → v' ∈ row' →
                   Qeq_bool v' m = false).
Proof.
  induction w as [|row w IH]; intros off e es; [done|].
  rewrite imap_cons. cbn [concat]. rewrite filter_app.
  destruct (filter _ (imap _ row)) as [|e0 es0] eqn:Hrow.
  - rewrite app_nil_l.
    rewrite (imap_ext _ (fun i row =>
               imap (fun j v => ((Z.of_nat (S off + i), Z.of_nat j), v)) row))
      by (intros; cbn; apply imap_ext; intros; do 3 f_equal; lia).
    intros (i & j & row' & v & -> & Hr & Hv & Hm & Hb1 & Hb2)%IH.
    exists (S i), j, row', v. split_and!; [do 3 f_equal; lia|done..| ].
    intros [|i'] row'' v' Hlt; cbn.
    + intros [= <-] Hin.
      eapply (row_no_hit m (Z.of_nat (off + 0)) row 0); [|done].
      exact Hrow.
    + apply Hb2. lia.
  - cbn [app]. intros [= <- <-].
    apply (row_first m (Z.of_nat (off + 0)) row 0) in Hrow
      as (j & v & -> & Hv & Hm & Hb).
    exists 0%nat, j, row, v. split_and!; [done..|]. lia.
Qed.

Lemma where_first_hit (w : image) (m : Q) ij :
  where_first w m = Ok ij →
  ∃ i j row v,
    ij = (Z.of_nat i, Z.of_nat j) ∧
    w !! i = Some row ∧ row !! j = Some v ∧ (v == m)%Q ∧
    (∀ j' v', (j' < j)%nat → row !! j' = Some v' → ¬ (v' == m)%Q) ∧
    (∀ i' row' v', (i' < i)%nat → w !! i' = Some row' → v' ∈ row' →
                   ¬ (v' == m)%Q).
Proof.
  unfold where_first.
  destruct (filter _ _) as [|e es] eqn:E; [done|]. intros [= <-].
  apply (rows_first m w 0) in E
    as (i & j & row & v & -> & Hr & Hv & Hm & Hb1 & Hb2).
  exists i, j, row, v. split_and!; [done..| | |].
  - by apply Qeq_bool_iff.
  - intros j' v' Hlt Hv' Heq%Qeq_bool_iff.
    by rewrite (Hb1 j' v' Hlt Hv') in Heq.
  - intros i' row' v' Hlt Hr' Hin Heq%Qeq_bool_iff.
    by rewrite (Hb2 i' row' v' Hlt Hr' Hin) in Heq.
Qed.

(** What an accepted point records. *)
Lemma examine_peak img r c ch d :
  2 ≤ r → 2 ≤ c → examine img r c ch = Ok (Some d) →
  ∃ f, pixel img (pos d).1 (pos d).2 = Ok f ∧
       positive d = gtb f 0 ∧ brighter d = gtb (bright ch) (dim ch) ∧
       (10 <= Qabs f)%Q ∧
       Z.abs ((pos d).1 - r) ≤ 1 ∧ Z.abs ((pos d).2 - c) ≤ 1 ∧
       (∀ v, v ∈ around img r c 1 → (Qabs v <= Qabs f)%Q) ∧
       (∀ r' c' v, Z.abs (r' - r) ≤ 1 → Z.abs (c' - c) ≤ 1 →
          pixel img r' c' = Ok v →
          r' < (pos d).1 ∨ (r' = (pos d).1 ∧ c' < (pos d).2) →
          (Qabs v < Qabs f)%Q).
Proof.
  intros Hr Hc. unfold examine.
  destruct (pixel img r c) as [v|] eqn:Hv; [cbn [mbind res_bind]|done].
  destruct (gtb v (-(3#2)) && ltb v (3#2)); [done|].
  destruct (np_min (window img (r - 1) (r + 2) (c - 1) (c + 2)))
    as [lo3|]; [cbn [mbind res_bind]|done].
  destruct (if gtb lo3 (-(3#2)) then _ else _) as [[|]|];
    [done|cbn [mbind res_bind]|done].
  destruct (np_max (window img (r - 2) (r + 3) (c - 2) (c + 3)))
    as [hi5|]; [cbn [mbind res_bind]|done].
  destruct (if gtb hi5 (15#2) then _ else _) as [[|]|];
    [done|cbn [mbind res_bind]|done].
  destruct (np_max (np_abs (window img (r - 1) (r + 2) (c - 1) (c + 2))))
    as [peak|] eqn:Hpeak; [cbn [mbind res_bind]|done].
  destruct (ltb peak 10) eqn:Hweak; [done|]. apply ltb_ge in Hweak.
  destruct (where_first _ peak) as [smax|] eqn:Hsmax;
    [cbn [mbind res_bind]|done].
  apply where_first_hit in Hsmax
    as (i & j & row' & v' & -> & Hrow' & Hv' & Heq & Hb1 & Hb2).
  cbn [fst snd].
  unfold np_abs in Hrow'. rewrite list_lookup_fmap in Hrow'.
  destruct (window img (r - 1) (r + 2) (c - 1) (c + 2) !! i)
    as [row|] eqn:Hrow; [|done].
  injection Hrow' as <-. rewrite list_lookup_fmap in Hv'.
  destruct (row !! j) as [v0|] eqn:Hv0; [|done]. injection Hv' as <-.
  assert (∃ row, window img (r - 1) (r + 2) (c - 1) (c + 2) !! i = Some row ∧
                 row !! j = Some v0) as Hw by eauto.
  apply window_lookup in Hw as (Hi & Hj & Hpix); [|lia..].
  replace (r + Z.of_nat i - 1) with (r - 1 + Z.of_nat i) by lia.
  replace (c + Z.of_nat j - 1) with (c - 1 + Z.of_nat j) by lia.
  rewrite Hpix. cbn [mbind res_bind]. intros [= <-]. cbn [pos positive brighter fst snd].
  apply np_max_Ok in Hpeak as [_ Hmax].
  rewrite concat_np_abs, <- around_1 in Hmax.
  exists v0. split_and!; [done|done|done| |lia|lia| |].
  - by rewrite Heq.
  - intros u Hu. rewrite Heq. apply Hmax. by apply list_elem_of_fmap_2.
  - intros r' c' u Hr' Hc' Hu Hlex.
    assert (∃ row, window img (r - 1) (r + 2) (c - 1) (c + 2)
                     !! Z.to_nat (r' - (r - 1)) = Some row ∧
                   row !! Z.to_nat (c' - (c - 1)) = Some u)
      as (row2 & Hrow2 & Hu2).
    { apply window_lookup; [lia..|]. split_and!; [lia..|].
      by replace (r - 1 + Z.of_nat (Z.to_nat (r' - (r - 1)))) with r' by lia;
         replace (c - 1 + Z.of_nat (Z.to_nat (c' - (c - 1)))) with c' by lia. }
    assert (Qabs u <= peak)%Q as Hle.
    { apply Hmax. apply list_elem_of_fmap_2. unfold around.
      replace (r + 1 + 1) with (r + 2) by lia.
      replace (c + 1 + 1) with (c + 2) by lia.
      apply elem_of_concat. exists row2.
      split; by eapply list_elem_of_lookup_2. }
    assert (¬ (Qabs u == peak)%Q) as Hne.
    { destruct Hlex as [Hlt|[Hre Hlt]].
      - apply (Hb2 (Z.to_nat (r' - (r - 1))) (Qabs <$> row2)); [lia| |].
        + unfold np_abs. by rewrite list_lookup_fmap, Hrow2.
        + apply list_elem_of_fmap_2. by eapply list_elem_of_lookup_2.
      - assert (Z.to_nat (r' - (r - 1)) = i) as Hii by lia.
        rewrite Hii, Hrow in Hrow2. injection Hrow2 as <-.
        apply (Hb1 (Z.to_nat (c' - (c - 1)))); [lia|].
        by rewrite list_lookup_fmap, Hu2. }
    rewrite Heq. apply Qle_lteq in Hle as [?|?]; done.
Qed.

(** A cell that is not turned away by its scores is examined at its
    clamped point. *)
Lemma detect_cell_eq threshold grid_size img mx my ch :
  ∃ r c, clamped_at grid_size mx my ch r c ∧ 2 ≤ r ≤ 509 ∧ 2 ≤ c ≤ 509 ∧
    detect_cell threshold grid_size img mx my ch =
      if ltb (prob ch) threshold then Ok None
      else if gtb (trash ch) (bright ch) && gtb (trash ch) (dim ch)
      then Ok None
      else examine img r c ch.
Proof.
  destruct (clamp_ends (inject_Z (Z.of_nat mx * grid_size) + x1 ch)
              (inject_Z (Z.of_nat my * grid_size) + y1 ch))
    as (qx & qy & Hq & Hx & Hy).
  exists (int_of qy), (int_of qx). split_and!; [by exists qx, qy|lia..|].
  unfold detect_cell. rewrite Hq. done.
Qed.

(** X11. Every detection sits on a pixel of its frame that can be read
    and whose absolute value is at least 10; [flux_sign] records whether
    that value is positive.  The pixel is the strongest, in absolute
    value, of the 3x3 neighbourhood of a point [(r, c)] of [2..509] next
    to it, and of several equally strong pixels it is the first in
    row-major order. *)
Theorem detections_at_peaks threshold grid_size flux y st :
  detect threshold grid_size flux y = Ok st →
  ∀ k p a, sources st !! k = Some p → frames st !! k = Some a →
    ∃ img f (sign : bool) r c,
      flux !! a = Some img ∧ pixel img p.1 p.2 = Ok f ∧
      (10 <= Qabs f)%Q ∧
      flux_sign st !! k = Some sign ∧ (sign = true ↔ (0 < f)%Q) ∧
      2 ≤ r ≤ 509 ∧ 2 ≤ c ≤ 509 ∧
      Z.abs (p.1 - r) ≤ 1 ∧ Z.abs (p.2 - c) ≤ 1 ∧
      (∀ v, v ∈ around img r c 1 → (Qabs v <= Qabs f)%Q) ∧
      (∀ r' c' v, Z.abs (r' - r) ≤ 1 → Z.abs (c' - c) ≤ 1 →
         pixel img r' c' = Ok v →
         r' < p.1 ∨ (r' = p.1 ∧ c' < p.2) →
         (Qabs v < Qabs f)%Q).
Proof.
  intros Hdet k p a.
  destruct (detect_trace _ _ _ _ st Hdet) as (trs & Hrun & -> & _ & _ & -> & ->).
  destruct (of_run_frames _ _ _ _ trs Hrun) as [_ Hfr].
  rewrite !list_lookup_fmap.
  destruct (Trace.flat trs !! k) as [d|] eqn:Hk; [cbn|done].
  intros [= <-] Ha.
  destruct (trace_lookup trs k d a Hk Ha) as (t & Ht & Hin).
  destruct (of_frame_cells _ _ _ _ a t d (Hfr a t Ht) Hin)
    as (img & g & mx & my & ch & Himg & _ & _ & Hcell).
  destruct (detect_cell_eq threshold grid_size img mx my ch)
    as (r & c & _ & Hr & Hc & Heq).
  rewrite Heq in Hcell.
  destruct (ltb (prob ch) threshold); [done|].
  destruct (gtb (trash ch) (bright ch) && gtb (trash ch) (dim ch)); [done|].
  destruct (examine_peak img r c ch d ltac:(lia) ltac:(lia) Hcell)
    as (f & Hf & Hsign & _ & H10 & H1 & H2 & Hmax & Hfirst).
  exists img, f, (positive d), r, c.
  split_and!; try done; try lia.
  rewrite Hsign. apply gtb_gt.
Qed.

(** The frame [peak_image] with its peak of 50 at (4, 4), found by two
    cells. *)
Lemma detections_at_peaks_witness :
  ∃ st,
    detect (8 # 10) 4 [Examples.peak_image] [Examples.two_cells] = Ok st ∧
    ∀ k p a, sources st !! k = Some p → frames st !! k = Some a →
      ∃ img f (sign : bool) r c,
        [Examples.peak_image] !! a = Some img ∧ pixel img p.1 p.2 = Ok f ∧
        (10 <= Qabs f)%Q ∧
        flux_sign st !! k = Some sign ∧ (sign = true ↔ (0 < f)%Q) ∧
        2 ≤ r ≤ 509 ∧ 2 ≤ c ≤ 509 ∧
        Z.abs (p.1 - r) ≤ 1 ∧ Z.abs (p.2 - c) ≤ 1 ∧
        (∀ v, v ∈ around img r c 1 → (Qabs v <= Qabs f)%Q) ∧
        (∀ r' c' v, Z.abs (r' - r) ≤ 1 → Z.abs (c' - c) ≤ 1 →
           pixel img r' c' = Ok v →
           r' < p.1 ∨ (r' = p.1 ∧ c' < p.2) →
           (Qabs v < Qabs f)%Q).
Proof.
  eexists. split; [vm_compute; reflexivity|].
  apply (detections_at_peaks (8 # 10) 4
           [Examples.peak_image] [Examples.two_cells]).
  vm_compute. reflexivity.
Defined.

End peaks.

(** ** Where the clamp puts a coordinate *)

Section clamp_landing.
Import Detect.
Implicit Types (p q : Q).

(** A loop of lines 257-260 that ended. *)
Lemma while_up_lands fuel : ∀ p q,
  while fuel (fun p => int_of p <? 2) (fun p => p + 2)%Q p = Ok q →
  (Qfloor p < 2 → 2 ≤ Qfloor q ≤ 3) ∧ (2 ≤ Qfloor p → q = p) ∧
  ∃ k, 0 ≤ k ∧ (q == p + inject_Z (2 * k))%Q.
Proof.
  induction fuel as [|fuel IH]; intros p q; [done|]. cbn [while].
  rewrite test_low. destruct (Z.ltb_spec (Qfloor p) 2) as [Hlt|Hge].
  - intros (H1 & H2 & k & Hk & Hq)%IH. rewrite Qfloor_plus2 in H1, H2.
    split_and!; [|lia|].
    + intros _. destruct (decide (Qfloor p + 2 < 2)) as [|Hn]; [lia|].
      rewrite H2, Qfloor_plus2 by lia.
      assert (0 ≤ Qfloor p); [|lia].
      destruct (decide (0 ≤ Qfloor p)) as [|Hneg]; [done|]. exfalso. lia.
    + exists (k + 1). split; [lia|]. rewrite Hq.
      rewrite !inject_Z_mult, !inject_Z_plus.
      change (inject_Z 2) with 2%Q. change (inject_Z 1) with 1%Q. ring.
  - intros [= <-]. split_and!; [lia|done|].
    exists 0. split; [done|]. change (inject_Z (2 * 0)) with 0%Q. ring.
Qed.

(** A loop of lines 261-264 that ended. *)
Lemma while_down_lands fuel : ∀ p q,
  while fuel (fun p => int_of p >? 509) (fun p => p - 2)%Q p = Ok q →
  (509 < Qfloor p → 508 ≤ Qfloor q ≤ 509) ∧ (Qfloor p ≤ 509 → q = p) ∧
  ∃ k, 0 ≤ k ∧ (q == p - inject_Z (2 * k))%Q.
Proof.
  induction fuel as [|fuel IH]; intros p q; [done|]. cbn [while].
  rewrite test_high, Z.gtb_ltb.
  destruct (Z.ltb_spec 509 (Qfloor p)) as [Hlt|Hge].
  - intros (H1 & H2 & k & Hk & Hq)%IH. rewrite Qfloor_minus2 in H1, H2.
    split_and!; [|lia|].
    + intros _. destruct (decide (509 < Qfloor p - 2)) as [|Hn]; [lia|].
      rewrite H2, Qfloor_minus2 by lia. lia.
    + exists (k + 1). split; [lia|]. rewrite Hq.
      rewrite !inject_Z_mult, !inject_Z_plus.
      change (inject_Z 2) with 2%Q. change (inject_Z 1) with 1%Q. ring.
  - intros [= <-]. split_and!; [lia|done|].
    exists 0. split; [done|]. change (inject_Z (2 * 0)) with 0%Q. ring.
Qed.

Lemma clamp_axes fuel px py qx qy :
  clamp fuel px py = Ok (qx, qy) →
  ∃ ux uy,
    while fuel (fun p => int_of p <? 2) (fun p => p + 2)%Q px = Ok ux ∧
    while fuel (fun p => int_of p >? 509) (fun p => p - 2)%Q ux = Ok qx ∧
    while fuel (fun p => int_of p <? 2) (fun p => p + 2)%Q py = Ok uy ∧
    while fuel (fun p => int_of p >? 509) (fun p => p - 2)%Q uy = Ok qy.
Proof.
  unfold clamp.
  destruct (while fuel _ _ py) as [uy|] eqn:Y1; [cbn [mbind res_bind]|done].
  destruct (while fuel _ _ px) as [ux|] eqn:X1; [cbn [mbind res_bind]|done].
  destruct (while fuel _ _ uy) as [vy|] eqn:Y2; [cbn [mbind res_bind]|done].
  destruct (while fuel _ _ ux) as [vx|] eqn:X2; [cbn [mbind res_bind]|done].
  intros [= <- <-]. by exists ux, uy.
Qed.

Lemma axis_lands fuel p u q :
  while fuel (fun p => int_of p <? 2) (fun p => p + 2)%Q p = Ok u →
  while fuel (fun p => int_of p >? 509) (fun p => p - 2)%Q u = Ok q →
  ((p < 2)%Q → (2 <= q < 4)%Q) ∧
  ((2 <= p < 510)%Q → q = p) ∧
  ((510 <= p)%Q → (508 <= q < 510)%Q) ∧
  ∃ k, (q == p + inject_Z (2 * k))%Q.
Proof.
  intros (U1 & U2 & ku & _ & Hu)%while_up_lands
         (D1 & D2 & kd & _ & Hd)%while_down_lands.
  split_and!.
  - intros Hp%(Qfloor_lt_iff p 2). specialize (U1 Hp).
    rewrite <- D2 in U1 by lia.
    split; [apply (Qfloor_ge_iff q 2)|apply (Qfloor_lt_iff q 4)]; lia.
  - intros [H1%(Qfloor_ge_iff p 2) H2%(Qfloor_lt_iff p 510)].
    rewrite D2; rewrite U2; try done; lia.
  - intros Hp%(Qfloor_ge_iff p 510). rewrite U2 in D1 by lia.
    split; [apply (Qfloor_ge_iff q 508)|apply (Qfloor_lt_iff q 510)]; lia.
  - exists (ku - kd). rewrite Hd, Hu.
    unfold Z.sub. rewrite !inject_Z_mult, !inject_Z_plus, inject_Z_opp.
    change (inject_Z 2) with 2%Q. ring.
Qed.

End clamp_landing.

(** ** Raising the threshold *)

Section threshold.
Import Detect UniqueDetect.

Lemma detect_cell_threshold t t' grid_size img mx my ch r :
  (t <= t')%Q →
  detect_cell t grid_size img mx my ch = Ok r →
  detect_cell t' grid_size img mx my ch = Ok r ∨
  detect_cell t' grid_size img mx my ch = Ok None.
Proof.
  intros Hle.
  destruct (detect_cell_eq t grid_size img mx my ch)
    as (r0 & c0 & Hcl & _ & _ & ->).
  destruct (detect_cell_eq t' grid_size img mx my ch)
    as (r1 & c1 & Hcl' & _ & _ & ->).
  destruct (clamped_at_unique _ _ _ _ _ _ _ _ Hcl Hcl') as [<- <-].
  destruct (ltb (prob ch) t') eqn:E'; [by right|].
  apply ltb_ge in E'.
  assert (ltb (prob ch) t = false) as ->.
  { apply ltb_ge. by eapply Qle_trans. }
  by left.
Qed.

(** The state of [detect] under the higher threshold against the state
    under the lower one. *)
Lemma detect_frame_threshold t t' grid_size flux y a st st' r :
  (t <= t')%Q →
  sources st' `sublist_of` sources st →
  Forall2 (fun f' f : list coord => f' ⊆+ f)
    (sources_by_frame st') (sources_by_frame st) →
  detect_frame t grid_size flux y st a = Ok r →
  ∃ r', detect_frame t' grid_size flux y st' a = Ok r' ∧
        sources r' `sublist_of` sources r ∧
        Forall2 (fun f' f : list coord => f' ⊆+ f)
          (sources_by_frame r') (sources_by_frame r).
Proof.
  intros Hle Hsrc Hsbf. unfold detect_frame.
  destruct (index y a) as [g|]; [cbn [mbind res_bind]|done].
  destruct (index flux a) as [img|]; [cbn [mbind res_bind]|done].
  match goal with
  | |- context [foldl_res ?f (st, ([], 0)) (cells g)] => set (body := f)
  end.
  match goal with
  | |- context [foldl_res ?f (st', ([], 0)) (cells g)] => set (body' := f)
  end.
  destruct (foldl_res body (st, ([], 0)) (cells g)) as [s|] eqn:E; [|done].
  cbn [mbind res_bind]. intros [= <-].
  eapply (foldl_res_sim body body' (fun s s' =>
    sources s'.1 `sublist_of` sources s.1 ∧
    Forall2 (fun f' f : list coord => f' ⊆+ f)
      (sources_by_frame s'.1) (sources_by_frame s.1) ∧
    s'.2.1 `sublist_of` s.2.1)) in E as (s' & -> & H1 & H2 & H3).
  - cbn [mbind res_bind]. eexists. split; [done|]. cbn. split; [done|].
    apply Forall2_app; [done|]. constructor; [|done].
    apply sublist_submseteq in H3.
    by rewrite !sorted_perm.
  - clear -Hle. intros s s' m r (H1 & H2 & H3). unfold body, body'.
    destruct (cell_at g m.1 m.2) as [ch|]; [cbn [mbind res_bind]|done].
    destruct (detect_cell t _ _ _ _ _) as [d|] eqn:Hd;
      [cbn [mbind res_bind]|done].
    intros [= <-].
    destruct (detect_cell_threshold t t' _ _ _ _ _ _ Hle Hd) as [->| ->];
      cbn [mbind res_bind]; (eexists; split; [done|]).
    + destruct d as [d|]; [|done]. cbn.
      split_and!; [by apply sublist_app|done|by apply sublist_app].
    + destruct d as [d|]; [|done]. cbn.
      split_and!; [by apply sublist_inserts_r|done|by apply sublist_inserts_r].
  - done.
Qed.

(** X13. Raising the threshold never adds a detection and never makes a
    run fail: if [detect] returns at one threshold it returns at every
    higher one, with a sub-list of the detections, frame by frame. *)
Theorem threshold_monotone t t' grid_size flux y st :
  (t <= t')%Q →
  detect t grid_size flux y = Ok st →
  ∃ st', detect t' grid_size flux y = Ok st' ∧
         sources st' `sublist_of` sources st ∧
         Forall2 (fun f' f : list coord => f' ⊆+ f)
           (sources_by_frame st') (sources_by_frame st).
Proof.
  intros Hle. unfold detect.
  destruct (foldl_res (detect_frame t _ _ _) start _) as [s|] eqn:E; [|done].
  cbn [mbind res_bind]. intros [= <-].
  eapply (foldl_res_sim _ (detect_frame t' grid_size flux y) (fun s s' =>
    sources s' `sublist_of` sources s ∧
    Forall2 (fun f' f : list coord => f' ⊆+ f)
      (sources_by_frame s') (sources_by_frame s))) in E
    as (s' & -> & H1 & H2).
  - cbn [mbind res_bind]. eexists. split; [done|]. done.
  - intros s1 s1' a r [H1 H2] Hr.
    by eapply detect_frame_threshold.
  - split; [done|constructor].
Qed.

(** The close pair of [pair_image] is seen at 0.8 and lost at 0.99. *)
Lemma threshold_monotone_witness :
  ∃ st,
    detect (8 # 10) 4 [Examples.pair_image] [Examples.pair_grid] = Ok st ∧
    sources st = [(10, 10); (11, 11)] ∧
    ∃ st', detect (99 # 100) 4 [Examples.pair_image] [Examples.pair_grid]
             = Ok st' ∧
           sources st' `sublist_of` sources st ∧
           Forall2 (fun f' f : list coord => f' ⊆+ f)
             (sources_by_frame st') (sources_by_frame st).
Proof.
  eexists. split; [vm_compute; reflexivity|]. split; [reflexivity|].
  apply (threshold_monotone (8 # 10) (99 # 100) 4
           [Examples.pair_image] [Examples.pair_grid]).
  - vm_compute. discriminate.
  - vm_compute. reflexivity.
Defined.

End threshold.

(** ** What a loop and a lookup raise *)

Section detect_errors.
Import Detect UniqueDetect.

Lemma foldl_res_raise {A B} (f : A → B → res A) (P : exn → Prop) l : ∀ a e,
  (∀ a x e, x ∈ l → f a x = Raise e → P e) →
  foldl_res f a l = Raise e → P e.
Proof.
  induction l as [|x l IH]; intros a e Hf; [done|]. cbn [foldl_res].
  destruct (f a x) as [a'|e'] eqn:Hx; cbn [mbind res_bind].
  - apply IH. intros a0 x0 e0 Hin. apply Hf. by right.
  - intros [= <-]. eapply Hf; [left|done].
Qed.

Lemma item_raise {A} (l : list A) i e : item l i = Raise e → e = IndexError.
Proof.
  unfold item. destruct (_ <? 0); [congruence|].
  destruct (l !! _); [done|congruence].
Qed.

Lemma index_raise {A} (l : list A) i e : index l i = Raise e → e = IndexError.
Proof. unfold index. destruct (l !! i); [done|congruence]. Qed.

End detect_errors.

(** * More on [group_and_id] *)

(** ** Nothing is grouped that is not linked *)

Section loops_in.

Lemma foldl_res_inv_in {A B} (f : A → B → res A) (P : A → Prop) l : ∀ a r,
  P a → (∀ x a a', x ∈ l → P a → f a x = Ok a' → P a') →
  foldl_res f a l = Ok r → P r.
Proof.
  induction l as [|x l IH]; intros a r Ha Hf; [by intros [= <-]|].
  cbn [foldl_res]. destruct (f a x) as [a'|] eqn:Hx; [cbn|done].
  apply IH.
  - eapply Hf; [left|done|done].
  - intros x0 a0 a0' Hin. apply Hf. by right.
Qed.

End loops_in.

Section group_sound.
Import GroupId.
Context (cs : list (list coord)).
Implicit Types (parent : gmap coord coord) (rank : gmap coord Z)
  (x y r : coord) (fuel : nat) (s : list coord).

Lemma cooccur_sym x y : cooccur cs x y → cooccur cs y x.
Proof. intros (g & ? & ? & ?). by exists g. Qed.

Lemma near_sym x y : rtc (cooccur cs) x y → rtc (cooccur cs) y x.
Proof.
  induction 1 as [|x y z Hxy _ IH]; [done|].
  eapply rtc_r; [exact IH|by apply cooccur_sym].
Qed.

(** [find] with its path compression keeps every position below a
    position it is linked to. *)
Lemma find_sound fuel : ∀ parent x parent' r,
  (∀ a b, parent !! a = Some b → rtc (cooccur cs) a b) →
  find fuel parent x = Ok (parent', r) →
  (∀ a b, parent' !! a = Some b → rtc (cooccur cs) a b) ∧
  rtc (cooccur cs) x r.
Proof.
  induction fuel as [|fuel IH]; intros parent x parent' r Hs; [done|].
  cbn [find]. unfold getitem.
  destruct (parent !! x) as [px|] eqn:Hpx; [cbn [mbind res_bind]|done].
  case_bool_decide as Hne.
  - destruct (find fuel parent px) as [[p1 r1]|] eqn:Hf;
      [cbn [mbind res_bind]|done].
    intros [= <- <-]. destruct (IH _ _ _ _ Hs Hf) as [Hs1 Hr1].
    assert (rtc (cooccur cs) x r1) as Hx by (etrans; [by apply Hs|done]).
    split; [|done]. intros a b.
    rewrite lookup_insert_Some. intros [[<- <-]|[_ ?]]; auto.
  - intros [= <- <-]. split; [done|]. by apply Hs.
Qed.

Lemma union_sound fuel parent rank x y parent' rank' :
  (∀ a b, parent !! a = Some b → rtc (cooccur cs) a b) →
  rtc (cooccur cs) x y →
  union fuel parent rank x y = Ok (parent', rank') →
  ∀ a b, parent' !! a = Some b → rtc (cooccur cs) a b.
Proof.
  intros Hs Hxy. unfold union.
  destruct (find fuel parent x) as [[p1 rx]|] eqn:F1;
    [cbn [mbind res_bind]|done].
  destruct (find fuel p1 y) as [[p2 ry]|] eqn:F2;
    [cbn [mbind res_bind]|done].
  destruct (find_sound _ _ _ _ _ Hs F1) as [Hs1 Hx].
  destruct (find_sound _ _ _ _ _ Hs1 F2) as [Hs2 Hy].
  assert (rtc (cooccur cs) rx ry) as Hxy'.
  { eapply rtc_trans; [apply near_sym; exact Hx|].
    eapply rtc_trans; [exact Hxy|exact Hy]. }
  assert (rtc (cooccur cs) ry rx) as Hyx' by (by apply near_sym).
  case_bool_decide; [|by intros [= <- <-]].
  unfold getitem.
  destruct (rank !! rx) as [n1|]; [cbn [mbind res_bind]|done].
  destruct (rank !! ry) as [n2|]; [cbn [mbind res_bind]|done].
  destruct (n1 >? n2); [|destruct (n1 <? n2)]; intros [= <- <-] a b;
    rewrite lookup_insert_Some; intros [[<- <-]|[_ ?]]; auto.
Qed.

Lemma register_sound (pr : gmap coord coord * gmap coord Z) (l : list coord) :
  (∀ a b, pr.1 !! a = Some b → rtc (cooccur cs) a b) →
  ∀ a b, (foldl register pr l).1 !! a = Some b → rtc (cooccur cs) a b.
Proof.
  revert pr. induction l as [|c l IH]; intros pr Hs; [done|].
  cbn [foldl]. apply IH. unfold register.
  destruct (pr.1 !! c); [done|]. cbn [fst]. intros a b.
  rewrite lookup_insert_Some. intros [[<- <-]|[_ ?]]; [done|auto].
Qed.

Lemma elem_of_consecutive (s : list coord) x y :
  (x, y) ∈ consecutive s → x ∈ s ∧ y ∈ s.
Proof.
  unfold consecutive. intros Hin. split.
  - by eapply elem_of_zip_l.
  - apply elem_of_zip_r in Hin. destruct s; [done|]. by right.
Qed.

Lemma link_sublist_sound fuel (pr pr' : gmap coord coord * gmap coord Z) s :
  s ∈ cs →
  (∀ a b, pr.1 !! a = Some b → rtc (cooccur cs) a b) →
  link_sublist fuel pr s = Ok pr' →
  ∀ a b, pr'.1 !! a = Some b → rtc (cooccur cs) a b.
Proof.
  intros Hs Hpr. unfold link_sublist.
  apply (foldl_res_inv_in _
           (fun pr => ∀ a b, pr.1 !! a = Some b → rtc (cooccur cs) a b)).
  - by apply register_sound.
  - intros [x y] [p rk] [p' rk'] [Hx Hy]%elem_of_consecutive Hp. cbn [fst snd].
    intros Hu. eapply union_sound; [exact Hp| |exact Hu].
    apply rtc_once. by exists s.
Qed.

Lemma link_all_sound fuel (l : list (list coord))
    (pr : gmap coord coord * gmap coord Z) :
  (∀ s, s ∈ l → s ∈ cs) →
  foldl_res (link_sublist fuel) (∅, ∅) l = Ok pr →
  ∀ a b, pr.1 !! a = Some b → rtc (cooccur cs) a b.
Proof.
  intros Hl.
  apply (foldl_res_inv_in _
           (fun pr => ∀ a b, pr.1 !! a = Some b → rtc (cooccur cs) a b)).
  - intros a b. cbn [fst]. by rewrite lookup_empty.
  - intros s p p' Hs Hp Hlink. eapply link_sublist_sound; eauto.
Qed.

Lemma collect_all_sound fuel (l : list (list coord))
    (p0 : gmap coord coord)
    (st : gmap coord coord * list (coord * gset coord)) :
  (∀ s, s ∈ l → s ∈ cs) →
  (∀ a b, p0 !! a = Some b → rtc (cooccur cs) a b) →
  foldl_res (collect fuel) (p0, []) l = Ok st →
  ∀ k (S : gset coord), (k, S) ∈ st.2 →
    S ≠ ∅ ∧ ∀ x, x ∈ S → rtc (cooccur cs) x k ∧ ∃ s, s ∈ cs ∧ x ∈ s.
Proof.
  intros Hl Hp0 Hrun.
  assert ((∀ a b, st.1 !! a = Some b → rtc (cooccur cs) a b) ∧
          NoDup st.2.*1 ∧
          ∀ k (S : gset coord), (k, S) ∈ st.2 →
            S ≠ ∅ ∧ ∀ x, x ∈ S → rtc (cooccur cs) x k ∧ ∃ s, s ∈ cs ∧ x ∈ s)
    as (_ & _ & H); [|exact H].
  revert Hrun.
  apply (foldl_res_inv_in _
    (fun st : gmap coord coord * list (coord * gset coord) =>
       (∀ a b, st.1 !! a = Some b → rtc (cooccur cs) a b) ∧
       NoDup st.2.*1 ∧
       ∀ k (S : gset coord), (k, S) ∈ st.2 →
         S ≠ ∅ ∧ ∀ x, x ∈ S → rtc (cooccur cs) x k ∧ ∃ s, s ∈ cs ∧ x ∈ s)).
  - cbn [fst snd]. split_and!; [done|constructor|].
    intros k S Hin. by apply elem_of_nil in Hin.
  - intros s [p G] [p' G'] Hs%Hl (Hp & Hnd & HG). cbn [fst snd] in *.
    unfold collect. destruct s as [|c t] eqn:Es; [done|]. rewrite <- Es.
    rewrite <- Es in Hs. cbn [fst snd].
    destruct (find fuel p c) as [[p1 root]|] eqn:Hf;
      [cbn [mbind res_bind]|done].
    intros [= <- <-]. destruct (find_sound _ _ _ _ _ Hp Hf) as [Hp1 Hroot].
    split_and!; [done|by apply assoc_set_NoDup|].
    intros k S Hin.
    apply (proj1 (assoc_set_elem _ _ _ _ _ Hnd)) in Hin
      as [[-> ->]|[Hk Hin]]; [|by auto].
    assert (c ∈ s) as Hc by (rewrite Es; left).
    split.
    + intros He. assert (c ∈ (∅ : gset coord)) as Hin; [|set_solver].
      rewrite <- He. apply elem_of_union_r, elem_of_list_to_set. done.
    + intros x [Hx|Hx]%elem_of_union.
      * destruct (assoc_get root G) as [old|] eqn:Hold; cbn in Hx;
          [|by apply not_elem_of_empty in Hx].
        apply assoc_get_elem in Hold; [|done].
        by apply (HG _ _ Hold).
      * apply elem_of_list_to_set in Hx. split; [|by exists s].
        etrans; [|exact Hroot]. apply rtc_once. by exists s.
Qed.

Lemma group_sound fuel (gs : list (list coord)) :
  group fuel cs = Ok gs →
  ∀ g, g ∈ gs →
    g ≠ [] ∧ NoDup g ∧
    (∀ x, x ∈ g → ∃ s, s ∈ cs ∧ x ∈ s) ∧
    ∀ x y, x ∈ g → y ∈ g → x = y ∨ linked cs x y.
Proof.
  unfold group.
  destruct (foldl_res (link_sublist fuel) (∅, ∅) cs) as [pr|] eqn:Hlink;
    [cbn [mbind res_bind]|done].
  destruct (foldl_res (collect fuel) (pr.1, []) cs) as [st|] eqn:Hcol;
    [cbn [mbind res_bind]|done].
  intros [= <-] g ([k S] & -> & Hin)%list_elem_of_fmap. cbn [snd].
  pose proof (link_all_sound fuel cs pr (fun s H => H) Hlink) as Hp.
  destruct (collect_all_sound fuel cs pr.1 st (fun s H => H) Hp Hcol k S Hin)
    as [Hne HS].
  split_and!.
  - intros He. apply Hne. apply leibniz_equiv, elements_empty_inv.
    by rewrite He.
  - apply NoDup_elements.
  - intros x Hx%elem_of_elements. by apply HS.
  - intros x y Hx%elem_of_elements Hy%elem_of_elements.
    apply rtc_tc. etrans; [by apply HS|]. apply near_sym. by apply HS.
Qed.

End group_sound.

(** ** The groups as a partition *)

Section group_partitions.
Import GroupId.
Implicit Types (cs gs : list (list coord)) (x y c : coord).

(** What [group] builds: the sets collected under distinct roots. *)
Lemma group_struct cs :
  (∀ s, s ∈ cs → s ≠ []) →
  ∃ (parent : gmap coord coord) (grouped : list (coord * gset coord)),
    group (depth cs) cs
      = Ok ((fun kv : coord * gset coord => elements kv.2) <$> grouped) ∧
    NoDup grouped.*1 ∧
    (∀ k S x, (k, S) ∈ grouped → x ∈ S → root_of parent x k) ∧
    (∀ s, s ∈ cs → ∃ k S, (k, S) ∈ grouped ∧ ∀ x, x ∈ s → x ∈ S).
Proof.
  intros Hne. unfold group, depth.
  destruct (link_all_ok (S (length (concat cs))) cs ltac:(lia))
    as (p0 & rank & -> & Hf & Hsame & Hreg).
  cbn [mbind res_bind fst snd].
  destruct (collect_all_ok (S (length (concat cs))) (length (concat cs))
              cs p0 rank Hf ltac:(lia) Hne Hsame)
    as (parent & grouped & -> & Hnd & Hkeep & Hmem & Hcov).
  cbn [mbind res_bind fst snd]. by exists parent, grouped.
Qed.

Lemma group_disjoint cs gs :
  (∀ s, s ∈ cs → s ≠ []) → group (depth cs) cs = Ok gs → disjoint_groups gs.
Proof.
  intros Hne Hrun.
  destruct (group_struct cs Hne) as (parent & grouped & Hg & Hnd & Hmem & _).
  rewrite Hg in Hrun. injection Hrun as <-.
  intros i j g1 g2 c. rewrite !list_lookup_fmap.
  destruct (grouped !! i) as [[k1 S1]|] eqn:H1; [cbn|done].
  destruct (grouped !! j) as [[k2 S2]|] eqn:H2; [cbn|done].
  intros [= <-] [= <-] Hc1%elem_of_elements Hc2%elem_of_elements.
  pose proof (Hmem k1 S1 c (list_elem_of_lookup_2 _ _ _ H1) Hc1) as R1.
  pose proof (Hmem k2 S2 c (list_elem_of_lookup_2 _ _ _ H2) Hc2) as R2.
  pose proof (root_of_det _ _ _ _ R1 R2) as <-.
  apply (NoDup_lookup grouped.*1 i j k1 Hnd).
  - by rewrite list_lookup_fmap, H1.
  - by rewrite list_lookup_fmap, H2.
Qed.

(** An empty close-group stops [group] at line 403. *)
Lemma group_raises cs : [] ∈ cs → group (depth cs) cs = Raise IndexError.
Proof.
  intros (l1 & l2 & Hcs & Hl1)%list_elem_of_split_l. unfold group, depth.
  destruct (link_all_ok (S (length (concat cs))) cs ltac:(lia))
    as (p0 & rank & -> & Hf & Hsame & Hreg).
  cbn [mbind res_bind fst snd].
  destruct (collect_all_ok (S (length (concat cs))) (length (concat cs))
              l1 p0 rank Hf ltac:(lia))
    as (parent & grouped & Hrun & _).
  { intros s Hs ->. done. }
  { intros s a b Hs. apply Hsame. rewrite Hcs. apply elem_of_app. by left. }
  rewrite Hcs at 2. rewrite foldl_res_app, Hrun. done.
Qed.

Lemma group_Ok_nonempty cs gs :
  group (depth cs) cs = Ok gs → ∀ s, s ∈ cs → s ≠ [].
Proof.
  intros Hrun s Hs ->. by rewrite (group_raises cs Hs) in Hrun.
Qed.

(** X17. [group] returns exactly when no list of [close_sources] is
    empty; an empty list makes it raise [IndexError] (line 403 reads
    [sublist[0]]). *)
Theorem group_returns_iff cs :
  ((∃ gs, group (depth cs) cs = Ok gs) ↔ [] ∉ cs) ∧
  ([] ∈ cs → group (depth cs) cs = Raise IndexError).
Proof.
  split; [|apply group_raises]. split.
  - intros [gs Hrun] Hin. by rewrite (group_raises cs Hin) in Hrun.
  - intros Hne. destruct (group_ok cs) as (gs & Hrun & _); [|by exists gs].
    by intros s Hs ->.
Qed.

(** X18. The groups that [group] returns split the positions listed in
    [close_sources]: every group is non-empty and lists no position
    twice, no position lies in two groups, and a position lies in a group
    exactly when some list of [close_sources] holds it. *)
Theorem group_partition cs :
  (∀ s, s ∈ cs → s ≠ []) →
  ∃ gs, group (depth cs) cs = Ok gs ∧
        disjoint_groups gs ∧
        (∀ g, g ∈ gs → g ≠ [] ∧ NoDup g) ∧
        (∀ x, (∃ g, g ∈ gs ∧ x ∈ g) ↔ ∃ s, s ∈ cs ∧ x ∈ s).
Proof.
  intros Hne. destruct (group_ok cs Hne) as (gs & Hrun & _ & Hcov).
  exists gs. split; [done|].
  pose proof (group_sound cs _ gs Hrun) as Hsound.
  split_and!.
  - by eapply group_disjoint.
  - intros g Hg. destruct (Hsound g Hg) as (? & ? & _). done.
  - intros x. split.
    + intros (g & Hg & Hx). destruct (Hsound g Hg) as (_ & _ & Hfrom & _).
      by apply Hfrom.
    + intros (s & Hs & Hx). by eapply Hcov.
Qed.

(** Two frames' close-groups that share the position (1, 1). *)
Lemma group_partition_witness :
  (∀ s, s ∈ [[(0, 0); (1, 1)]; [(1, 1); (2, 2)]; [(9, 9); (9, 10)]] →
        s ≠ []) ∧
  ∃ gs, group (depth [[(0, 0); (1, 1)]; [(1, 1); (2, 2)]; [(9, 9); (9, 10)]])
          [[(0, 0); (1, 1)]; [(1, 1); (2, 2)]; [(9, 9); (9, 10)]] = Ok gs ∧
        disjoint_groups gs ∧
        (∀ g, g ∈ gs → g ≠ [] ∧ NoDup g) ∧
        (∀ x, (∃ g, g ∈ gs ∧ x ∈ g) ↔
              ∃ s, s ∈ [[(0, 0); (1, 1)]; [(1, 1); (2, 2)]; [(9, 9); (9, 10)]]
                   ∧ x ∈ s).
Proof.
  assert (∀ s, s ∈ [[(0, 0); (1, 1)]; [(1, 1); (2, 2)]; [(9, 9); (9, 10)]] →
               s ≠ []) as Hne.
  { intros s Hs ->. revert Hs. apply (bool_decide_unpack _). vm_compute.
    reflexivity. }
  split; [exact Hne|]. exact (group_partition _ Hne).
Defined.

(** X19. Two positions lie in the same group exactly when they are
    linked by a chain of close-groups, of any frames, each sharing a
    position with the next. *)
Theorem group_components cs gs :
  group (depth cs) cs = Ok gs →
  ∀ g x y, g ∈ gs → x ∈ g → (y ∈ g ↔ x = y ∨ linked cs x y).
Proof.
  intros Hrun g x y Hg Hx.
  destruct (group_ok cs (group_Ok_nonempty cs gs Hrun))
    as (gs' & Hrun' & Hclosed & _).
  rewrite Hrun in Hrun'. injection Hrun' as <-.
  destruct (group_sound cs _ gs Hrun g Hg) as (_ & _ & _ & Hlinked).
  split.
  - intros Hy. by apply Hlinked.
  - intros [<-|Hl]; [done|]. by eapply Hclosed.
Qed.

Lemma group_components_witness :
  ∃ gs,
    group (depth [[(0, 0); (1, 1)]; [(1, 1); (2, 2)]; [(9, 9); (9, 10)]])
      [[(0, 0); (1, 1)]; [(1, 1); (2, 2)]; [(9, 9); (9, 10)]] = Ok gs ∧
    length gs = 2%nat ∧
    ∀ g x y, g ∈ gs → x ∈ g →
      (y ∈ g ↔ x = y ∨
         linked [[(0, 0); (1, 1)]; [(1, 1); (2, 2)]; [(9, 9); (9, 10)]] x y).
Proof.
  eexists. split; [vm_compute; reflexivity|]. split; [reflexivity|].
  apply (group_components
           [[(0, 0); (1, 1)]; [(1, 1); (2, 2)]; [(9, 9); (9, 10)]]).
  vm_compute. reflexivity.
Defined.

End group_partitions.

(** ** What a group number says *)

Section group_numbers.
Import GroupId.
Implicit Types (cs gs : list (list coord)) (x c : coord).

Lemma assoc_set_new {K V} `{EqDecision K} (k : K) (v : V)
    (d : list (K * V)) :
  k ∉ d.*1 → assoc_set k v d = d ++ [(k, v)].
Proof.
  induction d as [|[k' v'] d IH]; [done|]. cbn [assoc_set fmap list_fmap fst].
  intros Hk. rewrite decide_False by set_solver.
  rewrite IH by set_solver. done.
Qed.

Lemma disjoint_groups_prefix gs g :
  disjoint_groups (gs ++ [g]) → disjoint_groups gs.
Proof.
  intros Hd i j g1 g2 c Hi Hj. apply Hd; by apply lookup_app_l_Some.
Qed.

Lemma id_map_snoc gs g :
  id_map (gs ++ [g]) = assoc_set (sorted g) (Z.of_nat (length gs)) (id_map gs).
Proof.
  unfold id_map, enumerate. rewrite imap_app, foldl_app. cbn.
  by rewrite Nat.add_0_r.
Qed.

(** Groups that share no position keep the numbers of their places. *)
Lemma id_map_eq gs :
  disjoint_groups gs → (∀ g, g ∈ gs → g ≠ []) →
  id_map gs = imap (fun i g => (sorted g, Z.of_nat i)) gs.
Proof.
  induction gs as [|g gs IH] using rev_ind; intros Hd Hne; [done|].
  rewrite id_map_snoc, IH;
    [|by eapply disjoint_groups_prefix|intros; apply Hne; set_solver].
  rewrite imap_app. cbn. rewrite Nat.add_0_r. apply assoc_set_new.
  intros ([k n] & Hk & Hin)%list_elem_of_fmap. cbn in Hk. subst k.
  apply elem_of_lookup_imap in Hin as (i & g' & [= Hs ->] & Hg').
  assert (g ≠ []) as Hg by (apply Hne; set_solver).
  destruct g as [|c g]; [done|].
  assert (c ∈ g') as Hc.
  { apply elem_of_sorted. rewrite <- Hs. apply elem_of_sorted. left. }
  pose proof (lookup_lt_Some _ _ _ Hg') as Hlt.
  assert (i = length gs); [|lia].
  apply (Hd i (length gs) g' (c :: g) c).
  - by apply lookup_app_l_Some.
  - by rewrite lookup_app_r, Nat.sub_diag by lia.
  - done.
  - left.
Qed.

Lemma position_to_id_index gs c :
  disjoint_groups gs → (∀ g, g ∈ gs → g ≠ []) →
  (∀ i g, gs !! i = Some g → c ∈ g →
          position_to_id gs !! c = Some (Z.of_nat i)) ∧
  ((∀ g, g ∈ gs → c ∉ g) → position_to_id gs !! c = None).
Proof.
  intros Hd Hne. unfold position_to_id. rewrite (id_map_eq gs Hd Hne).
  clear Hne. induction gs as [|g gs IH] using rev_ind.
  { split; [done|]. intros _. cbn. apply lookup_empty. }
  destruct (IH (disjoint_groups_prefix _ _ Hd)) as [IH1 IH2].
  rewrite imap_app, foldl_app. cbn [imap foldl]. rewrite fill_lookup.
  rewrite Nat.add_0_r. split.
  - intros i g0 [Hi|[Hge Hi]]%lookup_app_Some Hc.
    + rewrite decide_False; [by eapply IH1|].
      rewrite elem_of_sorted. intros Hcg.
      pose proof (lookup_lt_Some _ _ _ Hi) as Hlt.
      assert (i = length gs); [|lia].
      apply (Hd i (length gs) g0 g c); [by apply lookup_app_l_Some| |done..].
      by rewrite lookup_app_r, Nat.sub_diag by lia.
    + apply list_lookup_singleton_Some in Hi as [Hi <-].
      rewrite decide_True by (by apply elem_of_sorted).
      do 2 f_equal. lia.
  - intros Hout. rewrite decide_False.
    + apply IH2. intros g0 Hg0. apply Hout. set_solver.
    + rewrite elem_of_sorted. apply Hout. set_solver.
Qed.

Lemma position_to_id_Some gs c i :
  disjoint_groups gs → (∀ g, g ∈ gs → g ≠ []) →
  position_to_id gs !! c = Some i →
  ∃ k g, i = Z.of_nat k ∧ gs !! k = Some g ∧ c ∈ g.
Proof.
  intros Hd Hne Hi. destruct (position_to_id_index gs c Hd Hne) as [H1 H2].
  destruct (decide (Exists (fun g => c ∈ g) gs)) as [Hex|Hno].
  - apply Exists_exists in Hex as (g & [k Hk]%list_elem_of_lookup & Hc).
    exists k, g. rewrite (H1 k g Hk Hc) in Hi. by injection Hi as <-.
  - rewrite H2 in Hi; [done|]. intros g Hg Hc. apply Hno.
    apply Exists_exists. eauto.
Qed.

(** What [analyse] hands to [IDassign]. *)
Lemma analyse_groups threshold grid_size flux y r :
  Pipeline.analyse threshold grid_size flux y = Ok r →
  let cs := Pipeline.close_sources r in
  let gs := groups (Pipeline.grouped r) in
  group (depth cs) cs = Ok gs ∧
  groupID (Pipeline.grouped r)
    = IDassign gs (Detect.sources (Pipeline.detected r)) ∧
  disjoint_groups gs ∧ (∀ g, g ∈ gs → g ≠ []) ∧
  (∀ g c, g ∈ gs → c ∈ g →
     c ∈ Detect.sources (Pipeline.detected r) ∧ ∃ s, s ∈ cs ∧ c ∈ s) ∧
  (∀ s c, s ∈ cs → c ∈ s → ∃ g, g ∈ gs ∧ c ∈ g).
Proof.
  intros (Hdet & Hcd & Hgi)%analyse_inv.
  apply group_and_id_inv in Hgi as (Hgroup & Hgid & _). cbn zeta.
  pose proof (group_Ok_nonempty _ _ Hgroup) as Hne.
  pose proof (group_sound _ _ _ Hgroup) as Hsound.
  destruct (group_ok _ Hne) as (gs' & Hrun' & _ & Hcov).
  rewrite Hgroup in Hrun'. injection Hrun' as <-.
  split_and!; [done|done|by eapply group_disjoint| | |done].
  - intros g Hg. by destruct (Hsound g Hg).
  - intros g c Hg Hc. destruct (Hsound g Hg) as (_ & _ & Hfrom & _).
    destruct (Hfrom c Hc) as (s & Hs & Hcs). split; [|by exists s].
    assert (Pipeline.close_sources r
            = (CloseDetect.close_detect
                 (Detect.sources_by_frame (Pipeline.detected r))).1) as Hcs1
      by (by rewrite <- Hcd).
    rewrite Hcs1 in Hs.
    apply close_sources_members in Hs as (_ & frame & Hf & Hsub).
    eapply frames_in_sources; [exact Hdet|exact Hf|by apply Hsub].
Qed.

(** X20. After [analyse], [groupID] is defined on the detected positions
    and on nothing else.  A detected position that no close-group holds
    has the number -1; every position of [groups[i]] is a detected
    position with the number [i]; and every position of a close-group
    lies in one of the [groups]. *)
Theorem groupID_is_group_index threshold grid_size flux y r :
  Pipeline.analyse threshold grid_size flux y = Ok r →
  let st := Pipeline.detected r in
  let gs := groups (Pipeline.grouped r) in
  let gid := groupID (Pipeline.grouped r) in
  (∀ c, c ∉ Detect.sources st → gid !! c = None) ∧
  (∀ c, c ∈ Detect.sources st →
     (∀ s, s ∈ Pipeline.close_sources r → c ∉ s) → gid !! c = Some (-1)) ∧
  (∀ c i g, gs !! i = Some g → c ∈ g →
     c ∈ Detect.sources st ∧ gid !! c = Some (Z.of_nat i)) ∧
  (∀ c s, s ∈ Pipeline.close_sources r → c ∈ s →
     ∃ i g, gs !! i = Some g ∧ c ∈ g).
Proof.
  intros (Hgroup & Hgid & Hd & Hne & Hfrom & Hcov)%analyse_groups. cbn zeta.
  rewrite Hgid. split_and!.
  - intros c Hc. by rewrite IDassign_lookup, decide_False.
  - intros c Hc Hout. rewrite IDassign_lookup, decide_True by done.
    destruct (position_to_id_index _ c Hd Hne) as [_ H2].
    rewrite H2; [done|]. intros g Hg Hcg. destruct (Hfrom g c Hg Hcg) as (_ & s & Hs & Hcs).
    by apply (Hout s).
  - intros c i g Hg Hc.
    destruct (Hfrom g c (list_elem_of_lookup_2 _ _ _ Hg) Hc) as [Hsrc _].
    split; [done|]. rewrite IDassign_lookup, decide_True by done.
    destruct (position_to_id_index _ c Hd Hne) as [H1 _].
    by rewrite (H1 i g Hg Hc).
  - intros c s Hs Hc. destruct (Hcov s c Hs Hc) as (g & Hg & Hcg).
    apply list_elem_of_lookup in Hg as [i Hi]. by exists i, g.
Qed.

(** A frame with a close pair and a frame with a lone source. *)
Lemma groupID_is_group_index_witness :
  ∃ r,
    Pipeline.analyse (8 # 10) 4
      [Examples.pair_image; Examples.lone_image]
      [Examples.pair_grid; Examples.lone_grid] = Ok r ∧
    let st := Pipeline.detected r in
    let gs := groups (Pipeline.grouped r) in
    let gid := groupID (Pipeline.grouped r) in
    (gid !! (10, 10), gid !! (11, 11), gid !! (2, 2))
      = (Some 0, Some 0, Some (-1)) ∧
    (∀ c, c ∉ Detect.sources st → gid !! c = None) ∧
    (∀ c, c ∈ Detect.sources st →
       (∀ s, s ∈ Pipeline.close_sources r → c ∉ s) → gid !! c = Some (-1)) ∧
    (∀ c i g, gs !! i = Some g → c ∈ g →
       c ∈ Detect.sources st ∧ gid !! c = Some (Z.of_nat i)) ∧
    (∀ c s, s ∈ Pipeline.close_sources r → c ∈ s →
       ∃ i g, gs !! i = Some g ∧ c ∈ g).
Proof.
  eexists. split; [vm_compute; reflexivity|]. cbn zeta.
  split; [vm_compute; reflexivity|].
  apply (groupID_is_group_index (8 # 10) 4
           [Examples.pair_image; Examples.lone_image]
           [Examples.pair_grid; Examples.lone_grid]).
  vm_compute. reflexivity.
Defined.

(** X21. After [analyse], a position whose group number is not -1 and
    any other position with a group number have the same number exactly
    when they are the same position or are linked by a chain of
    close-groups. *)
Theorem groupID_same_iff_linked threshold grid_size flux y r
    (x y0 : coord) i j :
  Pipeline.analyse threshold grid_size flux y = Ok r →
  groupID (Pipeline.grouped r) !! x = Some i →
  groupID (Pipeline.grouped r) !! y0 = Some j →
  0 ≤ i →
  i = j ↔ x = y0 ∨ linked (Pipeline.close_sources r) x y0.
Proof.
  intros (Hgroup & Hgid & Hd & Hne & Hfrom & Hcov)%analyse_groups. cbn zeta in *.
  rewrite Hgid, !IDassign_lookup.
  destruct (decide (x ∈ _)) as [Hx|]; [|done].
  destruct (decide (y0 ∈ _)) as [Hy|]; [|done].
  intros [= Hi] [= Hj] Hpos.
  destruct (position_to_id _ !! x) as [i'|] eqn:Hpx; cbn in Hi; [|lia].
  subst i'.
  destruct (position_to_id_Some _ _ _ Hd Hne Hpx) as (k & g & -> & Hg & Hxg).
  pose proof (list_elem_of_lookup_2 _ _ _ Hg) as Hgin.
  destruct (group_sound _ _ _ Hgroup g Hgin) as (_ & _ & _ & Hlinked).
  destruct (group_ok _ (group_Ok_nonempty _ _ Hgroup))
    as (gs' & Hrun' & Hclosed & _).
  rewrite Hgroup in Hrun'. injection Hrun' as <-.
  split.
  - intros <-.
    destruct (position_to_id _ !! y0) as [j'|] eqn:Hpy; cbn in Hj; [|lia].
    subst j'.
    destruct (position_to_id_Some _ _ _ Hd Hne Hpy)
      as (k' & g' & Hk & Hg' & Hyg).
    assert (k' = k) as -> by lia. simplify_eq. by apply Hlinked.
  - intros Hl. assert (y0 ∈ g) as Hyg.
    { destruct Hl as [<-|Hl]; [done|]. by eapply Hclosed. }
    destruct (position_to_id_index _ y0 Hd Hne) as [H1 _].
    rewrite (H1 k g Hg Hyg) in Hj. cbn in Hj. done.
Qed.

Lemma groupID_same_iff_linked_witness :
  ∃ r,
    Pipeline.analyse (8 # 10) 4 [Examples.pair_image] [Examples.pair_grid]
      = Ok r ∧
    groupID (Pipeline.grouped r) !! (10, 10) = Some 0 ∧
    groupID (Pipeline.grouped r) !! (11, 11) = Some 0 ∧
    0 ≤ 0 ∧
    (0 = 0 ↔ (10, 10) = (11, 11) ∨
              linked (Pipeline.close_sources r) (10, 10) (11, 11)).
Proof.
  eexists. split; [vm_compute; reflexivity|].
  split; [vm_compute; reflexivity|]. split; [vm_compute; reflexivity|].
  split; [lia|].
  apply (groupID_same_iff_linked (8 # 10) 4
           [Examples.pair_image] [Examples.pair_grid]);
    [vm_compute; reflexivity..|lia].
Defined.

End group_numbers.

(** * [check_region] *)

Section check_region_more.
Import CheckRegion.
Implicit Types (sbf cs : list (list coord)) (xr yr : Z * Z) (frame : Z).

Lemma in_range_true v lo hi : in_range v lo hi = true ↔ lo ≤ v < hi.
Proof. unfold in_range. rewrite andb_true_iff, Z.leb_le, Z.ltb_lt. done. Qed.

(** The test of line 579, and when it cannot be made. *)
Lemma selected_eq cs xr yr frame i p :
  selected cs xr yr frame i p =
    if decide (yr.1 ≤ p.1 < yr.2) then
      match Detect.item cs frame with
      | Ok g =>
          match g !! i with
          | Some q => Ok (bool_decide (xr.1 ≤ q.2 < xr.2))
          | None => Raise IndexError
          end
      | Raise e => Raise e
      end
    else Ok false.
Proof.
  unfold selected. destruct (in_range p.1 yr.1 yr.2) eqn:Hy.
  - apply in_range_true in Hy. rewrite decide_True by done.
    destruct (Detect.item cs frame) as [g|e]; [cbn [mbind res_bind]|done].
    unfold UniqueDetect.index. destruct (g !! i) as [q|]; [cbn|done].
    f_equal. destruct (in_range q.2 xr.1 xr.2) eqn:Hx.
    + apply in_range_true in Hx. by rewrite bool_decide_eq_true_2.
    + rewrite bool_decide_eq_false_2; [done|].
      intros Hx'%in_range_true. congruence.
  - rewrite decide_False; [done|]. intros Hy'%in_range_true. congruence.
Qed.

Lemma selected_Ok cs xr yr frame i p b :
  selected cs xr yr frame i p = Ok b →
  (b = true ↔ picked cs xr yr frame (i, p)) ∧
  (yr.1 ≤ p.1 < yr.2 → ∃ g q, Detect.item cs frame = Ok g ∧ g !! i = Some q).
Proof.
  rewrite selected_eq. unfold picked. cbn [fst snd].
  destruct (decide (yr.1 ≤ p.1 < yr.2)) as [Hy|Hy].
  - destruct (Detect.item cs frame) as [g|e]; [|done].
    destruct (g !! i) as [q|] eqn:Hq; [|done]. intros [= <-]. split.
    + rewrite bool_decide_eq_true. split.
      * intros Hx. split; [done|]. by exists g, q.
      * intros (_ & g' & q' & [= <-] & Hq' & Hx). by simplify_eq.
    + intros _. by exists g, q.
  - intros [= <-]. split; [|done]. split; [done|]. intros [? _]. done.
Qed.

Lemma zoom_loop_Ok cs xr yr frame (l : list (nat * coord)) : ∀ zoom0 zoom,
  foldl_res (fun zoom ip =>
      b ← selected cs xr yr frame ip.1 ip.2;
      Ok (if (b : bool) then zoom ++ [ip.2] else zoom)) zoom0 l = Ok zoom →
  zoom = zoom0 ++ (filter (picked cs xr yr frame) l).*2 ∧
  ∀ i p, (i, p) ∈ l → yr.1 ≤ p.1 < yr.2 →
         ∃ g q, Detect.item cs frame = Ok g ∧ g !! i = Some q.
Proof.
  induction l as [|[i p] l IH]; intros zoom0 zoom.
  - intros [= <-]. rewrite app_nil_r. split; [done|].
    intros i p Hin. by apply elem_of_nil in Hin.
  - cbn [foldl_res fst snd].
    destruct (selected cs xr yr frame i p) as [b|] eqn:Hb;
      [cbn [mbind res_bind]|done].
    apply selected_Ok in Hb as [Hb Hex]. intros [-> Hall]%IH.
    rewrite filter_cons. split.
    + destruct b.
      * rewrite decide_True by (by apply Hb). cbn. by rewrite <- app_assoc.
      * rewrite decide_False; [done|]. intros Hp%Hb. done.
    + intros i' p' [[= -> ->]|Hin]%elem_of_cons; [done|by apply Hall].
Qed.

Lemma zoom_loop_total cs xr yr frame (l : list (nat * coord)) : ∀ zoom0,
  (∀ i p, (i, p) ∈ l → yr.1 ≤ p.1 < yr.2 →
          ∃ g q, Detect.item cs frame = Ok g ∧ g !! i = Some q) →
  ∃ zoom, foldl_res (fun zoom ip =>
      b ← selected cs xr yr frame ip.1 ip.2;
      Ok (if (b : bool) then zoom ++ [ip.2] else zoom)) zoom0 l = Ok zoom.
Proof.
  induction l as [|[i p] l IH]; intros zoom0 Hall; [by eexists|].
  cbn [foldl_res fst snd]. rewrite selected_eq.
  destruct (decide (yr.1 ≤ p.1 < yr.2)) as [Hy|Hy].
  - destruct (Hall i p ltac:(left) Hy) as (g & q & -> & ->).
    cbn [mbind res_bind]. apply IH. intros i' p' Hin. apply Hall. by right.
  - cbn [mbind res_bind]. apply IH. intros i' p' Hin. apply Hall. by right.
Qed.

Lemma selected_raise cs xr yr frame i p e :
  selected cs xr yr frame i p = Raise e → e = IndexError.
Proof.
  rewrite selected_eq. destruct (decide _); [|done].
  destruct (Detect.item cs frame) as [g|e'] eqn:Hg.
  - destruct (g !! i); [done|congruence].
  - intros [= <-]. by eapply item_raise.
Qed.

(** X22. When [check_region] returns, [zoom_range] is
    [[ymin, ymax, xmin, xmax]] and [zoom] is a sub-list, in order, of the
    detections of the frame, all with their row in [yrange].  The column
    that is tested against [xrange] is not the detection's own: the
    detection at place [i] of the frame is kept exactly when its row is
    in [yrange] and the position at place [i] of the list
    [close_sources[frame]] has its column in [xrange]. *)
Theorem check_region_keeps sbf cs xr yr frame zoom zoom_range :
  check_region sbf cs xr yr frame = Ok (zoom, zoom_range) →
  zoom_range = [yr.1; yr.2; xr.1; xr.2] ∧
  ∃ detections,
    Detect.item sbf frame = Ok detections ∧
    zoom = (filter (picked cs xr yr frame) (enumerate detections)).*2 ∧
    zoom `sublist_of` detections ∧
    ∀ p, p ∈ zoom → yr.1 ≤ p.1 < yr.2.
Proof.
  unfold check_region.
  destruct (Detect.item sbf frame) as [detections|]; [|done].
  cbn [mbind res_bind].
  destruct (foldl_res _ [] (enumerate detections)) as [z|] eqn:Hz; [|done].
  cbn [mbind res_bind]. intros [= <- <-]. split; [done|].
  apply zoom_loop_Ok in Hz as [-> _]. rewrite app_nil_l.
  exists detections. split_and!; [done|done| |].
  - rewrite <- (enumerate_snd detections) at 2.
    apply fmap_sublist, sublist_filter.
  - intros p ([i p'] & -> & [Hp _]%list_elem_of_filter)%list_elem_of_fmap.
    by destruct Hp.
Qed.

(** Frame 0 holds a detection at (5, 50) and a close pair; the rows 0..7
    and the columns 0..19 are asked for.  (5, 50) is kept though its
    column is 50, because [close_sources[0][0]] is (10, 10). *)
Lemma check_region_keeps_witness :
  check_region [[(5, 50); (10, 10); (11, 11)]]
    (CloseDetect.close_detect [[(5, 50); (10, 10); (11, 11)]]).1
    (0, 20) (0, 8) 0
    = Ok ([(5, 50)], [0; 8; 0; 20]) ∧
  [0; 8; 0; 20] = [(0, 8).1; (0, 8).2; (0, 20).1; (0, 20).2] ∧
  ∃ detections,
    Detect.item [[(5, 50); (10, 10); (11, 11)]] 0 = Ok detections ∧
    [(5, 50)]
      = (filter (picked
                   (CloseDetect.close_detect
                      [[(5, 50); (10, 10); (11, 11)]]).1 (0, 20) (0, 8) 0)
           (enumerate detections)).*2 ∧
    [(5, 50)] `sublist_of` detections ∧
    ∀ p, p ∈ [(5, 50)] → (0, 8).1 ≤ p.1 < (0, 8).2.
Proof.
  split; [vm_compute; reflexivity|].
  apply (check_region_keeps [[(5, 50); (10, 10); (11, 11)]]
           (CloseDetect.close_detect [[(5, 50); (10, 10); (11, 11)]]).1
           (0, 20) (0, 8) 0).
  vm_compute. reflexivity.
Defined.

(** X23. [check_region] raises nothing but [IndexError].  It returns
    exactly when [sources_by_frame[frame]] exists and, for every
    detection of that frame whose row is in [yrange], the list
    [close_sources[frame]] exists and has an entry at the detection's
    place; so with no close-group numbered [frame] it returns only if no
    detection of the frame has its row in [yrange]. *)
Theorem check_region_returns_iff sbf cs xr yr frame :
  (∀ e, check_region sbf cs xr yr frame = Raise e → e = IndexError) ∧
  ((∃ z, check_region sbf cs xr yr frame = Ok z) ↔
   ∃ detections,
     Detect.item sbf frame = Ok detections ∧
     ∀ i p, detections !! i = Some p → yr.1 ≤ p.1 < yr.2 →
            ∃ g q, Detect.item cs frame = Ok g ∧ g !! i = Some q).
Proof.
  unfold check_region. split.
  - intros e. destruct (Detect.item sbf frame) as [detections|e0] eqn:Hd;
      cbn [mbind res_bind]; [|intros [= <-]; by eapply item_raise].
    destruct (foldl_res _ [] (enumerate detections)) as [z|e1] eqn:Hz; [done|].
    cbn [mbind res_bind]. intros [= <-]. revert Hz.
    apply (foldl_res_raise _ (fun e => e = IndexError)).
    intros zoom [i p] e _. cbn [fst snd].
    destruct (selected cs xr yr frame i p) as [b|e2] eqn:Hb; [done|].
    cbn [mbind res_bind]. intros [= <-]. by eapply selected_raise.
  - split.
    + intros [z Hz].
      destruct (Detect.item sbf frame) as [detections|]; [|done].
      cbn [mbind res_bind] in Hz. exists detections. split; [done|].
      destruct (foldl_res _ [] (enumerate detections)) as [zoom|] eqn:Hl;
        [|done].
      apply zoom_loop_Ok in Hl as [_ Hall].
      intros i p Hi. apply Hall. by apply elem_of_enumerate.
    + intros (detections & -> & Hall). cbn [mbind res_bind].
      destruct (zoom_loop_total cs xr yr frame (enumerate detections) [])
        as [zoom ->]; [|by eexists].
      intros i p Hin. apply Hall. by apply elem_of_enumerate.
Qed.

End check_region_more.

(** * [PrfBuild.make_labels] *)

Section make_labels_steps.
Import Detect PrfBuild.
Implicit Types (y : grid) (X : image) (d : draw) (ps : list coord)
  (c p : coord) (ch : cell).

Lemma place_nonneg n i : 0 ≤ i < Z.of_nat n → place n i = Ok (Z.to_nat i).
Proof.
  intros Hi. unfold place.
  destruct (Z.ltb_spec i 0); [lia|].
  destruct (Z.ltb_spec i 0); [lia|].
  destruct (Z.leb_spec (Z.of_nat n) i); [lia|]. done.
Qed.

(** The label of lines 61-66 for one of the classes 0, 1, 2. *)
Lemma label_Ok output grid_size mx my d class_ o :
  0 ≤ class_ ≤ 2 →
  label output grid_size mx my d class_ = Ok o →
  prob o = 1%Q ∧
  x1 o = inject_Z (px d - mx * grid_size) ∧
  y1 o = inject_Z (py d - my * grid_size) ∧
  box_w o = 3%Q ∧ box_h o = 3%Q ∧
  (class_ = 0 → bright o = 1%Q ∧ dim o = dim output ∧ trash o = trash output) ∧
  (class_ = 1 → bright o = bright output ∧ dim o = 1%Q ∧
                trash o = trash output) ∧
  (class_ = 2 → bright o = bright output ∧ dim o = dim output ∧
                trash o = 1%Q).
Proof.
  intros Hc. assert (class_ = 0 ∨ class_ = 1 ∨ class_ = 2) as [->|[->| ->]]
    by lia; intros [= <-]; cbn [prob x1 y1 box_w box_h bright dim trash];
    split_and!; try done; lia.
Qed.

Lemma grid_cell_item y c ch :
  0 ≤ c.1 → 0 ≤ c.2 →
  grid_cell y c = Some ch ↔
  ∃ row, item y c.1 = Ok row ∧ item row c.2 = Ok ch.
Proof.
  intros H1 H2. unfold grid_cell. split.
  - destruct (y !! Z.to_nat c.1) as [row|] eqn:Hrow; [cbn|done].
    intros Hch. exists row. by rewrite !item_nonneg.
  - intros (row & Hrow%item_nonneg & Hch%item_nonneg); [|done..].
    by rewrite Hrow.
Qed.

Lemma grid_cell_insert y r k row o c :
  0 ≤ c.1 → 0 ≤ c.2 →
  y !! r = Some row → (k < length row)%nat →
  grid_cell (<[r := <[k := o]> row]> y) c =
    if decide (Z.to_nat c.1 = r ∧ Z.to_nat c.2 = k) then Some o
    else grid_cell y c.
Proof.
  intros H1 H2 Hrow Hk. unfold grid_cell.
  pose proof (lookup_lt_Some _ _ _ Hrow) as Hr.
  destruct (decide (Z.to_nat c.1 = r)) as [->|Hne].
  - rewrite list_lookup_insert_eq by done. cbn. rewrite Hrow. cbn.
    destruct (decide (Z.to_nat c.2 = k)) as [->|Hne].
    + rewrite decide_True by done. by rewrite list_lookup_insert_eq.
    + rewrite decide_False by tauto. by rewrite list_lookup_insert_ne.
  - rewrite decide_False by tauto. by rewrite list_lookup_insert_ne.
Qed.

(** One turn of the loop: the source is skipped, the cell being taken,
    or it is labelled, stamped and, unless of class 2, listed. *)
Lemma place_source_Ok x_prfs y_prfs grid_size X y ps d X' y' ps' :
  0 ≤ px d + 2 → 0 ≤ py d + 2 →
  place_source x_prfs y_prfs grid_size (X, y, ps) d = Ok (X', y', ps') →
  let c := cell_of (Z.pos grid_size) (pixel_of d) in
  0 ≤ c.1 ∧ 0 ≤ c.2 ∧
  ∃ row output,
    y !! Z.to_nat c.1 = Some row ∧ row !! Z.to_nat c.2 = Some output ∧
    (((0 < prob output)%Q ∧ X' = X ∧ y' = y ∧ ps' = ps) ∨
     (¬ (0 < prob output)%Q ∧
      ∃ number q o,
        x_prfs !! idx d = Some number ∧ y_prfs !! idx d = Some q ∧
        label output (Z.pos grid_size) c.2 c.1 d (int_of q) = Ok o ∧
        y' = <[Z.to_nat c.1 := <[Z.to_nat c.2 := o]> row]> y ∧
        stamp X d number (rnd d * (25 # 10) + (5 # 10)) = Ok X' ∧
        ps' = if bool_decide (int_of q ≠ 2) then ps ++ [pixel_of d]
              else ps)).
Proof.
  intros Hx Hy. unfold place_source, cell_of, pixel_of. cbn [fst snd].
  set (mx := (px d + 2) / Z.pos grid_size).
  set (my := (py d + 2) / Z.pos grid_size).
  assert (0 ≤ mx) as Hmx by (apply Z.div_pos; lia).
  assert (0 ≤ my) as Hmy by (apply Z.div_pos; lia).
  unfold UniqueDetect.index.
  destruct (x_prfs !! idx d) as [number|]; [cbn [mbind res_bind]|done].
  destruct (y_prfs !! idx d) as [q|]; [cbn [mbind res_bind]|done].
  destruct (item y my) as [row|] eqn:Hrow; [cbn [mbind res_bind]|done].
  destruct (item row mx) as [output|] eqn:Hout; [cbn [mbind res_bind]|done].
  apply item_nonneg in Hrow, Hout; [|done..].
  destruct (gtb (prob output) 0) eqn:Hp.
  - intros [= <- <- <-]. split_and!; [done..|].
    exists row, output. split_and!; [done..|]. left.
    split_and!; [by apply gtb_gt|done..].
  - destruct (label output _ mx my d (int_of q)) as [o|] eqn:Hl;
      [cbn [mbind res_bind]|done].
    unfold put.
    rewrite place_nonneg by (apply lookup_lt_Some in Hrow; lia).
    cbn [mbind res_bind]. unfold UniqueDetect.index. rewrite Hrow.
    cbn [mbind res_bind].
    rewrite place_nonneg by (apply lookup_lt_Some in Hout; lia).
    cbn [mbind res_bind].
    destruct (stamp X d number _) as [X1|] eqn:Hs; [cbn [mbind res_bind]|done].
    intros [= <- <- <-]. split_and!; [done..|].
    exists row, output. split_and!; [done..|]. right. split.
    + intros Hpos%gtb_gt. congruence.
    + by exists number, q, o.
Qed.

End make_labels_steps.

Section make_labels_more.
Import Detect PrfBuild.
Implicit Types (y : grid) (X : image) (d : draw) (ps : list coord)
  (c p : coord) (ch : cell).

Lemma make_labels_snoc x_prfs y_prfs grid_size X y draws d :
  make_labels x_prfs y_prfs grid_size X y (draws ++ [d]) =
    (st ← make_labels x_prfs y_prfs grid_size X y draws;
     place_source x_prfs y_prfs grid_size st d).
Proof.
  unfold make_labels. rewrite foldl_res_app.
  destruct (foldl_res _ _ draws) as [st|]; [cbn|done].
  by destruct (place_source _ _ _ st d).
Qed.

Lemma cell_of_nonneg grid_size d :
  0 ≤ px d + 2 → 0 ≤ py d + 2 →
  0 ≤ (cell_of (Z.pos grid_size) (pixel_of d)).1 ∧
  0 ≤ (cell_of (Z.pos grid_size) (pixel_of d)).2.
Proof. intros. unfold cell_of, pixel_of. cbn. split; apply Z.div_pos; lia. Qed.

(** What the loop keeps true. *)
Lemma make_labels_inv x_prfs y_prfs grid_size X y draws X' y' ps :
  (∀ d, d ∈ draws → 0 ≤ px d + 2 ∧ 0 ≤ py d + 2) →
  (∀ q, q ∈ y_prfs → 0 ≤ int_of q ≤ 2) →
  make_labels x_prfs y_prfs grid_size X y draws = Ok (X', y', ps) →
  ps `sublist_of` (pixel_of <$> draws) ∧
  NoDup (cell_of (Z.pos grid_size) <$> ps) ∧
  (∀ p, p ∈ ps →
     ∃ ch, grid_cell y' (cell_of (Z.pos grid_size) p) = Some ch ∧
           label_of (Z.pos grid_size) p ch) ∧
  (∀ c ch0, 0 ≤ c.1 → 0 ≤ c.2 → grid_cell y c = Some ch0 →
     ∃ ch, grid_cell y' c = Some ch ∧
       (ch = ch0 ∨
        (¬ (0 < prob ch0)%Q ∧
         ∃ d, d ∈ draws ∧ c = cell_of (Z.pos grid_size) (pixel_of d) ∧
              label_of (Z.pos grid_size) (pixel_of d) ch))) ∧
  (∀ c, 0 ≤ c.1 → 0 ≤ c.2 → grid_cell y c = None → grid_cell y' c = None).
Proof.
  intros Hdraws Hclass. revert X' y' ps.
  induction draws as [|d draws IH] using rev_ind; intros X' y' ps.
  { intros [= <- <- <-]. split_and!; [done|constructor| | |done].
    - intros p Hp. by apply elem_of_nil in Hp.
    - intros c ch0 _ _ Hc. exists ch0. by split; [|left]. }
  rewrite make_labels_snoc.
  destruct (make_labels x_prfs y_prfs grid_size X y draws)
    as [[[X1 y1] ps1]|] eqn:Hrun; [cbn [mbind res_bind]|done].
  destruct (IH (fun d0 Hd0 => Hdraws d0 (proj2 (elem_of_app _ _ _) (or_introl Hd0)))
              X1 y1 ps1 eq_refl) as (Hsub & Hnd & Hlab & Hold & Hnone).
  destruct (Hdraws d ltac:(set_solver)) as [Hx Hy].
  intros Hstep.
  apply place_source_Ok in Hstep as (Hc1 & Hc2 & row & output & Hrow & Hout & Hcase);
    [|done..].
  set (cd := cell_of (Z.pos grid_size) (pixel_of d)) in *.
  assert (grid_cell y1 cd = Some output) as Hcd.
  { unfold grid_cell. rewrite Hrow. done. }
  assert (∀ p, p ∈ ps1 → 0 ≤ (cell_of (Z.pos grid_size) p).1 ∧
                          0 ≤ (cell_of (Z.pos grid_size) p).2) as Hnn.
  { intros p Hp. eapply elem_of_sublist in Hp; [|exact Hsub].
    apply list_elem_of_fmap in Hp as (d0 & -> & Hd0).
    apply cell_of_nonneg; by apply Hdraws, elem_of_app; left. }
  destruct Hcase as [(Hpos & -> & -> & ->)|(Hfree & number & q & o & Hnum & Hq
                                            & Hl & -> & Hst & ->)].
  - split_and!; [|done|done| |done].
    + rewrite fmap_app. by apply sublist_inserts_r.
    + intros c ch0 H1 H2 Hc. destruct (Hold c ch0 H1 H2 Hc) as (ch & Hch & Hor).
      exists ch. split; [done|]. destruct Hor as [->|(Hn & d0 & Hd0 & ? & ?)];
        [by left|]. right. split; [done|]. exists d0. split; [set_solver|done].
  - apply label_Ok in Hl as (L1 & L2 & L3 & L4 & L5 & _);
      [|apply Hclass; by eapply list_elem_of_lookup_2].
    assert (label_of (Z.pos grid_size) (pixel_of d) o) as Hlo.
    { unfold label_of. fold cd. by split_and!. }
    assert (∀ c, 0 ≤ c.1 → 0 ≤ c.2 →
              grid_cell (<[Z.to_nat cd.1 := <[Z.to_nat cd.2 := o]> row]> y1) c
              = if decide (c = cd) then Some o else grid_cell y1 c) as Hins.
    { intros c H1 H2. rewrite (grid_cell_insert _ _ _ row) by
        (try done; by eapply lookup_lt_Some).
      destruct (decide (c = cd)) as [->|Hne].
      - by rewrite decide_True.
      - rewrite decide_False; [done|]. intros [E1 E2]. apply Hne.
        destruct c as [a b], cd as [a' b']. cbn in *. f_equal; lia. }
    assert (∀ p, p ∈ ps1 → cell_of (Z.pos grid_size) p ≠ cd) as Hfresh.
    { intros p Hp Heq. destruct (Hlab p Hp) as (ch & Hch & Hp1 & _).
      rewrite Heq, Hcd in Hch. injection Hch as <-. apply Hfree.
      by rewrite Hp1. }
    split_and!.
    + rewrite fmap_app. case_bool_decide.
      * by apply sublist_app.
      * by apply sublist_inserts_r.
    + case_bool_decide; [|done]. rewrite fmap_app. apply NoDup_app.
      split_and!; [done| |apply NoDup_singleton].
      intros c (p & -> & Hp)%list_elem_of_fmap Hin.
      apply list_elem_of_singleton in Hin. by apply (Hfresh p).
    + intros p Hp.
      assert (p ∈ ps1 ∨ p = pixel_of d) as [Hp1| ->].
      { case_bool_decide; [|by left].
        apply elem_of_app in Hp as [?|?%list_elem_of_singleton]; auto. }
      * destruct (Hnn p Hp1) as [H1 H2]. rewrite Hins by done.
        rewrite decide_False by (by apply Hfresh). by apply Hlab.
      * exists o. rewrite Hins by done. by rewrite decide_True.
    + intros c ch0 H1 H2 Hc. rewrite Hins by done.
      destruct (Hold c ch0 H1 H2 Hc) as (ch & Hch & Hor).
      destruct (decide (c = cd)) as [->|Hne].
      * exists o. split; [done|]. right.
        rewrite Hcd in Hch. injection Hch as <-.
        destruct Hor as [->|(_ & d0 & _ & _ & Hp1 & _)].
        -- split; [done|]. exists d. split; [set_solver|done].
        -- exfalso. apply Hfree. by rewrite Hp1.
      * exists ch. split; [done|].
        destruct Hor as [->|(Hn & d0 & Hd0 & ? & ?)]; [by left|]. right.
        split; [done|]. exists d0. split; [set_solver|done].
    + intros c H1 H2 Hc. rewrite Hins by done.
      destruct (decide (c = cd)) as [->|Hne]; [|by apply Hnone].
      apply Hnone in Hc; [|done..]. congruence.
Qed.

(** A whole number that the clamp leaves alone decodes to itself. *)
Lemma clamp_decodes (P1 P2 : Q) (a b : Z) :
  (P1 == inject_Z a)%Q → (P2 == inject_Z b)%Q →
  2 ≤ a ≤ 509 → 2 ≤ b ≤ 509 →
  ∃ qx qy, clamp (steps P1 + steps P2) P1 P2 = Ok (qx, qy) ∧
           int_of qy = b ∧ int_of qx = a.
Proof.
  intros H1 H2 Ha Hb.
  destruct (clamp_ends P1 P2) as (qx & qy & Hq & _).
  exists qx, qy. split; [done|].
  apply clamp_axes in Hq as (ux & uy & X1 & X2 & Y1 & Y2).
  destruct (axis_lands _ _ _ _ X1 X2) as (_ & Hx & _).
  destruct (axis_lands _ _ _ _ Y1 Y2) as (_ & Hy & _).
  rewrite Hx, Hy.
  - split.
    + rewrite int_of_nonneg; rewrite (Qfloor_comp _ _ H2), Qfloor_Z; lia.
    + rewrite int_of_nonneg; rewrite (Qfloor_comp _ _ H1), Qfloor_Z; lia.
  - rewrite H2. change 2%Q with (inject_Z 2). change 510%Q with (inject_Z 510).
    rewrite <- Zle_Qle, <- Zlt_Qlt. lia.
  - rewrite H1. change 2%Q with (inject_Z 2). change 510%Q with (inject_Z 510).
    rewrite <- Zle_Qle, <- Zlt_Qlt. lia.
Qed.

Lemma three_in_range d :
  d ∈ Drawn.three → 2 ≤ px d ∧ 2 ≤ py d.
Proof.
  unfold Drawn.three. intros Hd.
  repeat (apply elem_of_cons in Hd as [->|Hd]); cbn; try lia.
  by apply elem_of_nil in Hd.
Qed.

Lemma classes_in_range q : q ∈ Drawn.classes → 0 ≤ int_of q ≤ 2.
Proof.
  unfold Drawn.classes. intros Hq.
  repeat (apply elem_of_cons in Hq as [->|Hq]); [by vm_compute..|].
  by apply elem_of_nil in Hq.
Qed.

(** X24. Every position that [make_labels] returns is labelled in [y],
    in the cell [((py+2)//grid_size, (px+2)//grid_size)]: objectness 1, a
    box of 3x3 and offsets between -2 and [grid_size - 3] from which
    line 256 of [detect] gets the position back exactly; up to 509,
    [detect] therefore applies its filters at the very pixel the source
    was put at.  (Draws at least 2, as [randint] gives them; classes 0, 1
    and 2.) *)
Theorem make_labels_decodes x_prfs y_prfs grid_size X y draws X' y' ps :
  (∀ d, d ∈ draws → 2 ≤ px d ∧ 2 ≤ py d) →
  (∀ q, q ∈ y_prfs → 0 ≤ int_of q ≤ 2) →
  make_labels x_prfs y_prfs grid_size X y draws = Ok (X', y', ps) →
  ∀ p, p ∈ ps →
    ∃ (mx my : nat) ch ox oy,
      cell_of (Z.pos grid_size) p = (Z.of_nat my, Z.of_nat mx) ∧
      cell_at y' mx my = Ok ch ∧
      prob ch = 1%Q ∧ box_w ch = 3%Q ∧ box_h ch = 3%Q ∧
      x1 ch = inject_Z ox ∧ y1 ch = inject_Z oy ∧
      -2 ≤ ox ≤ Z.pos grid_size - 3 ∧ -2 ≤ oy ≤ Z.pos grid_size - 3 ∧
      (predicted (Z.pos grid_size) mx (x1 ch) == inject_Z p.2)%Q ∧
      (predicted (Z.pos grid_size) my (y1 ch) == inject_Z p.1)%Q ∧
      (p.1 ≤ 509 → p.2 ≤ 509 →
       clamped_at (Z.pos grid_size) mx my ch p.1 p.2).
Proof.
  intros Hdraws Hclass Hrun p Hp.
  destruct (make_labels_inv x_prfs y_prfs grid_size X y draws X' y' ps)
    as (Hsub & _ & Hlab & _); [|done|done|].
  { intros d Hd. destruct (Hdraws d Hd). lia. }
  destruct (Hlab p Hp) as (ch & Hch & L1 & L2 & L3 & L4 & L5).
  eapply elem_of_sublist in Hp; [|exact Hsub].
  apply list_elem_of_fmap in Hp as (d & -> & Hd).
  destruct (Hdraws d Hd) as [Hx Hy].
  destruct (cell_of_nonneg grid_size d ltac:(lia) ltac:(lia)) as [Hc1 Hc2].
  set (cd := cell_of (Z.pos grid_size) (pixel_of d)) in *.
  assert (cd.1 = (py d + 2) / Z.pos grid_size) as E1 by done.
  assert (cd.2 = (px d + 2) / Z.pos grid_size) as E2 by done.
  pose proof (Z.div_mod (py d + 2) (Z.pos grid_size) ltac:(lia)) as D1.
  pose proof (Z.mod_pos_bound (py d + 2) (Z.pos grid_size) ltac:(lia)) as B1.
  pose proof (Z.div_mod (px d + 2) (Z.pos grid_size) ltac:(lia)) as D2.
  pose proof (Z.mod_pos_bound (px d + 2) (Z.pos grid_size) ltac:(lia)) as B2.
  rewrite <- E1 in D1. rewrite <- E2 in D2.
  assert (predicted (Z.pos grid_size) (Z.to_nat cd.2) (x1 ch)
          == inject_Z (px d))%Q as P1.
  { unfold predicted. rewrite L2, Z2Nat.id by done. cbn [pixel_of fst snd].
    rewrite <- inject_Z_plus. f_equiv. lia. }
  assert (predicted (Z.pos grid_size) (Z.to_nat cd.1) (y1 ch)
          == inject_Z (py d))%Q as P2.
  { unfold predicted. rewrite L3, Z2Nat.id by done. cbn [pixel_of fst snd].
    rewrite <- inject_Z_plus. f_equiv. lia. }
  exists (Z.to_nat cd.2), (Z.to_nat cd.1), ch,
    (px d - cd.2 * Z.pos grid_size), (py d - cd.1 * Z.pos grid_size).
  split_and!; try done.
  - rewrite !Z2Nat.id by done. by destruct cd.
  - unfold cell_at, UniqueDetect.index. unfold grid_cell in Hch.
    destruct (y' !! Z.to_nat cd.1) as [row|]; [cbn in *|done].
    by rewrite Hch.
  - nia.
  - nia.
  - nia.
  - nia.
  - cbn [pixel_of fst snd]. intros H1 H2. unfold clamped_at.
    fold (predicted (Z.pos grid_size) (Z.to_nat cd.2) (x1 ch)).
    fold (predicted (Z.pos grid_size) (Z.to_nat cd.1) (y1 ch)).
    destruct (clamp_decodes _ _ _ _ P1 P2 ltac:(lia) ltac:(lia))
      as (qx & qy & Hq & <- & <-).
    by exists qx, qy.
Qed.

(** The three draws of [Drawn.three]: the first is returned, the second
    is of class 2, the third finds its cell taken. *)
Lemma make_labels_decodes_witness :
  ∃ X' y' ps,
    make_labels Drawn.prfs Drawn.classes 4 Drawn.blank Drawn.no_labels
      Drawn.three = Ok (X', y', ps) ∧
    ps = [(9, 5)] ∧
    ∀ p, p ∈ ps →
      ∃ (mx my : nat) ch ox oy,
        cell_of 4 p = (Z.of_nat my, Z.of_nat mx) ∧
        cell_at y' mx my = Ok ch ∧
        prob ch = 1%Q ∧ box_w ch = 3%Q ∧ box_h ch = 3%Q ∧
        x1 ch = inject_Z ox ∧ y1 ch = inject_Z oy ∧
        -2 ≤ ox ≤ 4 - 3 ∧ -2 ≤ oy ≤ 4 - 3 ∧
        (predicted 4 mx (x1 ch) == inject_Z p.2)%Q ∧
        (predicted 4 my (y1 ch) == inject_Z p.1)%Q ∧
        (p.1 ≤ 509 → p.2 ≤ 509 → clamped_at 4 mx my ch p.1 p.2).
Proof.
  do 3 eexists. split; [vm_compute; reflexivity|]. split; [reflexivity|].
  eapply (make_labels_decodes Drawn.prfs Drawn.classes 4 Drawn.blank
           Drawn.no_labels Drawn.three).
  - apply three_in_range.
  - apply classes_in_range.
  - vm_compute. reflexivity.
Defined.

(** X25. [make_labels] labels a cell at most once and leaves a cell that
    is taken already, with an objectness above 0, as it is: after the
    call every cell of [y] is the one it was or, having been free, the
    label of one of the draws that fall into it; the grid keeps its
    shape. *)
Theorem make_labels_once x_prfs y_prfs grid_size X y draws X' y' ps :
  (∀ d, d ∈ draws → 2 ≤ px d ∧ 2 ≤ py d) →
  (∀ q, q ∈ y_prfs → 0 ≤ int_of q ≤ 2) →
  make_labels x_prfs y_prfs grid_size X y draws = Ok (X', y', ps) →
  ∀ c, 0 ≤ c.1 → 0 ≤ c.2 →
    match grid_cell y c with
    | None => grid_cell y' c = None
    | Some ch0 =>
        ∃ ch, grid_cell y' c = Some ch ∧
              ((0 < prob ch0)%Q → ch = ch0) ∧
              (ch = ch0 ∨
               ∃ d, d ∈ draws ∧ c = cell_of (Z.pos grid_size) (pixel_of d) ∧
                    label_of (Z.pos grid_size) (pixel_of d) ch)
    end.
Proof.
  intros Hdraws Hclass Hrun c H1 H2.
  destruct (make_labels_inv x_prfs y_prfs grid_size X y draws X' y' ps)
    as (_ & _ & _ & Hold & Hnone); [|done|done|].
  { intros d Hd. destruct (Hdraws d Hd). lia. }
  destruct (grid_cell y c) as [ch0|] eqn:Hc; [|by apply Hnone].
  destruct (Hold c ch0 H1 H2 Hc) as (ch & Hch & Hor).
  exists ch. split; [done|]. split.
  - intros Hpos. by destruct Hor as [->|[Hn _]].
  - destruct Hor as [->|(_ & d & ? & ? & ?)]; [by left|]. right. by exists d.
Qed.

Lemma make_labels_once_witness :
  ∃ X' y' ps,
    make_labels Drawn.prfs Drawn.classes 4 Drawn.blank Drawn.no_labels
      Drawn.three = Ok (X', y', ps) ∧
    (x1 <$> grid_cell y' (2, 1)) = Some (inject_Z 1) ∧
    ∀ c, 0 ≤ c.1 → 0 ≤ c.2 →
      match grid_cell Drawn.no_labels c with
      | None => grid_cell y' c = None
      | Some ch0 =>
          ∃ ch, grid_cell y' c = Some ch ∧
                ((0 < prob ch0)%Q → ch = ch0) ∧
                (ch = ch0 ∨
                 ∃ d, d ∈ Drawn.three ∧ c = cell_of 4 (pixel_of d) ∧
                      label_of 4 (pixel_of d) ch)
      end.
Proof.
  do 3 eexists. split; [vm_compute; reflexivity|].
  split; [vm_compute; reflexivity|].
  eapply (make_labels_once Drawn.prfs Drawn.classes 4 Drawn.blank
           Drawn.no_labels Drawn.three).
  - apply three_in_range.
  - apply classes_in_range.
  - vm_compute. reflexivity.
Defined.

(** X26. The list that [make_labels] returns holds drawn positions only,
    in the order of the draws and so at most [num] of them, and no two of
    them fall into the same cell of the grid. *)
Theorem make_labels_positions x_prfs y_prfs grid_size X y draws X' y' ps :
  (∀ d, d ∈ draws → 2 ≤ px d ∧ 2 ≤ py d) →
  (∀ q, q ∈ y_prfs → 0 ≤ int_of q ≤ 2) →
  make_labels x_prfs y_prfs grid_size X y draws = Ok (X', y', ps) →
  ps `sublist_of` (pixel_of <$> draws) ∧
  (length ps ≤ length draws)%nat ∧
  NoDup ps ∧
  ∀ i j p q, ps !! i = Some p → ps !! j = Some q →
             cell_of (Z.pos grid_size) p = cell_of (Z.pos grid_size) q →
             i = j.
Proof.
  intros Hdraws Hclass Hrun.
  destruct (make_labels_inv x_prfs y_prfs grid_size X y draws X' y' ps)
    as (Hsub & Hnd & _); [|done|done|].
  { intros d Hd. destruct (Hdraws d Hd). lia. }
  split_and!; [done| | |].
  - apply sublist_length in Hsub. by rewrite length_fmap in Hsub.
  - by eapply NoDup_fmap_1.
  - intros i j p q Hi Hj Heq.
    apply (NoDup_lookup _ i j (cell_of (Z.pos grid_size) p) Hnd).
    + by rewrite list_lookup_fmap, Hi.
    + by rewrite list_lookup_fmap, Hj, Heq.
Qed.

Lemma make_labels_positions_witness :
  ∃ X' y' ps,
    make_labels Drawn.prfs Drawn.classes 4 Drawn.blank Drawn.no_labels
      Drawn.three = Ok (X', y', ps) ∧
    ps `sublist_of` (pixel_of <$> Drawn.three) ∧
    (length ps ≤ length Drawn.three)%nat ∧
    NoDup ps ∧
    ∀ i j p q, ps !! i = Some p → ps !! j = Some q →
               cell_of 4 p = cell_of 4 q → i = j.
Proof.
  do 3 eexists. split; [vm_compute; reflexivity|].
  eapply (make_labels_positions Drawn.prfs Drawn.classes 4 Drawn.blank
           Drawn.no_labels Drawn.three).
  - apply three_in_range.
  - apply classes_in_range.
  - vm_compute. reflexivity.
Defined.

End make_labels_more.

(** ** When [make_labels] returns *)

Section make_labels_total.
Import Detect PrfBuild.
Implicit Types (y : grid) (X : image) (d : draw) (ps : list coord).

Lemma rows_loop {A B} (f : A → res B) (P : B → Prop) (l : list A) : ∀ acc,
  (∀ a, a ∈ l → ∃ b, f a = Ok b ∧ P b) →
  ∃ rows, foldl_res (fun acc a => r ← f a; Ok (acc ++ [r])) acc l
            = Ok (acc ++ rows) ∧
          length rows = length l ∧ Forall P rows.
Proof.
  induction l as [|a l IH]; intros acc Hf.
  - exists []. by rewrite app_nil_r.
  - destruct (Hf a ltac:(left)) as (b & Hb & HP). cbn [foldl_res].
    rewrite Hb. cbn [mbind res_bind].
    destruct (IH (acc ++ [b])) as (rows & -> & Hlen & Hall).
    { intros a' Ha'. apply Hf. by right. }
    exists (b :: rows). rewrite <- app_assoc. cbn.
    split_and!; [done|by rewrite Hlen|by constructor].
Qed.

Lemma scaled_shape (number : prf) (k : Q) :
  length (scaled number k) = 3%nat ∧
  Forall (fun vs => length vs = 3%nat) (scaled number k).
Proof.
  destruct number as [[[[a b] c] [[d e] f]] [[g h] i]]. cbn.
  split; [done|]. repeat constructor.
Qed.

(** Line 68 writes a full 3x3 window, and that succeeds. *)
Lemma assign_slice_Ok (row vs : list Q) (c0 : Z) :
  length vs = 3%nat → 0 ≤ c0 → c0 + 3 ≤ Z.of_nat (length row) →
  ∃ row', assign_slice row c0 (c0 + 3) vs = Ok row' ∧
          length row' = length row.
Proof.
  intros Hvs H0 H1. unfold assign_slice.
  rewrite !slice_bound_nonneg by lia.
  rewrite !Z.min_l by lia. rewrite bool_decide_eq_true_2 by lia.
  eexists. split; [done|].
  rewrite !length_app, length_take, length_drop. lia.
Qed.

Lemma stamp_Ok X d (number : prf) (k : Q) (rows cols : nat) :
  length X = rows → Forall (fun row => length row = cols) X →
  1 ≤ py d → py d + 2 ≤ Z.of_nat rows →
  1 ≤ px d → px d + 2 ≤ Z.of_nat cols →
  ∃ X', stamp X d number k = Ok X' ∧
        length X' = rows ∧ Forall (fun row => length row = cols) X'.
Proof.
  intros Hrows Hcols Hy0 Hy1 Hx0 Hx1. unfold stamp.
  rewrite !slice_bound_nonneg by lia. rewrite !Z.min_l by lia.
  rewrite bool_decide_eq_true_2 by lia.
  destruct (scaled_shape number k) as [Hs3 Hs].
  destruct (rows_loop
    (fun rv : list Q * list Q => assign_slice rv.1 (px d - 1) (px d + 2) rv.2)
    (fun row => length row = cols)
    (zip (take 3 (drop (Z.to_nat (py d - 1)) X)) (scaled number k)) [])
    as (new & Hnew & Hlen & Hall).
  { intros [row vs] Hin. cbn [fst snd].
    pose proof (elem_of_zip_l _ _ _ _ Hin) as Hrow.
    pose proof (elem_of_zip_r _ _ _ _ Hin) as Hvs.
    apply elem_of_take in Hrow as (i & Hi & _).
    rewrite lookup_drop in Hi.
    assert (length row = cols) as Hc.
    { eapply (proj1 (Forall_forall _ _) Hcols), list_elem_of_lookup_2.
      exact Hi. }
    assert (length vs = 3%nat) as Hv
      by (by apply (proj1 (Forall_forall _ _) Hs)).
    replace (px d + 2) with (px d - 1 + 3) by lia.
    destruct (assign_slice_Ok row vs (px d - 1) Hv ltac:(lia) ltac:(lia))
      as (row' & -> & Hl).
    exists row'. split; [done|]. lia. }
  rewrite Hnew. cbn [mbind res_bind app]. eexists. split; [done|].
  rewrite length_zip, length_take, length_drop, Hs3 in Hlen.
  split.
  - rewrite !length_app, length_take, length_drop. lia.
  - apply Forall_app. split; [by apply Forall_take|].
    apply Forall_app. split; [done|by apply Forall_drop].
Qed.

Lemma label_total output grid_size mx my d class_ :
  0 ≤ class_ ≤ 2 → ∃ o, label output grid_size mx my d class_ = Ok o.
Proof.
  intros Hc. assert (class_ = 0 ∨ class_ = 1 ∨ class_ = 2) as [->|[->| ->]]
    by lia; by eexists.
Qed.

(** X27. [make_labels] returns for a square image of side [s] and a
    square label grid of side [t] that covers it ([s <= grid_size * t]),
    when every draw is one [randint] can give it ([idx] below the number
    of PRFs, [px] and [py] in [2, s - 2)) and the classes are 0, 1
    and 2; the image and the grid keep their shapes. *)
Theorem make_labels_returns x_prfs y_prfs grid_size X y draws (s t : nat) :
  length X = s → Forall (fun row => length row = s) X →
  length y = t → Forall (fun row => length row = t) y →
  Z.of_nat s ≤ Z.pos grid_size * Z.of_nat t →
  length y_prfs = length x_prfs →
  (∀ q, q ∈ y_prfs → 0 ≤ int_of q ≤ 2) →
  (∀ d, d ∈ draws →
     (idx d < length x_prfs)%nat ∧
     2 ≤ px d < Z.of_nat s - 2 ∧ 2 ≤ py d < Z.of_nat s - 2) →
  ∃ X' y' ps,
    make_labels x_prfs y_prfs grid_size X y draws = Ok (X', y', ps) ∧
    length X' = s ∧ Forall (fun row => length row = s) X' ∧
    length y' = t ∧ Forall (fun row => length row = t) y'.
Proof.
  intros HX1 HX2 Hy1 Hy2 Hcover Hprfs Hclass Hdraws.
  induction draws as [|d draws IH] using rev_ind.
  { by exists X, y, []. }
  destruct IH as (X1 & y1 & ps1 & Hrun & HX1' & HX2' & Hy1' & Hy2').
  { intros d0 Hd0. apply Hdraws. set_solver. }
  rewrite make_labels_snoc, Hrun. cbn [mbind res_bind].
  destruct (Hdraws d ltac:(set_solver)) as (Hidx & Hpx & Hpy).
  unfold place_source, UniqueDetect.index.
  destruct (lookup_lt_is_Some_2 x_prfs (idx d) Hidx) as [number ->].
  destruct (lookup_lt_is_Some_2 y_prfs (idx d) ltac:(lia)) as [q Hq].
  rewrite Hq. cbn [mbind res_bind].
  set (mx := (px d + 2) / Z.pos grid_size).
  set (my := (py d + 2) / Z.pos grid_size).
  assert (0 ≤ mx < Z.of_nat t) as Hmx.
  { split; [apply Z.div_pos; lia|]. apply Z.div_lt_upper_bound; lia. }
  assert (0 ≤ my < Z.of_nat t) as Hmy.
  { split; [apply Z.div_pos; lia|]. apply Z.div_lt_upper_bound; lia. }
  destruct (lookup_lt_is_Some_2 y1 (Z.to_nat my) ltac:(lia)) as [row Hrow].
  assert (length row = t) as Hrowt.
  { eapply (proj1 (Forall_forall _ _) Hy2'), list_elem_of_lookup_2.
    exact Hrow. }
  destruct (lookup_lt_is_Some_2 row (Z.to_nat mx) ltac:(lia)) as [output Hout].
  rewrite (proj2 (item_nonneg y1 my row ltac:(lia)) Hrow).
  cbn [mbind res_bind].
  rewrite (proj2 (item_nonneg row mx output ltac:(lia)) Hout).
  cbn [mbind res_bind].
  destruct (gtb (prob output) 0).
  { by exists X1, y1, ps1. }
  destruct (label_total output (Z.pos grid_size) mx my d (int_of q))
    as [o ->]; [apply Hclass; by eapply list_elem_of_lookup_2|].
  cbn [mbind res_bind]. unfold put.
  rewrite place_nonneg by lia. cbn [mbind res_bind].
  unfold UniqueDetect.index. rewrite Hrow. cbn [mbind res_bind].
  rewrite place_nonneg by lia. cbn [mbind res_bind].
  destruct (stamp_Ok X1 d number (rnd d * (25 # 10) + (5 # 10)) s s)
    as (X2 & -> & HX1'' & HX2''); [done|done|lia..|].
  cbn [mbind res_bind]. eexists _, _, _. split; [done|].
  split_and!; [done|done|by rewrite length_insert|].
  apply Forall_insert; [done|]. by rewrite length_insert.
Qed.

(** The draws of [Drawn.three] on the 16x16 frame and its 4x4 grid. *)
Lemma make_labels_returns_witness :
  ∃ X' y' ps,
    make_labels Drawn.prfs Drawn.classes 4 Drawn.blank Drawn.no_labels
      Drawn.three = Ok (X', y', ps) ∧
    length X' = 16%nat ∧ Forall (fun row => length row = 16%nat) X' ∧
    length y' = 4%nat ∧ Forall (fun row => length row = 4%nat) y'.
Proof.
  apply (make_labels_returns Drawn.prfs Drawn.classes 4 Drawn.blank
           Drawn.no_labels Drawn.three 16 4).
  - reflexivity.
  - apply (bool_decide_unpack _). vm_compute. reflexivity.
  - reflexivity.
  - apply (bool_decide_unpack _). vm_compute. reflexivity.
  - lia.
  - reflexivity.
  - apply classes_in_range.
  - intros d Hd. unfold Drawn.three in Hd.
    repeat (apply elem_of_cons in Hd as [->|Hd]); cbn; try lia.
    by apply elem_of_nil in Hd.
Defined.

End make_labels_total.

(** * [detect] on floating-point numbers: what a cell raises *)

Section float_arrays.
Import Numpy.
Implicit Types (img w : image) (a b m v : num).

(** *** Reading a frame *)

Lemma float_pixel_nonneg img r c v :
  0 ≤ r → 0 ≤ c →
  pixel img r c = Ok v ↔
    ∃ row, img !! Z.to_nat r = Some row ∧ row !! Z.to_nat c = Some v.
Proof.
  intros Hr Hc. unfold pixel. split.
  - destruct (Detect.item img r) as [row|] eqn:E; cbn; [|done].
    apply item_nonneg in E; [|done]. rewrite item_nonneg by done. eauto.
  - intros (row & Hrow & Hv). apply item_nonneg in Hrow; [|done].
    rewrite Hrow. cbn. by apply item_nonneg.
Qed.

Lemma float_pixel_raise img r c e : pixel img r c = Raise e → e = IndexError.
Proof.
  unfold pixel.
  destruct (Detect.item img r) as [row|e'] eqn:Hr; cbn [mbind res_bind].
  - apply item_raise.
  - intros [= <-]. by eapply item_raise.
Qed.

(** A point with non-negative coordinates cannot be read exactly when it
    lies outside the frame. *)
Lemma float_pixel_outside img r c :
  0 ≤ r → 0 ≤ c → (¬ ∃ v, pixel img r c = Ok v) ↔ outside img r c.
Proof.
  intros Hr Hc. unfold outside. split.
  - intros Hno. destruct (img !! Z.to_nat r) as [row|] eqn:Hrow.
    + right. exists row. split; [done|].
      destruct (row !! Z.to_nat c) as [v|] eqn:Hv.
      * exfalso. apply Hno. exists v. apply float_pixel_nonneg; eauto.
      * apply lookup_ge_None in Hv. lia.
    + left. apply lookup_ge_None in Hrow. lia.
  - intros Hout [v Hv].
    apply float_pixel_nonneg in Hv as (row & Hrow & Hv); [|done..].
    apply lookup_lt_Some in Hv. destruct Hout as [Hout|(row' & Hrow' & Hout)].
    + apply lookup_lt_Some in Hrow. lia.
    + simplify_eq. lia.
Qed.

(** The entry [(i, j)] of a window is the pixel [(r0 + i, c0 + j)]. *)
Lemma float_window_lookup img r0 r1 c0 c1 i j v :
  0 ≤ r0 → 0 ≤ r1 → 0 ≤ c0 → 0 ≤ c1 →
  (∃ row, window img r0 r1 c0 c1 !! i = Some row ∧ row !! j = Some v) ↔
    (Z.of_nat i < r1 - r0 ∧ Z.of_nat j < c1 - c0 ∧
     pixel img (r0 + Z.of_nat i) (c0 + Z.of_nat j) = Ok v).
Proof.
  intros Hr0 Hr1 Hc0 Hc1. unfold window.
  rewrite float_pixel_nonneg by lia.
  replace (Z.to_nat (r0 + Z.of_nat i)) with (Z.to_nat r0 + i)%nat by lia.
  replace (Z.to_nat (c0 + Z.of_nat j)) with (Z.to_nat c0 + j)%nat by lia.
  split.
  - intros (row & Hrow & Hv). rewrite list_lookup_fmap in Hrow.
    destruct (Detect.slice img r0 r1 !! i) as [full|] eqn:E;
      cbn in Hrow; [|done].
    injection Hrow as <-.
    apply slice_lookup in E as [? ?]; [|done..].
    apply slice_lookup in Hv as [? ?]; [|done..]. eauto.
  - intros (Hi & Hj & full & Hfull & Hv).
    exists (Detect.slice full c0 c1). split.
    + rewrite list_lookup_fmap.
      erewrite (proj2 (slice_lookup img r0 r1 i full Hr0 Hr1)); done.
    + by apply slice_lookup.
Qed.

Lemma elem_of_float_window img r0 r1 c0 c1 v :
  0 ≤ r0 → 0 ≤ r1 → 0 ≤ c0 → 0 ≤ c1 →
  v ∈ concat (window img r0 r1 c0 c1) ↔
    ∃ i j, Z.of_nat i < r1 - r0 ∧ Z.of_nat j < c1 - c0 ∧
           pixel img (r0 + Z.of_nat i) (c0 + Z.of_nat j) = Ok v.
Proof.
  intros. rewrite elem_of_concat. split.
  - intros (row & [i Hi]%list_elem_of_lookup & [j Hj]%list_elem_of_lookup).
    exists i, j. apply float_window_lookup; eauto.
  - intros (i & j & Hij).
    apply float_window_lookup in Hij as (row & Hrow & Hv); [|done..].
    exists row. split; by eapply list_elem_of_lookup_2.
Qed.

(** A readable pixel lies in each window around it. *)
Lemma float_window_centre img r c k v :
  0 ≤ k ≤ r → k ≤ c → pixel img r c = Ok v →
  v ∈ concat (window img (r - k) (r + k + 1) (c - k) (c + k + 1)).
Proof.
  intros Hr Hc Hv. apply elem_of_float_window; [lia..|].
  exists (Z.to_nat k), (Z.to_nat k). split_and!; [lia..|].
  by replace (r - k + Z.of_nat (Z.to_nat k)) with r by lia;
     replace (c - k + Z.of_nat (Z.to_nat k)) with c by lia.
Qed.

(** The 3x3 window lies in the 5x5 one. *)
Lemma float_window_3_5 img r c v :
  2 ≤ r → 2 ≤ c →
  v ∈ concat (window img (r - 1) (r + 2) (c - 1) (c + 2)) →
  v ∈ concat (window img (r - 2) (r + 3) (c - 2) (c + 3)).
Proof.
  intros Hr Hc (i & j & Hi & Hj & Hv)%elem_of_float_window; [|lia..].
  apply elem_of_float_window; [lia..|].
  exists (S i), (S j). split_and!; [lia..|].
  by replace (r - 2 + Z.of_nat (S i)) with (r - 1 + Z.of_nat i) by lia;
     replace (c - 2 + Z.of_nat (S j)) with (c - 1 + Z.of_nat j) by lia.
Qed.

(** *** Comparisons *)

Lemma ltb_nan_l b : ltb NaN b = false.
Proof. done. Qed.

Lemma ltb_nan_r a : ltb a NaN = false.
Proof. by destruct a. Qed.

Lemma eqb_refl a : a ≠ NaN → eqb a a = true.
Proof.
  destruct a as [q|s|]; [|by destruct s|done]. intros _. cbn.
  by apply Qeq_bool_iff.
Qed.

Lemma eqb_nan_r a : eqb a NaN = false.
Proof. by destruct a. Qed.

Lemma abs_nan a : abs a = NaN ↔ a = NaN.
Proof. by destruct a. Qed.

(** *** [np.min] and [np.max] *)

Lemma fmax_cases a b :
  (fmax a b = NaN ∧ (a = NaN ∨ b = NaN)) ∨
  (a ≠ NaN ∧ b ≠ NaN ∧ (fmax a b = a ∨ fmax a b = b)).
Proof.
  destruct a as [x|s|], b as [y|t|]; cbn; auto;
    right; (split_and!; [done|done|]); destruct (_ : bool); auto.
Qed.

Lemma fmin_cases a b :
  (fmin a b = NaN ∧ (a = NaN ∨ b = NaN)) ∨
  (a ≠ NaN ∧ b ≠ NaN ∧ (fmin a b = a ∨ fmin a b = b)).
Proof.
  destruct a as [x|s|], b as [y|t|]; cbn; auto;
    right; (split_and!; [done|done|]); destruct (_ : bool); auto.
Qed.

(** A fold of [fmax] or [fmin] is NaN when an entry is, and an entry
    otherwise. *)
Lemma foldl_pick (f : num → num → num) vs : ∀ v,
  (∀ a b, (f a b = NaN ∧ (a = NaN ∨ b = NaN)) ∨
          (a ≠ NaN ∧ b ≠ NaN ∧ (f a b = a ∨ f a b = b))) →
  (NaN ∈ v :: vs ∧ foldl f v vs = NaN) ∨
  ((NaN ∉ v :: vs) ∧ foldl f v vs ∈ v :: vs).
Proof.
  intros v Hf. revert v. induction vs as [|x vs IH]; intros v; cbn [foldl].
  - destruct v as [q|s|].
    + right. split; [by intros [=]%list_elem_of_singleton|left].
    + right. split; [by intros [=]%list_elem_of_singleton|left].
    + left. split; [left|done].
  - destruct (IH (f v x)) as [[Hin Hn]|[Hnin Hin]].
    + left. split; [|done].
      apply elem_of_cons in Hin as [Hin|Hin]; [|by do 2 right].
      destruct (Hf v x) as [[_ [->| ->]]|(_ & _ & [H|H])].
      * left.
      * right. left.
      * rewrite H in Hin. rewrite <- Hin. left.
      * rewrite H in Hin. rewrite <- Hin. right. left.
    + destruct (Hf v x) as [[H _]|(Hv & Hx & H)].
      { exfalso. apply Hnin. rewrite H. left. }
      right. split.
      * intros Hin'. apply Hnin.
        apply elem_of_cons in Hin' as [Hin'|Hin']; [done|].
        apply elem_of_cons in Hin' as [Hin'|Hin']; [done|]. by right.
      * apply elem_of_cons in Hin as [Hin|Hin]; [|by do 2 right].
        rewrite Hin. destruct H as [-> | ->]; [left|right; left].
Qed.

Lemma np_max_cases w v :
  v ∈ concat w →
  ∃ m, np_max w = Ok m ∧
       ((NaN ∈ concat w ∧ m = NaN) ∨ ((NaN ∉ concat w) ∧ m ∈ concat w)).
Proof.
  unfold np_max. destruct (concat w) as [|x xs]; [by intros ?%elem_of_nil|].
  intros _. eexists. split; [done|]. apply foldl_pick, fmax_cases.
Qed.

Lemma np_min_cases w v :
  v ∈ concat w →
  ∃ m, np_min w = Ok m ∧
       ((NaN ∈ concat w ∧ m = NaN) ∨ ((NaN ∉ concat w) ∧ m ∈ concat w)).
Proof.
  unfold np_min. destruct (concat w) as [|x xs]; [by intros ?%elem_of_nil|].
  intros _. eexists. split; [done|]. apply foldl_pick, fmin_cases.
Qed.

Lemma concat_float_abs w : concat (np_abs w) = abs <$> concat w.
Proof.
  unfold np_abs. induction w as [|row w IH]; [done|].
  cbn. by rewrite fmap_app, IH.
Qed.

Lemma nan_in_abs w : NaN ∈ concat (np_abs w) ↔ NaN ∈ concat w.
Proof.
  rewrite concat_float_abs, list_elem_of_fmap. split.
  - intros (v & Hv & Hin). symmetry in Hv.
    apply (proj1 (abs_nan v)) in Hv. by subst.
  - intros Hin. by exists NaN.
Qed.

(** *** [np.where] *)

Lemma float_where_Ok w m ij :
  where_first w m = Ok ij →
  ∃ i j row v, ij = (Z.of_nat i, Z.of_nat j) ∧
               w !! i = Some row ∧ row !! j = Some v.
Proof.
  unfold where_first.
  destruct (filter _ _) as [|e es] eqn:E; [done|]. intros [= <-].
  assert (e ∈ filter (fun e : Z * Z * num => eqb e.2 m = true)
            (concat (imap (fun i row =>
               imap (fun j v => ((Z.of_nat i, Z.of_nat j), v)) row) w)))
    as He by (rewrite E; left).
  apply list_elem_of_filter in He as [_ He].
  apply elem_of_concat in He as (l & Hl & He).
  apply elem_of_lookup_imap in Hl as (i & row & -> & Hrow).
  apply elem_of_lookup_imap in He as (j & v & -> & Hv).
  by exists i, j, row, v.
Qed.

Lemma float_where_total w m :
  m ∈ concat w → m ≠ NaN → ∃ ij, where_first w m = Ok ij.
Proof.
  intros Hm Hn. unfold where_first.
  destruct (filter _ _) as [|e es] eqn:E; [|eauto]. exfalso.
  apply elem_of_concat in Hm as (row & [i Hi]%list_elem_of_lookup
                                     & [j Hj]%list_elem_of_lookup).
  assert (((Z.of_nat i, Z.of_nat j), m) ∈
            filter (fun e : Z * Z * num => eqb e.2 m = true)
              (concat (imap (fun i row =>
                 imap (fun j v => ((Z.of_nat i, Z.of_nat j), v)) row) w)))
    as H; [|rewrite E in H; by apply elem_of_nil in H].
  apply list_elem_of_filter. split.
  - cbn. by apply eqb_refl.
  - apply elem_of_concat. eexists. split.
    + apply elem_of_lookup_imap. by exists i, row.
    + apply elem_of_lookup_imap. by exists j, m.
Qed.

(** Nothing equals a NaN. *)
Lemma float_where_nan w : where_first w NaN = Raise IndexError.
Proof.
  unfold where_first.
  destruct (filter _ _) as [|e es] eqn:E; [done|]. exfalso.
  assert (e ∈ filter (fun e : Z * Z * num => eqb e.2 NaN = true)
            (concat (imap (fun i row =>
               imap (fun j v => ((Z.of_nat i, Z.of_nat j), v)) row) w)))
    as He by (rewrite E; left).
  apply list_elem_of_filter in He as [He _]. by rewrite eqb_nan_r in He.
Qed.

End float_arrays.

Section float_examine.
Import Numpy.
Implicit Types (img w : image) (a b m v : num).

Lemma float_centre3 img r c v :
  1 ≤ r → 1 ≤ c → pixel img r c = Ok v →
  v ∈ concat (window img (r - 1) (r + 2) (c - 1) (c + 2)).
Proof.
  intros Hr Hc Hv.
  pose proof (float_window_centre img r c 1 v ltac:(lia) ltac:(lia) Hv) as H.
  by replace (r + 1 + 1) with (r + 2) in H by lia;
     replace (c + 1 + 1) with (c + 2) in H by lia.
Qed.

Lemma float_centre5 img r c v :
  2 ≤ r → 2 ≤ c → pixel img r c = Ok v →
  v ∈ concat (window img (r - 2) (r + 3) (c - 2) (c + 3)).
Proof.
  intros Hr Hc Hv.
  pose proof (float_window_centre img r c 2 v ltac:(lia) ltac:(lia) Hv) as H.
  by replace (r + 2 + 1) with (r + 3) in H by lia;
     replace (c + 2 + 1) with (c + 3) in H by lia.
Qed.

Lemma float_where_raise w m e : where_first w m = Raise e → e = IndexError.
Proof. unfold where_first. destruct (filter _ _); [congruence|done]. Qed.

(** The filters of lines 268-272 let a window with a NaN through. *)
Lemma gtb_nan_l b : gtb NaN b = false.
Proof. by destruct b. Qed.

(** [examine] raises only [IndexError]: where the clamped point cannot
    be read, and where the pixel there is no faint one and a NaN lies in
    the 3x3 window around it. *)
Lemma float_examine_raise img r c ch e :
  2 ≤ r → 2 ≤ c →
  examine img r c ch = Raise e ↔
  e = IndexError ∧
  (outside img r c ∨ (nan_around img r c ∧ ¬ float_no_signal img r c)).
Proof.
  intros Hr Hc. unfold examine.
  destruct (pixel img r c) as [v|e'] eqn:Hv; cbn [mbind res_bind].
  2:{ apply float_pixel_raise in Hv as He. subst e'.
      assert (outside img r c) as Hout.
      { apply float_pixel_outside; [lia..|]. intros [v' Hv']. congruence. }
      split; [intros [= <-]; auto|]. by intros [-> _]. }
  assert (¬ outside img r c) as Hin.
  { intros Hout. apply float_pixel_outside in Hout; [|lia..]. eauto. }
  destruct (gtb v (Fin (-(3#2))) && ltb v (Fin (3#2))) eqn:E1.
  { apply andb_true_iff in E1 as [E1 E1'].
    split; [done|]. intros [_ [?|[_ Hn]]]; [done|].
    exfalso. apply Hn. by exists v. }
  assert (¬ float_no_signal img r c) as Hsig.
  { intros (v' & Hv' & H1 & H2). assert (v' = v) as -> by congruence.
    by rewrite H1, H2 in E1. }
  pose proof (float_centre3 img r c v ltac:(lia) ltac:(lia) Hv) as Hin3.
  pose proof (float_centre5 img r c v Hr Hc Hv) as Hin5.
  set (w3 := window img (r - 1) (r + 2) (c - 1) (c + 2)) in *.
  set (w5 := window img (r - 2) (r + 3) (c - 2) (c + 3)) in *.
  destruct (np_min_cases w3 v Hin3) as (lo3 & -> & Hlo3).
  destruct (np_max_cases w3 v Hin3) as (hi3 & Hhi3e & Hhi3).
  destruct (np_max_cases w5 v Hin5) as (hi5 & Hhi5e & Hhi5).
  destruct (np_min_cases w5 v Hin5) as (lo5 & Hlo5e & Hlo5).
  assert (abs v ∈ concat (np_abs w3)) as Hina.
  { rewrite concat_float_abs. by apply list_elem_of_fmap_2. }
  destruct (np_max_cases (np_abs w3) (abs v) Hina) as (peak & Hpe & Hpeak).
  cbn [mbind res_bind]. rewrite Hhi3e, Hhi5e, Hlo5e, Hpe.
  destruct Hlo3 as [[Hnan ->]|[Hnn Hlo3]].
  - (* a NaN in the window *)
    assert (hi5 = NaN) as ->.
    { destruct Hhi5 as [[_ ->]|[Hn5 _]]; [done|]. exfalso. apply Hn5.
      by apply float_window_3_5. }
    assert (peak = NaN) as ->.
    { destruct Hpeak as [[_ ->]|[Hn _]]; [done|]. exfalso. apply Hn.
      by apply nan_in_abs. }
    rewrite gtb_nan_l. cbn [mbind res_bind].
    rewrite gtb_nan_l. cbn [mbind res_bind]. rewrite ltb_nan_l.
    rewrite float_where_nan. cbn [mbind res_bind].
    split; [intros [= <-]|intros [-> _]]; [|done].
    split; [done|]. right. by split.
  - (* no NaN in the window *)
    assert (¬ nan_around img r c) as Hfree by done.
    split; [|intros [_ [?|[? _]]]; done]. intros Hraise. exfalso.
    destruct Hpeak as [[Hn _]|[Hn Hpin]]; [by rewrite nan_in_abs in Hn|].
    assert (peak ≠ NaN) as Hpn by (intros ->; done).
    destruct (float_where_total _ _ Hpin Hpn) as [smax Hsmax].
    assert (∃ f, pixel img (r + smax.1 - 1) (c + smax.2 - 1) = Ok f)
      as [f Hf].
    { apply float_where_Ok in Hsmax
        as (i & j & row' & v' & -> & Hrow' & Hv').
      unfold np_abs in Hrow'. rewrite list_lookup_fmap in Hrow'.
      destruct (w3 !! i) as [row|] eqn:Hrow; [|done].
      injection Hrow' as <-. rewrite list_lookup_fmap in Hv'.
      destruct (row !! j) as [v0|] eqn:Hv0; [|done].
      assert (∃ row, w3 !! i = Some row ∧ row !! j = Some v0) as Hw by eauto.
      apply float_window_lookup in Hw as (Hi & Hj & Hpix); [|lia..].
      exists v0. cbn [fst snd].
      by replace (r + Z.of_nat i - 1) with (r - 1 + Z.of_nat i) by lia;
         replace (c + Z.of_nat j - 1) with (c - 1 + Z.of_nat j) by lia. }
    cbn [mbind res_bind] in Hraise.
    repeat match type of Hraise with
    | context [if ?b then _ else _] =>
        destruct b; cbn [mbind res_bind] in Hraise; try done
    end;
    rewrite Hsmax in Hraise; cbn [mbind res_bind fst snd] in Hraise;
    rewrite Hf in Hraise; done.
Qed.

End float_examine.
Section float_cell.
Import Numpy.
Implicit Types (a b : num) (p q : Q).

(** An invariant of the body holds when a loop ends, and the test fails
    there. *)
Lemma float_while_inv (I : num → Prop) test body :
  (∀ a, I a → test a = Ok true → I (body a)) →
  ∀ fuel a b, I a → while fuel test body a = Ok b → I b ∧ test b = Ok false.
Proof.
  intros Hstep. induction fuel as [|fuel IH]; intros a b HI; [done|].
  cbn. destruct (test a) as [[|]|] eqn:Ht; cbn [mbind res_bind].
  - apply IH. by apply Hstep.
  - by intros [= <-].
  - done.
Qed.

Lemma int_Ok a n : int a = Ok n → ∃ q, a = Fin q ∧ n = Detect.int_of q.
Proof. destruct a as [q|s|]; [|done..]. intros [= <-]. eauto. Qed.

Lemma int_test_Ok (test : Z → bool) a t :
  (int a ≫= fun n => Ok (test n)) = Ok t →
  ∃ q, a = Fin q ∧ t = test (Detect.int_of q).
Proof. destruct a as [q|s|]; [|done..]. intros [= <-]. eauto. Qed.

(** A loop of lines 257-260 that ended. *)
Lemma float_up_Ok prec fuel a b :
  while fuel (fun a => n ← int a; Ok (n <? 2))
    (fun a => add prec a (Fin 2)) a = Ok b →
  ∃ q, b = Fin q ∧ 2 ≤ Qfloor q.
Proof.
  intros H.
  apply (float_while_inv (fun _ => True)) in H as [_ Ht]; [|done..].
  apply int_test_Ok in Ht as (q & -> & Ht). exists q. split; [done|].
  symmetry in Ht. rewrite test_low in Ht. by apply Z.ltb_ge in Ht.
Qed.

(** A loop of lines 261-264 that ended. *)
Lemma float_down_Ok prec fuel q b :
  9 ≤ prec → 2 ≤ Qfloor q →
  while fuel (fun a => n ← int a; Ok (n >? 509))
    (fun a => sub prec a (Fin 2)) (Fin q) = Ok b →
  ∃ q', b = Fin q' ∧ 2 ≤ Qfloor q' ≤ 509.
Proof.
  intros Hp Hq H.
  apply (float_while_inv (fun a => ∃ q, a = Fin q ∧ 2 ≤ Qfloor q)) in H
    as [(q' & -> & Hq') Ht]; [| |by eauto].
  - exists q'. split; [done|]. apply int_test_Ok in Ht as (q'' & [= <-] & Ht).
    symmetry in Ht. rewrite test_high, Z.gtb_ltb in Ht.
    apply Z.ltb_ge in Ht. lia.
  - intros a (p & -> & Hp2) Ht.
    apply int_test_Ok in Ht as (p' & [= <-] & Ht).
    symmetry in Ht. rewrite test_high, Z.gtb_ltb in Ht. apply Z.ltb_lt in Ht.
    exists (round prec (p - 2)). split; [done|].
    pose proof (round_down_508 prec p Hp Ht) as H508.
    change 508%Q with (inject_Z 508) in H508.
    apply Qfloor_ge_iff in H508. lia.
Qed.

(** A clamp that ended leaves finite coordinates that truncate to
    integers between 2 and 509. *)
Lemma float_clamp_Ok prec fuel px py qx qy :
  9 ≤ prec → clamp prec fuel px py = Ok (qx, qy) →
  ∃ r c, int qy = Ok r ∧ int qx = Ok c ∧ 2 ≤ r ≤ 509 ∧ 2 ≤ c ≤ 509.
Proof.
  intros Hp. unfold clamp.
  destruct (while fuel _ _ py) as [uy|] eqn:Y1; [cbn [mbind res_bind]|done].
  destruct (while fuel _ _ px) as [ux|] eqn:X1; [cbn [mbind res_bind]|done].
  apply float_up_Ok in Y1 as (y & -> & Hy).
  apply float_up_Ok in X1 as (x & -> & Hx).
  destruct (while fuel _ _ (Fin y)) as [vy|] eqn:Y2;
    [cbn [mbind res_bind]|done].
  destruct (while fuel _ _ (Fin x)) as [vx|] eqn:X2;
    [cbn [mbind res_bind]|done].
  apply float_down_Ok in Y2 as (y' & -> & Hy'); [|done..].
  apply float_down_Ok in X2 as (x' & -> & Hx'); [|done..].
  intros [= <- <-]. exists (Detect.int_of y'), (Detect.int_of x').
  split_and!; try done; rewrite int_of_nonneg by lia; lia.
Qed.

(** A loop of the clamp raises on a NaN and on an infinity; what else it
    can do is not to end. *)
Lemma float_while_raise (test : Z → bool) body fuel : ∀ a e,
  (∀ q, ∃ q', body (Fin q) = Fin q') →
  while fuel (fun a => n ← int a; Ok (test n)) body a = Raise e →
  e = OutOfFuel ∨ (e = ValueError ∧ a = NaN) ∨
  (e = OverflowError ∧ ∃ s, a = Inf s).
Proof.
  intros a e Hbody. revert a. induction fuel as [|fuel IH]; intros a.
  { intros [= <-]. by left. }
  cbn. destruct a as [q|s|]; cbn [int mbind res_bind].
  - destruct (test _); [|done]. destruct (Hbody q) as [q' ->].
    intros [?|[[_ [=]]|[_ [s [=]]]]]%IH. by left.
  - intros [= <-]. right. right. eauto.
  - intros [= <-]. right. left. done.
Qed.

Lemma float_clamp_raise prec fuel px py e :
  clamp prec fuel px py = Raise e →
  e = OutOfFuel ∨ (e = ValueError ∧ (px = NaN ∨ py = NaN)) ∨
  (e = OverflowError ∧ ∃ s, px = Inf s ∨ py = Inf s).
Proof.
  assert (∀ q, ∃ q', add prec (Fin q) (Fin 2) = Fin q') as Hadd by (cbn; eauto).
  assert (∀ q, ∃ q', sub prec (Fin q) (Fin 2) = Fin q') as Hsub by (cbn; eauto).
  unfold clamp.
  destruct (while fuel _ _ py) as [uy|e1] eqn:Y1; cbn [mbind res_bind].
  2:{ intros [= <-].
      eapply float_while_raise in Y1; [|exact Hadd].
      destruct Y1 as [?|[[? ?]|[? [s ?]]]];
        [by left|right; left; auto|right; right; split; [done|eauto]]. }
  destruct (while fuel _ _ px) as [ux|e1] eqn:X1; cbn [mbind res_bind].
  2:{ intros [= <-].
      eapply float_while_raise in X1; [|exact Hadd].
      destruct X1 as [?|[[? ?]|[? [s ?]]]];
        [by left|right; left; auto|right; right; split; [done|eauto]]. }
  apply float_up_Ok in Y1 as (y & -> & Hy).
  apply float_up_Ok in X1 as (x & -> & Hx).
  destruct (while fuel _ _ (Fin y)) as [vy|e1] eqn:Y2; cbn [mbind res_bind].
  2:{ intros [= <-].
      eapply float_while_raise in Y2; [|exact Hsub].
      destruct Y2 as [?|[[_ [=]]|[_ [s [=]]]]]. by left. }
  destruct (while fuel _ _ (Fin x)) as [vx|e1] eqn:X2; cbn [mbind res_bind].
  2:{ intros [= <-].
      eapply float_while_raise in X2; [|exact Hsub].
      destruct X2 as [?|[[_ [=]]|[_ [s [=]]]]]. by left. }
  done.
Qed.

(** What [detect_cell] does with a cell that passes lines 250-253. *)
Lemma float_cell_eq prec fuel threshold grid_size img mx my ch :
  detect_cell prec fuel threshold grid_size img mx my ch =
  if ltb (prob ch) threshold then Ok None
  else if gtb (trash ch) (bright ch) && gtb (trash ch) (dim ch)
  then Ok None
  else
    '(px, py) ← clamp prec fuel
                  (float_predicted prec grid_size mx my ch).1
                  (float_predicted prec grid_size mx my ch).2;
    r ← int py; c ← int px; examine img r c ch.
Proof. done. Qed.

Lemma scored_dec threshold ch :
  scored threshold ch ∨
  ltb (prob ch) threshold = true ∨
  gtb (trash ch) (bright ch) && gtb (trash ch) (dim ch) = true.
Proof.
  unfold scored. destruct (ltb _ _); [auto|].
  destruct (_ && _); auto.
Qed.

(** A cell raises what its clamp raises, or [IndexError] from the frame. *)
Lemma float_cell_raise_iff prec fuel threshold grid_size img mx my ch e :
  9 ≤ prec →
  detect_cell prec fuel threshold grid_size img mx my ch = Raise e ↔
  scored threshold ch ∧
  (clamp prec fuel (float_predicted prec grid_size mx my ch).1
     (float_predicted prec grid_size mx my ch).2 = Raise e ∨
   ∃ qx qy r c,
     clamp prec fuel (float_predicted prec grid_size mx my ch).1
       (float_predicted prec grid_size mx my ch).2 = Ok (qx, qy) ∧
     int qy = Ok r ∧ int qx = Ok c ∧ e = IndexError ∧
     (outside img r c ∨ (nan_around img r c ∧ ¬ float_no_signal img r c))).
Proof.
  intros Hp. rewrite float_cell_eq. unfold scored.
  destruct (ltb (prob ch) threshold); [split; [done|intros [[[=] _] _]]|].
  destruct (_ && _); [split; [done|intros [[_ [=]] _]]|].
  destruct (clamp _ _ _ _) as [[qx qy]|e'] eqn:Hcl; cbn [mbind res_bind].
  - destruct (float_clamp_Ok _ _ _ _ _ _ Hp Hcl)
      as (r & c & Hiy & Hix & Hr & Hc).
    rewrite Hiy, Hix. cbn [mbind res_bind].
    rewrite float_examine_raise by lia. split.
    + intros [-> H]. split; [done|]. right. exists qx, qy, r, c.
      split_and!; done.
    + intros [_ [[=]|(qx' & qy' & r' & c' & [= <- <-] & Hiy' & Hix'
                      & -> & H)]].
      rewrite Hiy in Hiy'. rewrite Hix in Hix'. by simplify_eq.
  - split.
    + intros [= <-]. split; [done|]. by left.
    + intros [_ [[= <-]|(qx' & qy' & r' & c' & [=] & _)]]. done.
Qed.

End float_cell.

Section float_detect.
Import Numpy.

Lemma elem_of_float_cells (g : grid) mx my :
  (mx, my) ∈ cells g ↔
  (mx < length (default [] (head g)) ∧ my < length g)%nat.
Proof.
  unfold cells. rewrite list_elem_of_bind. split.
  - intros (mx' & Hin & Hmx%elem_of_seq).
    apply list_elem_of_bind in Hin as (my' & Hin & Hmy%elem_of_seq).
    apply list_elem_of_singleton in Hin. simplify_eq. lia.
  - intros [Hmx Hmy]. exists mx. split; [|apply elem_of_seq; lia].
    apply list_elem_of_bind. exists my. split; [left|apply elem_of_seq; lia].
Qed.

Lemma index_Ok {A} (l : list A) i x :
  UniqueDetect.index l i = Ok x ↔ l !! i = Some x.
Proof.
  unfold UniqueDetect.index.
  destruct (l !! i); split; intros; by simplify_eq.
Qed.

(** A NaN in a window of a frame is a NaN of the frame. *)
Lemma nan_around_frame img r c :
  1 ≤ r → 1 ≤ c → nan_around img r c → ¬ nan_free img.
Proof.
  intros Hr Hc (i & j & _ & _ & Hv)%elem_of_float_window Hfree; [|lia..].
  apply float_pixel_nonneg in Hv as (row & Hrow & Hv); [|lia..].
  apply Hfree, elem_of_concat. exists row.
  split; by eapply list_elem_of_lookup_2.
Qed.

(** X14. In a format of 9 significant bits at least, one cell makes
    [detect] raise exactly when it passes the tests of lines 250-253 and
    either its clamp raises, or the clamp returns [(r, c)] and the frame
    raises [IndexError] there: [(r, c)] lies outside the frame, or a NaN
    lies in the 3x3 window around it and the pixel at [(r, c)] is not
    strictly between -1.5 and 1.5. The clamp raises [ValueError] only on
    a NaN coordinate and [OverflowError] only on an infinite one; any
    other failure of it is a loop that has not ended. *)
Theorem float_cell_raises prec fuel threshold grid_size img mx my ch e :
  9 ≤ prec →
  (detect_cell prec fuel threshold grid_size img mx my ch = Raise e ↔
   scored threshold ch ∧
   (clamp prec fuel (float_predicted prec grid_size mx my ch).1
      (float_predicted prec grid_size mx my ch).2 = Raise e ∨
    ∃ qx qy r c,
      clamp prec fuel (float_predicted prec grid_size mx my ch).1
        (float_predicted prec grid_size mx my ch).2 = Ok (qx, qy) ∧
      int qy = Ok r ∧ int qx = Ok c ∧ e = IndexError ∧
      (outside img r c ∨
       (nan_around img r c ∧ ¬ float_no_signal img r c)))) ∧
  (clamp prec fuel (float_predicted prec grid_size mx my ch).1
     (float_predicted prec grid_size mx my ch).2 = Raise e →
   e = OutOfFuel ∨
   (e = ValueError ∧
    ((float_predicted prec grid_size mx my ch).1 = NaN ∨
     (float_predicted prec grid_size mx my ch).2 = NaN)) ∨
   (e = OverflowError ∧
    ∃ s, (float_predicted prec grid_size mx my ch).1 = Inf s ∨
         (float_predicted prec grid_size mx my ch).2 = Inf s)).
Proof.
  intros Hp. split; [by apply float_cell_raise_iff|apply float_clamp_raise].
Qed.

(** In single precision: a cell with a NaN offset raises [ValueError],
    one with an infinite offset [OverflowError]; the cell of
    [Examples.peak_image] that is examined at (3, 3) and detected at the
    peak (4, 4) raises [IndexError] once the pixel (2, 2) is a NaN. *)
Lemma float_cell_raises_witness :
  9 ≤ 24 ∧
  detect_cell 24 10 (Fin (4 # 5)) 4 (Floats.frame Examples.peak_image) 0 0
    (Floats.sure_cell NaN (Fin 3)) = Raise ValueError ∧
  detect_cell 24 10 (Fin (4 # 5)) 4 (Floats.frame Examples.peak_image) 0 0
    (Floats.sure_cell (Fin 3) (Inf false)) = Raise OverflowError ∧
  (∃ d, detect_cell 24 10 (Fin (4 # 5)) 4 (Floats.frame Examples.peak_image)
          0 0 (Floats.sure_cell (Fin 3) (Fin 3)) = Ok (Some d) ∧
        Detect.pos d = (4, 4)) ∧
  detect_cell 24 10 (Fin (4 # 5)) 4 Floats.nan_image 0 0
    (Floats.sure_cell (Fin 3) (Fin 3)) = Raise IndexError ∧
  scored (Fin (4 # 5)) (Floats.sure_cell (Fin 3) (Fin 3)) ∧
  (clamp 24 10
     (float_predicted 24 4 0 0 (Floats.sure_cell (Fin 3) (Fin 3))).1
     (float_predicted 24 4 0 0 (Floats.sure_cell (Fin 3) (Fin 3))).2
     = Raise IndexError ∨
   ∃ qx qy r c,
     clamp 24 10
       (float_predicted 24 4 0 0 (Floats.sure_cell (Fin 3) (Fin 3))).1
       (float_predicted 24 4 0 0 (Floats.sure_cell (Fin 3) (Fin 3))).2
       = Ok (qx, qy) ∧
     int qy = Ok r ∧ int qx = Ok c ∧ IndexError = IndexError ∧
     (outside Floats.nan_image r c ∨
      (nan_around Floats.nan_image r c ∧
       ¬ float_no_signal Floats.nan_image r c))).
Proof.
  split; [lia|]. split; [vm_compute; reflexivity|].
  split; [vm_compute; reflexivity|].
  split; [eexists; split; vm_compute; reflexivity|].
  split; [vm_compute; reflexivity|].
  apply (float_cell_raises 24 10 (Fin (4 # 5)) 4 Floats.nan_image 0 0
           (Floats.sure_cell (Fin 3) (Fin 3)) IndexError); [lia|].
  vm_compute. reflexivity.
Defined.

(** Where an exception of [detect] other than [IndexError] comes from. *)
Lemma float_frame_raise prec fuel threshold grid_size flux y st a e :
  9 ≤ prec →
  detect_frame prec fuel threshold grid_size flux y st a = Raise e →
  e = IndexError ∨
  ∃ g my row mx ch,
    y !! a = Some g ∧ g !! my = Some row ∧ row !! mx = Some ch ∧
    scored threshold ch ∧
    clamp prec fuel (float_predicted prec grid_size mx my ch).1
      (float_predicted prec grid_size mx my ch).2 = Raise e.
Proof.
  intros Hp. unfold detect_frame.
  destruct (UniqueDetect.index y a) as [g|e1] eqn:Hg; cbn [mbind res_bind];
    [|intros [= <-]; left; by eapply index_raise].
  destruct (UniqueDetect.index flux a) as [img|e1] eqn:Hi;
    cbn [mbind res_bind]; [|intros [= <-]; left; by eapply index_raise].
  apply index_Ok in Hg.
  destruct (foldl_res _ (st, ([], 0)) (cells g)) as [s|e1] eqn:E; [done|].
  cbn [mbind res_bind]. intros [= <-]. revert E.
  apply (foldl_res_raise _ (fun e =>
    e = IndexError ∨
    ∃ g' my row mx ch,
      y !! a = Some g' ∧ g' !! my = Some row ∧ row !! mx = Some ch ∧
      scored threshold ch ∧
      clamp prec fuel (float_predicted prec grid_size mx my ch).1
        (float_predicted prec grid_size mx my ch).2 = Raise e)).
  intros s [mx my] e _. cbn [fst snd]. unfold cell_at.
  destruct (UniqueDetect.index g my) as [row|e2] eqn:Hrow;
    cbn [mbind res_bind]; [|intros [= <-]; left; by eapply index_raise].
  destruct (UniqueDetect.index row mx) as [ch|e2] eqn:Hch;
    cbn [mbind res_bind]; [|intros [= <-]; left; by eapply index_raise].
  apply index_Ok in Hrow, Hch.
  destruct (detect_cell _ _ _ _ _ _ _ _) as [d|e2] eqn:Hd; [done|].
  cbn [mbind res_bind]. intros [= <-].
  apply float_cell_raise_iff in Hd as [Hs [Hcl|(_ & _ & _ & _ & _ & _ & _ & -> & _)]];
    [|by left|done].
  right. by exists g, my, row, mx, ch.
Qed.

(** X15. In a format of 9 significant bits at least, [detect] raises
    nothing but [IndexError], unless the clamp of a cell of [y] that
    passes lines 250-253 fails: with [ValueError] on a NaN coordinate,
    with [OverflowError] on an infinite one, or else by a loop that has
    not ended. No dictionary lookup fails and no minimum or maximum is
    taken of an empty window. *)
Theorem float_detect_raises prec fuel threshold grid_size flux y e :
  9 ≤ prec →
  detect prec fuel threshold grid_size flux y = Raise e →
  e = IndexError ∨
  ∃ a g my row mx ch,
    y !! a = Some g ∧ g !! my = Some row ∧ row !! mx = Some ch ∧
    scored threshold ch ∧
    clamp prec fuel (float_predicted prec grid_size mx my ch).1
      (float_predicted prec grid_size mx my ch).2 = Raise e ∧
    (e = OutOfFuel ∨
     (e = ValueError ∧
      ((float_predicted prec grid_size mx my ch).1 = NaN ∨
       (float_predicted prec grid_size mx my ch).2 = NaN)) ∨
     (e = OverflowError ∧
      ∃ s, (float_predicted prec grid_size mx my ch).1 = Inf s ∨
           (float_predicted prec grid_size mx my ch).2 = Inf s)).
Proof.
  intros Hp. unfold detect.
  destruct (foldl_res _ Detect.start _) as [st|e0] eqn:E; [done|].
  cbn [mbind res_bind]. intros [= <-]. revert E.
  apply (foldl_res_raise _ (fun e =>
    e = IndexError ∨
    ∃ a g my row mx ch,
      y !! a = Some g ∧ g !! my = Some row ∧ row !! mx = Some ch ∧
      scored threshold ch ∧
      clamp prec fuel (float_predicted prec grid_size mx my ch).1
        (float_predicted prec grid_size mx my ch).2 = Raise e ∧
      (e = OutOfFuel ∨
       (e = ValueError ∧
        ((float_predicted prec grid_size mx my ch).1 = NaN ∨
         (float_predicted prec grid_size mx my ch).2 = NaN)) ∨
       (e = OverflowError ∧
        ∃ s, (float_predicted prec grid_size mx my ch).1 = Inf s ∨
             (float_predicted prec grid_size mx my ch).2 = Inf s)))).
  intros st a e _ [?|(g & my & row & mx & ch & Hg & Hrow & Hch & Hs & Hcl)]
    %float_frame_raise; [by left|..|done].
  right. exists a, g, my, row, mx, ch. split_and!; try done.
  by eapply float_clamp_raise.
Qed.

(** In double precision, one 8x8 frame under a grid whose only cell has
    the offset [10^17] in [y]: [detect] has not returned after 1000
    turns of a loop. *)
Lemma float_detect_raises_witness :
  9 ≤ 53 ∧
  detect 53 1000 (Fin (4 # 5)) 4 [Floats.frame Examples.peak_image]
    [[[Floats.sure_cell (Fin 3) (Fin 100000000000000000)]]]
    = Raise OutOfFuel ∧
  (OutOfFuel = IndexError ∨
   ∃ a g my row mx ch,
     [[[Floats.sure_cell (Fin 3) (Fin 100000000000000000)]]] !! a = Some g ∧
     g !! my = Some row ∧ row !! mx = Some ch ∧
     scored (Fin (4 # 5)) ch ∧
     clamp 53 1000 (float_predicted 53 4 mx my ch).1
       (float_predicted 53 4 mx my ch).2 = Raise OutOfFuel ∧
     (OutOfFuel = OutOfFuel ∨
      (OutOfFuel = ValueError ∧
       ((float_predicted 53 4 mx my ch).1 = NaN ∨
        (float_predicted 53 4 mx my ch).2 = NaN)) ∨
      (OutOfFuel = OverflowError ∧
       ∃ s, (float_predicted 53 4 mx my ch).1 = Inf s ∨
            (float_predicted 53 4 mx my ch).2 = Inf s))).
Proof.
  split; [lia|]. split; [vm_compute; reflexivity|].
  apply (float_detect_raises 53 1000 (Fin (4 # 5)) 4
           [Floats.frame Examples.peak_image]
           [[[Floats.sure_cell (Fin 3) (Fin 100000000000000000)]]]);
    [lia|vm_compute; reflexivity].
Defined.

(** X16. In a format of 9 significant bits at least, [detect] returns
    whenever [y] has a grid for every frame, no row of which is shorter
    than its first, every frame has at least 510 rows of at least 510
    pixels and no NaN among them, and every cell that passes lines
    250-253 has finite coordinates of magnitude up to [2^prec], which
    [fuel] turns cover. *)
Theorem float_detect_returns prec fuel threshold grid_size flux y :
  9 ≤ prec →
  (length flux ≤ length y)%nat →
  (∀ g row, g ∈ y → row ∈ g →
     (length (default [] (head g)) ≤ length row)%nat) →
  (∀ img, img ∈ flux →
     (510 ≤ length img)%nat ∧
     (∀ row, row ∈ img → (510 ≤ length row)%nat) ∧ nan_free img) →
  (∀ g my row mx ch,
     g ∈ y → g !! my = Some row → row !! mx = Some ch →
     scored threshold ch → tame prec fuel grid_size mx my ch) →
  ∃ st, detect prec fuel threshold grid_size flux y = Ok st.
Proof.
  intros Hp Hlen Hrect Hbig Htame. unfold detect.
  destruct (foldl_res_total
              (detect_frame prec fuel threshold grid_size flux y)
              (fun _ _ => True) Detect.start (seq 0 (length flux)))
    as (st & -> & _); [done| |by eexists].
  intros seen a rest st Hseq _.
  assert (a ∈ seq 0 (length flux)) as Ha%elem_of_seq.
  { rewrite Hseq. apply elem_of_app. right. left. }
  destruct (lookup_lt_is_Some_2 y a ltac:(lia)) as [g Hg].
  destruct (lookup_lt_is_Some_2 flux a ltac:(lia)) as [img Himg].
  unfold detect_frame, UniqueDetect.index. rewrite Hg, Himg.
  cbn [mbind res_bind].
  match goal with
  | |- context [foldl_res ?f (st, ([], 0)) (cells g)] =>
      destruct (foldl_res_total f (fun _ _ => True) (st, ([], 0)) (cells g))
        as (s & -> & _); [done| |by eexists]
  end.
  intros seen' [mx my] rest' s Hcells _. cbn [fst snd].
  assert ((mx, my) ∈ cells g) as [Hmx Hmy]%elem_of_float_cells.
  { rewrite Hcells. apply elem_of_app. right. left. }
  destruct (lookup_lt_is_Some_2 g my Hmy) as [row Hrow].
  assert (mx < length row)%nat as Hmx'.
  { eapply Nat.lt_le_trans; [done|].
    apply (Hrect g row); by eapply list_elem_of_lookup_2. }
  destruct (lookup_lt_is_Some_2 row mx Hmx') as [ch Hch].
  unfold cell_at, UniqueDetect.index. rewrite Hrow. cbn [mbind res_bind].
  rewrite Hch. cbn [mbind res_bind].
  destruct (detect_cell prec fuel threshold grid_size img mx my ch)
    as [d|e] eqn:Hd; [by eexists|]. exfalso.
  apply float_cell_raise_iff in Hd as [Hs Hd]; [|done].
  destruct (Htame g my row mx ch) as (px & py & Hxy & Hx & Hy & Hfuel);
    [by eapply list_elem_of_lookup_2|done..|].
  rewrite Hxy in Hd. cbn [fst snd] in Hd.
  destruct (float_clamp_ends prec fuel px py Hp Hx Hy Hfuel)
    as (qx & qy & Hq & _).
  rewrite Hq in Hd.
  destruct Hd as [[=]|(qx' & qy' & r & c & [= <- <-] & Hr & Hc & _ & Hd)].
  pose proof (float_clamp_Ok _ _ _ _ _ _ Hp Hq)
    as (r' & c' & Hr' & Hc' & Hr2 & Hc2).
  rewrite Hr in Hr'. rewrite Hc in Hc'. simplify_eq.
  destruct (Hbig img) as (Hrows & Hcols & Hfree);
    [by eapply list_elem_of_lookup_2|].
  destruct Hd as [[Hout|(row' & Hrow' & Hout)]|[Hnan _]].
  - lia.
  - specialize (Hcols row' ltac:(by eapply list_elem_of_lookup_2)). lia.
  - by eapply nan_around_frame; [| |exact Hnan|]; [lia..|].
Qed.

(** In single precision: one frame of 510x510 zeros under a grid of one
    confident cell. *)
Lemma float_detect_returns_witness :
  9 ≤ 24 ∧
  (length [replicate 510 (replicate 510 (Fin 0))]
     ≤ length [[[Floats.sure_cell (Fin 0) (Fin 0)]]])%nat ∧
  tame 24 10 4 0 0 (Floats.sure_cell (Fin 0) (Fin 0)) ∧
  ∃ st, detect 24 10 (Fin (4 # 5)) 4 [replicate 510 (replicate 510 (Fin 0))]
          [[[Floats.sure_cell (Fin 0) (Fin 0)]]] = Ok st.
Proof.
  assert (tame 24 10 4 0 0 (Floats.sure_cell (Fin 0) (Fin 0))) as Ht.
  { exists 0%Q, 0%Q. split; [vm_compute; reflexivity|].
    split; [by vm_compute|]. split; [by vm_compute|]. vm_compute. lia. }
  split; [lia|]. split; [cbn; lia|]. split; [exact Ht|].
  apply (float_detect_returns 24 10 (Fin (4 # 5)) 4
           [replicate 510 (replicate 510 (Fin 0))]
           [[[Floats.sure_cell (Fin 0) (Fin 0)]]]).
  - lia.
  - cbn. lia.
  - intros g row Hg Hrow.
    apply list_elem_of_singleton in Hg as ->.
    apply list_elem_of_singleton in Hrow as ->. cbn. lia.
  - intros img Himg. apply list_elem_of_singleton in Himg as ->.
    rewrite length_replicate. split; [lia|]. split.
    + intros row Hrow. apply elem_of_replicate in Hrow as [-> _].
      rewrite length_replicate. lia.
    + intros (row & Hrow & Hin)%elem_of_concat.
      apply elem_of_replicate in Hrow as [-> _].
      by apply elem_of_replicate in Hin as [[=] _].
  - intros g my row mx ch Hg Hrow Hch _.
    apply list_elem_of_singleton in Hg as ->.
    destruct my as [|my]; [|done]. injection Hrow as <-.
    destruct mx as [|mx]; [|done]. injection Hch as <-. exact Ht.
Defined.

End float_detect.

